(** * HotSpot trace-level driver (hotspot.c): checkpoint store and driver loop

    A shallow embedding of [src/hotspot.c] with the declarations of
    [src/util.h] it relies on.

    Conventions of the embedding.
    - [int] and [unsigned int] are 32 bits wide and [size_t] 64 bits; a value of
      such a type is a [Z] and every conversion is written out ([to_int],
      [to_uint], [to_size_t]).  The host is little-endian (the checkpoint is
      read back through [int*] and [double*] views of a mapping).
    - A [double] is its IEEE-754 binary64 bit pattern: the driver only moves,
      stores and prints doubles; the arithmetic it performs on them and the
      thermal solver are collaborators ([Extern]).
    - Files written with [fwrite] or mapped with [mmap] are byte lists in a
      finite map from file names; a [MAP_SHARED] mapping aliases the file it
      maps.  Text written to the trace files is kept as the sequence of
      [fprintf] pieces in the event log.
    - A line of the power trace is the list of its white-space separated
      fields: every line read ends with its newline, is shorter than
      [LINE_SIZE] and starts with its first field, and a name fits
      [STR_SIZE] (the chopping loops of [read_names] and [read_vals] advance
      by the length of the token read).  [Text.read_names] and
      [Text.read_vals] are the two functions on the characters of the file,
      and [Text.main] is the driver on them; on such lines, which a last line
      without its newline may follow (it is never read), they are proved to
      agree with the field lists.
    - The set-up logs the calls of its collaborators: [package_model] when
      the package model is used, and [dump_str_pairs] with the table dumped
      when [-d] is given.
    - Informational [printf] output on stdout is not modelled, and messages
      are kept without their trailing newline. *)

From Stdlib Require Import ZArith Lia String Ascii List Bool.
From stdpp Require Import base option gmap strings list.

Local Open Scope Z_scope.

(** ** Machine integers and bytes *)

Definition to_uint (z : Z) : Z := z mod 2 ^ 32.
Definition to_int (z : Z) : Z := (z + 2 ^ 31) mod 2 ^ 32 - 2 ^ 31.
Definition to_size_t (z : Z) : Z := z mod 2 ^ 64.

(** [strtol]: a value outside the range of [long] gives [LONG_MIN] or
    [LONG_MAX]. *)
Definition to_long (z : Z) : Z := Z.max (- 2 ^ 63) (Z.min z (2 ^ 63 - 1)).

(** C truth value of an [int]. *)
Definition truthy (z : Z) : bool := negb (z =? 0).

Fixpoint le_bytes (n : nat) (z : Z) : list Z :=
  match n with
  | O => []
  | S n' => z mod 256 :: le_bytes n' (z / 256)
  end.

Fixpoint le_value (bs : list Z) : Z :=
  match bs with
  | [] => 0
  | b :: bs' => b + 256 * le_value bs'
  end.

(** A [double], as its bit pattern. *)
Abbreviation double := Z (only parsing).

Definition enc_int (z : Z) : list Z := le_bytes 4 (to_uint z).
Definition dec_int (bs : list Z) : Z := to_int (le_value bs).
Definition enc_double (d : double) : list Z := le_bytes 8 (d mod 2 ^ 64).
Definition dec_double (bs : list Z) : double := le_value bs.

Definition enc_doubles (ds : list double) : list Z := concat (map enc_double ds).

Fixpoint dec_doubles (n : nat) (bs : list Z) : list double :=
  match n with
  | O => []
  | S n' => dec_double (take 8 bs) :: dec_doubles n' (drop 8 bs)
  end.

(** [header[k]] of an [int*] view of a mapping.  The first 24 bytes lie in the
    first page of any non-empty mapping; bytes of that page past the end of the
    file read as zero. *)
Definition header_int (bytes : list Z) (k : nat) : Z :=
  dec_int (resize 4 0 (drop (4 * k) bytes)).

(** Overwrite [bytes] from byte offset [off] with [new]. *)
Definition splice (off : nat) (new : list Z) (bytes : list Z) : list Z :=
  take off bytes ++ new ++ drop (off + length new) bytes.

(** ** Constants of util.h *)

Definition NULLFILE : string := "(null)".
Definition MAGIC_MMAP_FILE : Z := 0x48504D44.
Definition TRANS_TEMP_FILE : string := "last_trans_temp_mmap.bin".
Definition STR_SIZE : Z := 512.
Definition MAX_ENTRIES : Z := 512.
(** [char volt_vector[385]] and [unsigned int volt[128]]. *)
Definition VOLT_VECTOR_SIZE : Z := 385.
Definition VOLT_SIZE : Z := 128.

(** ** Process state, events and the driver monad *)

Inductive file_id := TOUT | POUT.

(** The pieces [fprintf] writes to a trace file: a ["%s"] string, a ["%.2f"]
    double, a tab, a newline. *)
Inductive text :=
| Str (s : string)
| F2 (v : double)
| Tab
| Newline.

Inductive call :=
| c_populate_R_model
| c_populate_C_model
| c_read_temp (file : string) (clip : bool)
| c_set_temp (v : double)
| c_package_model
| c_compute_temp (power : list double) (first_invocation : bool)
| c_dump_transient_temp_grid (file : string)
| c_steady_state_temp (power : list double)
| c_dump_temp (file : string)
| c_dump_str_pairs (table : list (string * string)) (file prefix : string).

Inductive event :=
| Stderr (msg : string)
| Fprint (f : file_id) (line : list text)
| Mmap (file : string) (size : Z)
| Munmap
| Msync (ok : bool)
| Unlink (file : string)
| Call (c : call).

(** Outcomes of the system calls whose failure the driver tests. *)
Record io_t := {
  open_ok : bool;
  mmap_ok : bool;
  msync_ok : bool;
  fopen_wb_ok : bool;
  fopen_tout_ok : bool;
  fopen_pout_ok : bool;
  unlink_ok : bool
}.

Record state := {
  trace_num : Z;            (* extern unsigned int trace_num *)
  volt_vector : string;     (* extern char volt_vector[385], up to its NUL *)
  volt : list Z;            (* extern unsigned int volt[128] *)
  fs : gmap string (list Z);
  mapping : option (string * Z);
  io : io_t;
  log : list event
}.

Definition set_trace_num (v : Z) (s : state) : state :=
  {| trace_num := v; volt_vector := volt_vector s; volt := volt s; fs := fs s;
     mapping := mapping s; io := io s; log := log s |}.
Definition set_volt_vector (v : string) (s : state) : state :=
  {| trace_num := trace_num s; volt_vector := v; volt := volt s; fs := fs s;
     mapping := mapping s; io := io s; log := log s |}.
Definition set_volt (v : list Z) (s : state) : state :=
  {| trace_num := trace_num s; volt_vector := volt_vector s; volt := v; fs := fs s;
     mapping := mapping s; io := io s; log := log s |}.
Definition set_fs (v : gmap string (list Z)) (s : state) : state :=
  {| trace_num := trace_num s; volt_vector := volt_vector s; volt := volt s; fs := v;
     mapping := mapping s; io := io s; log := log s |}.
Definition set_mapping (v : option (string * Z)) (s : state) : state :=
  {| trace_num := trace_num s; volt_vector := volt_vector s; volt := volt s; fs := fs s;
     mapping := v; io := io s; log := log s |}.
Definition emit (e : event) (s : state) : state :=
  {| trace_num := trace_num s; volt_vector := volt_vector s; volt := volt s; fs := fs s;
     mapping := mapping s; io := io s; log := log s ++ [e] |}.

(** A computation returns, leaves through [exit] (also inside [fatal]), or
    does something C leaves undefined (an access outside an object, a null
    dereference). *)
Inductive result (A : Type) : Type :=
| Ret (a : A) (s : state)
| Exit (code : Z) (s : state)
| Undef (what : string) (s : state).
Arguments Ret {A} a s.
Arguments Exit {A} code s.
Arguments Undef {A} what s.

Definition M (A : Type) : Type := state -> result A.

Definition ret {A} (a : A) : M A := fun s => Ret a s.
Definition bind {A B} (c : M A) (k : A -> M B) : M B :=
  fun s =>
    match c s with
    | Ret a s' => k a s'
    | Exit code s' => Exit code s'
    | Undef w s' => Undef w s'
    end.

Declare Scope drv_scope.
Delimit Scope drv_scope with drv.
Notation "x <- c ;; k" := (bind c (fun x => k))
  (at level 100, c at next level, right associativity) : drv_scope.
Notation "c ;;; k" := (bind c (fun _ => k))
  (at level 100, right associativity) : drv_scope.
Local Open Scope drv_scope.

Definition get {A} (f : state -> A) : M A := fun s => Ret (f s) s.
Definition modify (f : state -> state) : M unit := fun s => Ret tt (f s).
Definition tell (e : event) : M unit := modify (emit e).
Definition exit {A} (code : Z) : M A := fun s => Exit code s.
Definition undefined {A} (what : string) : M A := fun s => Undef what s.
Definition when (b : bool) (c : M unit) : M unit := if b then c else ret tt.

(** Modelled from the spec: [fatal] of util.c, which is not among the sources:
    "all fatals print Error: <message> to stderr and exit non-zero". *)
Definition fatal {A} (msg : string) : M A := tell (Stderr msg) ;;; exit 1.

(** [perror(tag)]. *)
Definition perror (tag : string) : M unit := tell (Stderr tag).

(** The final state of a run, whatever its outcome. *)
Definition final {A} (r : result A) : state :=
  match r with Ret _ s | Exit _ s | Undef _ s => s end.

Definition exited {A} (r : result A) : Prop :=
  match r with Exit code _ => code <> 0 | _ => False end.

Fixpoint for_each {A} (l : list A) (body : A -> M unit) : M unit :=
  match l with
  | [] => ret tt
  | x :: l' => body x ;;; for_each l' body
  end.

(** [for (i = 0; i < n; i++)] over an [int] bound. *)
Definition upto (n : Z) : list Z := seqZ 0 n.

(** ** The thermal model, as far as the driver reaches into it

    The declarations are those of flp.h, temperature.h and temperature_grid.h,
    which are not among the sources; only the fields hotspot.c touches are
    kept. *)

(** A [double*]: an array on the heap, or a view into the mapped checkpoint
    given by its byte offset from the base of the mapping. *)
Inductive dptr :=
| Heap (a : list double)
| View (off : Z).

Record flp_t := { units : list string }.
Definition n_units (f : flp_t) : Z := Z.of_nat (length (units f)).

Record layer_t := { has_power : Z; flp : flp_t }.

Record grid_model_vector_t := { cuboid : list (list dptr); extra : dptr }.

Record thermal_config_t := {
  init_file : string;
  dtm_used : Z;
  init_temp : double;
  leakage_used : Z;
  model_secondary : Z;
  package_model_used : Z;
  grid_layer_file : string;
  steady_file : string;
  grid_steady_file : string;
  grid_transient_file : string
}.

Record grid_model_t := {
  n_layers : Z;
  rows : Z;
  cols : Z;
  total_n_blocks : Z;
  layers : list layer_t;
  has_lcf : Z;
  config : thermal_config_t;
  last_trans : grid_model_vector_t;
  last_temp : dptr
}.

Definition set_views (v : grid_model_vector_t) (t : dptr) (m : grid_model_t) : grid_model_t :=
  {| n_layers := n_layers m; rows := rows m; cols := cols m;
     total_n_blocks := total_n_blocks m; layers := layers m; has_lcf := has_lcf m;
     config := config m; last_trans := v; last_temp := t |}.

Definition set_config (c : thermal_config_t) (m : grid_model_t) : grid_model_t :=
  {| n_layers := n_layers m; rows := rows m; cols := cols m;
     total_n_blocks := total_n_blocks m; layers := layers m; has_lcf := has_lcf m;
     config := c; last_trans := last_trans m; last_temp := last_temp m |}.

(** ** Memory access through a [double*] *)

Definition mapped_bytes (s : state) : option (list Z) :=
  match mapping s with
  | Some (f, _) => fs s !! f
  | None => None
  end.

(** Read [n] doubles starting at [p]. *)
Definition load_doubles (p : dptr) (n : Z) : M (list double) :=
  fun s =>
    match p with
    | Heap a =>
        if (0 <=? n) && (n <=? Z.of_nat (length a))
        then Ret (take (Z.to_nat n) a) s
        else Undef "read outside a heap array" s
    | View off =>
        match mapped_bytes s with
        | Some bytes =>
            if (0 <=? n) && (0 <=? off) && (off + 8 * n <=? Z.of_nat (length bytes))
            then Ret (dec_doubles (Z.to_nat n) (drop (Z.to_nat off) bytes)) s
            else Undef "read outside the mapping" s
        | None => Undef "read through an unmapped view" s
        end
    end.

(** ** Checkpoint store (hotspot.c, lines 94-200) *)

Definition c_open (filename : string) : M (option (list Z)) :=
  fun s => Ret (if open_ok (io s) then fs s !! filename else None) s.

Definition munmap : M unit :=
  modify (set_mapping None) ;;; tell Munmap.

(** [offset = ((size_t)l * rows + r) * cols]. *)
Definition row_offset (rows cols l r : Z) : Z :=
  to_size_t (to_size_t (to_size_t (to_size_t l * to_size_t rows) + to_size_t r)
             * to_size_t cols).

(** [(size_t)layers * rows * cols]. *)
Definition cuboid_size (layers rows cols : Z) : Z :=
  to_size_t (to_size_t (to_size_t layers * to_size_t rows) * to_size_t cols).

Definition load_last_trans_temp_mmap (model : grid_model_t) (filename : string)
  : M (grid_model_t * option string * Z) :=
  fd <- c_open filename ;;
  match fd with
  | None => perror "open" ;;; exit 1
  | Some bytes =>
      let fsize := Z.of_nat (length bytes) in
      ok <- get (fun s => mmap_ok (io s) && (0 <? fsize)) ;;
      if negb ok then fatal "mmap failed" else
      modify (set_mapping (Some (filename, fsize))) ;;;
      tell (Mmap filename fsize) ;;;
      tn <- get trace_num ;;
      let header := header_int bytes in
      if negb (header 0%nat =? MAGIC_MMAP_FILE)
         || negb (to_uint (header 1%nat) =? to_uint (tn - 1))
      then munmap ;;; fatal "Invalid file header"
      else
        let layers := header 2%nat in
        let rows' := header 3%nat in
        let cols' := header 4%nat in
        let num_extra := header 5%nat in
        if negb (layers =? n_layers model) || negb (rows' =? rows model)
           || negb (cols' =? cols model)
        then tell (Stderr "Grid mismatch") ;;; munmap ;;; exit 1
        else
          let cuboid_flat := 24 in
          let extra_flat := cuboid_flat + 8 * cuboid_size layers rows' cols' in
          let last_temp_flat := extra_flat + 8 * num_extra in
          let v :=
            {| cuboid :=
                 map (fun l => map (fun r => View (cuboid_flat + 8 * row_offset rows' cols' l r))
                                   (upto rows'))
                     (upto layers);
               extra := View extra_flat |} in
          ret (set_views v (View last_temp_flat) model, Some filename, fsize)
  end.

(** [fwrite] on a stream opened on [filename]: the bytes are appended. *)
Definition fwrite (filename : string) (bytes : list Z) : M unit :=
  modify (fun s => set_fs (<[filename := default [] (fs s !! filename) ++ bytes]> (fs s)) s).

Definition flush_updated_last_trans_temp (mapped_region : option string) (mapped_size : Z)
  : M unit :=
  match mapped_region with
  | None => undefined "store through a null pointer"
  | Some f =>
      tn <- get trace_num ;;
      modify (fun s =>
                match fs s !! f with
                | Some bytes =>
                    (* header[1] = trace_num: of the four bytes stored in
                       the first page, those past the end of the file are
                       not written back *)
                    if (8 <=? length bytes)%nat
                    then set_fs (<[f := splice 4 (enc_int tn) bytes]> (fs s)) s
                    else set_fs (<[f := take (length bytes)
                                           (splice 4 (enc_int tn)
                                              (bytes ++ replicate (8 - length bytes) 0))]>
                                   (fs s)) s
                | None => s
                end) ;;;
      ok <- get (fun s => msync_ok (io s)) ;;
      tell (Msync ok) ;;;
      if negb ok then perror "msync" else ret tt
  end.

Definition unload_last_trans_temp (mapped_region : option string) (mapped_size : Z) : M unit :=
  munmap.

(** ** Collaborators

    What hotspot.c takes from the rest of the simulator (temperature.c,
    package.c, flp.h, temperature.h) and from libc's floating-point scanning
    and arithmetic.  [circuit] stands for the part of [RC_model_t] the driver
    never looks into (the R and C matrices, the package state). *)

Record temps := {
  t_cuboid : list (list (list double));
  t_extra : list double;
  t_last : list double
}.

Inductive model_type := BLOCK_MODEL | GRID_MODEL | UNKNOWN_MODEL.

Record Extern := {
  EXTRA : Z;
  EXTRA_SEC : Z;
  MAX_UNITS : Z;
  circuit : Type;
  hotspot_vector : model_type -> grid_model_t -> list double;
  populate_R_model : circuit -> circuit;
  populate_C_model : circuit -> circuit;
  (* [None]: the collaborator itself ends the process with [fatal] *)
  read_temp : string -> bool -> list double -> option (list double);
  set_temp : double -> list double -> list double;
  calc_sink_temp : circuit -> list double -> double;
  package_model : circuit -> double -> circuit * Z;
  compute_temp : circuit -> thermal_config_t -> temps -> list double -> bool -> list double
                 -> circuit * temps * list double;
  scan_lf : string -> option double;      (* sscanf(s, "%lf", &d) *)
  dadd : double -> double -> double;      (* x + y *)
  ddiv_int : double -> Z -> double        (* x / (double) n *)
}.

Section Checkpoint_save.
Context (X : Extern).

Definition save_last_trans_temp_mmap (m : grid_model_t) (filename : string) (num_extra : Z)
  : M unit :=
  ok <- get (fun s => fopen_wb_ok (io s)) ;;
  if negb ok then perror "fopen" ;;; exit 1 else
  (* "wb": the file is created, or truncated to length zero *)
  modify (fun s => set_fs (<[filename := []]> (fs s)) s) ;;;
  tn <- get trace_num ;;
  let header := [MAGIC_MMAP_FILE; to_int tn; n_layers m; rows m; cols m; num_extra] in
  fwrite filename (concat (map enc_int header)) ;;;
  for_each (upto (n_layers m)) (fun l =>
    for_each (upto (rows m)) (fun r =>
      match cuboid (last_trans m) !! Z.to_nat l ≫= (.!! Z.to_nat r) with
      | Some p => ds <- load_doubles p (cols m) ;; fwrite filename (enc_doubles ds)
      | None => undefined "cuboid[l][r] outside the cuboid"
      end)) ;;;
  ds <- load_doubles (extra (last_trans m)) num_extra ;;
  fwrite filename (enc_doubles ds) ;;;
  let total_nodes :=
    if truthy (model_secondary (config m))
    then total_n_blocks m + EXTRA X + EXTRA_SEC X
    else total_n_blocks m + EXTRA X in
  ds <- load_doubles (last_temp m) total_nodes ;;
  fwrite filename (enc_doubles ds).

End Checkpoint_save.

(** ** Option table and global configuration (hotspot.c, lines 206-312) *)

(** libc: [isspace] in the C locale. *)
Definition isspace (c : ascii) : bool :=
  let n := nat_of_ascii c in
  ((9 <=? n) && (n <=? 13) || (n =? 32))%nat.

Fixpoint skip_space (l : list ascii) : list ascii :=
  match l with
  | c :: l' => if isspace c then skip_space l' else l
  | [] => []
  end.

Fixpoint take_word (l : list ascii) : list ascii :=
  match l with
  | c :: l' => if isspace c then [] else c :: take_word l'
  | [] => []
  end.

(** libc: [sscanf(v, "%s", buf) == 1] and the word stored. *)
Definition scan_s (v : string) : option string :=
  match take_word (skip_space (list_ascii_of_string v)) with
  | [] => None
  | w => Some (string_of_list_ascii w)
  end.

Definition digit_of (c : ascii) : option Z :=
  let n := nat_of_ascii c in
  if ((48 <=? n) && (n <=? 57))%nat then Some (Z.of_nat n - 48) else None.

Fixpoint scan_digits (l : list ascii) (acc : option Z) : option Z :=
  match l with
  | c :: l' =>
      match digit_of c with
      | Some d => scan_digits l' (Some (10 * default 0 acc + d))
      | None => acc
      end
  | [] => acc
  end.

(** libc: [sscanf(v, "%d", &i) == 1] and the [int] stored.  The digits are
    converted as by [strtol], whose result stays within [long]; what is
    stored is that [long] converted to [int]. *)
Definition scan_d (v : string) : option Z :=
  match skip_space (list_ascii_of_string v) with
  | "-"%char :: l => (fun z => to_int (to_long (- z))) <$> scan_digits l None
  | "+"%char :: l => (fun z => to_int (to_long z)) <$> scan_digits l None
  | l => (fun z => to_int (to_long z)) <$> scan_digits l None
  end.

(** Modelled from the spec: [get_str_index] of util.c ("table lookup for a
    name") followed by the use of [table[idx].value]: the value of the first
    entry with that name. *)
Definition table_value (table : list (string * string)) (name : string) : option string :=
  snd <$> List.find (fun p => String.eqb (fst p) name) table.

Record global_config_t := {
  flp_file : string;
  p_infile : string;
  pTot_outfile : string;
  t_outfile : string;
  config_file : string;
  dump_config : string;
  detailed_3D : string;
  use_microchannels : Z;
  materials_file : string
}.

(** An optional [%s] parameter with a default. *)
Definition str_param (table : list (string * string)) (name msg dflt : string) : M string :=
  match table_value table name with
  | Some v =>
      match scan_s v with
      | Some w => ret w
      | None => fatal msg
      end
  | None => ret dflt
  end.

Section Global_config.
Context (X : Extern).

(** The five [TxRx_*] parameters: scanned with ["%lf"] into globals the driver
    does not read again. *)
Definition txrx_param (table : list (string * string)) (name msg : string) : M unit :=
  match table_value table name with
  | Some v => match scan_lf X v with Some _ => ret tt | None => fatal msg end
  | None => ret tt
  end.

Definition global_config_from_strs (table : list (string * string)) : M global_config_t :=
  f <- str_param table "f" "invalid format for configuration  parameter flp_file" NULLFILE ;;
  p <- match table_value table "p" with
       | Some v =>
           match scan_s v with
           | Some w => ret w
           | None => fatal "invalid format for configuration  parameter p_infile"
           end
       | None => fatal "required parameter p_infile missing. check usage"
       end ;;
  pTot <- str_param table "pTot" "invalid format for configuration  parameter pTot_outfile"
            NULLFILE ;;
  o <- str_param table "o" "invalid format for configuration  parameter t_outfile" NULLFILE ;;
  c <- str_param table "c" "invalid format for configuration  parameter config" NULLFILE ;;
  d <- str_param table "d" "invalid format for configuration  parameter dump_config" NULLFILE ;;
  d3 <- str_param table "detailed_3D" "invalid format for configuration  parameter lc" "off" ;;
  um <- match table_value table "use_microchannels" with
        | Some v =>
            match scan_d v with
            | Some z => ret z
            | None => fatal "invalid format for configuration  parameter use_microchannels"
            end
        | None => ret 0
        end ;;
  mf <- str_param table "materials_file"
          "invalid format for configuration parameter materials_file" NULLFILE ;;
  match table_value table "v" with
  | Some v =>
      match scan_s v with
      | Some w =>
          (* "%s" stores the word and its NUL in volt_vector[385] *)
          if Z.of_nat (String.length w) + 1 <=? VOLT_VECTOR_SIZE
          then modify (set_volt_vector w)
          else undefined "write past the end of volt_vector"
      | None => fatal "invalid format for volt_vector"
      end
  | None => modify (set_volt_vector "")
  end ;;;
  match table_value table "t" with
  | Some v =>
      match scan_d v with
      | Some z => modify (set_trace_num (to_uint z))
      | None => fatal "invalid format for timestamp"
      end
  | None => modify (set_trace_num (to_uint (-1)))   (* for HotSpot standalone run *)
  end ;;;
  txrx_param table "TxRx_alpha" "invalid format for TxRx_alpha" ;;;
  txrx_param table "TxRx_beta" "invalid format for TxRx_beta" ;;;
  txrx_param table "TxRx_Tref" "invalid format for TxRX_Tref" ;;;
  txrx_param table "TxRx_S" "invalid format for TxRx_S" ;;;
  txrx_param table "TxRx_pvmod" "invalid format for TxRx_pvmod" ;;;
  ret {| flp_file := f; p_infile := p; pTot_outfile := pTot; t_outfile := o;
         config_file := c; dump_config := d; detailed_3D := d3;
         use_microchannels := um; materials_file := mf |}.

End Global_config.

(** ** The configuration back into a table (hotspot.c, lines 318-346) *)

(** libc: the digits [sprintf("%d")] writes for a non-negative [int], which
    has at most ten of them. *)
Fixpoint dec_digits (k : nat) (n : Z) (acc : list ascii) : list ascii :=
  match k with
  | O => acc
  | S k' =>
      let acc' := ascii_of_nat (48 + Z.to_nat (n mod 10)) :: acc in
      if n / 10 =? 0 then acc' else dec_digits k' (n / 10) acc'
  end.

Definition print_d (z : Z) : string :=
  string_of_list_ascii
    (if z <? 0 then "-"%char :: dec_digits 10 (- z) [] else dec_digits 10 z []).

(** The eight entries written to [table[0..7]]; the value returned is their
    number. *)
Definition global_config_to_strs (config : global_config_t) (max_entries : Z)
  : M (list (string * string)) :=
  when (max_entries <? 8) (fatal "not enough entries in table") ;;;
  ret [ ("f", flp_file config);
        ("p", p_infile config);
        ("o", t_outfile config);
        ("c", config_file config);
        ("d", dump_config config);
        ("detailed_3D", detailed_3D config);
        ("use_microchannels", print_d (use_microchannels config));
        ("materials_file", materials_file config) ]%string.

(** ** Voltage vector (hotspot.c, lines 588-597) *)

(** [volt_vector[i]]: the character, 0 from the terminating NUL on (the
    array is static and written once).  [char] is signed: a byte above 127
    is a negative value. *)
Definition char_at (s : string) (i : Z) : Z :=
  match list_ascii_of_string s !! Z.to_nat i with
  | Some c =>
      let n := Z.of_nat (nat_of_ascii c) in
      if n <? 128 then n else n - 256
  | None => 0
  end.

(** The loop [for (i = 0; i < length_v; i += 4) volt[j++] = ...]: iteration
    [k] has [i = 4k] and [j = k]. *)
Definition parse_volt_vector : M unit :=
  vv <- get volt_vector ;;
  let length_v := Z.of_nat (String.length vv) in
  for_each (upto ((length_v + 3) / 4)) (fun k =>
    let i := 4 * k in
    let v := to_uint (10 * (char_at vv i - 48) + (char_at vv (i + 2) - 48)) in
    if k <? VOLT_SIZE
    then modify (fun s => set_volt (<[Z.to_nat k := v]> (volt s)) s)
    else undefined "write past the end of volt").

(** ** Array loops without side effects

    The loops of [main] that only move doubles between arrays either finish,
    end in [fatal] (a block name [get_blk_index] does not find), or access an
    array outside its bounds. *)

Inductive res (A : Type) : Type :=
| Ok (a : A)
| Fatal (msg : string)
| Fault (what : string).
Arguments Ok {A} a.
Arguments Fatal {A} msg.
Arguments Fault {A} what.

Definition rbind {A B} (c : res A) (k : A -> res B) : res B :=
  match c with
  | Ok a => k a
  | Fatal m => Fatal m
  | Fault w => Fault w
  end.

Notation "x <~ c ;; k" := (rbind c (fun x => k))
  (at level 100, c at next level, right associativity) : drv_scope.

Definition lift {A} (r : res A) : M A :=
  match r with
  | Ok a => ret a
  | Fatal m => fatal m
  | Fault w => undefined w
  end.

Fixpoint rfold {A B} (f : B -> A -> res B) (l : list A) (b : B) : res B :=
  match l with
  | [] => Ok b
  | x :: l' => b' <~ f b x ;; rfold f l' b'
  end.

(** [a[i]] and [a[i] = v] on an array of known length. *)
Definition load {A} (a : list A) (i : Z) : res A :=
  match (if 0 <=? i then a !! Z.to_nat i else None) with
  | Some v => Ok v
  | None => Fault "read outside an array"
  end.

Definition store {A} (a : list A) (i : Z) (v : A) : res (list A) :=
  if (0 <=? i) && (i <? Z.of_nat (length a))
  then Ok (<[Z.to_nat i := v]> a)
  else Fault "write outside an array".

(** [names[i]] of the zero-initialised [names] table and [vals[i]] of the
    zero-initialised [vals] vector (both of [MAX_UNITS] entries): entries never
    written read as the empty string and as 0.0. *)
Definition name_at (names : list string) (i : Z) : string :=
  default ""%string (if 0 <=? i then names !! Z.to_nat i else None).
Definition val_at (vals : list double) (i : Z) : double :=
  default 0 (if 0 <=? i then vals !! Z.to_nat i else None).

(** Modelled from the spec: [get_blk_index] of flp.c, which is not among the
    sources ("names -> block index"; "insertion order defines the canonical
    block index"): the position of the first unit with that name, and [fatal]
    when there is none or the floorplan pointer is null. *)
Definition get_blk_index (f : option flp_t) (name : string) : res Z :=
  match f with
  | None => Fatal "null pointer in get_blk_index"
  | Some f =>
      match list_find (fun u => u = name) (units f) with
      | Some (i, _) => Ok (Z.of_nat i)
      | None => Fatal "block not found"
      end
  end.

(** [for (i = 0; i < model->grid->n_layers; i++)] with [layers[i]] at hand. *)
Definition for_layers {B} (g : grid_model_t) (body : layer_t -> B -> res B) (b : B) : res B :=
  rfold (fun b i =>
           match layers g !! Z.to_nat i with
           | Some ly => body ly b
           | None => Fault "layers[i] outside the layer table"
           end) (upto (n_layers g)) b.

(** *** Power into floorplan order (lines 797-811) *)

Definition permute_in_block (f : option flp_t) (names : list string) (vals : list double)
           (n : Z) (power : list double) : res (list double) :=
  rfold (fun power i =>
           idx <~ get_blk_index f (name_at names i) ;;
           store power idx (val_at vals i)) (upto n) power.

Definition permute_in_layer (ly : layer_t) (names : list string) (vals : list double)
           (base count : Z) (power : list double) : res (list double) :=
  rfold (fun power j =>
           idx <~ get_blk_index (Some (flp ly)) (name_at names (count + j)) ;;
           store power (base + idx) (val_at vals (count + j)))
        (upto (n_units (flp ly))) power.

Definition permute_in_grid (g : grid_model_t) (names : list string) (vals : list double)
           (power : list double) : res (list double) :=
  st <~ for_layers g (fun ly st =>
          let '(power, base, count) := st in
          if truthy (has_power ly)
          then power' <~ permute_in_layer ly names vals base count power ;;
               Ok (power', base + n_units (flp ly), count + n_units (flp ly))
          else Ok (power, base + n_units (flp ly), count))
        (power, 0, 0) ;;
  Ok (fst (fst st)).

(** *** Temperatures back into trace order (lines 837-848) *)

(** One layer: [vals] from [last_temp] and, with the leakage loop,
    [vals_withLeak] from [power_withLeak]. *)
Definition permute_out_layer (ly : layer_t) (names : list string)
           (last_temp power_withLeak : list double) (leak : bool) (base count : Z)
           (st : list double * list double) : res (list double * list double) :=
  rfold (fun st j =>
           let '(vals, vals_withLeak) := st in
           idx <~ get_blk_index (Some (flp ly)) (name_at names (count + j)) ;;
           v <~ load last_temp (base + idx) ;;
           vals' <~ store vals (count + j) v ;;
           wl' <~ (if leak
                   then w <~ load power_withLeak (base + idx) ;;
                        store vals_withLeak (count + j) w
                   else Ok vals_withLeak) ;;
           Ok (vals', wl'))
        (upto (n_units (flp ly))) st.

Definition permute_out_grid (g : grid_model_t) (names : list string)
           (last_temp power_withLeak : list double) (leak : bool)
           (vals vals_withLeak : list double) : res (list double * list double) :=
  st <~ for_layers g (fun ly st =>
          let '(vv, base, count) := st in
          if truthy (has_power ly)
          then vv' <~ permute_out_layer ly names last_temp power_withLeak leak base count vv ;;
               Ok (vv', base + n_units (flp ly), count + n_units (flp ly))
          else Ok (vv, base + n_units (flp ly), count))
        ((vals, vals_withLeak), 0, 0) ;;
  Ok (fst (fst st)).

(** *** Output lines (lines 419-444) *)

Definition write_names (f : file_id) (names : list string) (size : Z) : M unit :=
  tell (Fprint f (concat (map (fun i => [Str (name_at names i); Tab]) (upto (size - 1)))
                  ++ [Str (name_at names (Z.max 0 (size - 1))); Newline])).

Definition vals_line (vals : list double) (size : Z) : list text :=
  concat (map (fun i => [F2 (val_at vals i); Tab]) (upto (size - 1)))
  ++ [F2 (val_at vals (Z.max 0 (size - 1))); Newline].

Definition write_vals (f : file_id) (vals : list double) (size : Z) : M unit :=
  tell (Fprint f (vals_line vals size)).

Definition write_vals_power (f : file_id) (vals : list double) (size : Z) : M unit :=
  tell (Fprint f (vals_line vals size)).

(** *** Running averages (lines 855-865 and 888-902) *)

Section Averages.
Context (X : Extern).

Definition accumulate_block (n : Z) (power overall_power : list double) : res (list double) :=
  rfold (fun ov i =>
           a <~ load ov i ;; p <~ load power i ;; store ov i (dadd X a p))
        (upto n) overall_power.

Definition accumulate_grid (g : grid_model_t) (power overall_power : list double)
  : res (list double) :=
  st <~ for_layers g (fun ly st =>
          let '(ov, base) := st in
          ov' <~ (if truthy (has_power ly)
                  then rfold (fun ov j =>
                                a <~ load ov (base + j) ;;
                                p <~ load power (base + j) ;;
                                store ov (base + j) (dadd X a p))
                             (upto (n_units (flp ly))) ov
                  else Ok ov) ;;
          Ok (ov', base + n_units (flp ly)))
        (overall_power, 0) ;;
  Ok (fst st).

Definition average_block (n lines : Z) (overall_power : list double) : res (list double) :=
  rfold (fun ov i => a <~ load ov i ;; store ov i (ddiv_int X a lines))
        (upto n) overall_power.

Definition average_grid (g : grid_model_t) (lines : Z) (overall_power : list double)
  : res (list double) :=
  st <~ for_layers g (fun ly st =>
          let '(ov, base) := st in
          ov' <~ (if truthy (has_power ly)
                  then rfold (fun ov j =>
                                a <~ load ov (base + j) ;;
                                store ov (base + j) (ddiv_int X a lines))
                             (upto (n_units (flp ly))) ov
                  else Ok ov) ;;
          Ok (ov', base + n_units (flp ly)))
        (overall_power, 0) ;;
  Ok (fst st).

End Averages.

(** ** Solver state behind the model's pointers *)

Fixpoint mapM {A B} (f : A -> M B) (l : list A) : M (list B) :=
  match l with
  | [] => ret []
  | x :: l' => y <- f x ;; ys <- mapM f l' ;; ret (y :: ys)
  end.

(** The [n] doubles a collaborator sees behind [p]. *)
Definition fetch (p : dptr) (n : Z) : M (list double) :=
  match p with
  | Heap a => ret a
  | View _ => load_doubles p n
  end.

(** The collaborator leaves [new] behind [p]: a heap array is replaced, a view
    writes its [n] doubles into the mapped file. *)
Definition put (p : dptr) (n : Z) (new : list double) : M dptr :=
  match p with
  | Heap _ => ret (Heap new)
  | View off =>
      fun s =>
        match mapping s with
        | Some (f, _) =>
            match fs s !! f with
            | Some bytes =>
                if (0 <=? n) && (0 <=? off) && (off + 8 * n <=? Z.of_nat (length bytes))
                then Ret p (set_fs (<[f := splice (Z.to_nat off)
                                             (enc_doubles (resize (Z.to_nat n) 0 new)) bytes]>
                                      (fs s)) s)
                else Undef "write outside the mapping" s
            | None => Undef "write through an unmapped view" s
            end
        | None => Undef "write through an unmapped view" s
        end
  end.

Section Solver_state.
Context (X : Extern).

Definition extra_nodes (c : thermal_config_t) : Z :=
  if truthy (model_secondary c) then EXTRA X + EXTRA_SEC X else EXTRA X.

Definition total_nodes (g : grid_model_t) : Z :=
  total_n_blocks g + extra_nodes (config g).

Definition fetch_temps (g : grid_model_t) : M temps :=
  cub <- mapM (mapM (fun p => fetch p (cols g))) (cuboid (last_trans g)) ;;
  ext <- fetch (extra (last_trans g)) (extra_nodes (config g)) ;;
  lst <- fetch (last_temp g) (total_nodes g) ;;
  ret {| t_cuboid := cub; t_extra := ext; t_last := lst |}.

Definition put_temps (g : grid_model_t) (t : temps) : M grid_model_t :=
  cub <- mapM (fun lp =>
                 mapM (fun rp => put (fst rp) (cols g) (snd rp))
                      (zip (fst lp) (resize (length (fst lp)) [] (snd lp))))
              (zip (cuboid (last_trans g))
                   (resize (length (cuboid (last_trans g))) [] (t_cuboid t))) ;;
  ext <- put (extra (last_trans g)) (extra_nodes (config g)) (t_extra t) ;;
  lst <- put (last_temp g) (total_nodes g) (t_last t) ;;
  ret (set_views {| cuboid := cub; extra := ext |} lst g).

End Solver_state.

(** ** The driver (hotspot.c, [main]) *)

(** [detailed_3D]: "on" switches the heterogeneous R-C model on; for any
    other value, "off" or not, the flag stays FALSE (the [fatal] of the
    second branch is commented out in the source). *)
Definition detailed_3D_flag (v : string) : bool :=
  if String.eqb v "on" then true
  else if negb (String.eqb v "off") then false
  else false.

Definition is_grid (t : model_type) : bool :=
  match t with GRID_MODEL => true | _ => false end.
Definition is_block (t : model_type) : bool :=
  match t with BLOCK_MODEL => true | _ => false end.

Definition overwrite {A} (new old : list A) : list A := new ++ drop (length new) old.

Section Driver.
Context (X : Extern).

Record RC_model_t := {
  type : model_type;
  grid : grid_model_t;        (* model->grid, with model->config = &model->grid->config *)
  block_flp : flp_t;          (* model->block->flp *)
  circ : circuit X
}.

Definition set_grid (g : grid_model_t) (m : RC_model_t) : RC_model_t :=
  {| type := type m; grid := g; block_flp := block_flp m; circ := circ m |}.
Definition set_circ (c : circuit X) (m : RC_model_t) : RC_model_t :=
  {| type := type m; grid := grid m; block_flp := block_flp m; circ := c |}.

(** What the parsers and allocators outside hotspot.c hand to [main]. *)
Record input := {
  argc : Z;
  table : list (string * string);        (* parse_cmdline *)
  file_pairs : list (string * string);   (* read_str_pairs on the configuration file *)
  package_natural : Z;                   (* package_model at set-up *)
  (* thermal_config_to_strs and microchannel_config_to_strs for the dump;
     [None]: the collaborator itself ends the process with [fatal] *)
  thermal_strs : option (list (string * string));
  microchannel_strs : option (list (string * string));
  flp_read : flp_t;                      (* read_flp on the floorplan file *)
  model_in : RC_model_t                  (* alloc_RC_model *)
}.

(** *** Reading the power trace (lines 352-417) *)

(** The names line: empty lines are skipped, end of file is fatal. *)
Fixpoint read_names (fp : list (list string)) : M (list string * Z * list (list string)) :=
  match fp with
  | [] => fatal "not enough names in trace file"
  | [] :: fp' => read_names fp'
  | fields :: fp' =>
      if MAX_UNITS X <? Z.of_nat (length fields)
      then fatal "no. of units exceeded limit"
      else ret (fields, Z.of_nat (length fields), fp')
  end.

(** The fields of one non-empty values line, chopped into [vals]. *)
Definition read_vals_line (fields : list string) (vals : list double) : M (Z * list double) :=
  vs <- lift (rfold (fun acc f =>
                       match scan_lf X f with
                       | Some d => Ok (acc ++ [d])
                       | None => Fatal "invalid format of values"
                       end) (take (Z.to_nat (MAX_UNITS X)) fields) []) ;;
  if MAX_UNITS X <? Z.of_nat (length fields)
  then fatal "no. of entries exceeded limit"
  else ret (Z.of_nat (length fields), overwrite vs vals).

(** *** Locals of [main] that change in the loop *)

Record locals := {
  model : RC_model_t;
  power : list double;
  power_withLeak : list double;
  overall_power : list double;
  vals : list double;
  vals_withLeak : list double;
  natural : Z;
  lines : Z
}.

(** Locals fixed before the loop starts. *)
Record frame := {
  do_transient : bool;
  flp_ptr : option flp_t;     (* flp, NULL with a layer configuration file *)
  names : list string;
  n : Z
}.

(** [compute_temp] on the state behind the model's pointers. *)
Definition call_compute_temp (m : RC_model_t) (power : list double) (first_invocation : bool)
           (power_withLeak : list double) : M (RC_model_t * list double) :=
  t <- fetch_temps X (grid m) ;;
  tell (Call (c_compute_temp power first_invocation)) ;;;
  let '(c', t', pwl') :=
    compute_temp X (circ m) (config (grid m)) t power first_invocation power_withLeak in
  g' <- put_temps X (grid m) t' ;;
  ret (set_circ c' (set_grid g' m), pwl').

(** Lines 816-820. *)
Definition natural_convection (l : locals) : M locals :=
  if truthy (natural l) then
    t <- fetch (last_temp (grid (model l))) (total_nodes X (grid (model l))) ;;
    let avg_sink_temp := calc_sink_temp X (circ (model l)) t in
    tell (Call c_package_model) ;;;
    let '(c', nat') := package_model X (circ (model l)) avg_sink_temp in
    tell (Call c_populate_R_model) ;;;
    ret {| model := set_circ (populate_R_model X c') (model l); power := power l;
           power_withLeak := power_withLeak l; overall_power := overall_power l;
           vals := vals l; vals_withLeak := vals_withLeak l;
           natural := nat'; lines := lines l |}
  else ret l.

(** Lines 814-853: the transient part of one iteration. *)
Definition transient_row (fr : frame) (l : locals) : M locals :=
  l <- natural_convection l ;;
  tn <- get trace_num ;;
  let first_invocation := (tn <=? to_uint 0) && (lines l =? 0) in
  r <- call_compute_temp (model l) (power l) first_invocation (power_withLeak l) ;;
  let m' := fst r in
  let pwl' := snd r in
  let g := grid m' in
  when (is_grid (type m') && negb (String.eqb (grid_transient_file (config g)) NULLFILE))
       (tell (Call (c_dump_transient_temp_grid (grid_transient_file (config g))))) ;;;
  if is_block (type m')
  then fatal "HotSpot was run with block model. Incompatible with ThermSniper toolchain."
  else
    let leak := truthy (leakage_used (config g)) in
    last <- fetch (last_temp g) (total_nodes X g) ;;
    vv <- lift (permute_out_grid g (names fr) last pwl' leak (vals l) (vals_withLeak l)) ;;
    write_vals TOUT (fst vv) (n fr) ;;;
    when leak (write_vals_power POUT (snd vv) (n fr)) ;;;
    ret {| model := m'; power := power l; power_withLeak := pwl';
           overall_power := overall_power l; vals := fst vv; vals_withLeak := snd vv;
           natural := natural l; lines := lines l |}.

(** Lines 794-867: one iteration, [num] and [vals] being what [read_vals]
    returned. *)
Definition trace_row (fr : frame) (num : Z) (vals' : list double) (l : locals) : M locals :=
  when (negb (num =? n fr)) (fatal "invalid trace file format") ;;;
  power' <- lift (if is_block (type (model l))
                  then permute_in_block (flp_ptr fr) (names fr) vals' (n fr) (power l)
                  else permute_in_grid (grid (model l)) (names fr) vals' (power l)) ;;
  let l := {| model := model l; power := power'; power_withLeak := power_withLeak l;
              overall_power := overall_power l; vals := vals';
              vals_withLeak := vals_withLeak l; natural := natural l; lines := lines l |} in
  l <- (if do_transient fr then transient_row fr l else ret l) ;;
  ov <- lift (if is_block (type (model l))
              then accumulate_block X (n fr) (power l) (overall_power l)
              else accumulate_grid X (grid (model l)) (power l) (overall_power l)) ;;
  ret {| model := model l; power := power l; power_withLeak := power_withLeak l;
         overall_power := ov; vals := vals l; vals_withLeak := vals_withLeak l;
         natural := natural l; lines := lines l + 1 |}.

(** Line 793: [while ((num = read_vals(pin, vals)) != 0)].  [read_vals] skips
    empty lines and returns 0 at the end of the file. *)
Fixpoint trace_loop (fr : frame) (fp : list (list string)) (l : locals) : M locals :=
  match fp with
  | [] => ret l
  | [] :: fp' => trace_loop fr fp' l
  | fields :: fp' =>
      r <- read_vals_line fields (vals l) ;;
      l' <- trace_row fr (fst r) (snd r) l ;;
      trace_loop fr fp' l'
  end.

(** *** Set-up (lines 600-725) *)

Definition differs (a b : string) : bool := negb (String.eqb a b).
Definition present {A} (o : option A) : bool :=
  match o with Some _ => true | None => false end.

(** Modelled from the spec: [dump_str_pairs] of util.c, which is not among the
    sources ("-d <dump> dump resolved config"; util.h: "append the table onto
    a file"): the table goes to [file], each name after [prefix]. *)
Definition dump_str_pairs (table : list (string * string)) (file prefix : string) : M unit :=
  tell (Call (c_dump_str_pairs table file prefix)).

(** Lines 655-663: the table is filled anew from the three configurations
    and dumped. *)
Definition dump_configuration (gc : global_config_t) (inp : input) : M unit :=
  tbl <- global_config_to_strs gc MAX_ENTRIES ;;
  match thermal_strs inp with
  | None => exit 1
  | Some thermal =>
      if truthy (use_microchannels gc) then
        match microchannel_strs inp with
        | None => exit 1
        | Some micro => dump_str_pairs (tbl ++ thermal ++ micro) (dump_config gc) "-"
        end
      else dump_str_pairs (tbl ++ thermal) (dump_config gc) "-"
  end.

Definition setup (gc : global_config_t) (inp : input) : M (bool * option flp_t * locals) :=
  (* no transient simulation, only steady state *)
  let do_transient := differs (t_outfile gc) NULLFILE in
  let table := table inp ++ (if differs (config_file gc) NULLFILE then file_pairs inp else []) in
  let do_detailed_3D := detailed_3D_flag (detailed_3D gc) in
  let thermal_config := config (grid (model_in inp)) in
  let use_microchannels := use_microchannels gc in
  (* if package model is used, run package model *)
  let packaged :=
    present (table_value table "package_model_used")
    && truthy (package_model_used thermal_config) in
  when packaged (tell (Call c_package_model)) ;;;
  let natural := if packaged then package_natural inp else 0 in
  (* dump configuration if specified *)
  when (differs (dump_config gc) NULLFILE) (dump_configuration gc inp) ;;;
  flp <- (if differs (grid_layer_file thermal_config) NULLFILE then
            when (differs (flp_file gc) NULLFILE)
                 (tell (Stderr "Warning: Layer Configuration File specified. Overriding floorplan file")) ;;;
            ret None
          else if differs (flp_file gc) NULLFILE then ret (Some (flp_read inp))
          else fatal "Either LCF or FLP file must be specified") ;;
  (* allocate and initialize the RC model *)
  let model := model_in inp in
  when (negb (is_grid (type model)) && do_detailed_3D)
       (fatal "-do_detailed_3D can only be used with -model_type grid") ;;;
  when (is_grid (type model) && negb (truthy (has_lcf (grid model))) && do_detailed_3D)
       (fatal "-do_detailed_3D can only be used in 3D mode (if a grid_layer_file is specified)") ;;;
  when (truthy use_microchannels && (negb (is_grid (type model)) || negb do_detailed_3D))
       (fatal "-use_microchannels requires -model_type grid and do_detailed_3D on options") ;;;
  let c := config (grid model) in
  let warn_steady := negb (is_grid (type model)) && differs (grid_steady_file c) NULLFILE in
  when warn_steady
       (tell (Stderr "Ignoring -grid_steady_file because grid model is not being used")) ;;;
  let warn_transient := negb (is_grid (type model)) && differs (grid_transient_file c) NULLFILE in
  when warn_transient
       (tell (Stderr "Ignoring -grid_transient_file because grid model is not being used")) ;;;
  let c := {| init_file := init_file c; dtm_used := dtm_used c; init_temp := init_temp c;
              leakage_used := leakage_used c; model_secondary := model_secondary c;
              package_model_used := package_model_used c;
              grid_layer_file := grid_layer_file c; steady_file := steady_file c;
              grid_steady_file := if warn_steady then NULLFILE else grid_steady_file c;
              grid_transient_file :=
                if warn_transient then NULLFILE else grid_transient_file c |} in
  let model := set_grid (set_config c (grid model)) model in
  tell (Call c_populate_R_model) ;;;
  let model := set_circ (populate_R_model X (circ model)) model in
  when do_transient (tell (Call c_populate_C_model)) ;;;
  let model := if do_transient then set_circ (populate_C_model X (circ model)) model
               else model in
  (* allocate the temp and power arrays *)
  let vec := hotspot_vector X (type model) (grid model) in
  let model := if do_transient
               then set_grid (set_views (last_trans (grid model)) (Heap vec) (grid model)) model
               else model in
  ret (do_transient, flp,
       {| model := model; power := vec; power_withLeak := vec; overall_power := vec;
          vals := replicate (Z.to_nat (MAX_UNITS X)) 0;
          vals_withLeak := replicate (Z.to_nat (MAX_UNITS X)) 0;
          natural := natural; lines := 0 |}).

(** *** Initial temperatures (lines 726-736) *)

Definition init_temps (do_transient : bool) (m : RC_model_t) : M RC_model_t :=
  tn <- get trace_num ;;
  let g := grid m in
  if tn <=? to_uint 0 then   (* trace_num=-1 in HotSpot standalone run *)
    if do_transient && differs (init_file (config g)) NULLFILE then
      t <- fetch (last_temp g) (total_nodes X g) ;;
      let clip := truthy (dtm_used (config g)) in
      tell (Call (c_read_temp (init_file (config g)) clip)) ;;;
      match read_temp X (init_file (config g)) clip t with
      | Some t' =>
          p <- put (last_temp g) (total_nodes X g) t' ;;
          ret (set_grid (set_views (last_trans g) p g) m)
      | None => exit 1
      end
    else if do_transient then
      t <- fetch (last_temp g) (total_nodes X g) ;;
      tell (Call (c_set_temp (init_temp (config g)))) ;;;
      p <- put (last_temp g) (total_nodes X g) (set_temp X (init_temp (config g)) t) ;;
      ret (set_grid (set_views (last_trans g) p g) m)
    else ret m
  else ret m.

(** *** Trace files, names line, header or checkpoint (lines 739-788) *)

Definition count_units (m : RC_model_t) : M Z :=
  match type m with
  | BLOCK_MODEL => ret (n_units (block_flp m))
  | GRID_MODEL =>
      lift (for_layers (grid m)
              (fun ly n => Ok (if truthy (has_power ly) then n + n_units (flp ly) else n)) 0)
  | UNKNOWN_MODEL => fatal "unknown model type"
  end.

Definition open_traces (do_transient : bool) (m : RC_model_t)
           (ptrace : option (list (list string)))
  : M (RC_model_t * list string * Z * list (list string) * option string * Z) :=
  n <- count_units m ;;
  let leak := truthy (leakage_used (config (grid m))) in
  fp <- match ptrace with
        | Some fp => ret fp
        | None => fatal "unable to open power trace input file"
        end ;;
  tout_ok <- get (fun s => fopen_tout_ok (io s)) ;;
  when (do_transient && negb tout_ok)
       (fatal "unable to open temperature trace file for output") ;;;
  pout_ok <- get (fun s => fopen_pout_ok (io s)) ;;
  when (do_transient && leak && negb pout_ok)
       (fatal "unable to open trace file (total power with leakage) for output") ;;;
  (* names of functional units *)
  r <- read_names fp ;;
  let '(names, cnt, fp') := r in
  when (negb (cnt =? n)) (fatal "no. of units in floorplan and trace file differ") ;;;
  (* header lines of trace files and cleanup of old TRANS_TEMP_FILE *)
  tn <- get trace_num ;;
  if (tn <=? to_uint 0) && do_transient then
    write_names TOUT names n ;;;
    when leak (write_names POUT names n) ;;;
    when (tn =? to_uint 0)
         (found <- get (fun s => present (fs s !! TRANS_TEMP_FILE)) ;;
          when found
               (ok <- get (fun s => unlink_ok (io s)) ;;
                if ok
                then modify (fun s => set_fs (delete TRANS_TEMP_FILE (fs s)) s) ;;;
                     tell (Unlink TRANS_TEMP_FILE)
                else fatal "Could not delete old transient temp data file")) ;;;
    ret (m, names, n, fp', None, 0)
  else if (to_uint 0 <? tn) && do_transient then
    r <- load_last_trans_temp_mmap (grid m) TRANS_TEMP_FILE ;;
    let '(g', mapped_region, mapped_size) := r in
    ret (set_grid g' m, names, n, fp', mapped_region, mapped_size)
  else ret (m, names, n, fp', None, 0).

(** *** After the last row (lines 869-978) *)

Definition finish (fr : frame) (mapped_region : option string) (mapped_size : Z)
           (l : locals) : M Z :=
  when (lines l =? 0) (fatal "no power numbers in trace file") ;;;
  (* save transient temperature data for next ThermSniper HotSpot invocation *)
  tn <- get trace_num ;;
  (if tn =? to_uint 0 then
     save_last_trans_temp_mmap X (grid (model l)) TRANS_TEMP_FILE
       (extra_nodes X (config (grid (model l))))
   else if to_uint 0 <? tn then
     flush_updated_last_trans_temp mapped_region mapped_size
   else ret tt) ;;;
  (* for computing average *)
  _ <- lift (if is_block (type (model l))
             then average_block X (n fr) (lines l) (overall_power l)
             else average_grid X (grid (model l)) (lines l) (overall_power l)) ;;
  (* the steady-state solve and its dumps are commented out in the source *)
  (* cleanup *)
  when (to_uint 0 <? tn) (unload_last_trans_temp mapped_region mapped_size) ;;;
  ret 0.

(** *** [main] *)

Definition run_trace (do_transient : bool) (flp : option flp_t) (l : locals)
           (ptrace : option (list (list string))) : M Z :=
  m <- init_temps do_transient (model l) ;;
  r <- open_traces do_transient m ptrace ;;
  let '(m, names, n, fp, mapped_region, mapped_size) := r in
  let fr := {| do_transient := do_transient; flp_ptr := flp; names := names; n := n |} in
  let l := {| model := m; power := power l; power_withLeak := power_withLeak l;
              overall_power := overall_power l; vals := vals l;
              vals_withLeak := vals_withLeak l; natural := natural l; lines := lines l |} in
  l <- trace_loop fr fp l ;;
  finish fr mapped_region mapped_size l.

Definition main_after_config (gc : global_config_t) (inp : input)
           (ptrace : option (list (list string))) : M Z :=
  r <- setup gc inp ;;
  let '(do_transient, flp, l) := r in
  run_trace do_transient flp l ptrace.

Definition main (inp : input) (ptrace : option (list (list string))) : M Z :=
  if negb ((5 <=? argc inp) && negb (Z.rem (argc inp) 2 =? 0))
  then ret 1    (* usage *)
  else
    gc <- global_config_from_strs X (table inp) ;;
    parse_volt_vector ;;;
    main_after_config gc inp ptrace.

End Driver.

Arguments type {X} _.
Arguments grid {X} _.
Arguments block_flp {X} _.
Arguments circ {X} _.
Arguments set_grid {X} _ _.
Arguments set_circ {X} _ _.
Arguments argc {X} _.
Arguments table {X} _.
Arguments file_pairs {X} _.
Arguments package_natural {X} _.
Arguments thermal_strs {X} _.
Arguments microchannel_strs {X} _.
Arguments flp_read {X} _.
Arguments model_in {X} _.
Arguments model {X} _.
Arguments power {X} _.
Arguments power_withLeak {X} _.
Arguments overall_power {X} _.
Arguments vals {X} _.
Arguments vals_withLeak {X} _.
Arguments natural {X} _.
Arguments lines {X} _.

(** ** A small instance of the collaborators, for evaluating the driver

    [EXTRA], [EXTRA_SEC] and [MAX_UNITS] are HotSpot's values; the stand-in
    solver adds each block's power to its temperature, and numbers are scanned
    as integers. *)

Module Sample.

Definition add_power (t p : list double) : list double :=
  imap (fun i x => x + val_at p (Z.of_nat i)) t.

Definition X : Extern :=
  {| EXTRA := 12;
     EXTRA_SEC := 16;
     MAX_UNITS := 8192;
     circuit := unit;
     hotspot_vector := fun _ g =>
       replicate (Z.to_nat (total_n_blocks g
                            + (if truthy (model_secondary (config g)) then 28 else 12))) 0;
     populate_R_model := fun c => c;
     populate_C_model := fun c => c;
     read_temp := fun _ _ t => Some t;
     set_temp := fun v t => map (fun _ => v) t;
     calc_sink_temp := fun _ _ => 0;
     package_model := fun c _ => (c, 0);
     compute_temp := fun c _ t p _ pwl =>
       (c, {| t_cuboid := t_cuboid t; t_extra := t_extra t;
              t_last := add_power (t_last t) p |}, pwl);
     scan_lf := scan_d;
     dadd := Z.add;
     ddiv_int := Z.div |}.

Definition io_ok : io_t :=
  {| open_ok := true; mmap_ok := true; msync_ok := true; fopen_wb_ok := true;
     fopen_tout_ok := true; fopen_pout_ok := true; unlink_ok := true |}.

(** The state in which [main] starts: the globals zero-initialised, nothing
    mapped, nothing logged. *)
Definition start (files : gmap string (list Z)) (outcomes : io_t) : state :=
  {| trace_num := 0; volt_vector := ""; volt := replicate 128 0; fs := files;
     mapping := None; io := outcomes; log := [] |}.

Definition cfg : thermal_config_t :=
  {| init_file := NULLFILE; dtm_used := 0; init_temp := 300; leakage_used := 0;
     model_secondary := 0; package_model_used := 0; grid_layer_file := "stack.lcf";
     steady_file := NULLFILE; grid_steady_file := NULLFILE;
     grid_transient_file := NULLFILE |}.

(** Two power layers of one block each, [A] above [B], on a 1 x 1 grid. *)
Definition two_layers : grid_model_t :=
  {| n_layers := 2; rows := 1; cols := 1; total_n_blocks := 2;
     layers := [ {| has_power := 1; flp := {| units := ["A"] |} |};
                 {| has_power := 1; flp := {| units := ["B"] |} |} ];
     has_lcf := 1; config := cfg;
     last_trans := {| cuboid := [[Heap [0]]; [Heap [0]]]; extra := Heap (replicate 12 0) |};
     last_temp := Heap [] |}.

(** One power layer with the blocks [A] and [B]. *)
Definition one_layer : grid_model_t :=
  {| n_layers := 1; rows := 1; cols := 1; total_n_blocks := 2;
     layers := [ {| has_power := 1; flp := {| units := ["A"; "B"] |} |} ];
     has_lcf := 1; config := cfg;
     last_trans := {| cuboid := [[Heap [0]]]; extra := Heap (replicate 12 0) |};
     last_temp := Heap [] |}.

Definition grid_run (g : grid_model_t) (opts : list (string * string)) : input X :=
  {| argc := 1 + 2 * Z.of_nat (length opts);
     table := opts;
     file_pairs := [];
     package_natural := 0;
     thermal_strs := Some [];
     microchannel_strs := Some [];
     flp_read := {| units := [] |};
     model_in := Build_RC_model_t X GRID_MODEL g {| units := [] |} tt |}.

(** A run of the block model on the floorplan of the blocks [A] and [B]
    ([-f ev6.flp], no layer configuration file). *)
Definition block_run (opts : list (string * string)) : input X :=
  {| argc := 1 + 2 * Z.of_nat (length opts);
     table := opts;
     file_pairs := [];
     package_natural := 0;
     thermal_strs := Some [];
     microchannel_strs := Some [];
     flp_read := {| units := ["A"; "B"] |};
     model_in :=
       Build_RC_model_t X BLOCK_MODEL
         (set_config
            {| init_file := NULLFILE; dtm_used := 0; init_temp := 300; leakage_used := 0;
               model_secondary := 0; package_model_used := 0; grid_layer_file := NULLFILE;
               steady_file := NULLFILE; grid_steady_file := NULLFILE;
               grid_transient_file := NULLFILE |} one_layer)
         {| units := ["A"; "B"] |} tt |}.

(** A transient run: power trace in, temperature trace out. *)
Definition opts (more : list (string * string)) : list (string * string) :=
  [("p", "gcc.ptrace"); ("o", "gcc.ttrace")] ++ more.

Definition ptrace_AB : option (list (list string)) :=
  Some [["A"; "B"]; ["1"; "2"]; ["3"; "4"]].

Definition gc_with (d3 : string) (um : Z) : global_config_t :=
  {| flp_file := NULLFILE; p_infile := "gcc.ptrace"; pTot_outfile := NULLFILE;
     t_outfile := "gcc.ttrace"; config_file := NULLFILE; dump_config := NULLFILE;
     detailed_3D := d3; use_microchannels := um; materials_file := NULLFILE |}.

(** The same with a dump of the configuration ([-d]). *)
Definition gc_dump (d3 d : string) : global_config_t :=
  {| flp_file := NULLFILE; p_infile := "gcc.ptrace"; pTot_outfile := NULLFILE;
     t_outfile := "gcc.ttrace"; config_file := NULLFILE; dump_config := d;
     detailed_3D := d3; use_microchannels := 0; materials_file := NULLFILE |}.

(** The checkpoint the first chunk ([-t 0]) of the two-layer run leaves:
    trace index 0, 2 x 1 x 1 cells, 12 extra nodes. *)
Definition chunk0_bytes : list Z :=
  concat (map enc_int [MAGIC_MMAP_FILE; 0; 2; 1; 1; 12])
  ++ enc_doubles ([0; 0] ++ replicate 12 0 ++ [304; 306] ++ replicate 12 300).

Definition chunk0_files : gmap string (list Z) := <[TRANS_TEMP_FILE := chunk0_bytes]> ∅.

Definition io_msync_fails : io_t :=
  {| open_ok := true; mmap_ok := true; msync_ok := false; fopen_wb_ok := true;
     fopen_tout_ok := true; fopen_pout_ok := true; unlink_ok := true |}.

(** The state in which chunk 1 finds the checkpoint of chunk 0. *)
Definition chunk1_start : state := set_trace_num 1 (start chunk0_files io_ok).

(** The two-layer model after two rows: heap state as [compute_temp] left it. *)
Definition warm_two_layers : grid_model_t :=
  set_views (last_trans two_layers) (Heap ([304; 306] ++ replicate 12 300)) two_layers.

(** A run of the one-layer model that asks for the steady-state temperatures
    in a file. *)
Definition one_layer_steady : grid_model_t :=
  set_config
    {| init_file := NULLFILE; dtm_used := 0; init_temp := 300; leakage_used := 0;
       model_secondary := 0; package_model_used := 0; grid_layer_file := "stack.lcf";
       steady_file := "gcc.steady"; grid_steady_file := "gcc.grid.steady";
       grid_transient_file := NULLFILE |} one_layer.

(** The locals of [main] when the loop of the two-layer run has ended. *)
Definition end_frame : frame :=
  {| do_transient := true; flp_ptr := None; names := ["A"; "B"]; n := 2 |}.

Definition end_locals : locals X :=
  {| model := Build_RC_model_t X GRID_MODEL warm_two_layers {| units := [] |} tt;
     power := [3; 4] ++ replicate 12 0;
     power_withLeak := replicate 14 0;
     overall_power := [4; 6] ++ replicate 12 0;
     vals := [304; 306];
     vals_withLeak := [];
     natural := 0;
     lines := 2 |}.

(** A voltage vector of [k] entries [x.y]. *)
Definition volts (k : nat) (xy : string) : string := String.concat "," (replicate k xy).

(** The global configuration of a run with floorplan file [f] and temperature
    trace [o]. *)
Definition gc_with_files (f o : string) : global_config_t :=
  {| flp_file := f; p_infile := "gcc.ptrace"; pTot_outfile := NULLFILE;
     t_outfile := o; config_file := NULLFILE; dump_config := NULLFILE;
     detailed_3D := "off"; use_microchannels := 0; materials_file := NULLFILE |}.

End Sample.

(** Events a computation adds to the log. *)
Definition appends {A} (r : result A) (s : state) (evs : list event) : Prop :=
  log (final r) = log s ++ evs.

Definition is_stderr (e : event) : Prop := exists msg, e = Stderr msg.

(** What the set-up logs before it builds the thermal circuit: messages on
    stderr, its run of the package model, the dump of the configuration. *)
Definition before_circuit (e : event) : Prop :=
  match e with
  | Stderr _ | Call c_package_model | Call (c_dump_str_pairs _ _ _) => True
  | _ => False
  end.

Definition with_detailed_3D (v : string) (gc : global_config_t) : global_config_t :=
  {| flp_file := flp_file gc; p_infile := p_infile gc; pTot_outfile := pTot_outfile gc;
     t_outfile := t_outfile gc; config_file := config_file gc;
     dump_config := dump_config gc; detailed_3D := v;
     use_microchannels := use_microchannels gc; materials_file := materials_file gc |}.

(** What [load_last_trans_temp_mmap] requires of the mapped header when trace
    chunk [N] is run on [model]. *)
Definition header_matches (bytes : list Z) (model : grid_model_t) (N : Z) : Prop :=
  header_int bytes 0 = MAGIC_MMAP_FILE
  /\ to_uint (header_int bytes 1) = N - 1
  /\ header_int bytes 2 = n_layers model
  /\ header_int bytes 3 = rows model
  /\ header_int bytes 4 = cols model.

(** [cuboid[l][r]] of a vector of row pointers. *)
Definition cuboid_row (v : grid_model_vector_t) (l r : Z) : option dptr :=
  cuboid v !! Z.to_nat l ≫= (.!! Z.to_nat r).

(** The state with file [f] holding [bytes]. *)
Definition with_file (f : string) (bytes : list Z) (s : state) : state :=
  set_fs (<[f := bytes]> (fs s)) s.

(** The checkpoint layout of the specification: six [int]s, then the cuboid
    (layer-major, row-major within a layer), then [extra], then [T_last]. *)
Definition checkpoint_layout (trace_index n_layers rows cols num_extra : Z)
           (cub : list (list (list double))) (ext t_last : list double) : list Z :=
  concat (map enc_int [MAGIC_MMAP_FILE; trace_index; n_layers; rows; cols; num_extra])
  ++ enc_doubles (concat (concat cub))
  ++ enc_doubles ext
  ++ enc_doubles t_last.

(** A cuboid of [L] layers of [R] rows of [C] cells. *)
Definition cuboid_shape (L R C : Z) (cub : list (list (list double))) : Prop :=
  Z.of_nat (length cub) = L
  /\ Forall (fun layer =>
               Z.of_nat (length layer) = R
               /\ Forall (fun row => Z.of_nat (length row) = C) layer) cub.

(** [logs P c]: whatever its outcome, [c] only appends events satisfying [P]
    to the log. *)
Definition logs (P : event -> Prop) {A} (c : M A) : Prop :=
  forall s, exists evs, log (final (c s)) = log s ++ evs /\ Forall P evs.

(** Events of the steady-state solve and of the dump of its result. *)
Definition steady_event (e : event) : Prop :=
  (exists p, e = Call (c_steady_state_temp p)) \/ (exists f, e = Call (c_dump_temp f)).

(** ** Trace columns and thermal nodes

    The driver's permutation loops visit the trace columns in order; column
    [c] belongs to one power-dissipating layer, and the block its header name
    names there has a fixed index ("node") in the power and temperature
    vectors. *)

(** The layers the loops visit: [layers[0 .. n_layers-1]]. *)
Definition used_layers (g : grid_model_t) : list layer_t :=
  take (Z.to_nat (n_layers g)) (layers g).

(** Number of trace columns and of blocks of a stack of layers. *)
Fixpoint n_columns (lys : list layer_t) : Z :=
  match lys with
  | [] => 0
  | ly :: rest => (if truthy (has_power ly) then n_units (flp ly) else 0) + n_columns rest
  end.

Fixpoint n_blocks (lys : list layer_t) : Z :=
  match lys with
  | [] => 0
  | ly :: rest => n_units (flp ly) + n_blocks rest
  end.

(** The layer of column [c] (counted from the first column of [lys]) and the
    node of that layer's first block, [base] being the node of the first block
    of [lys]. *)
Fixpoint locate (lys : list layer_t) (base c : Z) : option (layer_t * Z) :=
  match lys with
  | [] => None
  | ly :: rest =>
      if truthy (has_power ly) then
        if c <? n_units (flp ly) then Some (ly, base)
        else locate rest (base + n_units (flp ly)) (c - n_units (flp ly))
      else locate rest (base + n_units (flp ly)) c
  end.

(** The node of the block called [name] in layer [ly]. *)
Definition node_in (ly : layer_t) (base : Z) (name : string) : option Z :=
  match get_blk_index (Some (flp ly)) name with
  | Ok idx => Some (base + idx)
  | _ => None
  end.

Definition node_at (lys : list layer_t) (base count : Z) (names : list string) (c : Z)
  : option Z :=
  match locate lys base c with
  | Some (ly, b) => node_in ly b (name_at names (count + c))
  | None => None
  end.

(** The node of the block that header column [c] names. *)
Definition node_of (g : grid_model_t) (names : list string) (c : Z) : option Z :=
  node_at (used_layers g) 0 0 names c.

(** The driver's column loop with its per-column action left open:
    [act node column]. *)
Definition columns_layer {S} (ly : layer_t) (names : list string)
           (act : Z -> Z -> S -> res S) (base count : Z) (s : S) : res S :=
  rfold (fun s j =>
           idx <~ get_blk_index (Some (flp ly)) (name_at names (count + j)) ;;
           act (base + idx) (count + j) s)
        (upto (n_units (flp ly))) s.

Definition layer_body {S} (names : list string) (act : Z -> Z -> S -> res S)
           (ly : layer_t) (st : S * Z * Z) : res (S * Z * Z) :=
  let '(s, base, count) := st in
  if truthy (has_power ly)
  then s' <~ columns_layer ly names act base count s ;;
       Ok (s', base + n_units (flp ly), count + n_units (flp ly))
  else Ok (s, base + n_units (flp ly), count).

Definition columns_fold {S} (g : grid_model_t) (names : list string)
           (act : Z -> Z -> S -> res S) (s0 : S) : res S :=
  st <~ for_layers g (layer_body names act) (s0, 0, 0) ;;
  Ok (fst (fst st)).

(** The actions of columns [count, count+1, ...] on their nodes, in order. *)
Definition apply_columns {S} (act : Z -> Z -> S -> res S) (count : Z) (nodes : list Z)
           (s : S) : res S :=
  rfold (fun s cn => act (snd cn) (fst cn) s)
        (zip (seqZ count (Z.of_nat (length nodes))) nodes) s.

(** The per-column actions of the two permutation loops. *)
Definition act_in (vals : list double) (node c : Z) (power : list double)
  : res (list double) :=
  store power node (val_at vals c).

Definition act_out (last_temp power_withLeak : list double) (leak : bool) (node c : Z)
           (st : list double * list double) : res (list double * list double) :=
  v <~ load last_temp node ;;
  vals' <~ store (fst st) c v ;;
  wl' <~ (if leak
          then w <~ load power_withLeak node ;; store (snd st) c w
          else Ok (snd st)) ;;
  Ok (vals', wl').

(** The same loop as the specification describes it ("names -> block
    index"): the columns in order, each with the node its header name names;
    a name that names no block of its layer is fatal. *)
Definition by_column {S} (g : grid_model_t) (names : list string)
           (act : Z -> Z -> S -> res S) (s0 : S) : res S :=
  rfold (fun s c =>
           match node_of g names c with
           | Some node => act node c s
           | None => Fatal "block not found"
           end) (upto (n_columns (used_layers g))) s0.

(** [nodes] lists, column by column, the node each header name names. *)
Definition names_nodes (g : grid_model_t) (names : list string) (nodes : list Z) : Prop :=
  Z.of_nat (length nodes) = n_columns (used_layers g)
  /\ forall i node, nodes !! i = Some node -> node_of g names (Z.of_nat i) = Some node.

(** ** The temperature trace as written *)

(** Events that write nothing to a trace file. *)
Definition quiet_event (e : event) : Prop :=
  match e with Fprint _ _ => False | _ => True end.

Definition not_tout (e : event) : Prop :=
  match e with Fprint TOUT _ => False | _ => True end.

(** The lines written to the temperature trace, in order. *)
Fixpoint tout_lines (evs : list event) : list (list text) :=
  match evs with
  | [] => []
  | Fprint TOUT line :: rest => line :: tout_lines rest
  | _ :: rest => tout_lines rest
  end.

(** A line of tab-separated fields, ended by a newline. *)
Fixpoint tabbed (fields : list text) : list text :=
  match fields with
  | [] => [Newline]
  | [f] => [f; Newline]
  | f :: rest => f :: Tab :: tabbed rest
  end.

(** The lines of the power trace that are not empty. *)
Fixpoint nonblank (fp : list (list string)) : list (list string) :=
  match fp with
  | [] => []
  | [] :: fp' => nonblank fp'
  | fields :: fp' => fields :: nonblank fp'
  end.

(** What [last_temp] of the model holds in state [s]. *)
Definition last_temps {X : Extern} (l : locals X) (s : state) : list double :=
  match fetch (last_temp (grid (model l))) (total_nodes X (grid (model l))) s with
  | Ret t _ => t
  | _ => []
  end.

(** The row of temperatures [T] under the header [names]: one ["%.2f"] field
    per header name, in the order of the header, field [c] being the
    temperature [T] holds for the node header name [c] names. *)
Definition temperature_row (g : grid_model_t) (names : list string) (T : list double)
  : list text :=
  tabbed (map F2 (omap (fun c => node_of g names c ≫= fun node => T !! Z.to_nat node)
                       (upto (Z.of_nat (length names))))).

(** One turn of the loop on a values line that is not empty: [read_vals]
    chops the line, the body of the loop simulates the row. *)
Definition power_row {X : Extern} (fr : frame) (fields : list string) (l : locals X)
  : M (locals X) :=
  r <- read_vals_line X fields (vals l) ;;
  trace_row X fr (fst r) (snd r) l.

(** The temperature rows of the power rows [rows], when the loop starts with
    the locals [l] in state [s]: one row for each power row in turn, holding
    what [last_temp] holds when that power row has been simulated; nothing
    for an empty line; and nothing from the first power row on that ends the
    run. *)
Fixpoint temperature_rows {X : Extern} (fr : frame) (rows : list (list string))
         (l : locals X) (s : state) : list (list text) :=
  match rows with
  | [] => []
  | [] :: rest => temperature_rows fr rest l s
  | fields :: rest =>
      match power_row fr fields l s with
      | Ret l' s' =>
          (if do_transient fr
           then [temperature_row (grid (model l')) (names fr) (last_temps l' s')]
           else [])
          ++ temperature_rows fr rest l' s'
      | _ => []
      end
  end.

(** [main] up to its loop (lines 577-791): the frame and the locals the loop
    starts with, the lines of the trace after the names line, and the mapped
    checkpoint; [None] when [main] only prints its usage. *)
Definition before_loop {X : Extern} (inp : input X) (ptrace : option (list (list string)))
  : M (option (frame * locals X * list (list string) * option string * Z)) :=
  if negb ((5 <=? argc inp) && negb (Z.rem (argc inp) 2 =? 0))
  then ret None
  else
    gc <- global_config_from_strs X (table inp) ;;
    parse_volt_vector ;;;
    r <- setup X gc inp ;;
    let '(do_transient, flp, l) := r in
    m <- init_temps X do_transient (model l) ;;
    r <- open_traces X do_transient m ptrace ;;
    let '(m, names, n, fp, mapped_region, mapped_size) := r in
    ret (Some ({| do_transient := do_transient; flp_ptr := flp; names := names; n := n |},
               {| model := m; power := power l; power_withLeak := power_withLeak l;
                  overall_power := overall_power l; vals := vals l;
                  vals_withLeak := vals_withLeak l; natural := natural l;
                  lines := lines l |},
               fp, mapped_region, mapped_size)).

(** The rest of [main]: the loop and what follows it. *)
Definition from_loop {X : Extern}
           (st : option (frame * locals X * list (list string) * option string * Z)) : M Z :=
  match st with
  | None => ret 1
  | Some (fr, l, fp, mapped_region, mapped_size) =>
      l <- trace_loop X fr fp l ;;
      finish X fr mapped_region mapped_size l
  end.

(** Two models of the same type over the same stack of layers. *)
Definition same_layers (g g' : grid_model_t) : Prop :=
  n_layers g' = n_layers g /\ layers g' = layers g.

Definition same_model {X : Extern} (m m' : RC_model_t X) : Prop :=
  type m' = type m /\ same_layers (grid m) (grid m').

(** ** Column order

    [permuted p l] is [l] with its columns rearranged: column [j] of the
    result is column [p !! j] of [l]. *)
Definition permuted {A} (p : list nat) (l : list A) : list A :=
  omap (fun i => l !! i) p.

(** A line of the trace with its first [length p] columns rearranged by [p];
    columns beyond those stay where they are. *)
Definition permute_row {A} (p : list nat) (l : list A) : list A :=
  permuted p l ++ drop (length p) l.

Definition permute_trace (p : list nat) (fp : list (list string)) : list (list string) :=
  map (permute_row p) fp.

(** The names line of a trace: its first line that is not empty. *)
Definition names_line (fp : list (list string)) : list string :=
  default [] (head (nonblank fp)).

(** [p] rearranges the columns of each power layer among themselves. *)
Definition keeps_layers (g : grid_model_t) (p : list nat) : Prop :=
  p ≡ₚ seq 0 (Z.to_nat (n_columns (used_layers g)))
  /\ forall j i, p !! j = Some i ->
       locate (used_layers g) 0 (Z.of_nat i) = locate (used_layers g) 0 (Z.of_nat j).

(** The node each header column names, if any. *)
Definition header_nodes (g : grid_model_t) (names : list string) : list (option Z) :=
  map (fun c => node_of g names (Z.of_nat c)) (seq 0 (length names)).

(** What the run on the rearranged trace logs where the other logs [e1]: a
    line written to a trace file has its fields rearranged, any other event
    is the same. *)
Definition ev_perm (p : list nat) (e1 e2 : event) : Prop :=
  match e1 with
  | Fprint f line =>
      exists fields,
        length fields = length p
        /\ line = tabbed fields /\ e2 = Fprint f (tabbed (permuted p fields))
  | _ => e2 = e1
  end.

(** Locals that agree but for what the value buffers hold. *)
Definition same_but_vals {X : Extern} (l1 l2 : locals X) : Prop :=
  model l2 = model l1 /\ power l2 = power l1 /\ power_withLeak l2 = power_withLeak l1
  /\ overall_power l2 = overall_power l1 /\ natural l2 = natural l1
  /\ lines l2 = lines l1
  /\ length (vals l2) = length (vals l1)
  /\ length (vals_withLeak l2) = length (vals_withLeak l1).

(** ** Runs that differ in what they print *)

(** [s] with another log. *)
Definition with_log (L : list event) (s : state) : state :=
  {| trace_num := trace_num s; volt_vector := volt_vector s; volt := volt s; fs := fs s;
     mapping := mapping s; io := io s; log := L |}.

(** [c2] follows [c1]: started in the same state but for the log, [c2] ends
    as [c1] does and in the same state but for the log, having logged events
    related one by one by [E] to those [c1] logged: when [c1] returns, [c2]
    returns a value related by [R]; when [c1] leaves through [exit], [c2]
    leaves with the same status; and, if [U] holds, when the behaviour of [c1]
    is undefined, that of [c2] is undefined for the same reason. *)
Definition sim (U : Prop) (E : event -> event -> Prop) {A B} (R : A -> B -> Prop)
           (c1 : M A) (c2 : M B) : Prop :=
  forall s L,
    match c1 s with
    | Ret a s' =>
        exists b e1 e2,
          c2 (with_log L s) = Ret b (with_log (L ++ e2) s')
          /\ R a b /\ log s' = log s ++ e1 /\ Forall2 E e1 e2
    | Exit code s' =>
        exists e1 e2,
          c2 (with_log L s) = Exit code (with_log (L ++ e2) s')
          /\ log s' = log s ++ e1 /\ Forall2 E e1 e2
    | Undef w s' =>
        U -> exists e1 e2,
          c2 (with_log L s) = Undef w (with_log (L ++ e2) s')
          /\ log s' = log s ++ e1 /\ Forall2 E e1 e2
    end.

(** The same of two runs neither of which does anything undefined: nothing
    is asked where the behaviour of [c1] or of [c2] is undefined. *)
Definition sim_if_defined (E : event -> event -> Prop) {A B} (R : A -> B -> Prop)
           (c1 : M A) (c2 : M B) : Prop :=
  forall s L,
    match c1 s, c2 (with_log L s) with
    | Undef _ _, _ | _, Undef _ _ => True
    | Ret a s', r2 =>
        exists b e1 e2,
          r2 = Ret b (with_log (L ++ e2) s')
          /\ R a b /\ log s' = log s ++ e1 /\ Forall2 E e1 e2
    | Exit code s', r2 =>
        exists e1 e2,
          r2 = Exit code (with_log (L ++ e2) s')
          /\ log s' = log s ++ e1 /\ Forall2 E e1 e2
    end.

(** Events other than lines of the trace files and the configuration dump. *)
Definition plain_event (e : event) : Prop :=
  match e with
  | Fprint _ _ | Call (c_dump_str_pairs _ _ _) => False
  | _ => True
  end.

(** An event of a run as the run with [detailed_3D] "off" logs it: in a dump
    of the configuration, entry 5 of the table ([detailed_3D]) reads "off". *)
Definition dumped_off (e : event) : event :=
  match e with
  | Call (c_dump_str_pairs tbl file prefix) =>
      Call (c_dump_str_pairs (<[5%nat := ("detailed_3D", "off")%string]> tbl) file prefix)
  | _ => e
  end.

Definition as_off (e1 e2 : event) : Prop := e2 = dumped_off e1.

(** A result with another log. *)
Definition relog {A} (L : list event) (r : result A) : result A :=
  match r with
  | Ret a s => Ret a (with_log L s)
  | Exit code s => Exit code (with_log L s)
  | Undef w s => Undef w (with_log L s)
  end.

(** The frame of a run whose trace has the header [ns]. *)
Definition with_names (ns : list string) (fr : frame) : frame :=
  {| do_transient := do_transient fr; flp_ptr := flp_ptr fr; names := ns; n := n fr |}.

(** ** What a computation keeps

    [keeps I Q c]: whatever its outcome, [c] takes a state [s] to a state
    related to [s] by [I], and leaves through [exit] only with a status that
    satisfies [Q]. *)
Definition keeps (I : state -> state -> Prop) (Q : Z -> Prop) {A} (c : M A) : Prop :=
  forall s, I s (final (c s)) /\ (forall code s', c s = Exit code s' -> Q code).

(** The states differ by logged events that all satisfy [P]. *)
Definition logged (P : event -> Prop) (s s' : state) : Prop :=
  exists evs, log s' = log s ++ evs /\ Forall P evs.

(** What a run that computes no temperature logs: messages on stderr and
    the calls of the set-up (the package model, the dump of the
    configuration, [populate_R_model]). *)
Definition idle_event (e : event) : Prop :=
  match e with
  | Stderr _ => True
  | Call c_populate_R_model => True
  | Call c_package_model => True
  | Call (c_dump_str_pairs _ _ _) => True
  | _ => False
  end.

(** [main]'s test of [argc]: [!(argc >= 5 && argc % 2)]. *)
Definition usage_error (argc : Z) : Prop := argc < 5 \/ Z.rem argc 2 = 0.

(** What a run without a temperature trace does to the state: it maps
    nothing, changes none of the files [fs] holds but the checkpoint, and logs
    idle events only (the configuration dump is one of them). *)
Definition idle (s s' : state) : Prop :=
  mapping s' = mapping s
  /\ (forall f, f <> TRANS_TEMP_FILE -> fs s' !! f = fs s !! f)
  /\ logged idle_event s s'.

(** ** Macros of util.h, on [int] arguments *)

Definition MAX (x y : Z) : Z := if x >? y then x else y.
Definition MIN (x y : Z) : Z := if x <? y then x else y.
Definition MAX3 (a b c : Z) : Z := MAX (MAX a b) c.
Definition MIN3 (a b c : Z) : Z := MIN (MIN a b) c.
Definition MID3 (a b c : Z) : Z :=
  if MIN a b <? c then MIN (MAX a b) c else MAX (MIN a b) c.
Definition MAX4 (a b c d : Z) : Z := MAX (MAX (MAX a b) c) d.
Definition MIN4 (a b c d : Z) : Z := MIN (MIN (MIN a b) c) d.

(** ** Words and configurations for the round trip *)

(** A C string that ["%s"] scans back whole: not empty, without white space
    (and without NUL). *)
Definition is_word (w : string) : Prop :=
  w <> ""%string
  /\ Forall (fun c => isspace c = false /\ c <> zero) (list_ascii_of_string w).

Definition with_pTot_outfile (v : string) (gc : global_config_t) : global_config_t :=
  {| flp_file := flp_file gc; p_infile := p_infile gc; pTot_outfile := v;
     t_outfile := t_outfile gc; config_file := config_file gc;
     dump_config := dump_config gc; detailed_3D := detailed_3D gc;
     use_microchannels := use_microchannels gc; materials_file := materials_file gc |}.

(** ** The checkpoint, written and read back *)

(** The bit pattern of a [double]. *)
Definition is_double (d : Z) : Prop := 0 <= d < 2 ^ 64.

(** The views [load_last_trans_temp_mmap] sets up on a checkpoint of
    [num_extra] extra nodes. *)
Definition loaded_views (model : grid_model_t) (num_extra : Z) : grid_model_t :=
  let L := n_layers model in
  let R := rows model in
  let C := cols model in
  set_views
    {| cuboid := map (fun l => map (fun r => View (24 + 8 * row_offset R C l r)) (upto R))
                     (upto L);
       extra := View (24 + 8 * cuboid_size L R C) |}
    (View (24 + 8 * cuboid_size L R C + 8 * num_extra)) model.

(** What a collaborator sees behind [p] when the mapped file holds [bytes]. *)
Definition seen (bytes : list Z) (n : Z) (p : dptr) : list Z :=
  match p with
  | Heap a => a
  | View off => dec_doubles (Z.to_nat n) (drop (Z.to_nat off) bytes)
  end.

(** ** Voltage vectors as the toolchain writes them *)

(** The character of a decimal digit. *)
Definition digit_char (d : Z) : ascii := ascii_of_nat (48 + Z.to_nat d).

(** Comma-separated entries [x.y], one per channel. *)
Fixpoint volt_chars (es : list (Z * Z)) : list ascii :=
  match es with
  | [] => []
  | [(x, y)] => [digit_char x; "."%char; digit_char y]
  | (x, y) :: rest => digit_char x :: "."%char :: digit_char y :: ","%char :: volt_chars rest
  end.

(** ** The power trace, character by character (hotspot.c, lines 352-417)

    [read_names] and [read_vals] as they work on the characters of the file.
    A buffer is the list of the characters stored in it, and a C string in a
    buffer ends before the first NUL.  [isspace] is that of the C locale, in
    which no byte above 127 is white space. *)

Definition LINE_SIZE : Z := 65536.

Module Text.

Definition NUL : ascii := "000"%char.
Definition newline : ascii := "010"%char.
Definition EOF : Z := -1.

(** The string a [char*] at the start of [buf] points to. *)
Fixpoint cstr (buf : list ascii) : list ascii :=
  match buf with
  | [] => []
  | c :: buf' => if Ascii.eqb c NUL then [] else c :: cstr buf'
  end.

(** A stream open for reading: what is left of the file and the end-of-file
    indicator. *)
Record FILE := {
  rest : list ascii;
  eof : bool
}.

Definition fopen (text : list ascii) : FILE := {| rest := text; eof := false |}.

(** libc: the characters [fgets] takes when its buffer has room for [k] more:
    up to and with the first newline; the end of the file met before that sets
    the end-of-file indicator. *)
Fixpoint fgets_chars (k : nat) (st : list ascii) : list ascii * list ascii * bool :=
  match k with
  | O => ([], st, false)
  | S k' =>
      match st with
      | [] => ([], [], true)
      | c :: st' =>
          if Ascii.eqb c newline then ([c], st', false)
          else let '(l, r, e) := fgets_chars k' st' in (c :: l, r, e)
      end
  end.

(** [fgets(line, size, fp)]: the characters stored in [line] (a NUL follows
    them) and the stream afterwards.  When nothing is read at the end of the
    file, [line] is left as it was; the callers test [feof] before they look at
    it. *)
Definition fgets (size : Z) (fp : FILE) : list ascii * FILE :=
  let '(l, r, e) := fgets_chars (Z.to_nat (size - 1)) (rest fp) in
  (l, {| rest := r; eof := eof fp || e |}).

(** The delimiters of [strtok(temp, " \r\t\n")]. *)
Definition is_delim (c : ascii) : bool :=
  Ascii.eqb c " "%char || Ascii.eqb c "013"%char || Ascii.eqb c "009"%char
  || Ascii.eqb c newline.

(** [strtok(temp, " \r\t\n") != NULL] on a copy of the string [str]. *)
Definition has_token (str : list ascii) : bool :=
  existsb (fun c => negb (is_delim c)) str.

(** The string left in [temp] by that [strtok]: the delimiter after the first
    token is overwritten with a NUL. *)
Fixpoint first_token_end (str : list ascii) (in_token : bool) : list ascii :=
  match str with
  | [] => []
  | c :: str' =>
      if is_delim c
      then if in_token then [] else c :: first_token_end str' false
      else c :: first_token_end str' true
  end.

(** The [do ... while (!src)] loop: lines are read until one has a token;
    [None] when [feof(fp)] holds after an [fgets].  Every turn but the last
    takes at least one character off the stream, which bounds the turns. *)
Fixpoint next_line (turns : nat) (fp : FILE) : option (list ascii) * FILE :=
  match turns with
  | O => (None, fp)
  | S turns' =>
      let '(line, fp') := fgets LINE_SIZE fp in
      if eof fp' then (None, fp')
      else if has_token (cstr line) then (Some line, fp')
      else next_line turns' fp'
  end.

(** [line[strlen(line)-1] != '\n'], on a string that has a token and so is
    not empty. *)
Definition lacks_newline (str : list ascii) : bool :=
  match last str with
  | Some c => negb (Ascii.eqb c newline)
  | None => true
  end.

(** [sscanf(src, "%s", buf)]: the value returned and the word stored, if any.
    With nothing but white space up to the end of the string the value is
    [EOF] and nothing is stored; it is never 0. *)
Definition sscanf_s (src : list ascii) : Z * list ascii :=
  match take_word (skip_space src) with
  | [] => (EOF, [])
  | w => (1, w)
  end.

(** [alloc_names(nr, nc)] (lines 446-460): one zeroed block of [nr * nc]
    characters, [names[i]] pointing at its offset [nc * i]. *)
Definition alloc_names (nr nc : Z) : list ascii := replicate (Z.to_nat (nr * nc)) NUL.

(** The string at [names[i]]. *)
Definition name_str (names : list ascii) (i : Z) : list ascii :=
  cstr (drop (Z.to_nat (STR_SIZE * i)) names).

(** A word and its NUL stored at offset [off] of the block. *)
Definition put_str (names : list ascii) (off : Z) (w : list ascii) : res (list ascii) :=
  if off + Z.of_nat (length w) + 1 <=? Z.of_nat (length names)
  then Ok (take (Z.to_nat off) names ++ w ++ [NUL]
           ++ drop (Z.to_nat off + length w + 1) names)
  else Fault "write past the end of the names table".

Section Reading.
Context (X : Extern).

(** The loop that chops the names from the line read: [n] turns are left
    before [i] reaches [MAX_UNITS]. *)
Fixpoint chop_names (n : nat) (i : Z) (src : list ascii) (names : list ascii)
  : res (Z * list ascii * list ascii) :=
  match src, n with
  | [], _ | _, O => Ok (i, src, names)
  | _, S n' =>
      let '(r, w) := sscanf_s src in
      if r =? 0 then Fatal "invalid format of names" else
      names' <~ (if r =? 1 then put_str names (STR_SIZE * i) w else Ok names) ;;
      (* src += strlen(names[i]) *)
      let len := length (name_str names' i) in
      if (length src <? len)%nat then Fault "src moved past the end of the line" else
      chop_names n' (i + 1) (skip_space (drop len src)) names'
  end.

Definition read_names (fp : FILE) (names : list ascii) : M (Z * list ascii * FILE) :=
  let '(got, fp) := next_line (S (length (rest fp))) fp in
  match got with
  | None => fatal "not enough names in trace file"
  | Some line =>
      let line := cstr line in
      if lacks_newline line then fatal "line too long" else
      r <- lift (chop_names (Z.to_nat (MAX_UNITS X)) 0 line names) ;;
      let '(i, src, names) := r in
      match src with
      | _ :: _ =>
          if i =? MAX_UNITS X then fatal "no. of units exceeded limit"
          else ret (i, names, fp)
      | [] => ret (i, names, fp)
      end
  end.

(** The loop that chops the values: [temp] holds the string the last
    [strtok] or [sscanf] left in it. *)
Fixpoint chop_vals (n : nat) (i : Z) (src temp : list ascii) (vals : list double)
  : res (Z * list ascii * list double) :=
  match src, n with
  | [], _ | _, O => Ok (i, src, vals)
  | _, S n' =>
      let '(r, w) := sscanf_s src in
      let temp' := if r =? 1 then w else temp in
      (* !sscanf(src, "%s", temp) || !sscanf(src, "%lf", &vals[i]); with
         nothing but white space at src the second value is EOF as well *)
      vals' <~ (if r =? 0 then Fatal "invalid format of values"
                else if r =? EOF then Ok vals
                else match scan_lf X (string_of_list_ascii src) with
                     | Some d => store vals i d
                     | None => Fatal "invalid format of values"
                     end) ;;
      (* src += strlen(temp) *)
      let len := length temp' in
      if (length src <? len)%nat then Fault "src moved past the end of the line" else
      chop_vals n' (i + 1) (skip_space (drop len src)) temp' vals'
  end.

Definition read_vals (fp : FILE) (vals : list double) : M (Z * list double * FILE) :=
  let '(got, fp) := next_line (S (length (rest fp))) fp in
  match got with
  | None => ret (0, vals, fp)
  | Some line =>
      let line := cstr line in
      if lacks_newline line then fatal "line too long" else
      r <- lift (chop_vals (Z.to_nat (MAX_UNITS X)) 0 line (first_token_end line false)
                   vals) ;;
      let '(i, src, vals) := r in
      match src with
      | _ :: _ =>
          if i =? MAX_UNITS X then fatal "no. of entries exceeded limit"
          else ret (i, vals, fp)
      | [] => ret (i, vals, fp)
      end
  end.

End Reading.

(** *** The driver on the characters of the trace

    [main] from line 739 on with [read_names] and [read_vals] as above; the
    rest is the driver's. *)

Section Run.
Context (X : Extern).

(** [names[0]] to [names[count-1]], as the driver passes them on. *)
Definition names_of (table : list ascii) (count : Z) : list string :=
  map (fun i => string_of_list_ascii (name_str table i)) (upto count).

(** Lines 739-788. *)
Definition open_traces (do_transient : bool) (m : RC_model_t X) (ptrace : option (list ascii))
  : M (RC_model_t X * list string * Z * FILE * option string * Z) :=
  n <- count_units X m ;;
  let leak := truthy (leakage_used (config (grid m))) in
  pin <- match ptrace with
         | Some chars => ret (fopen chars)
         | None => fatal "unable to open power trace input file"
         end ;;
  tout_ok <- get (fun s => fopen_tout_ok (io s)) ;;
  when (do_transient && negb tout_ok)
       (fatal "unable to open temperature trace file for output") ;;;
  pout_ok <- get (fun s => fopen_pout_ok (io s)) ;;
  when (do_transient && leak && negb pout_ok)
       (fatal "unable to open trace file (total power with leakage) for output") ;;;
  (* names of functional units *)
  r <- read_names X pin (alloc_names (MAX_UNITS X) STR_SIZE) ;;
  let '(cnt, table, pin) := r in
  let names := names_of table cnt in
  when (negb (cnt =? n)) (fatal "no. of units in floorplan and trace file differ") ;;;
  (* header lines of trace files and cleanup of old TRANS_TEMP_FILE *)
  tn <- get trace_num ;;
  if (tn <=? to_uint 0) && do_transient then
    write_names TOUT names n ;;;
    when leak (write_names POUT names n) ;;;
    when (tn =? to_uint 0)
         (found <- get (fun s => present (fs s !! TRANS_TEMP_FILE)) ;;
          when found
               (ok <- get (fun s => unlink_ok (io s)) ;;
                if ok
                then modify (fun s => set_fs (delete TRANS_TEMP_FILE (fs s)) s) ;;;
                     tell (Unlink TRANS_TEMP_FILE)
                else fatal "Could not delete old transient temp data file")) ;;;
    ret (m, names, n, pin, None, 0)
  else if (to_uint 0 <? tn) && do_transient then
    r <- load_last_trans_temp_mmap (grid m) TRANS_TEMP_FILE ;;
    let '(g', mapped_region, mapped_size) := r in
    ret (set_grid g' m, names, n, pin, mapped_region, mapped_size)
  else ret (m, names, n, pin, None, 0).

(** Line 793: [while ((num = read_vals(pin, vals)) != 0)].  Every turn but
    the last takes at least one character off the stream, which bounds the
    turns. *)
Fixpoint trace_loop (turns : nat) (fr : frame) (pin : FILE) (l : locals X) : M (locals X) :=
  match turns with
  | O => ret l
  | S turns' =>
      r <- read_vals X pin (vals l) ;;
      let '(num, vals', pin') := r in
      if num =? 0 then ret l
      else
        l' <- trace_row X fr num vals' l ;;
        trace_loop turns' fr pin' l'
  end.

Definition run_trace (do_transient : bool) (flp : option flp_t) (l : locals X)
           (ptrace : option (list ascii)) : M Z :=
  m <- init_temps X do_transient (model l) ;;
  r <- open_traces do_transient m ptrace ;;
  let '(m, names, n, pin, mapped_region, mapped_size) := r in
  let fr := {| do_transient := do_transient; flp_ptr := flp; names := names; n := n |} in
  let l := {| model := m; power := power l; power_withLeak := power_withLeak l;
              overall_power := overall_power l; vals := vals l;
              vals_withLeak := vals_withLeak l; natural := natural l; lines := lines l |} in
  l <- trace_loop (S (length (rest pin))) fr pin l ;;
  finish X fr mapped_region mapped_size l.

Definition main_after_config (gc : global_config_t) (inp : input X)
           (ptrace : option (list ascii)) : M Z :=
  r <- setup X gc inp ;;
  let '(do_transient, flp, l) := r in
  run_trace do_transient flp l ptrace.

Definition main (inp : input X) (ptrace : option (list ascii)) : M Z :=
  if negb ((5 <=? argc inp) && negb (Z.rem (argc inp) 2 =? 0))
  then ret 1    (* usage *)
  else
    gc <- global_config_from_strs X (table inp) ;;
    parse_volt_vector ;;;
    main_after_config gc inp ptrace.

End Run.

(** *** A trace file as the toolchain writes it *)

(** A line of the file: nothing but blanks, or cells of a word and the white
    space that follows it. *)
Inductive tline :=
| Blank (ws : list ascii)
| Row (cells : list (list ascii * list ascii)).

Definition line_text (l : tline) : list ascii :=
  match l with
  | Blank ws => ws ++ [newline]
  | Row cells => concat (map (fun c => fst c ++ snd c) cells) ++ [newline]
  end.

Definition text (ls : list tline) : list ascii := concat (map line_text ls).

(** The fields of a line, as the driver's loops see them. *)
Definition line_fields (l : tline) : list string :=
  match l with
  | Blank _ => []
  | Row cells => map (fun c => string_of_list_ascii (fst c)) cells
  end.

(** The names table after [names] have been read into a fresh one. *)
Definition table_of (nr : Z) (names : list string) : list ascii :=
  concat (map (fun w => let w := list_ascii_of_string w in
                        w ++ replicate (Z.to_nat STR_SIZE - length w) NUL) names)
  ++ replicate (Z.to_nat (STR_SIZE * (nr - Z.of_nat (length names)))) NUL.

(** [read_vals] on the fields of the lines of a trace: empty lines are
    skipped, the end of the file gives 0. *)
Fixpoint read_vals_fields (X : Extern) (fp : list (list string)) (vals : list double)
  : M (Z * list double * list (list string)) :=
  match fp with
  | [] => ret (0, vals, [])
  | [] :: fp' => read_vals_fields X fp' vals
  | fields :: fp' =>
      r <- read_vals_line X fields vals ;;
      ret (fst r, snd r, fp')
  end.

(** The lines the embedding of the driver takes for granted: a blank line
    holds delimiters of the [strtok] only; a row starts with its first word,
    its words are separated by white space and hold neither white space nor
    NUL; either fits the line buffer with its newline. *)
Definition word_ok (w : list ascii) : Prop :=
  w <> [] /\ Forall (fun c => isspace c = false /\ c <> NUL) w.

Definition sep_ok (sep : list ascii) : Prop :=
  Forall (fun c => isspace c = true /\ c <> newline) sep.

Fixpoint cells_ok (cells : list (list ascii * list ascii)) : Prop :=
  match cells with
  | [] => True
  | [(w, sep)] => word_ok w /\ sep_ok sep
  | (w, sep) :: rest => word_ok w /\ sep_ok sep /\ sep <> [] /\ cells_ok rest
  end.

Definition line_ok (l : tline) : Prop :=
  Z.of_nat (length (line_text l)) < LINE_SIZE
  /\ match l with
     | Blank ws => Forall (fun c => is_delim c = true /\ c <> newline) ws
     | Row cells => cells <> [] /\ cells_ok cells
     end.

(** What may follow the last newline of the file: a last line that lacks
    its newline and is shorter than the line buffer. *)
Definition unterminated (chars : list ascii) : Prop :=
  Forall (fun c => c <> newline) chars /\ Z.of_nat (length chars) < LINE_SIZE - 1.

(** Every name fits its row of the table with its NUL. *)
Definition names_fit (l : tline) : Prop :=
  match l with
  | Blank _ => True
  | Row cells => Forall (fun c => Z.of_nat (length (fst c)) < STR_SIZE) cells
  end.

End Text.

(** *** Rows under the chopping loops *)

(** The characters of the cells of a row. *)
Definition cells_text (cells : list (list ascii * list ascii)) : list ascii :=
  concat (map (fun c => fst c ++ snd c) cells).

(** What is left of a row when the loop is at the start of a cell. *)
Definition src_of (cells : list (list ascii * list ascii)) : list ascii :=
  match cells with
  | [] => []
  | _ => cells_text cells ++ [Text.newline]
  end.

(** The next line with a token, and what follows it. *)
Fixpoint first_row (ls : list Text.tline) : option (list (list ascii * list ascii)) * list Text.tline :=
  match ls with
  | [] => (None, [])
  | Text.Blank _ :: ls' => first_row ls'
  | Text.Row cells :: ls' => (Some cells, ls')
  end.


(** A row of the names table that holds [w], and [k] rows never written. *)
Definition row_of (w : list ascii) : list ascii :=
  w ++ replicate (Z.to_nat STR_SIZE - length w) Text.NUL.

Definition zeros (k : nat) : list ascii := replicate (Z.to_nat STR_SIZE * k) Text.NUL.

(** The fields of a values line, scanned in order. *)
Definition scan_fields (X : Extern) (fields : list string) : res (list Z) :=
  rfold (fun acc f =>
           match scan_lf X f with
           | Some d => Ok (acc ++ [d])
           | None => Fatal "invalid format of values"
           end) fields [].

(** libc: ["%lf"] takes the number from the first word of its input; what
    follows the white space after that word does not matter. *)
Definition scans_first_word (X : Extern) : Prop :=
  forall w more,
    Text.word_ok w ->
    match more with [] => True | c :: _ => isspace c = true end ->
    scan_lf X (string_of_list_ascii (w ++ more)) = scan_lf X (string_of_list_ascii w).

(** The options of [global_config_from_strs] other than [p]. *)
Definition optional_keys : list string :=
  ["f"; "pTot"; "o"; "c"; "d"; "detailed_3D"; "use_microchannels"; "materials_file";
   "v"; "t"; "TxRx_alpha"; "TxRx_beta"; "TxRx_Tref"; "TxRx_S"; "TxRx_pvmod"]%string.

(** A small power trace: an empty line, the names [A] and [B], one row. *)
Module Sample_trace.

Definition lines : list Text.tline :=
  [ Text.Blank [" "%char];
    Text.Row [(["A"%char], ["009"%char]); (["B"%char], [])];
    Text.Row [(["1"%char], [" "%char]); (["2"%char], [])] ].

End Sample_trace.

(** * Properties *)

(** ** Reasoning about the driver monad *)

Lemma bind_Ret {A B} (c : M A) (k : A -> M B) s b s' :
  bind c k s = Ret b s' -> exists a s1, c s = Ret a s1 /\ k a s1 = Ret b s'.
Proof.
  unfold bind. destruct (c s) as [a s1| |]; intros H; try discriminate. eauto.
Qed.

Lemma bind_step {A B} (c : M A) (k : A -> M B) s a s1 :
  c s = Ret a s1 -> bind c k s = k a s1.
Proof. unfold bind. intros ->. reflexivity. Qed.

Lemma when_Ret b c s a s' :
  when b c s = Ret a s' -> (b = false /\ s' = s) \/ (b = true /\ c s = Ret a s').
Proof.
  destruct b; simpl; intros H; [right | left]; split; auto.
  inversion H. reflexivity.
Qed.

Lemma when_fatal_Ret b msg s a s' :
  when b (fatal msg) s = Ret a s' -> b = false /\ s' = s.
Proof. intros [H|[_ H]]%when_Ret; [assumption | discriminate]. Qed.

Lemma lift_Ret {A} (r : res A) s a s' : lift r s = Ret a s' -> r = Ok a /\ s' = s.
Proof. destruct r; simpl; intros H; inversion H; auto. Qed.

Ltac bind_inv H :=
  let a := fresh "a" in
  let s := fresh "s" in
  let H1 := fresh H in
  apply bind_Ret in H as (a & s & H1 & H).

Tactic Notation "bind_as" hyp(H) ident(a) ident(s) ident(H1) :=
  apply bind_Ret in H as (a & s & H1 & H).

(** ** The [detailed_3D] flag *)

Lemma detailed_3D_flag_on v : detailed_3D_flag v = String.eqb v "on".
Proof. unfold detailed_3D_flag. destruct (String.eqb v "on"), (String.eqb v "off"); reflexivity. Qed.

(** ** C10: microchannels need the grid model with [detailed_3D] on *)

(** C10: with [use_microchannels] set, a block (or unknown) model or a
    [detailed_3D] flag that is not on ends the run by [exit(1)] during set-up.
    Up to then the run has written messages on stderr and, when asked for, has
    run the package model and dumped the configuration; the thermal circuit
    ([populate_R_model]) was not yet built. *)
Theorem microchannels_require_grid_and_detailed_3D (X : Extern) (gc : global_config_t)
        (inp : input X) (ptrace : option (list (list string))) (s : state) :
  use_microchannels gc <> 0 ->
  type (model_in inp) <> GRID_MODEL \/ detailed_3D gc <> "on"%string ->
  exists s' evs,
    main_after_config X gc inp ptrace s = Exit 1 s'
    /\ log s' = log s ++ evs
    /\ Forall before_circuit evs
    /\ ~ In (Call c_populate_R_model) evs.
Proof.
  intros Hum Hbad.
  assert (Hum' : truthy (use_microchannels gc) = true).
  { unfold truthy. apply Z.eqb_neq in Hum. rewrite Hum. reflexivity. }
  assert (Hcheck : negb (is_grid (type (model_in inp)))
                   || negb (detailed_3D_flag (detailed_3D gc)) = true).
  { destruct Hbad as [Hty | Hd3].
    - destruct (type (model_in inp)); simpl; congruence.
    - rewrite detailed_3D_flag_on. apply String.eqb_neq in Hd3. rewrite Hd3.
      apply orb_true_r. }
  unfold main_after_config, setup, dump_configuration, global_config_to_strs, dump_str_pairs.
  rewrite Hum'.
  destruct (present _ && truthy (package_model_used _));
    destruct (differs (dump_config gc) NULLFILE);
    destruct (thermal_strs inp) as [thermal|];
    destruct (microchannel_strs inp) as [micro|];
    destruct (differs (grid_layer_file (config (grid (model_in inp)))) NULLFILE);
    destruct (differs (flp_file gc) NULLFILE);
    destruct (is_grid (type (model_in inp)));
    destruct (detailed_3D_flag (detailed_3D gc));
    destruct (truthy (has_lcf (grid (model_in inp))));
    simpl in Hcheck; try discriminate; cbn -[NULLFILE];
    eexists; eexists; (split; [reflexivity|]); cbn;
    (split; [first [rewrite <- ?app_assoc; reflexivity | symmetry; apply app_nil_r]|]);
    (split; [repeat constructor | cbn; intuition discriminate]).
Qed.

(** C10, witness: microchannels asked for with [detailed_3D] off. *)
Lemma microchannels_require_witness :
  exists s' evs,
    main_after_config Sample.X (Sample.gc_with "off" 1)
      (Sample.grid_run Sample.two_layers (Sample.opts [])) Sample.ptrace_AB
      (Sample.start ∅ Sample.io_ok) = Exit 1 s'
    /\ log s' = log (Sample.start ∅ Sample.io_ok) ++ evs
    /\ Forall before_circuit evs
    /\ ~ In (Call c_populate_R_model) evs.
Proof.
  apply microchannels_require_grid_and_detailed_3D; [discriminate | right; discriminate].
Defined.

(** The sample checkpoint is what chunk 0 of the two-layer run writes. *)
Example chunk0_run_writes_checkpoint :
  fs (final (main Sample.X (Sample.grid_run Sample.two_layers (Sample.opts [("t", "0")]))
               Sample.ptrace_AB (Sample.start ∅ Sample.io_ok)))
  = Sample.chunk0_files.
Proof. vm_compute. reflexivity. Qed.

(** ** C7: a failing [msync] *)

(** The flush never leaves through [exit]: with a mapped region it returns,
    whatever [msync] answered. *)
Lemma flush_returns (f : string) (size : Z) (s : state) :
  exists s', flush_updated_last_trans_temp (Some f) size s = Ret tt s'
             /\ exists evs, log s' = log s ++ Msync (msync_ok (io s)) :: evs.
Proof.
  unfold flush_updated_last_trans_temp, bind, get, modify, tell, perror.
  destruct (fs s !! f) as [bytes|]; [destruct (8 <=? length bytes)%nat|];
    cbn [io set_fs emit]; destruct (msync_ok (io s)); cbn [negb ret];
    eexists; (split; [reflexivity|]); unfold emit, set_fs; cbn [log];
    eexists; rewrite <- ?app_assoc; reflexivity.
Qed.

(** C7, the code at the failing input: chunk 1 of a chunked run whose [msync]
    fails.  [perror("msync")] is all that happens: the run goes on to unmap the
    checkpoint and [main] returns 0. *)
Theorem msync_failure_is_not_fatal :
  exists s',
    main Sample.X (Sample.grid_run Sample.two_layers (Sample.opts [("t", "1")]))
      Sample.ptrace_AB (Sample.start Sample.chunk0_files Sample.io_msync_fails)
    = Ret 0 s'
    /\ log s' = [Call c_populate_R_model; Call c_populate_C_model;
                 Mmap TRANS_TEMP_FILE 248;
                 Call (c_compute_temp [1; 2; 0; 0; 0; 0; 0; 0; 0; 0; 0; 0; 0; 0] false);
                 Fprint TOUT [F2 305; Tab; F2 308; Newline];
                 Call (c_compute_temp [3; 4; 0; 0; 0; 0; 0; 0; 0; 0; 0; 0; 0; 0] false);
                 Fprint TOUT [F2 308; Tab; F2 312; Newline];
                 Msync false; Stderr "msync"; Munmap].
Proof. eexists. split; vm_compute; reflexivity. Qed.

(** ** C1: the standalone run ([trace_num = -1]) *)

(** [trace_num] is an [unsigned int]: for the stored -1 the test
    [trace_num <= 0] is false and [trace_num > 0] is true. *)
Lemma standalone_tests :
  (to_uint (-1) <=? to_uint 0) = false /\ (to_uint 0 <? to_uint (-1)) = true
  /\ (to_uint (-1) =? to_uint 0) = false.
Proof. vm_compute. auto. Qed.

Lemma standalone_init_temps_skipped (X : Extern) (dt : bool) (m : RC_model_t X) (s : state) :
  trace_num s = to_uint (-1) -> init_temps X dt m s = Ret m s.
Proof. intros H. unfold init_temps, bind, get. rewrite H. reflexivity. Qed.

(** C1, the code at the failing input: a transient run without [-t].
    [trace_num] holds 4294967295; no initial temperature is set
    ([c_set_temp], [c_read_temp]), no header line is written, and the
    checkpoint is opened for loading -- which ends the run, with
    [perror("open")] when there is no checkpoint and with "Invalid file header"
    when an earlier chunked run left one. *)
Theorem standalone_run_loads_checkpoint :
  (exists s',
      main Sample.X (Sample.grid_run Sample.two_layers (Sample.opts []))
        Sample.ptrace_AB (Sample.start ∅ Sample.io_ok) = Exit 1 s'
      /\ trace_num s' = 4294967295
      /\ log s' = [Call c_populate_R_model; Call c_populate_C_model; Stderr "open"])
  /\ (exists s',
      main Sample.X (Sample.grid_run Sample.two_layers (Sample.opts []))
        Sample.ptrace_AB (Sample.start Sample.chunk0_files Sample.io_ok) = Exit 1 s'
      /\ log s' = [Call c_populate_R_model; Call c_populate_C_model;
                   Mmap TRANS_TEMP_FILE 248; Munmap; Stderr "Invalid file header"]).
Proof.
  split; eexists; (split; [vm_compute; reflexivity|]); vm_compute; auto.
Qed.

(** ** C2: loading the checkpoint *)

Lemma to_int_range z : - 2 ^ 31 <= to_int z < 2 ^ 31.
Proof. unfold to_int. pose proof (Z.mod_pos_bound (z + 2 ^ 31) (2 ^ 32)). lia. Qed.

Lemma header_int_range bytes k : - 2 ^ 31 <= header_int bytes k < 2 ^ 31.
Proof. apply to_int_range. Qed.

Lemma to_size_t_small z : 0 <= z < 2 ^ 64 -> to_size_t z = z.
Proof. intros H. unfold to_size_t. apply Z.mod_small. exact H. Qed.

Lemma cuboid_size_exact L R C :
  0 <= L < 2 ^ 31 -> 0 <= R < 2 ^ 31 -> 0 <= C < 2 ^ 31 -> L * R * C < 2 ^ 64 ->
  cuboid_size L R C = L * R * C.
Proof.
  intros HL HR HC Hp. unfold cuboid_size.
  rewrite (to_size_t_small L), (to_size_t_small R), (to_size_t_small C) by lia.
  rewrite (to_size_t_small (L * R)) by nia.
  apply to_size_t_small. nia.
Qed.

Lemma row_offset_exact L R C l r :
  0 <= L < 2 ^ 31 -> 0 <= R < 2 ^ 31 -> 0 <= C < 2 ^ 31 -> L * R * C < 2 ^ 64 ->
  0 <= l < L -> 0 <= r < R ->
  row_offset R C l r = (l * R + r) * C.
Proof.
  intros HL HR HC Hp Hl Hr. unfold row_offset.
  rewrite (to_size_t_small l), (to_size_t_small R), (to_size_t_small C),
    (to_size_t_small r) by lia.
  rewrite (to_size_t_small (l * R)) by nia.
  rewrite (to_size_t_small (l * R + r)) by nia.
  apply to_size_t_small.
  assert (l * R + r < L * R) by nia.
  split; [nia|].
  apply Z.le_lt_trans with (L * R * C); [|lia].
  apply Z.mul_le_mono_nonneg_r; lia.
Qed.

Lemma lookup_upto (n i : Z) : 0 <= i < n -> upto n !! Z.to_nat i = Some i.
Proof.
  intros H. unfold upto. rewrite lookup_seqZ_lt by lia. f_equal. lia.
Qed.

(** C2: loading the checkpoint for trace chunk [N > 0] from a file that can
    be opened and mapped.  The load returns only when the magic, the stored
    trace index ([N - 1]) and the stored dimensions match; on any mismatch the
    mapping is removed ([munmap]) and the process exits with status 1; the file
    is never written; and on success the cuboid rows, [extra] and [last_temp]
    are views at byte offsets 24 + 8((l R + r) C), 24 + 8 L R C and
    24 + 8 L R C + 8 num_extra of the mapping. *)
Theorem load_checks_header_and_exposes_views
        (model : grid_model_t) (filename : string) (s : state) (bytes : list Z) :
  fs s !! filename = Some bytes -> bytes <> [] ->
  open_ok (io s) = true -> mmap_ok (io s) = true ->
  0 < trace_num s < 2 ^ 32 ->
  0 <= n_layers model -> 0 <= rows model -> 0 <= cols model ->
  n_layers model * rows model * cols model < 2 ^ 64 ->
  let r := load_last_trans_temp_mmap model filename s in
  let cells := n_layers model * rows model * cols model in
  fs (final r) = fs s
  /\ (forall v s', r = Ret v s' -> header_matches bytes model (trace_num s))
  /\ (~ header_matches bytes model (trace_num s) ->
      exists s', r = Exit 1 s' /\ mapping s' = None /\ In Munmap (log s'))
  /\ (header_matches bytes model (trace_num s) ->
      exists m' s',
        r = Ret (m', Some filename, Z.of_nat (length bytes)) s'
        /\ mapping s' = Some (filename, Z.of_nat (length bytes))
        /\ (forall l r, 0 <= l < n_layers model -> 0 <= r < rows model ->
              cuboid_row (last_trans m') l r
              = Some (View (24 + 8 * ((l * rows model + r) * cols model))))
        /\ extra (last_trans m') = View (24 + 8 * cells)
        /\ last_temp m' = View (24 + 8 * cells + 8 * header_int bytes 5)).
Proof.
  intros Hfile Hne Hopen Hmmap HN HL HR HC Hcells r cells.
  assert (Hlen : (0 <? Z.of_nat (length bytes)) = true).
  { apply Z.ltb_lt. destruct bytes; [congruence | simpl; lia]. }
  assert (Hidx : to_uint (trace_num s - 1) = trace_num s - 1).
  { unfold to_uint. apply Z.mod_small. lia. }
  subst r.
  cbv beta iota zeta delta [load_last_trans_temp_mmap bind c_open get modify tell munmap
                              fatal exit perror ret].
  rewrite Hopen, Hfile. cbv beta iota zeta. rewrite Hmmap, Hlen.
  cbv beta iota zeta delta [andb negb]. cbn [set_mapping emit trace_num].
  rewrite Hidx. unfold header_matches.
  destruct (Z.eqb_spec (header_int bytes 0) MAGIC_MMAP_FILE) as [E0|E0];
    destruct (Z.eqb_spec (to_uint (header_int bytes 1)) (trace_num s - 1)) as [E1|E1];
    cbn [negb orb];
    try (split; [reflexivity|]; split; [discriminate|]; split;
         [intros _; eexists; split; [reflexivity|]; split; [reflexivity|];
          cbn [log emit set_mapping]; rewrite !in_app_iff; simpl; tauto
         |intros (? & ? & _); congruence]).
  destruct (Z.eqb_spec (header_int bytes 2) (n_layers model)) as [E2|E2];
    destruct (Z.eqb_spec (header_int bytes 3) (rows model)) as [E3|E3];
    destruct (Z.eqb_spec (header_int bytes 4) (cols model)) as [E4|E4];
    cbn [negb orb].
  2-8: (split; [reflexivity|]; split; [discriminate|]; split;
         [intros _; eexists; split; [reflexivity|]; split; [reflexivity|];
          cbn [log emit set_mapping]; rewrite !in_app_iff; simpl; tauto
         |intros (? & ? & ? & ? & ?); congruence]).
  pose proof (header_int_range bytes 2). pose proof (header_int_range bytes 3).
  pose proof (header_int_range bytes 4).
  split; [reflexivity|]. split; [intros; auto|]. split; [intros Hn; exfalso; apply Hn; auto|].
  intros _. eexists; eexists. split; [reflexivity|]. split; [reflexivity|].
  rewrite E2, E3, E4.
  split; [|split].
  - intros l r Hl Hr. unfold cuboid_row. cbn [last_trans set_views cuboid].
    rewrite list_lookup_fmap, lookup_upto by lia. cbn.
    rewrite list_lookup_fmap, lookup_upto by lia. cbn.
    rewrite (row_offset_exact (n_layers model)) by lia. reflexivity.
  - cbn [last_trans set_views extra]. rewrite cuboid_size_exact by lia. reflexivity.
  - cbn [last_temp set_views]. rewrite cuboid_size_exact by lia. reflexivity.
Qed.

(** C2, witness: chunk 1 loads the checkpoint chunk 0 wrote for the two-layer
    model (2 x 1 x 1 cells, 12 extra nodes). *)
Lemma load_checks_header_witness :
  let r := load_last_trans_temp_mmap Sample.two_layers TRANS_TEMP_FILE Sample.chunk1_start in
  fs (final r) = fs Sample.chunk1_start
  /\ exists m' s',
      r = Ret (m', Some TRANS_TEMP_FILE, Z.of_nat (length Sample.chunk0_bytes)) s'
      /\ cuboid_row (last_trans m') 1 0 = Some (View (24 + 8 * ((1 * 1 + 0) * 1)))
      /\ extra (last_trans m') = View (24 + 8 * (2 * 1 * 1))
      /\ last_temp m' = View (24 + 8 * (2 * 1 * 1) + 8 * header_int Sample.chunk0_bytes 5).
Proof.
  intros r.
  assert (Hm : header_matches Sample.chunk0_bytes Sample.two_layers
                 (trace_num Sample.chunk1_start)).
  { vm_compute. repeat split. }
  destruct (load_checks_header_and_exposes_views
              Sample.two_layers TRANS_TEMP_FILE Sample.chunk1_start Sample.chunk0_bytes)
    as (Hfs & _ & _ & Hok).
  - vm_compute. reflexivity.
  - vm_compute. discriminate.
  - reflexivity.
  - reflexivity.
  - vm_compute. split; reflexivity.
  - vm_compute. discriminate.
  - vm_compute. discriminate.
  - vm_compute. discriminate.
  - vm_compute. reflexivity.
  - split; [exact Hfs|].
    destruct (Hok Hm) as (m' & s' & Hr & _ & Hrow & Hextra & Hlast).
    exists m', s'. split; [exact Hr|]. split; [|split].
    + apply (Hrow 1 0); vm_compute; split; congruence.
    + exact Hextra.
    + exact Hlast.
Defined.

(** ** C3: saving the checkpoint *)

Lemma to_uint_to_int z : to_uint (to_int z) = to_uint z.
Proof.
  unfold to_uint, to_int.
  pose proof (Z.div_mod (z + 2 ^ 31) (2 ^ 32) ltac:(lia)) as H.
  replace ((z + 2 ^ 31) mod 2 ^ 32 - 2 ^ 31)
    with (z + (- ((z + 2 ^ 31) / 2 ^ 32)) * 2 ^ 32) by lia.
  apply Z.mod_add. lia.
Qed.

Lemma enc_int_to_int z : enc_int (to_int z) = enc_int z.
Proof. unfold enc_int. rewrite to_uint_to_int. reflexivity. Qed.

Lemma enc_doubles_app a b : enc_doubles (a ++ b) = enc_doubles a ++ enc_doubles b.
Proof. unfold enc_doubles. rewrite map_app, concat_app. reflexivity. Qed.

Lemma enc_doubles_concat (l : list (list double)) :
  enc_doubles (concat l) = concat (map enc_doubles l).
Proof.
  induction l as [|a l IH]; [reflexivity|].
  simpl. rewrite enc_doubles_app, IH. reflexivity.
Qed.

Lemma map_upto_lookup {A B} (l : list A) (F : option A -> B) :
  map (fun i => F (l !! Z.to_nat i)) (upto (Z.of_nat (length l)))
  = map (fun x => F (Some x)) l.
Proof.
  apply list_eq. intros i. rewrite !list_lookup_fmap. unfold upto.
  destruct (l !! i) as [x|] eqn:Hx.
  - apply lookup_lt_Some in Hx as Hlt.
    rewrite lookup_seqZ_lt by lia. simpl. rewrite Z.add_0_l, Nat2Z.id, Hx. reflexivity.
  - apply lookup_ge_None in Hx. rewrite lookup_seqZ_ge by lia. reflexivity.
Qed.

Lemma with_file_twice f a b s : with_file f a (with_file f b s) = with_file f a s.
Proof. unfold with_file, set_fs. simpl. rewrite insert_insert_eq. reflexivity. Qed.

Lemma fwrite_with_file f cur b s :
  fwrite f b (with_file f cur s) = Ret tt (with_file f (cur ++ b) s).
Proof.
  unfold fwrite, modify. f_equal.
  change (fs (with_file f cur s)) with (<[f := cur]> (fs s)).
  rewrite lookup_insert_eq. simpl.
  change (set_fs ?v (with_file f cur s)) with (with_file f (cur ++ b) (with_file f cur s)).
  apply with_file_twice.
Qed.

Lemma load_doubles_heap a n s :
  0 <= n <= Z.of_nat (length a) ->
  load_doubles (Heap a) n s = Ret (take (Z.to_nat n) a) s.
Proof.
  intros H. unfold load_doubles.
  destruct (Z.leb_spec 0 n); [|lia].
  destruct (Z.leb_spec n (Z.of_nat (length a))); [|lia]. reflexivity.
Qed.

Lemma for_each_writes {A} (l : list A) (body : A -> M unit) (g : A -> list Z) f s :
  (forall x cur, x ∈ l -> body x (with_file f cur s) = Ret tt (with_file f (cur ++ g x) s)) ->
  forall cur,
    for_each l body (with_file f cur s) = Ret tt (with_file f (cur ++ concat (map g l)) s).
Proof.
  induction l as [|x l IH]; intros Hbody cur.
  - simpl. rewrite app_nil_r. reflexivity.
  - simpl. unfold bind. rewrite Hbody by apply list_elem_of_here.
    rewrite IH.
    + rewrite <- app_assoc. reflexivity.
    + intros y cur' Hy. apply Hbody. apply list_elem_of_further, Hy.
Qed.

Lemma elem_of_upto n i : i ∈ upto n -> 0 <= i < n.
Proof. unfold upto. rewrite elem_of_seqZ. lia. Qed.

Lemma concat_layers (cub : list (list (list double))) :
  concat (map (fun layer => enc_doubles (concat layer)) cub)
  = enc_doubles (concat (concat cub)).
Proof.
  induction cub as [|layer cub IH]; [reflexivity|].
  cbn [map concat]. rewrite IH, concat_app, enc_doubles_app. reflexivity.
Qed.

(** The two nested loops of [save_last_trans_temp_mmap] append the cuboid,
    layer by layer and row by row. *)
Lemma save_cuboid_rows (cub : list (list (list double))) (L R C : Z) f s :
  cuboid_shape L R C cub ->
  forall cur,
    for_each (upto L) (fun l =>
      for_each (upto R) (fun r =>
        match map (map Heap) cub !! Z.to_nat l ≫= (.!! Z.to_nat r) with
        | Some p => bind (load_doubles p C) (fun ds => fwrite f (enc_doubles ds))
        | None => undefined "cuboid[l][r] outside the cuboid"
        end)) (with_file f cur s)
    = Ret tt (with_file f (cur ++ enc_doubles (concat (concat cub))) s).
Proof.
  intros [HL Hlayers] cur.
  rewrite (for_each_writes _ _
             (fun l => match cub !! Z.to_nat l with
                       | Some layer => enc_doubles (concat layer)
                       | None => []
                       end)).
  - rewrite <- HL, (map_upto_lookup cub
                      (fun o => match o with
                                | Some layer => enc_doubles (concat layer)
                                | None => []
                                end)).
    rewrite concat_layers. reflexivity.
  - intros l cur' Hl%elem_of_upto.
    destruct (cub !! Z.to_nat l) as [layer|] eqn:Hlayer.
    2:{ apply lookup_ge_None in Hlayer. lia. }
    rewrite Forall_forall in Hlayers.
    destruct (Hlayers layer) as [HR Hrows].
    { apply list_elem_of_lookup. eauto. }
    rewrite (for_each_writes _ _
               (fun r => match layer !! Z.to_nat r with
                         | Some row => enc_doubles row
                         | None => []
                         end)).
    + rewrite <- HR, (map_upto_lookup layer
                        (fun o => match o with
                                  | Some row => enc_doubles row
                                  | None => []
                                  end)).
      rewrite enc_doubles_concat. reflexivity.
    + intros r cur'' Hr%elem_of_upto.
      destruct (layer !! Z.to_nat r) as [row|] eqn:Hrow.
      2:{ apply lookup_ge_None in Hrow. lia. }
      rewrite list_lookup_fmap, Hlayer. simpl.
      rewrite list_lookup_fmap, Hrow. simpl.
      rewrite Forall_forall in Hrows.
      assert (HC : Z.of_nat (length row) = C).
      { apply Hrows, list_elem_of_lookup. eauto. }
      unfold bind. rewrite load_doubles_heap by lia.
      rewrite <- HC, Nat2Z.id, firstn_all. apply fwrite_with_file.
Qed.

(** C3: the checkpoint save writes [last_trans_temp_mmap.bin] from scratch
    (whatever the file held before): the six-[int] header -- magic, current
    trace index, [n_layers], [rows], [cols], [num_extra] --, then the
    [n_layers * rows * cols] cuboid doubles layer by layer and row by row,
    then [num_extra] doubles of [extra], then the first
    [total_n_blocks + EXTRA] (plus [EXTRA_SEC] exactly when [model_secondary]
    is set) doubles of [last_temp]. *)
Theorem save_writes_checkpoint_layout
        (X : Extern) (m : grid_model_t) (num_extra : Z) (s : state)
        (cub : list (list (list double))) (ext t_last : list double) :
  fopen_wb_ok (io s) = true ->
  cuboid (last_trans m) = map (map Heap) cub ->
  cuboid_shape (n_layers m) (rows m) (cols m) cub ->
  extra (last_trans m) = Heap ext ->
  0 <= num_extra <= Z.of_nat (length ext) ->
  last_temp m = Heap t_last ->
  let total :=
    total_n_blocks m + EXTRA X
    + (if truthy (model_secondary (config m)) then EXTRA_SEC X else 0) in
  0 <= total <= Z.of_nat (length t_last) ->
  save_last_trans_temp_mmap X m TRANS_TEMP_FILE num_extra s
  = Ret tt (with_file TRANS_TEMP_FILE
              (checkpoint_layout (trace_num s) (n_layers m) (rows m) (cols m) num_extra
                 cub (take (Z.to_nat num_extra) ext) (take (Z.to_nat total) t_last)) s).
Proof.
  intros Hopen Hcub Hshape Hext Hne Hlast total Htotal.
  unfold save_last_trans_temp_mmap.
  unfold bind at 1. unfold get at 1. rewrite Hopen. cbn [negb].
  unfold bind at 1. unfold modify at 1.
  change (set_fs (<[TRANS_TEMP_FILE:=[]]> (fs s)) s) with (with_file TRANS_TEMP_FILE [] s).
  unfold bind at 1. unfold get at 1.
  change (trace_num (with_file TRANS_TEMP_FILE [] s)) with (trace_num s).
  unfold bind at 1. rewrite fwrite_with_file.
  unfold bind at 1. rewrite Hcub, (save_cuboid_rows cub _ _ _ _ _ Hshape).
  unfold bind at 1. rewrite Hext, load_doubles_heap by exact Hne.
  unfold bind at 1. rewrite fwrite_with_file.
  assert (Htot : (if truthy (model_secondary (config m))
                  then total_n_blocks m + EXTRA X + EXTRA_SEC X
                  else total_n_blocks m + EXTRA X) = total).
  { subst total. destruct (truthy (model_secondary (config m))); lia. }
  rewrite Htot.
  unfold bind at 1. rewrite Hlast, load_doubles_heap by exact Htotal.
  rewrite fwrite_with_file.
  unfold checkpoint_layout. cbn [map concat app].
  rewrite enc_int_to_int, <- !app_assoc. reflexivity.
Qed.

(** C3, witness: saving the two-layer model after chunk 0. *)
Lemma save_writes_checkpoint_witness :
  save_last_trans_temp_mmap Sample.X Sample.warm_two_layers TRANS_TEMP_FILE 12
    (Sample.start ∅ Sample.io_ok)
  = Ret tt (with_file TRANS_TEMP_FILE
              (checkpoint_layout 0 2 1 1 12 [[[0]]; [[0]]]
                 (take 12 (replicate 12 0))
                 (take (Z.to_nat (2 + 12 + 0)) ([304; 306] ++ replicate 12 300)))
              (Sample.start ∅ Sample.io_ok)).
Proof.
  apply (save_writes_checkpoint_layout Sample.X Sample.warm_two_layers 12
           (Sample.start ∅ Sample.io_ok) [[[0]]; [[0]]] (replicate 12 0)
           ([304; 306] ++ replicate 12 300)).
  - reflexivity.
  - reflexivity.
  - split; [reflexivity|]. repeat constructor.
  - reflexivity.
  - vm_compute. split; discriminate.
  - reflexivity.
  - vm_compute. split; discriminate.
Defined.

(** ** Events a computation can log *)

Lemma logs_ret P {A} (a : A) : logs P (ret a).
Proof. intros s. exists []. rewrite app_nil_r. auto. Qed.

Lemma logs_exit P {A} code : logs P (@exit A code).
Proof. intros s. exists []. rewrite app_nil_r. auto. Qed.

Lemma logs_undefined P {A} w : logs P (@undefined A w).
Proof. intros s. exists []. rewrite app_nil_r. auto. Qed.

Lemma logs_get P {A} (f : state -> A) : logs P (get f).
Proof. intros s. exists []. rewrite app_nil_r. auto. Qed.

Lemma logs_modify P (f : state -> state) :
  (forall s, log (f s) = log s) -> logs P (modify f).
Proof. intros H s. exists []. simpl. rewrite H, app_nil_r. auto. Qed.

Lemma logs_tell (P : event -> Prop) e : P e -> logs P (tell e).
Proof. intros H s. exists [e]. simpl. auto. Qed.

Lemma logs_bind P {A B} (c : M A) (k : A -> M B) :
  logs P c -> (forall a, logs P (k a)) -> logs P (bind c k).
Proof.
  intros Hc Hk s. unfold bind. destruct (Hc s) as (evs & Hlog & Hall).
  destruct (c s) as [a s1|code s1|w s1]; simpl in *; eauto.
  destruct (Hk a s1) as (evs' & Hlog' & Hall').
  exists (evs ++ evs'). rewrite Hlog', Hlog, app_assoc. split; [reflexivity|].
  apply Forall_app; auto.
Qed.

Lemma logs_fatal (P : event -> Prop) {A} msg : P (Stderr msg) -> logs P (@fatal A msg).
Proof. intros H. apply logs_bind; [apply logs_tell, H | intros; apply logs_exit]. Qed.

Lemma logs_when P b c : logs P c -> logs P (when b c).
Proof. destruct b; [auto | intros; apply logs_ret]. Qed.

Lemma logs_lift (P : event -> Prop) {A} (r : res A) :
  (forall msg, P (Stderr msg)) -> logs P (lift r).
Proof.
  intros H. destruct r; simpl; [apply logs_ret | apply logs_fatal, H | apply logs_undefined].
Qed.

Lemma logs_for_each P {A} (l : list A) (body : A -> M unit) :
  (forall x, logs P (body x)) -> logs P (for_each l body).
Proof.
  intros H. induction l; simpl; [apply logs_ret | apply logs_bind; auto].
Qed.

Lemma logs_mapM P {A B} (f : A -> M B) (l : list A) :
  (forall x, logs P (f x)) -> logs P (mapM f l).
Proof.
  intros H. induction l; simpl; [apply logs_ret|].
  apply logs_bind; [apply H|]. intros b.
  apply logs_bind; [apply IHl|]. intros bs. apply logs_ret.
Qed.

Lemma logs_state P {A} (c : M A) :
  (forall s, log (final (c s)) = log s) -> logs P c.
Proof. intros H s. exists []. rewrite H, app_nil_r. auto. Qed.

Lemma logs_load_doubles P p n : logs P (load_doubles p n).
Proof.
  apply logs_state. intros s. unfold load_doubles.
  destruct p; [destruct (_ && _); reflexivity|].
  destruct (mapped_bytes s); [destruct (_ && _)|]; reflexivity.
Qed.

Lemma logs_fetch P p n : logs P (fetch p n).
Proof. destruct p; simpl; [apply logs_ret | apply logs_load_doubles]. Qed.

Lemma logs_put P p n new : logs P (put p n new).
Proof.
  destruct p; simpl; [apply logs_ret|].
  apply logs_state. intros s.
  destruct (mapping s) as [[f ?]|]; [|reflexivity].
  destruct (fs s !! f); [destruct (_ && _)|]; reflexivity.
Qed.

Lemma logs_fwrite P f b : logs P (fwrite f b).
Proof. apply logs_modify. reflexivity. Qed.

Lemma logs_munmap (P : event -> Prop) : P Munmap -> logs P munmap.
Proof.
  intros H. apply logs_bind; [apply logs_modify; reflexivity | intros; apply logs_tell, H].
Qed.

(** ** C4: after the last power row *)

Lemma le_value_le_bytes n z : le_value (le_bytes n z) = z mod 256 ^ Z.of_nat n.
Proof.
  revert z. induction n as [|n IH]; intros z.
  - simpl. rewrite Z.mod_1_r. reflexivity.
  - cbn [le_bytes le_value]. rewrite IH.
    rewrite Nat2Z.inj_succ, Z.pow_succ_r by lia.
    rewrite Z.rem_mul_r by lia. reflexivity.
Qed.

Lemma header_int_after_flush bytes tn :
  (8 <= length bytes)%nat -> 0 <= tn < 2 ^ 32 ->
  to_uint (header_int (splice 4 (enc_int tn) bytes) 1) = tn.
Proof.
  intros Hlen Htn. unfold header_int, splice, dec_int.
  rewrite drop_app_length' by (rewrite length_take; lia).
  rewrite resize_app by reflexivity.
  unfold enc_int. rewrite le_value_le_bytes, to_uint_to_int.
  unfold to_uint. change (256 ^ Z.of_nat 4) with (2 ^ 32).
  rewrite !Z.mod_mod by lia. apply Z.mod_small, Htn.
Qed.

Lemma flush_effect f size s bytes :
  fs s !! f = Some bytes -> (8 <= length bytes)%nat ->
  exists s',
    flush_updated_last_trans_temp (Some f) size s = Ret tt s'
    /\ fs s' = <[f := splice 4 (enc_int (trace_num s)) bytes]> (fs s)
    /\ exists evs, log s' = log s ++ Msync (msync_ok (io s)) :: evs.
Proof.
  intros Hf Hlen.
  unfold flush_updated_last_trans_temp, bind, get, modify, tell, perror.
  rewrite Hf. apply Nat.leb_le in Hlen. rewrite Hlen.
  cbn [io set_fs emit]. destruct (msync_ok (io s)); cbn [negb ret];
    eexists; (split; [reflexivity|]); (split; [reflexivity|]);
    unfold emit, set_fs; cbn [log]; eexists; rewrite <- ?app_assoc; reflexivity.
Qed.

Lemma lift_keeps_fs {A} (r : res A) s : fs (final (lift r s)) = fs s.
Proof. destruct r; reflexivity. Qed.

Lemma not_steady_stderr msg : ~ steady_event (Stderr msg).
Proof. intros [[? H]|[? H]]; discriminate. Qed.

Lemma logs_save X P m f ne :
  (forall msg, P (Stderr msg)) -> logs P (save_last_trans_temp_mmap X m f ne).
Proof.
  intros HP. unfold save_last_trans_temp_mmap.
  apply logs_bind; [apply logs_get|]. intros ok.
  destruct ok; cbn [negb].
  2:{ apply logs_bind; [apply logs_tell, HP | intros; apply logs_exit]. }
  apply logs_bind; [apply logs_modify; reflexivity|]. intros _.
  apply logs_bind; [apply logs_get|]. intros tn.
  apply logs_bind; [apply logs_fwrite|]. intros _.
  apply logs_bind.
  { apply logs_for_each. intros l. apply logs_for_each. intros r.
    destruct (_ ≫= _); [|apply logs_undefined].
    apply logs_bind; [apply logs_load_doubles | intros; apply logs_fwrite]. }
  intros _.
  apply logs_bind; [apply logs_load_doubles|]. intros ds.
  apply logs_bind; [apply logs_fwrite|]. intros _.
  apply logs_bind; [apply logs_load_doubles | intros; apply logs_fwrite].
Qed.

Lemma logs_flush (P : event -> Prop) region size :
  (forall msg, P (Stderr msg)) -> (forall ok, P (Msync ok)) ->
  logs P (flush_updated_last_trans_temp region size).
Proof.
  intros HP HM. unfold flush_updated_last_trans_temp.
  destruct region as [f|]; [|apply logs_undefined].
  apply logs_bind; [apply logs_get|]. intros tn.
  apply logs_bind.
  { apply logs_modify. intros s. destruct (fs s !! f) as [bytes|];
      [destruct (8 <=? length bytes)%nat|]; reflexivity. }
  intros _. apply logs_bind; [apply logs_get|]. intros ok.
  apply logs_bind; [apply logs_tell, HM|]. intros _.
  destruct ok; cbn [negb]; [apply logs_ret | apply logs_tell, HP].
Qed.

Lemma logs_finish (X : Extern) (P : event -> Prop) fr region size l :
  (forall msg, P (Stderr msg)) -> (forall ok, P (Msync ok)) -> P Munmap ->
  logs P (finish X fr region size l).
Proof.
  intros HP HM HU. unfold finish.
  apply logs_bind; [apply logs_when, logs_fatal, HP|]. intros _.
  apply logs_bind; [apply logs_get|]. intros tn.
  apply logs_bind.
  { destruct (tn =? to_uint 0); [apply logs_save, HP|].
    destruct (to_uint 0 <? tn); [apply logs_flush; auto | apply logs_ret]. }
  intros _. apply logs_bind; [apply logs_lift, HP|]. intros _.
  apply logs_bind; [apply logs_when, logs_munmap, HU | intros; apply logs_ret].
Qed.

(** After the last power row, with [trace_num == 0]
    the checkpoint file is what [save_last_trans_temp_mmap] on
    [last_trans_temp_mmap.bin] with [num_extra = EXTRA] (plus [EXTRA_SEC] when
    [model_secondary]) leaves; with [trace_num > 0] and a mapped checkpoint the
    header's trace index is overwritten with [trace_num] and [msync] is
    called; and, whatever was requested, no steady-state solve is run and no
    steady-state result is emitted (the averaged power is computed and
    dropped). *)
Theorem finish_saves_or_flushes_and_solves_nothing
        (X : Extern) (fr : frame) (region : option string) (size : Z)
        (l : locals X) (s : state) :
  lines l <> 0 ->
  let r := finish X fr region size l s in
  let g := grid (model l) in
  (trace_num s = 0 ->
   fs (final r)
   = fs (final (save_last_trans_temp_mmap X g TRANS_TEMP_FILE
                  (if truthy (model_secondary (config g))
                   then EXTRA X + EXTRA_SEC X else EXTRA X) s)))
  /\ (0 < trace_num s < 2 ^ 32 ->
      forall f bytes,
        region = Some f -> fs s !! f = Some bytes -> (8 <= length bytes)%nat ->
        exists bytes',
          fs (final r) = <[f := bytes']> (fs s)
          /\ bytes' = splice 4 (enc_int (trace_num s)) bytes
          /\ to_uint (header_int bytes' 1) = trace_num s
          /\ exists evs, log (final r) = log s ++ Msync (msync_ok (io s)) :: evs)
  /\ (exists evs, log (final r) = log s ++ evs /\ Forall (fun e => ~ steady_event e) evs).
Proof.
  intros Hlines r g.
  assert (Hwhen : (lines l =? 0) = false) by (apply Z.eqb_neq, Hlines).
  split; [|split].
  - intros Htn. subst r. unfold finish, bind at 1. rewrite Hwhen. cbn [when ret].
    unfold bind at 1, get at 1. rewrite Htn.
    change (0 =? to_uint 0) with true. cbv beta iota.
    unfold bind at 1. fold g. unfold extra_nodes.
    destruct (save_last_trans_temp_mmap X g TRANS_TEMP_FILE _ s) as [[] s1|code s1|w s1];
      [|reflexivity|reflexivity].
    unfold bind at 1.
    pose proof (lift_keeps_fs
                  (if is_block (type (model l))
                   then average_block X (n fr) (lines l) (overall_power l)
                   else average_grid X g (lines l) (overall_power l)) s1) as Hfs.
    fold g in Hfs |- *.
    destruct (lift _ s1) as [a s2|code s2|w s2]; simpl in Hfs |- *; exact Hfs.
  - intros Htn f bytes -> Hf Hlen.
    destruct (flush_effect f size s bytes Hf Hlen) as (s1 & Hflush & Hfs1 & evs1 & Hlog1).
    exists (splice 4 (enc_int (trace_num s)) bytes).
    change (to_uint 0) with 0 in *.
    assert (Hpos : (0 <? trace_num s) = true) by (apply Z.ltb_lt; lia).
    assert (Hz : (trace_num s =? 0) = false) by (apply Z.eqb_neq; lia).
    assert (Hr : exists s2 evs2,
               final r = s2 /\ fs s2 = fs s1 /\ log s2 = log s1 ++ evs2).
    { subst r. unfold finish, bind at 1. rewrite Hwhen. cbn [when ret].
      unfold bind at 1, get at 1. change (to_uint 0) with 0. rewrite Hz, Hpos.
      unfold bind at 1. rewrite Hflush. unfold bind at 1. fold g.
      destruct (if is_block (type (model l))
                then average_block X (n fr) (lines l) (overall_power l)
                else average_grid X g (lines l) (overall_power l)) as [a|msg|w];
        cbn [lift ret fatal undefined];
        [|eexists; exists [Stderr msg]; split; [reflexivity|]; split; reflexivity
         |eexists; exists []; split; [reflexivity|]; split;
          [reflexivity | rewrite app_nil_r; reflexivity]].
      eexists. exists [Munmap]. split; [reflexivity|]. split; reflexivity. }
    destruct Hr as (s2 & evs2 & -> & Hfs2 & Hlog2).
    split; [rewrite Hfs2, Hfs1; reflexivity|]. split; [reflexivity|].
    split; [apply header_int_after_flush; [exact Hlen | lia]|].
    exists (evs1 ++ evs2). rewrite Hlog2, Hlog1, <- app_assoc. reflexivity.
  - apply (logs_finish X (fun e => ~ steady_event e)).
    + apply not_steady_stderr.
    + intros ok [[? H]|[? H]]; discriminate.
    + intros [[? H]|[? H]]; discriminate.
Qed.

(** The end of chunk 0 of the two-layer run. *)
Lemma finish_saves_or_flushes_witness :
  let r := finish Sample.X Sample.end_frame None 0 Sample.end_locals
             (Sample.start ∅ Sample.io_ok) in
  fs (final r)
  = fs (final (save_last_trans_temp_mmap Sample.X Sample.warm_two_layers TRANS_TEMP_FILE 12
                 (Sample.start ∅ Sample.io_ok)))
  /\ exists evs, log (final r) = [] ++ evs /\ Forall (fun e => ~ steady_event e) evs.
Proof.
  intros r.
  destruct (finish_saves_or_flushes_and_solves_nothing
              Sample.X Sample.end_frame None 0 Sample.end_locals
              (Sample.start ∅ Sample.io_ok)) as (Hsave & _ & Hlog).
  - discriminate.
  - split; [apply Hsave; reflexivity | exact Hlog].
Defined.

(** C4, the code at the failing input: a complete first chunk of a run whose
    configuration names a [steady_file] and a [grid_steady_file].  The run
    ends normally with its two temperature rows
    written, and nothing of the steady state is solved or dumped: lines
    903-931 are commented out, though the comment at the head of hotspot.c,
    the usage text and the comment on [main] all say that the steady-state
    temperatures are output. *)
Lemma steady_state_requested_but_never_solved :
  exists s',
    main Sample.X (Sample.grid_run Sample.one_layer_steady (Sample.opts [("t", "0")]))
      Sample.ptrace_AB (Sample.start ∅ Sample.io_ok) = Ret 0 s'
    /\ log s' = [Call c_populate_R_model; Call c_populate_C_model; Call (c_set_temp 300);
                 Fprint TOUT [Str "A"; Tab; Str "B"; Newline];
                 Call (c_compute_temp [1; 2; 0; 0; 0; 0; 0; 0; 0; 0; 0; 0; 0; 0] true);
                 Fprint TOUT [F2 301; Tab; F2 302; Newline];
                 Call (c_compute_temp [3; 4; 0; 0; 0; 0; 0; 0; 0; 0; 0; 0; 0; 0] false);
                 Fprint TOUT [F2 304; Tab; F2 306; Newline]]
    /\ Forall (fun e => ~ steady_event e) (log s').
Proof.
  eexists. split; [vm_compute; reflexivity|]. split; [vm_compute; reflexivity|].
  vm_compute. repeat constructor; intros [[? H]|[? H]]; discriminate.
Qed.

(** ** C8: the voltage vector *)

(** 96 entries are the most [volt_vector[385]] holds (96 * 4 - 1 characters
    and the NUL): they are all stored as [10 x + y]. *)
Lemma volt_vector_of_96_entries :
  exists gc s',
    bind (global_config_from_strs Sample.X (Sample.opts [("v", Sample.volts 96 "2.5")]))
         (fun gc => bind parse_volt_vector (fun _ => ret gc))
         (Sample.start ∅ Sample.io_ok) = Ret gc s'
    /\ volt s' = replicate 96 25 ++ replicate 32 0.
Proof. eexists. eexists. split; vm_compute; reflexivity. Qed.

Lemma volt_vector_digits :
  exists gc s',
    bind (global_config_from_strs Sample.X (Sample.opts [("v", "0.9,1.2,9.9")]))
         (fun gc => bind parse_volt_vector (fun _ => ret gc))
         (Sample.start ∅ Sample.io_ok) = Ret gc s'
    /\ take 4 (volt s') = [9; 12; 99; 0].
Proof. eexists. eexists. split; vm_compute; reflexivity. Qed.

(** C8, the code at the failing input: a [-v] argument of 97 entries (387
    characters, which [table[idx].value] of [STR_SIZE] 512 holds).  The
    ["%s"] scan writes 388 bytes into [volt_vector[385]]: the array is
    overrun before any entry is converted, so entries 96 to 127 are never
    stored as the claim says. *)
Theorem volt_vector_of_97_entries_overruns :
  String.length (Sample.volts 97 "1.0") = 387%nat
  /\ exists s',
      main Sample.X (Sample.grid_run Sample.two_layers
                       (Sample.opts [("v", Sample.volts 97 "1.0")]))
        Sample.ptrace_AB (Sample.start ∅ Sample.io_ok)
      = Undef "write past the end of volt_vector" s'
      /\ volt s' = replicate 128 0.
Proof. split; [vm_compute; reflexivity|]. eexists. split; vm_compute; reflexivity. Qed.

(** ** The column loops *)

Lemma rfold_app {A B} (f : B -> A -> res B) l1 l2 b :
  rfold f (l1 ++ l2) b = rbind (rfold f l1 b) (rfold f l2).
Proof.
  revert b. induction l1 as [|x l1 IH]; intros b; simpl; [reflexivity|].
  destruct (f b x); simpl; auto.
Qed.

Lemma rfold_ext {A B} (f g : B -> A -> res B) l b :
  (forall b x, f b x = g b x) -> rfold f l b = rfold g l b.
Proof.
  intros H. revert b. induction l as [|x l IH]; intros b; simpl; [reflexivity|].
  rewrite H. destruct (g b x); simpl; auto.
Qed.

Lemma rbind_Ok {A B} (c : res A) (k : A -> res B) b :
  rbind c k = Ok b <-> exists a, c = Ok a /\ k a = Ok b.
Proof.
  destruct c; simpl; split; try (intros (? & ? & ?)); try discriminate; eauto.
  congruence.
Qed.

(** The loop over layer indices is a fold over the layers themselves. *)
Lemma rfold_indices {A B} (body : A -> B -> res B) (l : list A) (n : nat) b :
  (n <= length l)%nat ->
  rfold (fun b i =>
           match l !! Z.to_nat i with
           | Some x => body x b
           | None => Fault "layers[i] outside the layer table"
           end) (seqZ 0 (Z.of_nat n)) b
  = rfold (fun b x => body x b) (take n l) b.
Proof.
  induction n as [|n IH]; intros Hn; [reflexivity|].
  rewrite seqZ_S, rfold_app, IH by lia.
  destruct (lookup_lt_is_Some_2 l n) as [x Hx]; [lia|].
  rewrite (take_S_r _ _ _ Hx), rfold_app.
  destruct (rfold _ (take n l) b); simpl; [|reflexivity|reflexivity].
  rewrite Z.add_0_l, Nat2Z.id, Hx. reflexivity.
Qed.

Lemma rfold_indices_short {A B} (body : A -> B -> res B) (l : list A) (n : nat) b r :
  (length l < n)%nat ->
  rfold (fun b i =>
           match l !! Z.to_nat i with
           | Some x => body x b
           | None => Fault "layers[i] outside the layer table"
           end) (seqZ 0 (Z.of_nat n)) b <> Ok r.
Proof.
  intros Hn.
  replace (Z.of_nat n) with (Z.of_nat (length l) + Z.of_nat (n - length l)) by lia.
  rewrite seqZ_app, rfold_app by lia.
  destruct (rfold _ (seqZ 0 _) b) as [b1| |]; simpl; try discriminate.
  destruct (n - length l)%nat as [|k] eqn:Hk; [lia|].
  rewrite seqZ_cons by lia. simpl.
  rewrite Z.add_0_l, Nat2Z.id, (lookup_ge_None_2 l (length l)) by lia.
  simpl. discriminate.
Qed.

Lemma for_layers_Ok {B} (g : grid_model_t) (body : layer_t -> B -> res B) b r :
  for_layers g body b = Ok r
  <-> (Z.to_nat (n_layers g) <= length (layers g))%nat
      /\ rfold (fun b ly => body ly b) (used_layers g) b = Ok r.
Proof.
  unfold for_layers, used_layers, upto.
  destruct (Z.le_gt_cases (n_layers g) 0) as [Hneg|Hpos].
  - rewrite seqZ_nil by lia. replace (Z.to_nat (n_layers g)) with 0%nat by lia.
    simpl. split; [intros H; split; [lia | exact H] | intros [_ H]; exact H].
  - rewrite <- (Z2Nat.id (n_layers g)) at 1 by lia.
    destruct (le_lt_dec (Z.to_nat (n_layers g)) (length (layers g))) as [Hle|Hlt].
    + rewrite rfold_indices by exact Hle. split; [auto | intros [_ H]; exact H].
    + split; [|lia]. intros H. exfalso. revert H. apply rfold_indices_short, Hlt.
Qed.

Lemma permute_in_grid_fold g names vals power :
  permute_in_grid g names vals power = columns_fold g names (act_in vals) power.
Proof. reflexivity. Qed.

Lemma permute_out_grid_fold g names last pwl leak vals wl :
  permute_out_grid g names last pwl leak vals wl
  = columns_fold g names (act_out last pwl leak) (vals, wl).
Proof.
  unfold permute_out_grid, columns_fold, for_layers. f_equal.
  apply rfold_ext. intros [[vv base] count] i.
  destruct (layers g !! Z.to_nat i) as [ly|]; [|reflexivity].
  unfold layer_body. destruct (truthy (has_power ly)); [|reflexivity].
  f_equal. unfold permute_out_layer, columns_layer.
  apply rfold_ext. intros [v w] j. reflexivity.
Qed.

Lemma n_units_nonneg f : 0 <= n_units f.
Proof. unfold n_units. lia. Qed.

Lemma n_columns_nonneg lys : 0 <= n_columns lys.
Proof.
  induction lys as [|ly lys IH]; simpl; [lia|].
  pose proof (n_units_nonneg (flp ly)). destruct (truthy (has_power ly)); lia.
Qed.

Lemma node_in_Some ly base name node :
  node_in ly base name = Some node
  <-> exists idx, get_blk_index (Some (flp ly)) name = Ok idx /\ node = base + idx.
Proof.
  unfold node_in. destruct (get_blk_index _ name) as [idx| |]; split;
    try (intros (? & ? & ?)); try discriminate.
  - intros [= <-]. eauto.
  - congruence.
Qed.

(** A relation along [a, a+1, ..., a+n-1], column by column. *)
Lemma Forall2_seqZ (P : Z -> Z -> Prop) (a n : Z) (ns : list Z) :
  0 <= n ->
  Forall2 P (seqZ a n) ns
  <-> Z.of_nat (length ns) = n
      /\ forall i node, ns !! i = Some node -> P (a + Z.of_nat i) node.
Proof.
  intros Hn. rewrite Forall2_same_length_lookup, length_seqZ. split.
  - intros [Hlen H]. split; [lia|]. intros i node Hi.
    apply (H i); [|exact Hi]. apply lookup_seqZ_lt.
    apply lookup_lt_Some in Hi. lia.
  - intros [Hlen H]. split; [lia|]. intros i x y Hx Hy.
    apply lookup_seqZ in Hx as [-> _]. apply H, Hy.
Qed.

Section Column_loops.
Context {S : Type} (act : Z -> Z -> S -> res S) (names : list string).

(** One layer: the columns [count + j0, ...] and the nodes they name. *)
Lemma columns_layer_Ok ly base count (m : nat) :
  forall j0 s s1,
    rfold (fun s j =>
             idx <~ get_blk_index (Some (flp ly)) (name_at names (count + j)) ;;
             act (base + idx) (count + j) s)
          (seqZ j0 (Z.of_nat m)) s = Ok s1
    <-> exists ns,
        Forall2 (fun j node => node_in ly base (name_at names (count + j)) = Some node)
                (seqZ j0 (Z.of_nat m)) ns
        /\ rfold (fun s cn => act (snd cn) (fst cn) s)
                 (zip (seqZ (count + j0) (Z.of_nat m)) ns) s = Ok s1.
Proof.
  induction m as [|m IH]; intros j0 s s1.
  - simpl. split.
    + intros H. exists []. split; [constructor | exact H].
    + intros (ns & Hns & H). apply Forall2_nil_inv_l in Hns. subst ns. exact H.
  - rewrite (seqZ_cons j0), (seqZ_cons (count + j0)) by lia.
    replace (Z.pred (Z.of_nat (Datatypes.S m))) with (Z.of_nat m) by lia.
    cbn [rfold]. rewrite rbind_Ok. split.
    + intros (s2 & Hstep & Hrest).
      apply rbind_Ok in Hstep as (idx & Hidx & Hact).
      apply IH in Hrest as (ns & Hns & Hfold).
      exists ((base + idx) :: ns). split.
      * constructor; [apply node_in_Some; eauto | exact Hns].
      * cbn [zip zip_with rfold fst snd]. rewrite Hact. cbn [rbind].
        replace (Z.succ (count + j0)) with (count + Z.succ j0) by lia. exact Hfold.
    + intros (ns & Hns & Hfold).
      apply Forall2_cons_inv_l in Hns as (node & ns' & Hnode & Hns' & ->).
      apply node_in_Some in Hnode as (idx & Hidx & ->).
      cbn [zip zip_with rfold fst snd] in Hfold.
      apply rbind_Ok in Hfold as (s2 & Hact & Hrest).
      exists s2. split.
      * rewrite Hidx. exact Hact.
      * apply IH. exists ns'. split; [exact Hns'|].
        replace (count + Z.succ j0) with (Z.succ (count + j0)) by lia. exact Hrest.
Qed.

Lemma apply_columns_app count ns1 ns2 s :
  apply_columns act count (ns1 ++ ns2) s
  = rbind (apply_columns act count ns1 s)
          (apply_columns act (count + Z.of_nat (length ns1)) ns2).
Proof.
  unfold apply_columns. rewrite length_app, Nat2Z.inj_add, seqZ_app by lia.
  rewrite zip_with_app by (rewrite length_seqZ; lia).
  apply rfold_app.
Qed.

Lemma columns_layer_nodes ly base count s s1 :
  columns_layer ly names act base count s = Ok s1
  <-> exists ns,
      Z.of_nat (length ns) = n_units (flp ly)
      /\ (forall i node, ns !! i = Some node ->
            node_in ly base (name_at names (count + Z.of_nat i)) = Some node)
      /\ apply_columns act count ns s = Ok s1.
Proof.
  unfold columns_layer, upto, n_units, apply_columns.
  rewrite columns_layer_Ok. split.
  - intros (ns & Hns & Hfold). exists ns.
    apply Forall2_seqZ in Hns as [Hlen Hp]; [|lia].
    split; [exact Hlen|]. split; [exact Hp|].
    rewrite Hlen, Z.add_0_r in *. exact Hfold.
  - intros (ns & Hlen & Hp & Hfold). exists ns. split.
    + apply Forall2_seqZ; [lia|]. split; [exact Hlen | exact Hp].
    + rewrite Hlen, Z.add_0_r in *. exact Hfold.
Qed.

(** All visited layers: every column finds its node, and the actions are
    applied column by column. *)
Lemma layers_fold_Ok lys :
  forall base count s0 r,
    rfold (fun st ly => layer_body names act ly st) lys (s0, base, count) = Ok r
    <-> exists nodes,
        Z.of_nat (length nodes) = n_columns lys
        /\ (forall i node, nodes !! i = Some node ->
              node_at lys base count names (Z.of_nat i) = Some node)
        /\ apply_columns act count nodes s0 = Ok (fst (fst r))
        /\ snd (fst r) = base + n_blocks lys
        /\ snd r = count + n_columns lys.
Proof.
  induction lys as [|ly lys IH]; intros base count s0 [[s' b'] c'].
  - cbn [rfold n_columns n_blocks fst snd]. split.
    + intros [= <- <- <-]. exists []. repeat split; try lia.
      intros i node Hi. discriminate.
    + intros (nodes & Hlen & _ & Happ & -> & ->).
      destruct nodes; [|simpl in Hlen; lia].
      cbn in Happ. injection Happ as <-. repeat f_equal; lia.
  - cbn [rfold n_columns n_blocks fst snd].
    assert (Hbody : layer_body names act ly (s0, base, count)
                    = if truthy (has_power ly)
                      then s1 <~ columns_layer ly names act base count s0 ;;
                           Ok (s1, base + n_units (flp ly), count + n_units (flp ly))
                      else Ok (s0, base + n_units (flp ly), count)) by reflexivity.
    rewrite Hbody. clear Hbody.
    pose proof (n_units_nonneg (flp ly)) as Hn.
    pose proof (n_columns_nonneg lys) as Hnr.
    destruct (truthy (has_power ly)) eqn:Hpow.
    + rewrite rbind_Ok. split.
      * intros (st & Hst & Hrest).
        apply rbind_Ok in Hst as (s1 & Hly & [= <-]).
        apply columns_layer_nodes in Hly as (ns & Hlen & Hns & Happ).
        apply IH in Hrest as (nr & Hlenr & Hnr' & Happr & Hb & Hc).
        cbn [fst snd] in *.
        exists (ns ++ nr). rewrite length_app, Nat2Z.inj_add.
        split; [lia|]. split; [|split; [|split; lia]].
        -- intros i node Hi. unfold node_at. cbn [locate]. rewrite Hpow.
           destruct (Z.ltb_spec (Z.of_nat i) (n_units (flp ly))) as [Hlt|Hge].
           ++ rewrite lookup_app_l in Hi by lia. apply Hns, Hi.
           ++ rewrite lookup_app_r in Hi by lia.
              apply Hnr' in Hi. unfold node_at in Hi.
              replace (Z.of_nat (i - length ns)) with (Z.of_nat i - n_units (flp ly))
                in Hi by lia.
              replace (count + n_units (flp ly) + (Z.of_nat i - n_units (flp ly)))
                with (count + Z.of_nat i) in Hi by lia.
              exact Hi.
        -- rewrite apply_columns_app, Happ. cbn [rbind]. rewrite Hlen. exact Happr.
      * intros (nodes & Hlen & Hnodes & Happ & Hb & Hc). cbn [fst snd] in *.
        rewrite <- (take_drop (Z.to_nat (n_units (flp ly))) nodes) in Happ.
        rewrite apply_columns_app in Happ.
        apply rbind_Ok in Happ as (s1 & Happ1 & Happ2).
        rewrite length_take_le in Happ2 by lia.
        exists (s1, base + n_units (flp ly), count + n_units (flp ly)). split.
        -- apply rbind_Ok. exists s1. split; [|reflexivity].
           apply columns_layer_nodes. exists (take (Z.to_nat (n_units (flp ly))) nodes).
           rewrite length_take_le by lia.
           split; [lia|]. split; [|exact Happ1].
           intros i node Hi.
           assert (Hlt : (i < Z.to_nat (n_units (flp ly)))%nat).
           { apply lookup_lt_Some in Hi. rewrite length_take in Hi. lia. }
           rewrite lookup_take_lt in Hi by exact Hlt.
           apply Hnodes in Hi. unfold node_at in Hi. cbn [locate] in Hi.
           rewrite Hpow in Hi.
           destruct (Z.ltb_spec (Z.of_nat i) (n_units (flp ly))); [exact Hi | lia].
        -- apply IH. exists (drop (Z.to_nat (n_units (flp ly))) nodes).
           cbn [fst snd]. rewrite length_drop.
           split; [lia|]. split; [|split; [|split; lia]].
           ++ intros i node Hi. rewrite lookup_drop in Hi.
              apply Hnodes in Hi. unfold node_at in Hi. cbn [locate] in Hi.
              rewrite Hpow in Hi.
              destruct (Z.ltb_spec (Z.of_nat (Z.to_nat (n_units (flp ly)) + i))
                          (n_units (flp ly))); [lia|].
              unfold node_at.
              replace (Z.of_nat (Z.to_nat (n_units (flp ly)) + i) - n_units (flp ly))
                with (Z.of_nat i) in Hi by lia.
              replace (count + Z.of_nat (Z.to_nat (n_units (flp ly)) + i))
                with (count + n_units (flp ly) + Z.of_nat i) in Hi by lia.
              exact Hi.
           ++ rewrite Z2Nat.id in Happ2 by lia. exact Happ2.
    + cbn [rbind]. rewrite (IH (base + n_units (flp ly)) count s0 (s', b', c')).
      cbn [fst snd]. unfold node_at. cbn [locate]. rewrite Hpow.
      split; intros (nodes & Hlen & Hnodes & Happ & Hb & Hc); exists nodes;
        (split; [lia|]); (split; [exact Hnodes|]); (split; [exact Happ|]); split; lia.
Qed.

End Column_loops.

Lemma columns_fold_Ok {S} (g : grid_model_t) (names : list string)
      (act : Z -> Z -> S -> res S) (s0 s' : S) :
  columns_fold g names act s0 = Ok s'
  <-> (Z.to_nat (n_layers g) <= length (layers g))%nat
      /\ exists nodes, names_nodes g names nodes /\ apply_columns act 0 nodes s0 = Ok s'.
Proof.
  unfold columns_fold, names_nodes, node_of. rewrite rbind_Ok. split.
  - intros (st & Hst & [= <-]).
    apply for_layers_Ok in Hst as [Hlen Hst].
    apply layers_fold_Ok in Hst as (nodes & Hn & Hnodes & Happ & _).
    split; [exact Hlen|]. exists nodes. auto.
  - intros (Hlen & nodes & [Hn Hnodes] & Happ).
    exists (s', 0 + n_blocks (used_layers g), 0 + n_columns (used_layers g)).
    split; [|reflexivity].
    apply for_layers_Ok. split; [exact Hlen|].
    apply layers_fold_Ok. exists nodes. cbn [fst snd]. auto.
Qed.

Lemma names_nodes_unique g names n1 n2 :
  names_nodes g names n1 -> names_nodes g names n2 -> n1 = n2.
Proof.
  intros [Hl1 H1] [Hl2 H2]. apply list_eq. intros i.
  destruct (n1 !! i) as [a|] eqn:Ha, (n2 !! i) as [b|] eqn:Hb.
  - apply H1 in Ha. apply H2 in Hb. congruence.
  - apply lookup_lt_Some in Ha. apply lookup_ge_None in Hb. lia.
  - apply lookup_ge_None in Ha. apply lookup_lt_Some in Hb. lia.
  - reflexivity.
Qed.

(** *** Loads and stores *)

Lemma store_Ok {A} (a a' : list A) i v :
  store a i v = Ok a' <-> 0 <= i < Z.of_nat (length a) /\ a' = <[Z.to_nat i := v]> a.
Proof.
  unfold store.
  destruct (Z.leb_spec 0 i), (Z.ltb_spec i (Z.of_nat (length a))); cbn [andb];
    split; try discriminate; try (intros [? _]; lia).
  - intros [= <-]. split; [lia | reflexivity].
  - intros [_ ->]. reflexivity.
Qed.

Lemma load_Ok {A} (a : list A) i v :
  load a i = Ok v <-> 0 <= i /\ a !! Z.to_nat i = Some v.
Proof.
  unfold load. destruct (Z.leb_spec 0 i).
  - destruct (a !! Z.to_nat i); split; try discriminate.
    + intros [= <-]. auto.
    + intros [_ [= <-]]. reflexivity.
    + intros [_ ?]. discriminate.
  - split; [discriminate | intros [? _]; lia].
Qed.

Lemma val_at_insert_eq (a : list double) i v :
  0 <= i < Z.of_nat (length a) -> val_at (<[Z.to_nat i := v]> a) i = v.
Proof.
  intros H. unfold val_at. destruct (Z.leb_spec 0 i); [|lia].
  rewrite list_lookup_insert_eq by lia. reflexivity.
Qed.

Lemma val_at_insert_ne (a : list double) i j v :
  0 <= i -> i <> j -> val_at (<[Z.to_nat i := v]> a) j = val_at a j.
Proof.
  intros Hi Hne. unfold val_at. destruct (Z.leb_spec 0 j); [|reflexivity].
  rewrite list_lookup_insert_ne by lia. reflexivity.
Qed.

Lemma val_at_lookup (a : list double) i v :
  0 <= i -> a !! Z.to_nat i = Some v -> val_at a i = v.
Proof.
  intros Hi H. unfold val_at. destruct (Z.leb_spec 0 i); [|lia]. rewrite H. reflexivity.
Qed.

Lemma apply_columns_cons {S} (act : Z -> Z -> S -> res S) count node rest s :
  apply_columns act count (node :: rest) s
  = rbind (act node count s) (apply_columns act (count + 1) rest).
Proof.
  unfold apply_columns. cbn [length]. rewrite seqZ_cons by lia.
  replace (Z.pred (Z.of_nat (Datatypes.S (length rest)))) with (Z.of_nat (length rest))
    by lia.
  reflexivity.
Qed.

(** *** Temperatures back into trace order *)

Lemma act_out_Ok last pwl leak node c vals wl v' w' :
  act_out last pwl leak node c (vals, wl) = Ok (v', w')
  <-> exists t,
      load last node = Ok t
      /\ 0 <= c < Z.of_nat (length vals)
      /\ v' = <[Z.to_nat c := t]> vals
      /\ (if leak
          then exists w, load pwl node = Ok w
                         /\ c < Z.of_nat (length wl) /\ w' = <[Z.to_nat c := w]> wl
          else w' = wl).
Proof.
  unfold act_out. cbn [fst snd]. rewrite rbind_Ok. split.
  - intros (t & Ht & H). apply rbind_Ok in H as (v1 & Hv1 & H).
    apply rbind_Ok in H as (w1 & Hw1 & [= <- <-]).
    apply store_Ok in Hv1 as [Hc ->]. exists t. repeat split; try lia; auto.
    destruct leak.
    + apply rbind_Ok in Hw1 as (w & Hw & Hst). apply store_Ok in Hst as [Hc' ->].
      exists w. repeat split; auto; lia.
    + congruence.
  - intros (t & Ht & Hc & -> & Hw). exists t. split; [exact Ht|].
    apply rbind_Ok. eexists. split; [apply store_Ok; split; [lia | reflexivity]|].
    destruct leak.
    + destruct Hw as (w & Hw & Hc' & ->). rewrite Hw. cbn [rbind].
      apply rbind_Ok. eexists. split; [apply store_Ok; split; [lia | reflexivity]|].
      reflexivity.
    + subst w'. reflexivity.
Qed.

Lemma apply_out_Ok last pwl leak nodes :
  forall count vals wl v' w',
    0 <= count ->
    apply_columns (act_out last pwl leak) count nodes (vals, wl) = Ok (v', w') ->
    length v' = length vals /\ length w' = length wl
    /\ (forall c, c < count \/ count + Z.of_nat (length nodes) <= c ->
          val_at v' c = val_at vals c /\ val_at w' c = val_at wl c)
    /\ (forall i node, nodes !! i = Some node ->
          load last node = Ok (val_at v' (count + Z.of_nat i))
          /\ (leak = true -> load pwl node = Ok (val_at w' (count + Z.of_nat i))))
    /\ (leak = false -> w' = wl)
    /\ (nodes <> [] -> count + Z.of_nat (length nodes) <= Z.of_nat (length vals)
                       /\ (leak = true ->
                           count + Z.of_nat (length nodes) <= Z.of_nat (length wl))).
Proof.
  induction nodes as [|node rest IH]; intros count vals wl v' w' Hcount H.
  - cbn in H. injection H as <- <-.
    split; [reflexivity|]. split; [reflexivity|]. split; [auto|].
    split; [intros i node Hi; discriminate|]. split; [auto | congruence].
  - rewrite apply_columns_cons in H. apply rbind_Ok in H as ([v1 w1] & Hact & Hrest).
    apply act_out_Ok in Hact as (t & Ht & Hc & -> & Hw).
    apply IH in Hrest as (Hlv & Hlw & Hframe & Hnodes & Hnoleak & Hbound); [|lia].
    rewrite length_insert in Hlv, Hbound.
    assert (Hw1 : length w1 = length wl
                  /\ (forall c, c <> count -> val_at w1 c = val_at wl c)
                  /\ (leak = true -> load pwl node = Ok (val_at w1 count)
                                     /\ count < Z.of_nat (length wl))
                  /\ (leak = false -> w1 = wl)).
    { destruct leak.
      - destruct Hw as (w & Hw & Hc' & ->). rewrite length_insert.
        split; [reflexivity|]. split; [|split; [|discriminate]].
        + intros c Hne. apply val_at_insert_ne; lia.
        + intros _. rewrite val_at_insert_eq by lia. auto.
      - subst w1. repeat split; auto; discriminate. }
    destruct Hw1 as (Hlw1 & Hfw1 & Hleak1 & Hnoleak1).
    cbn [length]. split; [exact Hlv|]. split; [lia|].
    split; [|split; [|split]].
    + intros c Hcase. destruct (Hframe c) as [Hv Hw']; [lia|].
      rewrite Hv, Hw'. split; [apply val_at_insert_ne; lia | apply Hfw1; lia].
    + intros [|i] nd Hi; cbn in Hi.
      * injection Hi as <-. destruct (Hframe count) as [Hv Hw']; [lia|].
        rewrite Z.add_0_r, Hv, Hw', val_at_insert_eq by lia.
        split; [exact Ht | intros Hl; apply Hleak1, Hl].
      * replace (count + Z.of_nat (Datatypes.S i)) with (count + 1 + Z.of_nat i) by lia.
        apply Hnodes, Hi.
    + intros Hl. rewrite Hnoleak, Hnoleak1 by exact Hl. reflexivity.
    + intros _. destruct rest as [|r rest'].
      * cbn [length]. split; [lia|]. intros Hl. destruct (Hleak1 Hl). lia.
      * destruct Hbound as [Hb1 Hb2]; [discriminate|]. cbn [length] in *.
        split; [lia|]. intros Hl. specialize (Hb2 Hl). lia.
Qed.

Lemma apply_out_total last pwl leak nodes :
  forall count vals wl,
    0 <= count ->
    count + Z.of_nat (length nodes) <= Z.of_nat (length vals) ->
    (leak = true -> count + Z.of_nat (length nodes) <= Z.of_nat (length wl)) ->
    (forall i node, nodes !! i = Some node ->
       (exists t, load last node = Ok t)
       /\ (leak = true -> exists w, load pwl node = Ok w)) ->
    exists vw, apply_columns (act_out last pwl leak) count nodes (vals, wl) = Ok vw.
Proof.
  induction nodes as [|node rest IH]; intros count vals wl Hcount Hv Hw Hloads.
  - eexists. reflexivity.
  - cbn [length] in *. rewrite apply_columns_cons.
    destruct (Hloads 0%nat node eq_refl) as [[t Ht] Hlw].
    assert (Hact : exists v1 w1,
               act_out last pwl leak node count (vals, wl) = Ok (v1, w1)
               /\ length v1 = length vals /\ length w1 = length wl).
    { destruct leak.
      - destruct (Hlw eq_refl) as [w Hwl]. specialize (Hw eq_refl).
        exists (<[Z.to_nat count := t]> vals), (<[Z.to_nat count := w]> wl).
        split; [|rewrite !length_insert; auto].
        apply act_out_Ok. exists t. repeat split; auto; try lia.
        exists w. repeat split; auto; lia.
      - exists (<[Z.to_nat count := t]> vals), wl.
        split; [|rewrite !length_insert; auto].
        apply act_out_Ok. exists t. repeat split; auto; lia. }
    destruct Hact as (v1 & w1 & Hact & Hlv & Hlw1). rewrite Hact. cbn [rbind].
    apply IH; try lia.
    + intros Hl. specialize (Hw Hl). lia.
    + intros i nd Hi. apply (Hloads (Datatypes.S i)), Hi.
Qed.

(** ** What the phases of [main] log *)

Lemma logs_Ret {A} (P : event -> Prop) (c : M A) s a s' :
  logs P c -> c s = Ret a s' -> exists evs, log s' = log s ++ evs /\ Forall P evs.
Proof. intros H Hc. specialize (H s). rewrite Hc in H. exact H. Qed.

Ltac logs_tac HP :=
  repeat first
    [ apply logs_ret | apply logs_exit | apply logs_undefined | apply logs_get
    | apply logs_fetch | apply logs_put | apply logs_load_doubles | apply logs_fwrite
    | apply logs_when | apply logs_lift; intros
    | apply logs_fatal | apply logs_tell | apply logs_munmap
    | apply logs_bind; [|intros]
    | apply logs_for_each; intros | apply logs_mapM; intros
    | apply logs_modify; intros; reflexivity
    | match goal with
      | |- logs _ (if ?b then _ else _) => destruct b
      | |- logs _ (match ?x with _ => _ end) => destruct x
      | |- logs _ (let (_, _) := ?x in _) => destruct x
      end
    | apply HP; exact I ].

Section Phase_logs.
Context (X : Extern) (P : event -> Prop) (HP : forall e, quiet_event e -> P e).

Lemma logs_str_param tbl name msg dflt : logs P (str_param tbl name msg dflt).
Proof. unfold str_param. logs_tac HP. Qed.

Lemma logs_txrx_param tbl name msg : logs P (txrx_param X tbl name msg).
Proof. unfold txrx_param. logs_tac HP. Qed.

Lemma logs_global_config tbl : logs P (global_config_from_strs X tbl).
Proof.
  unfold global_config_from_strs.
  repeat first [ apply logs_str_param | apply logs_txrx_param
               | apply logs_bind; [|intros] ]; logs_tac HP.
Qed.

Lemma logs_parse_volt_vector : logs P parse_volt_vector.
Proof. unfold parse_volt_vector. logs_tac HP. Qed.

Lemma logs_setup gc inp : logs P (setup X gc inp).
Proof. unfold setup. logs_tac HP. Qed.

Lemma logs_init_temps dt m : logs P (init_temps X dt m).
Proof. unfold init_temps. logs_tac HP. Qed.

Lemma logs_load model f : logs P (load_last_trans_temp_mmap model f).
Proof. unfold load_last_trans_temp_mmap, c_open, perror. logs_tac HP. Qed.

Lemma logs_fetch_temps g : logs P (fetch_temps X g).
Proof. unfold fetch_temps. logs_tac HP. Qed.

Lemma logs_put_temps g t : logs P (put_temps X g t).
Proof. unfold put_temps. logs_tac HP. Qed.

Lemma logs_call_compute_temp m p first pwl : logs P (call_compute_temp X m p first pwl).
Proof.
  unfold call_compute_temp.
  apply logs_bind; [apply logs_fetch_temps|]. intros t.
  apply logs_bind; [apply logs_tell, HP; exact I|]. intros _.
  destruct (compute_temp X _ _ _ _ _ _) as [[c' t'] pwl'].
  apply logs_bind; [apply logs_put_temps | intros; apply logs_ret].
Qed.

Lemma logs_natural_convection l : logs P (natural_convection X l).
Proof. unfold natural_convection. logs_tac HP. Qed.

Lemma logs_count_units m : logs P (count_units X m).
Proof. unfold count_units. logs_tac HP. Qed.

Lemma logs_read_names fp : logs P (read_names X fp).
Proof.
  induction fp as [|fields fp IH]; cbn [read_names]; [logs_tac HP|].
  destruct fields; [exact IH | logs_tac HP].
Qed.

Lemma logs_read_vals_line fields vals : logs P (read_vals_line X fields vals).
Proof. unfold read_vals_line. logs_tac HP. Qed.

Lemma logs_finish_quiet fr region size l : logs P (finish X fr region size l).
Proof. apply logs_finish; intros; apply HP; exact I. Qed.

End Phase_logs.

(** ** The lines of the temperature trace *)

Lemma tabbed_snoc (fs : list text) (f : text) :
  concat (map (fun x => [x; Tab]) fs) ++ [f; Newline] = tabbed (fs ++ [f]).
Proof.
  induction fs as [|x fs IH]; [reflexivity|].
  cbn [map concat app]. rewrite IH.
  destruct (fs ++ [f]) eqn:E; [destruct fs; discriminate | reflexivity].
Qed.

Lemma line_tabbed {A} (field : A -> text) (at_ : Z -> A) (n : Z) :
  1 <= n ->
  concat (map (fun i => [field (at_ i); Tab]) (upto (n - 1)))
  ++ [field (at_ (Z.max 0 (n - 1))); Newline]
  = tabbed (map (fun i => field (at_ i)) (upto n)).
Proof.
  intros Hn. rewrite Z.max_r by lia.
  replace (map (fun i => [field (at_ i); Tab]) (upto (n - 1)))
    with (map (fun x => [x; Tab]) (map (fun i => field (at_ i)) (upto (n - 1))))
    by (rewrite map_map; reflexivity).
  rewrite tabbed_snoc. f_equal. unfold upto.
  replace n with (Z.of_nat (Datatypes.S (Z.to_nat (n - 1)))) at 3 by lia.
  rewrite seqZ_S, map_app, Z2Nat.id by lia. reflexivity.
Qed.

Lemma vals_line_tabbed (v : list double) (n : Z) :
  1 <= n -> vals_line v n = tabbed (map F2 (map (val_at v) (upto n))).
Proof.
  intros Hn. unfold vals_line. rewrite (line_tabbed F2 (val_at v)) by exact Hn.
  rewrite map_map. reflexivity.
Qed.

Lemma map_name_at (names : list string) :
  map (name_at names) (upto (Z.of_nat (length names))) = names.
Proof.
  apply list_eq. intros i. rewrite list_lookup_fmap. unfold upto.
  destruct (names !! i) as [x|] eqn:Hx.
  - apply lookup_lt_Some in Hx as Hlt. rewrite lookup_seqZ_lt by lia.
    cbn [fmap option_fmap option_map]. unfold name_at.
    destruct (Z.leb_spec 0 (0 + Z.of_nat i)); [|lia].
    rewrite Z.add_0_l, Nat2Z.id, Hx. reflexivity.
  - apply lookup_ge_None in Hx. rewrite lookup_seqZ_ge by lia. reflexivity.
Qed.

Lemma names_line_tabbed (names : list string) :
  names <> [] ->
  concat (map (fun i => [Str (name_at names i); Tab])
              (upto (Z.of_nat (length names) - 1)))
  ++ [Str (name_at names (Z.max 0 (Z.of_nat (length names) - 1))); Newline]
  = tabbed (map Str names).
Proof.
  intros Hne. rewrite (line_tabbed Str (name_at names)).
  2:{ destruct names; [congruence | cbn [length]; lia]. }
  f_equal. rewrite <- (map_map (name_at names) Str). f_equal. apply map_name_at.
Qed.

Lemma same_layers_refl g : same_layers g g.
Proof. split; reflexivity. Qed.

Lemma same_layers_trans g1 g2 g3 :
  same_layers g1 g2 -> same_layers g2 g3 -> same_layers g1 g3.
Proof. intros [? ?] [? ?]. split; congruence. Qed.

Lemma same_layers_used g g' : same_layers g g' -> used_layers g' = used_layers g.
Proof. intros [Hn Hl]. unfold used_layers. rewrite Hn, Hl. reflexivity. Qed.

Lemma same_model_refl {X} (m : RC_model_t X) : same_model m m.
Proof. split; [reflexivity | apply same_layers_refl]. Qed.

Lemma same_model_trans {X} (m1 m2 m3 : RC_model_t X) :
  same_model m1 m2 -> same_model m2 m3 -> same_model m1 m3.
Proof.
  intros [? ?] [? ?]. split; [congruence | eapply same_layers_trans; eauto].
Qed.

Lemma tout_lines_app a b : tout_lines (a ++ b) = tout_lines a ++ tout_lines b.
Proof.
  induction a as [|e a IH]; [reflexivity|].
  destruct e as [| [] | | | | |]; cbn [app tout_lines]; rewrite IH; reflexivity.
Qed.

Lemma tout_lines_quiet evs : Forall not_tout evs -> tout_lines evs = [].
Proof.
  induction 1 as [|e evs He _ IH]; [reflexivity|].
  destruct e as [| [] | | | | |]; cbn [tout_lines]; try exact IH. destruct He.
Qed.

Lemma quiet_not_tout e : quiet_event e -> not_tout e.
Proof. destruct e as [| [] | | | | |]; simpl; auto. Qed.

Section Row_by_row.
Context (X : Extern).

Lemma put_temps_shape g t s g' s' :
  put_temps X g t s = Ret g' s' -> same_layers g g' /\ config g' = config g.
Proof.
  unfold put_temps. intros H.
  bind_inv H. bind_inv H. bind_inv H. injection H as <- _.
  split; [split; reflexivity | reflexivity].
Qed.

Lemma call_compute_temp_shape m p first pwl s r s' :
  call_compute_temp X m p first pwl s = Ret r s' ->
  same_model m (fst r) /\ config (grid (fst r)) = config (grid m).
Proof.
  unfold call_compute_temp. intros H.
  bind_inv H. bind_inv H.
  destruct (compute_temp X _ _ _ _ _ _) as [[c' t'] pwl'].
  bind_inv H. injection H as <- _.
  apply put_temps_shape in H2 as [Hl Hc]. cbn [fst].
  split; [split; [reflexivity | exact Hl] | exact Hc].
Qed.

Lemma natural_convection_Ret l s l' s' :
  natural_convection X l s = Ret l' s' ->
  same_model (model l) (model l')
  /\ config (grid (model l')) = config (grid (model l))
  /\ power l' = power l /\ power_withLeak l' = power_withLeak l
  /\ overall_power l' = overall_power l /\ vals l' = vals l
  /\ vals_withLeak l' = vals_withLeak l /\ lines l' = lines l.
Proof.
  unfold natural_convection. intros H.
  destruct (truthy (natural l)).
  - bind_inv H. bind_inv H.
    destruct (package_model X _ _) as [c' nat'].
    bind_inv H. injection H as <- _. cbn.
    repeat split; reflexivity.
  - injection H as <- _. repeat split; reflexivity.
Qed.

Lemma fatal_not_Ret {A} msg s (a : A) s' : fatal msg s <> Ret a s'.
Proof. discriminate. Qed.

Lemma get_Ret {A} (f : state -> A) s a s' : get f s = Ret a s' -> a = f s /\ s' = s.
Proof. intros [= <- <-]. auto. Qed.

Lemma fetch_Ret p k s a s' : fetch p k s = Ret a s' -> s' = s.
Proof.
  destruct p; simpl; [intros [= _ <-]; reflexivity|].
  destruct (mapped_bytes s); [destruct (_ && _)|]; intros [= _ <-] || discriminate.
  reflexivity.
Qed.

Lemma fetch_with_log p k L s : fetch p k (with_log L s) = relog L (fetch p k s).
Proof.
  destruct p; simpl; [reflexivity|]. unfold load_doubles.
  change (mapped_bytes (with_log L s)) with (mapped_bytes s).
  destruct (mapped_bytes s); [destruct (_ && _)|]; reflexivity.
Qed.

(** What [last_temp] holds does not depend on the log. *)
Lemma last_temps_logged (l l' : locals X) s s' L :
  model l' = model l -> s' = with_log L s -> last_temps l' s' = last_temps l s.
Proof.
  intros Hm ->. unfold last_temps. rewrite Hm, fetch_with_log.
  destruct (fetch _ _ s); reflexivity.
Qed.

Lemma when_tell_Ret b e s u s' : when b (tell e) s = Ret u s' -> s' = with_log (log s') s.
Proof. destruct b; intros [= _ <-]; destruct s; reflexivity. Qed.

(** The transient part of an iteration writes exactly one line to the
    temperature trace: the temperatures [last_temp] then holds, column by
    column, of the nodes the header names. *)
Lemma transient_row_Ret fr l s l' s' :
  transient_row X fr l s = Ret l' s' ->
  same_model (model l) (model l')
  /\ is_block (type (model l)) = false
  /\ lines l' = lines l /\ power l' = power l /\ overall_power l' = overall_power l
  /\ length (vals l') = length (vals l)
  /\ (exists evs1 evs2,
        log s' = log s ++ evs1 ++ Fprint TOUT (vals_line (vals l') (n fr)) :: evs2
        /\ Forall not_tout evs1 /\ Forall not_tout evs2)
  /\ (exists nodes,
        names_nodes (grid (model l)) (names fr) nodes
        /\ forall i node, nodes !! i = Some node ->
             load (last_temps l' s') node = Ok (val_at (vals l') (Z.of_nat i))).
Proof.
  unfold transient_row. intros H.
  bind_inv H. rename a into l1, s0 into s1.
  pose proof (logs_Ret not_tout _ _ _ _
                (logs_natural_convection X not_tout quiet_not_tout l) H0)
    as (e1 & Hlog1 & Hq1).
  apply natural_convection_Ret in H0
    as (Hm1 & Hc1 & Hp1 & Hpw1 & Hov1 & Hv1 & Hw1 & Hl1).
  bind_inv H. apply get_Ret in H0 as [-> ->].
  bind_inv H. rename a into r, s0 into s2.
  pose proof (logs_Ret not_tout _ _ _ _
                (logs_call_compute_temp X not_tout quiet_not_tout _ _ _ _) H0)
    as (e2 & Hlog2 & Hq2).
  apply call_compute_temp_shape in H0 as [Hm2 Hc2].
  bind_inv H. rename s0 into s3.
  assert (Hlog3 : exists e3, log s3 = log s2 ++ e3 /\ Forall not_tout e3).
  { eapply (logs_Ret not_tout); [|exact H0].
    apply logs_when, logs_tell. exact I. }
  destruct Hlog3 as (e3 & Hlog3 & Hq3). clear H0.
  destruct (is_block (type (fst r))) eqn:Hblock; [discriminate|].
  bind_inv H. rename a0 into last. pose proof H0 as Hfetch. apply fetch_Ret in H0 as ->.
  bind_inv H. apply lift_Ret in H0 as [Hout ->]. rename a0 into vv.
  bind_inv H. injection H0 as _ <-.
  bind_inv H. rename s0 into s5.
  assert (Hlog5 : exists e5,
             log s5 = log (emit (Fprint TOUT (vals_line (fst vv) (n fr))) s3) ++ e5
             /\ Forall not_tout e5).
  { eapply (logs_Ret not_tout); [|exact H0].
    apply logs_when, logs_tell. exact I. }
  destruct Hlog5 as (e5 & Hlog5 & Hq5). apply when_tell_Ret in H0 as Hs5.
  injection H as <- <-. cbn [model lines power overall_power vals].
  match goal with
  | |- context [last_temps ?l' s5] =>
      assert (Hlast : last_temps l' s5 = last)
  end.
  { unfold last_temps. cbn [model]. rewrite Hs5.
    change (emit ?e s3) with (with_log (log s3 ++ [e]) s3).
    rewrite !fetch_with_log, Hfetch. reflexivity. }
  rewrite Hlast. clear Hs5 H0.
  rewrite permute_out_grid_fold in Hout.
  apply columns_fold_Ok in Hout as (_ & nodes & Hnodes & Happ).
  destruct vv as [v' w'].
  apply apply_out_Ok in Happ as (Hlv & _ & _ & Hvals & _); [|lia].
  destruct Hm1 as [Ht1 Hs1]. destruct Hm2 as [Ht2 Hs2].
  split; [split; [congruence | eapply same_layers_trans; eauto]|].
  split; [congruence|]. split; [exact Hl1|]. split; [exact Hp1|]. split; [exact Hov1|].
  split; [cbn [fst]; congruence|].
  split.
  - exists (e1 ++ e2 ++ e3), e5. cbn [fst]. rewrite Hlog5. cbn [log emit].
    rewrite Hlog3, Hlog2, Hlog1, <- !app_assoc. split; [reflexivity|].
    split; [|exact Hq5]. repeat apply Forall_app_2; assumption.
  - exists nodes. split.
    + destruct Hnodes as [Hlen Hn]. unfold names_nodes, node_of in *.
      rewrite (same_layers_used _ _ Hs2), (same_layers_used _ _ Hs1) in Hlen, Hn.
      split; assumption.
    + intros i node Hi. destruct (Hvals i node Hi) as [Hload _].
      rewrite Z.add_0_l in Hload. exact Hload.
Qed.

Lemma read_vals_line_Ret fields vals0 s r s' :
  read_vals_line X fields vals0 s = Ret r s' ->
  s' = s /\ fst r = Z.of_nat (length fields).
Proof.
  unfold read_vals_line. intros H. bind_inv H. apply lift_Ret in H0 as [_ ->].
  destruct (MAX_UNITS X <? Z.of_nat (length fields)); [discriminate|].
  injection H as <- <-. auto.
Qed.

(** One iteration of a transient run. *)
Lemma trace_row_Ret fr num vals' l s l' s' :
  trace_row X fr num vals' l s = Ret l' s' ->
  do_transient fr = true ->
  num = n fr
  /\ same_model (model l) (model l')
  /\ is_block (type (model l)) = false
  /\ lines l' = lines l + 1
  /\ (exists evs1 evs2,
        log s' = log s ++ evs1 ++ Fprint TOUT (vals_line (vals l') (n fr)) :: evs2
        /\ Forall not_tout evs1 /\ Forall not_tout evs2)
  /\ (exists nodes,
        names_nodes (grid (model l)) (names fr) nodes
        /\ forall i node, nodes !! i = Some node ->
             load (last_temps l' s') node = Ok (val_at (vals l') (Z.of_nat i))).
Proof.
  unfold trace_row. intros H Hdt. rewrite Hdt in H.
  bind_inv H. apply when_fatal_Ret in H0 as [Hnum ->].
  apply negb_false_iff, Z.eqb_eq in Hnum.
  bind_inv H. apply lift_Ret in H0 as [_ ->].
  bind_inv H. apply transient_row_Ret in H0
    as (Hm & Hb & Hl & Hp & Hov & Hlen & Hlog & Hnodes).
  cbn [model lines power overall_power vals] in *.
  bind_inv H. apply lift_Ret in H0 as [_ ->].
  injection H as <- <-. cbn [model lines vals].
  split; [exact Hnum|]. split; [exact Hm|]. split; [exact Hb|]. split; [lia|].
  split; [exact Hlog|].
  destruct Hnodes as (nodes & Hnn & Hload). exists nodes. split; [exact Hnn|].
  intros i node Hi. rewrite <- (Hload i node Hi). reflexivity.
Qed.

Lemma read_names_Ret fp :
  forall s r s',
    read_names X fp s = Ret r s' ->
    s' = s /\ nonblank fp = fst (fst r) :: nonblank (snd r)
    /\ fst (fst r) <> [] /\ snd (fst r) = Z.of_nat (length (fst (fst r))).
Proof.
  induction fp as [|fields fp IH]; intros s r s' H; [discriminate|].
  destruct fields as [|f fields]; [apply IH, H|].
  cbn [read_names nonblank] in *.
  destruct (MAX_UNITS X <? _); [discriminate|].
  injection H as <- <-. cbn [fst snd]. repeat split. discriminate.
Qed.

Lemma count_columns lys :
  forall acc,
    rfold (fun k ly => Ok (if truthy (has_power ly) then k + n_units (flp ly) else k))
          lys acc
    = Ok (acc + n_columns lys).
Proof.
  induction lys as [|ly lys IH]; intros acc; cbn [rfold n_columns rbind].
  - f_equal. lia.
  - rewrite IH. f_equal. destruct (truthy (has_power ly)); lia.
Qed.

Lemma count_units_Ret m s k s' :
  count_units X m s = Ret k s' ->
  s' = s
  /\ (is_block (type m) = false -> k = n_columns (used_layers (grid m))).
Proof.
  unfold count_units. destruct (type m); cbn [is_block].
  - intros [= <- <-]. split; [reflexivity | discriminate].
  - intros H. apply lift_Ret in H as [H ->]. split; [reflexivity|]. intros _.
    apply for_layers_Ok in H as [_ H]. rewrite count_columns in H.
    injection H as <-. lia.
  - discriminate.
Qed.

Lemma load_shape g f s r s' :
  load_last_trans_temp_mmap g f s = Ret r s' -> same_layers g (fst (fst r)).
Proof.
  unfold load_last_trans_temp_mmap. intros H.
  bind_inv H. destruct a as [bytes|]; [|discriminate].
  bind_inv H. destruct (negb a); [discriminate|].
  bind_inv H. bind_inv H. bind_inv H.
  destruct (_ || _); [discriminate|].
  destruct (_ || _); [discriminate|].
  injection H as <- _. split; reflexivity.
Qed.

(** Opening the traces: the first non-empty line gives the names; the
    temperature trace gets the header line or nothing. *)
Lemma open_traces_Ret dt m fp s r s' :
  open_traces X dt m (Some fp) s = Ret r s' ->
  let '(m', names0, k, fp', _, _) := r in
  same_model m m'
  /\ nonblank fp = names0 :: nonblank fp'
  /\ names0 <> [] /\ k = Z.of_nat (length names0)
  /\ (is_block (type m) = false -> k = n_columns (used_layers (grid m)))
  /\ exists evs,
      log s' = log s ++ evs
      /\ (tout_lines evs = [] \/ tout_lines evs = [tabbed (map Str names0)]).
Proof.
  unfold open_traces. intros H.
  bind_inv H. apply count_units_Ret in H0 as [-> Hcols]. rename a into k.
  bind_inv H. injection H0 as <- <-.
  bind_inv H. apply get_Ret in H0 as [-> ->].
  bind_inv H. apply when_fatal_Ret in H0 as [_ ->].
  bind_inv H. apply get_Ret in H0 as [-> ->].
  bind_inv H. apply when_fatal_Ret in H0 as [_ ->].
  bind_as H rn s1 Hrn. apply read_names_Ret in Hrn as (-> & Hnb & Hne & Hcnt).
  destruct rn as [[names0 cnt] fp']. cbn [fst snd] in *.
  bind_inv H. apply when_fatal_Ret in H0 as [Hk ->].
  apply negb_false_iff, Z.eqb_eq in Hk.
  assert (Hkn : k = Z.of_nat (length names0)) by lia. clear Hk Hcnt.
  rename Hkn into Hcnt.
  bind_inv H. apply get_Ret in H0 as [-> ->].
  destruct (_ && dt).
  - bind_inv H. injection H0 as _ <-.
    bind_inv H. rename s0 into s2.
    assert (Hq2 : exists e2, log s2 = log (emit (Fprint TOUT
                    (concat (map (fun i => [Str (name_at names0 i); Tab]) (upto (k - 1)))
                     ++ [Str (name_at names0 (Z.max 0 (k - 1))); Newline])) s) ++ e2
                             /\ Forall not_tout e2).
    { eapply (logs_Ret not_tout); [|exact H0]. apply logs_when, logs_tell. exact I. }
    destruct Hq2 as (e2 & Hlog2 & Hq2). clear H0.
    bind_inv H. rename s0 into s3.
    assert (Hq3 : exists e3, log s3 = log s2 ++ e3 /\ Forall not_tout e3).
    { eapply (logs_Ret not_tout); [|exact H0]. apply logs_when.
      logs_tac quiet_not_tout. }
    destruct Hq3 as (e3 & Hlog3 & Hq3). clear H0.
    injection H as <- <-.
    split; [apply same_model_refl|]. split; [exact Hnb|]. split; [exact Hne|].
    split; [exact Hcnt|]. split; [exact Hcols|].
    eexists. split; [rewrite Hlog3, Hlog2; cbn [log emit]; rewrite <- !app_assoc;
                     reflexivity|].
    right. cbn [app tout_lines]. rewrite tout_lines_app, (tout_lines_quiet e2 Hq2),
      (tout_lines_quiet e3 Hq3). cbn [app]. f_equal. rewrite Hcnt.
    apply names_line_tabbed, Hne.
  - destruct (_ && dt).
    + bind_as H ld s1 H0.
      pose proof (logs_Ret not_tout _ _ _ _
                    (logs_load not_tout quiet_not_tout _ _) H0) as (e1 & Hlog1 & Hq1).
      apply load_shape in H0. destruct ld as [[g' region] size]. cbn [fst] in H0.
      injection H as <- <-.
      split; [split; [reflexivity | exact H0]|].
      split; [exact Hnb|]. split; [exact Hne|]. split; [exact Hcnt|].
      split; [exact Hcols|].
      exists e1. split; [exact Hlog1|]. left. apply tout_lines_quiet, Hq1.
    + injection H as <- <-.
      split; [apply same_model_refl|]. split; [exact Hnb|]. split; [exact Hne|].
      split; [exact Hcnt|]. split; [exact Hcols|].
      exists []. rewrite app_nil_r. auto.
Qed.

Lemma put_Ret_heap_or_view p k new s p' s' :
  put p k new s = Ret p' s' -> log s' = log s.
Proof.
  intros H. pose proof (logs_Ret (fun _ => False) _ _ _ _ (logs_put _ p k new) H)
    as (evs & Hlog & Hall).
  destruct evs; [rewrite app_nil_r in Hlog; exact Hlog | inversion Hall; contradiction].
Qed.

Lemma init_temps_shape dt m s m' s' :
  init_temps X dt m s = Ret m' s' -> same_model m m'.
Proof.
  unfold init_temps. intros H. bind_inv H.
  destruct (_ <=? _); [|injection H as <- _; apply same_model_refl].
  destruct (dt && _).
  - bind_inv H. bind_inv H.
    destruct (read_temp X _ _ _); [|discriminate].
    bind_inv H. injection H as <- _. split; [reflexivity | split; reflexivity].
  - destruct dt; [|injection H as <- _; apply same_model_refl].
    bind_inv H. bind_inv H. bind_inv H. injection H as <- _.
    split; [reflexivity | split; reflexivity].
Qed.

Lemma setup_Ret gc inp s r s' :
  setup X gc inp s = Ret r s' ->
  fst (fst r) = differs (t_outfile gc) NULLFILE
  /\ same_model (model_in inp) (model (snd r))
  /\ lines (snd r) = 0.
Proof.
  unfold setup. intros H. cbv zeta in H.
  repeat (bind_inv H). injection H as <- _. cbn [fst snd model lines].
  split; [reflexivity|]. split; [|reflexivity].
  destruct (differs (t_outfile gc) NULLFILE); split; reflexivity || (split; reflexivity).
Qed.

End Row_by_row.

(** ** C5: the order of the columns *)

Lemma permuted_cons {A} i (p : list nat) (l : list A) :
  permuted (i :: p) l = match l !! i with Some x => x :: permuted p l | None => permuted p l end.
Proof. reflexivity. Qed.

Lemma permuted_lookup {A} (p : list nat) (l : list A) :
  (forall i, i ∈ p -> (i < length l)%nat) ->
  forall j, permuted p l !! j = p !! j ≫= (fun i => l !! i).
Proof.
  induction p as [|i p IH]; intros Hp j; [reflexivity|].
  rewrite permuted_cons.
  destruct (lookup_lt_is_Some_2 l i) as [x Hx]; [apply Hp; left|].
  rewrite Hx. destruct j as [|j]; cbn; [rewrite Hx; reflexivity|].
  apply IH. intros k Hk. apply Hp. right. exact Hk.
Qed.

Lemma length_permuted {A} (p : list nat) (l : list A) :
  (forall i, i ∈ p -> (i < length l)%nat) -> length (permuted p l) = length p.
Proof.
  induction p as [|i p IH]; intros Hp; [reflexivity|].
  rewrite permuted_cons.
  destruct (lookup_lt_is_Some_2 l i) as [x Hx]; [apply Hp; left|].
  rewrite Hx. cbn. f_equal. apply IH. intros k Hk. apply Hp. right. exact Hk.
Qed.

Lemma permuted_fmap {A B} (f : A -> B) (p : list nat) (l : list A) :
  permuted p (map f l) = map f (permuted p l).
Proof.
  induction p as [|i p IH]; [reflexivity|].
  rewrite !permuted_cons, IH.
  change (map f l !! i) with ((f <$> l) !! i). rewrite list_lookup_fmap.
  destruct (l !! i); reflexivity.
Qed.

Lemma permuted_nil {A} (p : list nat) : permuted p (@nil A) = [].
Proof. induction p as [|i p IH]; [reflexivity|]. rewrite permuted_cons. exact IH. Qed.

Lemma permuted_seq {A} (l : list A) : forall l0,
  permuted (seq (length l0) (length l)) (l0 ++ l) = l.
Proof.
  induction l as [|x l IH]; intros l0; [reflexivity|].
  cbn [length seq]. rewrite permuted_cons.
  rewrite lookup_app_r, Nat.sub_diag by lia. cbn. f_equal.
  specialize (IH (l0 ++ [x])). rewrite length_app, <- app_assoc in IH. cbn in IH.
  rewrite Nat.add_1_r in IH. exact IH.
Qed.

Lemma permuted_Permutation {A} (p : list nat) (l : list A) :
  p ≡ₚ seq 0 (length l) -> permuted p l ≡ₚ l.
Proof.
  intros Hp. unfold permuted. rewrite Hp.
  change (permuted (seq (length (@nil A)) (length l)) ([] ++ l) ≡ₚ l).
  rewrite permuted_seq. reflexivity.
Qed.

Lemma perm_range (p : list nat) n i : p ≡ₚ seq 0 n -> i ∈ p <-> (i < n)%nat.
Proof. intros Hp. rewrite Hp, elem_of_seq. lia. Qed.

Lemma perm_length (p : list nat) n : p ≡ₚ seq 0 n -> length p = n.
Proof. intros Hp. rewrite Hp. apply length_seq. Qed.

Lemma perm_onto (p : list nat) n i :
  p ≡ₚ seq 0 n -> (i < n)%nat -> exists j, p !! j = Some i.
Proof. intros Hp Hi. apply list_elem_of_lookup, (perm_range p n i Hp), Hi. Qed.

Lemma perm_NoDup (p : list nat) n : p ≡ₚ seq 0 n -> NoDup p.
Proof. intros Hp. rewrite Hp. apply NoDup_seq. Qed.

(** Column [j] of the rearranged row is column [p !! j] of the row. *)
Lemma permuted_at {A} (p : list nat) (l : list A) j i :
  p ≡ₚ seq 0 (length l) -> p !! j = Some i -> permuted p l !! j = l !! i.
Proof.
  intros Hp Hj. rewrite permuted_lookup, Hj; [reflexivity|].
  intros k Hk. apply (perm_range p _ k Hp), Hk.
Qed.

Lemma permuted_length {A} (p : list nat) (l : list A) :
  p ≡ₚ seq 0 (length l) -> length (permuted p l) = length l.
Proof. intros Hp. apply Permutation_length, permuted_Permutation, Hp. Qed.
(** What the power loop has stored when it ends. *)
Lemma apply_in_Ok (vals : list double) (nodes : list Z) :
  forall count (power p' : list double),
    apply_columns (act_in vals) count nodes power = Ok p' ->
    length p' = length power
    /\ (forall i node, nodes !! i = Some node -> 0 <= node < Z.of_nat (length power))
    /\ (NoDup nodes -> forall i node, nodes !! i = Some node ->
          p' !! Z.to_nat node = Some (val_at vals (count + Z.of_nat i)))
    /\ (forall k, (forall i node, nodes !! i = Some node -> Z.to_nat node <> k) ->
          p' !! k = power !! k).
Proof.
  induction nodes as [|node rest IH]; intros count power p' H.
  - injection H as <-. split; [reflexivity|]. split; [intros i node [=]|].
    split; [intros _ i node [=] | reflexivity].
  - rewrite apply_columns_cons in H. apply rbind_Ok in H as (p1 & Hst & H).
    apply store_Ok in Hst as [Hnode ->].
    apply IH in H as (Hlen & Hrange & Hval & Hother).
    rewrite length_insert in Hlen, Hrange.
    split; [exact Hlen|]. split; [|split].
    + intros [|i] a Ha; [injection Ha as <-; exact Hnode | eapply Hrange, Ha].
    + intros Hnd [|i] a Ha; apply NoDup_cons in Hnd as [Hnotin Hnd].
      * injection Ha as <-. rewrite Z.add_0_r, Hother.
        -- apply list_lookup_insert_eq. lia.
        -- intros i a Ha Heq. apply Hnotin.
           assert (a = node) as <-; [|eapply list_elem_of_lookup_2, Ha].
           apply Hrange in Ha. lia.
      * rewrite (Hval Hnd i a Ha). f_equal. f_equal. lia.
    + intros k Hk. rewrite Hother.
      * apply list_lookup_insert_ne. apply (Hk 0%nat node). reflexivity.
      * intros i a Ha. apply (Hk (S i) a). exact Ha.
Qed.

Lemma apply_in_total (vals : list double) (nodes : list Z) :
  forall count (power : list double),
    (forall i node, nodes !! i = Some node -> 0 <= node < Z.of_nat (length power)) ->
    exists p', apply_columns (act_in vals) count nodes power = Ok p'.
Proof.
  induction nodes as [|node rest IH]; intros count power Hrange; [eexists; reflexivity|].
  rewrite apply_columns_cons.
  destruct (IH (count + 1) (<[Z.to_nat node := val_at vals count]> power)) as [p' Hp'].
  { intros i a Ha. rewrite length_insert. apply (Hrange (S i) a Ha). }
  exists p'. apply rbind_Ok. eexists. split; [|exact Hp'].
  apply store_Ok. split; [apply (Hrange 0%nat node); reflexivity | reflexivity].
Qed.

(** With no node named twice, the order in which the columns are stored does
    not matter. *)
Lemma apply_in_permuted (vals vals2 : list double) (nodes : list Z) (p : list nat)
      (power p' : list double) :
  p ≡ₚ seq 0 (length nodes) -> NoDup nodes ->
  (forall j i, p !! j = Some i -> val_at vals2 (Z.of_nat j) = val_at vals (Z.of_nat i)) ->
  apply_columns (act_in vals) 0 nodes power = Ok p' ->
  apply_columns (act_in vals2) 0 (permuted p nodes) power = Ok p'.
Proof.
  intros Hp Hnd Hvals H.
  apply apply_in_Ok in H as (Hlen & Hrange & Hval & Hother).
  specialize (Hval Hnd).
  assert (Hin : forall j a, permuted p nodes !! j = Some a ->
                  exists i, p !! j = Some i /\ nodes !! i = Some a).
  { intros j a Ha. destruct (p !! j) as [i|] eqn:Hj.
    - exists i. split; [reflexivity|]. rewrite <- (permuted_at p nodes j i Hp Hj). exact Ha.
    - apply lookup_lt_Some in Ha. rewrite (permuted_length p nodes Hp) in Ha.
      apply lookup_ge_None in Hj. rewrite (perm_length p _ Hp) in Hj. lia. }
  destruct (apply_in_total vals2 (permuted p nodes) 0 power) as [p2 H2].
  { intros j a Ha. destruct (Hin j a Ha) as (i & _ & Hi). eapply Hrange, Hi. }
  rewrite H2. f_equal.
  apply apply_in_Ok in H2 as (Hlen2 & _ & Hval2 & Hother2).
  assert (Hnd2 : NoDup (permuted p nodes)).
  { rewrite (permuted_Permutation p nodes Hp). exact Hnd. }
  specialize (Hval2 Hnd2).
  apply list_eq. intros k.
  destruct (decide (k ∈ map Z.to_nat nodes)) as [Hk|Hk].
  - apply list_elem_of_fmap in Hk as (a & -> & Ha).
    apply list_elem_of_lookup in Ha as [i Hi].
    destruct (perm_onto p (length nodes) i Hp) as [j Hj];
      [eapply lookup_lt_Some, Hi|].
    rewrite (Hval i a Hi), (Hval2 j a).
    + rewrite !Z.add_0_l. f_equal. apply Hvals, Hj.
    + rewrite (permuted_at p nodes j i Hp Hj). exact Hi.
  - assert (Hno : forall i a, nodes !! i = Some a -> Z.to_nat a <> k).
    { intros i a Ha <-. apply Hk, list_elem_of_fmap. exists a.
      split; [reflexivity | eapply list_elem_of_lookup_2, Ha]. }
    rewrite Hother2, Hother; [reflexivity | exact Hno |].
    intros j a Ha. destruct (Hin j a Ha) as (i & _ & Hi). eapply Hno, Hi.
Qed.

Lemma name_at_permuted (names : list string) (p : list nat) j i :
  p ≡ₚ seq 0 (length names) -> p !! j = Some i ->
  name_at (permuted p names) (Z.of_nat j) = name_at names (Z.of_nat i).
Proof.
  intros Hp Hj. unfold name_at.
  assert (H1 : (0 <=? Z.of_nat j) = true) by (apply Z.leb_le; lia).
  assert (H2 : (0 <=? Z.of_nat i) = true) by (apply Z.leb_le; lia).
  rewrite H1, H2, !Nat2Z.id, (permuted_at p names j i Hp Hj). reflexivity.
Qed.

(** Rearranged within the layers, the header names the rearranged nodes. *)
Lemma names_nodes_permuted g (names : list string) (nodes : list Z) (p : list nat) :
  keeps_layers g p -> length names = length nodes ->
  names_nodes g names nodes ->
  names_nodes g (permuted p names) (permuted p nodes).
Proof.
  intros [Hp Hlayers] Hlen [Hn Hnodes].
  assert (Hp' : p ≡ₚ seq 0 (length nodes)) by (rewrite Hp, <- Hn, Nat2Z.id; reflexivity).
  split; [rewrite (permuted_length p nodes Hp'); exact Hn|].
  intros j a Ha.
  destruct (p !! j) as [i|] eqn:Hj.
  - rewrite (permuted_at p nodes j i Hp' Hj) in Ha.
    specialize (Hnodes i a Ha). unfold node_of, node_at in *.
    rewrite <- (Hlayers j i Hj).
    destruct (locate _ _ _) as [[ly b]|]; [|discriminate].
    rewrite !Z.add_0_l in *. rewrite (name_at_permuted names p j i);
      [exact Hnodes | rewrite Hlen; exact Hp' | exact Hj].
  - apply lookup_lt_Some in Ha. rewrite (permuted_length p nodes Hp') in Ha.
    apply lookup_ge_None in Hj. rewrite (perm_length p _ Hp') in Hj. lia.
Qed.
(** *** Following a run with another log *)

Lemma with_log_log s : with_log (log s) s = s.
Proof. destruct s; reflexivity. Qed.

Section Simulation.
Context (U : Prop) (E : event -> event -> Prop).

Lemma sim_ret {A B} (R : A -> B -> Prop) a b : R a b -> sim U E R (ret a) (ret b).
Proof.
  intros HR s L. unfold ret. exists b, [], [].
  rewrite !app_nil_r. repeat split; auto.
Qed.

Lemma sim_bind {A B A' B'} (R : A -> B -> Prop) (R' : A' -> B' -> Prop)
      (c1 : M A) (c2 : M B) (k1 : A -> M A') (k2 : B -> M B') :
  sim U E R c1 c2 -> (forall a b, R a b -> sim U E R' (k1 a) (k2 b)) ->
  sim U E R' (bind c1 k1) (bind c2 k2).
Proof.
  intros Hc Hk s L. specialize (Hc s L). unfold bind.
  destruct (c1 s) as [a s1|code s1|w s1].
  - destruct Hc as (b & e1 & e2 & Hc2 & HR & Hlog & HE). rewrite Hc2.
    specialize (Hk a b HR s1 (L ++ e2)).
    destruct (k1 a s1) as [a' s'|code s'|w s'].
    + destruct Hk as (b' & e1' & e2' & Hk2 & HR' & Hlog' & HE').
      exists b', (e1 ++ e1'), (e2 ++ e2'). rewrite Hk2, Hlog', Hlog, !app_assoc.
      repeat split; auto. apply Forall2_app; assumption.
    + destruct Hk as (e1' & e2' & Hk2 & Hlog' & HE').
      exists (e1 ++ e1'), (e2 ++ e2'). rewrite Hk2, Hlog', Hlog, !app_assoc.
      repeat split; auto. apply Forall2_app; assumption.
    + intros HU. destruct (Hk HU) as (e1' & e2' & Hk2 & Hlog' & HE').
      exists (e1 ++ e1'), (e2 ++ e2'). rewrite Hk2, Hlog', Hlog, !app_assoc.
      repeat split; auto. apply Forall2_app; assumption.
  - destruct Hc as (e1 & e2 & Hc2 & Hlog & HE). rewrite Hc2. exists e1, e2. auto.
  - intros HU. destruct (Hc HU) as (e1 & e2 & Hc2 & Hlog & HE). rewrite Hc2.
    exists e1, e2. auto.
Qed.

Lemma sim_bind_eq {A A' B'} (R' : A' -> B' -> Prop)
      (c1 c2 : M A) (k1 : A -> M A') (k2 : A -> M B') :
  sim U E eq c1 c2 -> (forall a, sim U E R' (k1 a) (k2 a)) ->
  sim U E R' (bind c1 k1) (bind c2 k2).
Proof. intros Hc Hk. eapply sim_bind; [exact Hc|]. intros a b <-. apply Hk. Qed.

Lemma sim_exit {A B} (R : A -> B -> Prop) code : sim U E R (exit code) (exit code).
Proof. intros s L. unfold exit. exists [], []. rewrite !app_nil_r. auto. Qed.

Lemma sim_undefined {A B} (R : A -> B -> Prop) w : sim U E R (undefined w) (undefined w).
Proof. intros s L. unfold undefined. intros _. exists [], []. rewrite !app_nil_r. auto. Qed.

Lemma sim_tell e1 e2 : E e1 e2 -> sim U E eq (tell e1) (tell e2).
Proof. intros He s L. exists tt, [e1], [e2]. repeat split; auto. Qed.

Lemma sim_fatal {A B} (R : A -> B -> Prop) msg :
  E (Stderr msg) (Stderr msg) -> sim U E R (fatal msg) (fatal msg).
Proof.
  intros He. unfold fatal.
  apply (sim_bind eq); [apply sim_tell, He | intros; apply sim_exit].
Qed.

(** A computation that neither reads nor writes the log. *)
Lemma sim_raw {A} (c : M A) :
  (forall s L, c (with_log L s) = relog L (c s)) -> sim U E eq c c.
Proof.
  intros Hc s L.
  assert (Hlog : log (final (c s)) = log s).
  { pose proof (Hc s (log s)) as Hs. rewrite with_log_log in Hs.
    destruct (c s) as [a s'|code s'|w s']; cbn [relog final] in *;
      injection Hs as Hs; rewrite Hs; reflexivity. }
  rewrite Hc.
  destruct (c s) as [a s'|code s'|w s']; cbn [relog final] in *.
  - exists a, [], []. rewrite !app_nil_r. auto.
  - exists [], []. rewrite !app_nil_r. auto.
  - intros _. exists [], []. rewrite !app_nil_r. auto.
Qed.

Lemma sim_get {A} (f : state -> A) :
  (forall s L, f (with_log L s) = f s) -> sim U E eq (get f) (get f).
Proof. intros Hf. apply sim_raw. intros s L. unfold get. rewrite Hf. reflexivity. Qed.

Lemma sim_modify (f : state -> state) :
  (forall s L, f (with_log L s) = with_log L (f s)) -> sim U E eq (modify f) (modify f).
Proof. intros Hf. apply sim_raw. intros s L. unfold modify. rewrite Hf. reflexivity. Qed.

Lemma sim_when b (c1 c2 : M unit) :
  sim U E eq c1 c2 -> sim U E eq (when b c1) (when b c2).
Proof. destruct b; [auto | intros; apply sim_ret; reflexivity]. Qed.

Lemma sim_lift {A B} (R : A -> B -> Prop) (r1 : res A) (r2 : res B) :
  (forall msg, E (Stderr msg) (Stderr msg)) ->
  (forall a, r1 = Ok a -> exists b, r2 = Ok b /\ R a b) ->
  (forall msg, r1 = Fatal msg -> r2 = Fatal msg) ->
  (U -> forall w, r1 = Fault w -> r2 = Fault w) ->
  sim U E R (lift r1) (lift r2).
Proof.
  intros He Hok Hfatal Hfault. destruct r1 as [a|msg|w].
  - destruct (Hok a eq_refl) as (b & -> & HR). apply sim_ret, HR.
  - rewrite (Hfatal msg eq_refl). apply sim_fatal, He.
  - intros s L HU. rewrite (Hfault HU w eq_refl). apply (sim_undefined R w s L), HU.
Qed.

Lemma sim_lift_eq {A} (r : res A) :
  (forall msg, E (Stderr msg) (Stderr msg)) -> sim U E eq (lift r) (lift r).
Proof. intros He. apply sim_lift; eauto. Qed.

Lemma sim_for_each {A} (l : list A) (body1 body2 : A -> M unit) :
  (forall x, sim U E eq (body1 x) (body2 x)) ->
  sim U E eq (for_each l body1) (for_each l body2).
Proof.
  intros H. induction l; simpl; [apply sim_ret; reflexivity|].
  apply sim_bind_eq; auto.
Qed.

Lemma sim_mapM {A B} (f : A -> M B) (l : list A) :
  (forall x, sim U E eq (f x) (f x)) -> sim U E eq (mapM f l) (mapM f l).
Proof.
  intros H. induction l; simpl; [apply sim_ret; reflexivity|].
  apply sim_bind_eq; [apply H|]. intros b.
  apply sim_bind_eq; [apply IHl|]. intros bs. apply sim_ret. reflexivity.
Qed.

Lemma sim_load_doubles p n : sim U E eq (load_doubles p n) (load_doubles p n).
Proof.
  apply sim_raw. intros s L. unfold load_doubles.
  destruct p; [destruct (_ && _); reflexivity|].
  change (mapped_bytes (with_log L s)) with (mapped_bytes s).
  destruct (mapped_bytes s); [destruct (_ && _)|]; reflexivity.
Qed.

Lemma sim_fetch p n : sim U E eq (fetch p n) (fetch p n).
Proof. destruct p; simpl; [apply sim_ret; reflexivity | apply sim_load_doubles]. Qed.

Lemma sim_put p n new : sim U E eq (put p n new) (put p n new).
Proof.
  destruct p; simpl; [apply sim_ret; reflexivity|].
  apply sim_raw. intros s L. cbn [mapping fs with_log].
  destruct (mapping s) as [[f ?]|]; [|reflexivity].
  destruct (fs s !! f); [destruct (_ && _)|]; reflexivity.
Qed.

Lemma sim_c_open f : sim U E eq (c_open f) (c_open f).
Proof. apply sim_raw. intros s L. reflexivity. Qed.

(** What [c1] is known to return may be added to the relation. *)
Lemma sim_post {A B} (R : A -> B -> Prop) (P : A -> Prop) (c1 : M A) (c2 : M B) :
  sim U E R c1 c2 -> (forall s a s', c1 s = Ret a s' -> P a) ->
  sim U E (fun a b => R a b /\ P a) c1 c2.
Proof.
  intros Hc HP s L. specialize (Hc s L). specialize (HP s).
  destruct (c1 s) as [a s'|code s'|w s']; [|exact Hc|exact Hc].
  destruct Hc as (b & e1 & e2 & H2 & HR & Hrest).
  exists b, e1, e2. split; [exact H2|]. split; [split; [exact HR | eapply HP; reflexivity]|].
  exact Hrest.
Qed.

Lemma sim_impl {A B} (R R' : A -> B -> Prop) (c1 : M A) (c2 : M B) :
  sim U E R c1 c2 -> (forall a b, R a b -> R' a b) -> sim U E R' c1 c2.
Proof.
  intros Hc HR s L. specialize (Hc s L).
  destruct (c1 s) as [a s'|code s'|w s']; [|exact Hc|exact Hc].
  destruct Hc as (b & e1 & e2 & H2 & Hab & Hrest). exists b, e1, e2. auto.
Qed.

End Simulation.

(** What a simulation says of the two runs from one state. *)
Lemma sim_run U E {A} (c1 c2 : M A) (s : state) :
  sim U E eq c1 c2 ->
  match c1 s with Undef _ _ => U | _ => True end ->
  exists e1 e2,
    log (final (c1 s)) = log s ++ e1
    /\ Forall2 E e1 e2
    /\ c2 s = relog (log s ++ e2) (c1 s).
Proof.
  intros H HU. specialize (H s (log s)). rewrite with_log_log in H.
  destruct (c1 s) as [a s'|code s'|w s']; cbn [final relog].
  - destruct H as (b & e1 & e2 & H2 & <- & Hlog & HE). exists e1, e2. auto.
  - destruct H as (e1 & e2 & H2 & Hlog & HE). exists e1, e2. auto.
  - destruct (H HU) as (e1 & e2 & H2 & Hlog & HE). exists e1, e2. auto.
Qed.

(** [erefl] proves that an event is related to itself. *)
Ltac sim_with erefl known :=
  repeat first
    [ known
    | apply sim_ret; reflexivity | apply sim_exit | apply sim_undefined
    | apply sim_fatal; erefl
    | apply sim_get; reflexivity
    | apply sim_fetch | apply sim_put | apply sim_load_doubles | apply sim_c_open
    | apply sim_lift_eq; intros; erefl
    | apply sim_tell; erefl
    | apply sim_when
    | apply sim_bind_eq; [|intros]
    | apply sim_for_each; intros | apply sim_mapM; intros
    | apply sim_modify; intros; reflexivity
    | match goal with
      | |- sim _ _ _ (if ?b then _ else _) _ => destruct b
      | |- sim _ _ _ (match ?x with _ => _ end) _ => destruct x
      | |- sim _ _ _ (let (_, _) := ?x in _) _ => destruct x
      end ].

Ltac sim_tac erefl := sim_with erefl fail.

(** The same code twice: every part of [main] follows itself.  Lines of the
    trace files and the dump of the configuration are related to themselves
    only where [E_print] and [E_dump] say so. *)
Section Same_run.
Context (X : Extern) (U : Prop) (E : event -> event -> Prop).
Hypothesis E_plain : forall e, plain_event e -> E e e.
Hypothesis E_print : forall f line, E (Fprint f line) (Fprint f line).
Hypothesis E_dump : forall t f p, E (Call (c_dump_str_pairs t f p)) (Call (c_dump_str_pairs t f p)).

Ltac plain := solve [apply E_plain; exact I].
Ltac any := solve [apply E_plain; exact I | apply E_print | apply E_dump].

Lemma sim_str_param tbl name msg dflt :
  sim U E eq (str_param tbl name msg dflt) (str_param tbl name msg dflt).
Proof. unfold str_param. sim_tac plain. Qed.

Lemma sim_txrx_param tbl name msg :
  sim U E eq (txrx_param X tbl name msg) (txrx_param X tbl name msg).
Proof. unfold txrx_param. sim_tac plain. Qed.

Lemma sim_global_config tbl :
  sim U E eq (global_config_from_strs X tbl) (global_config_from_strs X tbl).
Proof.
  unfold global_config_from_strs.
  repeat first [ apply sim_str_param | apply sim_txrx_param
               | apply sim_bind_eq; [|intros] ]; sim_tac plain.
Qed.

Lemma sim_parse_volt_vector : sim U E eq parse_volt_vector parse_volt_vector.
Proof. unfold parse_volt_vector. sim_tac plain. Qed.

Lemma sim_dump_configuration gc inp :
  sim U E eq (dump_configuration X gc inp) (dump_configuration X gc inp).
Proof.
  unfold dump_configuration, global_config_to_strs, dump_str_pairs. sim_tac any.
Qed.

(** The set-up after the dump (lines 665-725). *)
Lemma sim_setup gc inp : sim U E eq (setup X gc inp) (setup X gc inp).
Proof.
  unfold setup. cbv zeta.
  apply sim_bind_eq; [sim_tac plain|]. intros _.
  apply sim_bind_eq; [apply sim_when, sim_dump_configuration|]. intros _.
  sim_tac plain.
Qed.

Lemma sim_init_temps dt m : sim U E eq (init_temps X dt m) (init_temps X dt m).
Proof. unfold init_temps. sim_tac plain. Qed.

Lemma sim_munmap : sim U E eq munmap munmap.
Proof. unfold munmap. sim_tac plain. Qed.

Lemma sim_load model f :
  sim U E eq (load_last_trans_temp_mmap model f) (load_last_trans_temp_mmap model f).
Proof.
  unfold load_last_trans_temp_mmap, perror.
  sim_with plain ltac:(apply sim_munmap).
Qed.

Lemma sim_fetch_temps g : sim U E eq (fetch_temps X g) (fetch_temps X g).
Proof. unfold fetch_temps. sim_tac plain. Qed.

Lemma sim_put_temps g t : sim U E eq (put_temps X g t) (put_temps X g t).
Proof. unfold put_temps. sim_tac plain. Qed.

Lemma sim_call_compute_temp m p first pwl :
  sim U E eq (call_compute_temp X m p first pwl) (call_compute_temp X m p first pwl).
Proof.
  unfold call_compute_temp.
  apply sim_bind_eq; [apply sim_fetch_temps|]. intros t.
  apply sim_bind_eq; [apply sim_tell; plain|]. intros _.
  destruct (compute_temp X _ _ _ _ _ _) as [[c' t'] pwl'].
  apply sim_bind_eq; [apply sim_put_temps | intros; apply sim_ret; reflexivity].
Qed.

Lemma sim_count_units m : sim U E eq (count_units X m) (count_units X m).
Proof. unfold count_units. sim_tac plain. Qed.

Lemma sim_save g f k :
  sim U E eq (save_last_trans_temp_mmap X g f k) (save_last_trans_temp_mmap X g f k).
Proof. unfold save_last_trans_temp_mmap, perror, fwrite. sim_tac plain. Qed.

Lemma sim_flush region size :
  sim U E eq (flush_updated_last_trans_temp region size)
             (flush_updated_last_trans_temp region size).
Proof.
  unfold flush_updated_last_trans_temp, perror. destruct region as [f|]; [|apply sim_undefined].
  apply sim_bind_eq; [apply sim_get; reflexivity|]. intros tn.
  apply sim_bind_eq.
  { apply sim_modify. intros s L. cbn [fs with_log].
    destruct (fs s !! f); [destruct (_ <=? _)%nat|]; reflexivity. }
  intros _. sim_tac plain.
Qed.

Lemma sim_finish_same fr region size l :
  sim U E eq (finish X fr region size l) (finish X fr region size l).
Proof.
  unfold finish, unload_last_trans_temp.
  sim_with plain ltac:(first [apply sim_save | apply sim_flush | apply sim_munmap]).
Qed.

Lemma sim_natural_convection_same l :
  sim U E eq (natural_convection X l) (natural_convection X l).
Proof.
  unfold natural_convection. destruct (truthy (natural l)); [|apply sim_ret; reflexivity].
  apply sim_bind_eq; [apply sim_fetch|]. intros t.
  apply sim_bind_eq; [apply sim_tell; plain|]. intros _.
  destruct (package_model X _ _) as [c' nat'].
  apply sim_bind_eq; [apply sim_tell; plain|]. intros _.
  apply sim_ret. reflexivity.
Qed.

Lemma sim_read_names_same fp : sim U E eq (read_names X fp) (read_names X fp).
Proof.
  induction fp as [|fields fp IH]; cbn [read_names]; [sim_tac plain|].
  destruct fields; [exact IH | sim_tac plain].
Qed.

Lemma sim_read_vals_line_same fields vals :
  sim U E eq (read_vals_line X fields vals) (read_vals_line X fields vals).
Proof. unfold read_vals_line. sim_tac plain. Qed.

Lemma sim_open_traces_same dt m ptrace :
  sim U E eq (open_traces X dt m ptrace) (open_traces X dt m ptrace).
Proof.
  unfold open_traces, write_names.
  sim_with any ltac:(first [apply sim_count_units | apply sim_read_names_same
                           | apply sim_load]).
Qed.

Lemma sim_transient_row_same fr l :
  sim U E eq (transient_row X fr l) (transient_row X fr l).
Proof.
  unfold transient_row, write_vals, write_vals_power. cbv zeta.
  sim_with any ltac:(first [apply sim_natural_convection_same
                           | apply sim_call_compute_temp]).
Qed.

Lemma sim_trace_row_same fr num vals l :
  sim U E eq (trace_row X fr num vals l) (trace_row X fr num vals l).
Proof.
  unfold trace_row. cbv zeta.
  sim_with plain ltac:(apply sim_transient_row_same).
Qed.

Lemma sim_trace_loop_same fr fp :
  forall l, sim U E eq (trace_loop X fr fp l) (trace_loop X fr fp l).
Proof.
  induction fp as [|fields fp IH]; intros l; cbn [trace_loop]; [apply sim_ret; reflexivity|].
  destruct fields; [apply IH|].
  apply sim_bind_eq; [apply sim_read_vals_line_same|]. intros r.
  apply sim_bind_eq; [apply sim_trace_row_same|]. intros l'. apply IH.
Qed.

Lemma sim_run_trace_same dt flp l ptrace :
  sim U E eq (run_trace X dt flp l ptrace) (run_trace X dt flp l ptrace).
Proof.
  unfold run_trace.
  apply sim_bind_eq; [apply sim_init_temps|]. intros m.
  apply sim_bind_eq; [apply sim_open_traces_same|].
  intros [[[[[m' names0] k] fp'] region] size].
  apply sim_bind_eq; [apply sim_trace_loop_same|]. intros l'.
  apply sim_finish_same.
Qed.

End Same_run.

(** *** Two runs that do nothing undefined *)

Lemma sid_of_sim {U A B} E (R : A -> B -> Prop) (c1 : M A) (c2 : M B) :
  sim U E R c1 c2 -> sim_if_defined E R c1 c2.
Proof.
  intros H s L. specialize (H s L).
  destruct (c1 s) as [a s'|code s'|w s']; [| |exact I].
  - destruct H as (b & e1 & e2 & -> & H). exists b, e1, e2.
    split; [reflexivity | exact H].
  - destruct H as (e1 & e2 & -> & H). exists e1, e2. split; [reflexivity | exact H].
Qed.

Lemma sid_ret {A B} E (R : A -> B -> Prop) a b :
  R a b -> sim_if_defined E R (ret a) (ret b).
Proof. intros H. apply (sid_of_sim (U := False)), sim_ret, H. Qed.

Lemma sid_bind {A B A' B'} E (R : A -> B -> Prop) (R' : A' -> B' -> Prop)
      (c1 : M A) (c2 : M B) (k1 : A -> M A') (k2 : B -> M B') :
  sim_if_defined E R c1 c2 ->
  (forall a b, R a b -> sim_if_defined E R' (k1 a) (k2 b)) ->
  sim_if_defined E R' (bind c1 k1) (bind c2 k2).
Proof.
  intros Hc Hk s L. specialize (Hc s L). unfold bind.
  destruct (c1 s) as [a s1|code s1|w s1]; [| |exact I].
  - destruct (c2 (with_log L s)) as [b s2|code2 s2|w2 s2].
    + destruct Hc as (b' & e1 & e2 & [= <- ->] & HR & Hlog & HE).
      specialize (Hk a b HR s1 (L ++ e2)).
      destruct (k1 a s1) as [a' s1'|code' s1'|w' s1']; [| |exact I].
      * destruct (k2 b (with_log (L ++ e2) s1)) as [b2 s2'|c2' s2'|w2' s2']; [| |exact I].
        -- destruct Hk as (b3 & e1' & e2' & [= <- ->] & HR' & Hlog' & HE').
           exists b2, (e1 ++ e1'), (e2 ++ e2'). rewrite Hlog', Hlog, !app_assoc.
           repeat split; auto. apply Forall2_app; assumption.
        -- destruct Hk as (? & ? & ? & [=] & _).
      * destruct (k2 b (with_log (L ++ e2) s1)) as [b2 s2'|c2' s2'|w2' s2']; [| |exact I].
        -- destruct Hk as (? & ? & [=] & _).
        -- destruct Hk as (e1' & e2' & [= <- ->] & Hlog' & HE').
           exists (e1 ++ e1'), (e2 ++ e2'). rewrite Hlog', Hlog, !app_assoc.
           repeat split; auto. apply Forall2_app; assumption.
    + destruct Hc as (? & ? & ? & [=] & _).
    + destruct (k1 a s1); exact I.
  - destruct (c2 (with_log L s)) as [b s2|code2 s2|w2 s2]; [| |exact I].
    + destruct Hc as (? & ? & [=] & _).
    + destruct Hc as (e1 & e2 & [= <- ->] & H). exists e1, e2.
      split; [reflexivity | exact H].
Qed.

Lemma sid_bind_eq {A A' B'} E (R' : A' -> B' -> Prop)
      (c1 c2 : M A) (k1 : A -> M A') (k2 : A -> M B') :
  sim_if_defined E eq c1 c2 -> (forall a, sim_if_defined E R' (k1 a) (k2 a)) ->
  sim_if_defined E R' (bind c1 k1) (bind c2 k2).
Proof. intros Hc Hk. eapply sid_bind; [exact Hc|]. intros a b <-. apply Hk. Qed.

(** A loop that ends in [fatal] in one run may meet an access outside an
    array first in the other. *)
Lemma sid_lift {A B} (E : event -> event -> Prop) (R : A -> B -> Prop)
      (r1 : res A) (r2 : res B) :
  (forall msg, E (Stderr msg) (Stderr msg)) ->
  (forall a, r1 = Ok a -> exists b, r2 = Ok b /\ R a b) ->
  (forall msg, r1 = Fatal msg -> r2 = Fatal msg \/ exists w, r2 = Fault w) ->
  sim_if_defined E R (lift r1) (lift r2).
Proof.
  intros He Hok Hfatal. destruct r1 as [a|msg|w].
  - destruct (Hok a eq_refl) as (b & -> & HR). apply sid_ret, HR.
  - destruct (Hfatal msg eq_refl) as [->|[w ->]].
    + apply (sid_of_sim (U := False)), sim_fatal, He.
    + intros s L. exact I.
  - intros s L. exact I.
Qed.

Lemma sid_post {A B} E (R : A -> B -> Prop) (P : A -> Prop) (c1 : M A) (c2 : M B) :
  sim_if_defined E R c1 c2 -> (forall s a s', c1 s = Ret a s' -> P a) ->
  sim_if_defined E (fun a b => R a b /\ P a) c1 c2.
Proof.
  intros Hc HP s L. specialize (Hc s L). specialize (HP s).
  destruct (c1 s) as [a s'|code s'|w s']; [|exact Hc|exact I].
  destruct (c2 (with_log L s)) as [b s2|code2 s2|w2 s2];
    [|destruct Hc as (? & ? & ? & [=] & _)|exact I].
  destruct Hc as (b' & e1 & e2 & H2 & HR & Hrest).
  exists b', e1, e2. split; [exact H2|].
  split; [split; [exact HR | eapply HP; reflexivity]|]. exact Hrest.
Qed.

(** What it says of the two runs from one state. *)
Lemma sid_run E {A} (c1 c2 : M A) (s : state) :
  sim_if_defined E eq c1 c2 ->
  match c1 s, c2 s with
  | Undef _ _, _ | _, Undef _ _ => True
  | r1, r2 =>
      exists e1 e2,
        log (final r1) = log s ++ e1
        /\ Forall2 E e1 e2
        /\ r2 = relog (log s ++ e2) r1
  end.
Proof.
  intros H. specialize (H s (log s)). rewrite with_log_log in H.
  destruct (c1 s) as [a s'|code s'|w s']; [| |exact I].
  - destruct (c2 s) as [b s2|code2 s2|w2 s2]; [| |exact I].
    + destruct H as (b' & e1 & e2 & -> & <- & Hlog & HE). exists e1, e2. auto.
    + destruct H as (? & ? & ? & [=] & _).
  - destruct (c2 s) as [b s2|code2 s2|w2 s2]; [| |exact I].
    + destruct H as (? & ? & [=] & _).
    + destruct H as (e1 & e2 & -> & Hlog & HE). exists e1, e2. auto.
Qed.

(** *** The column loops, column by column *)

Lemma rfold_fmap {A A' B} (f : B -> A -> res B) (h : A' -> A) (l : list A') (b : B) :
  rfold f (map h l) b = rfold (fun b x => f b (h x)) l b.
Proof.
  revert b. induction l as [|x l IH]; intros b; cbn [map rfold]; [reflexivity|].
  destruct (f b (h x)); cbn [rbind]; auto.
Qed.

Lemma rfold_ext_in {A B} (f h : B -> A -> res B) (l : list A) (b : B) :
  (forall b x, x ∈ l -> f b x = h b x) -> rfold f l b = rfold h l b.
Proof.
  revert b. induction l as [|x l IH]; intros b H; cbn [rfold]; [reflexivity|].
  rewrite (H b x) by left. destruct (h b x); cbn [rbind]; auto.
  apply IH. intros b' y Hy. apply H. right. exact Hy.
Qed.

Lemma rfold_seqZ_shift {B} (f : B -> Z -> res B) (a k : Z) (b : B) :
  rfold f (seqZ a k) b = rfold (fun b c => f b (a + c)) (seqZ 0 k) b.
Proof.
  rewrite <- (Z.add_0_r a) at 1. rewrite <- fmap_add_seqZ.
  apply (rfold_fmap f (Z.add a)).
Qed.

Lemma rbind_assoc {A B C} (c : res A) (k : A -> res B) (h : B -> res C) :
  rbind (rbind c k) h = rbind c (fun a => rbind (k a) h).
Proof. destruct c; reflexivity. Qed.

Lemma get_blk_index_cases (f : flp_t) (name : string) :
  (exists idx, get_blk_index (Some f) name = Ok idx /\ 0 <= idx < n_units f)
  \/ get_blk_index (Some f) name = Fatal "block not found".
Proof.
  unfold get_blk_index, n_units.
  destruct (list_find _ (units f)) as [[i u]|] eqn:Hfind; [left | right; reflexivity].
  exists (Z.of_nat i). split; [reflexivity|].
  apply list_find_Some in Hfind as (Hi & _ & _). apply lookup_lt_Some in Hi. lia.
Qed.

Lemma for_layers_eq {B} (g : grid_model_t) (body : layer_t -> B -> res B) (b : B) :
  (Z.to_nat (n_layers g) <= length (layers g))%nat ->
  for_layers g body b = rfold (fun b ly => body ly b) (used_layers g) b.
Proof.
  intros Hle. unfold for_layers, used_layers, upto.
  destruct (Z.le_gt_cases (n_layers g) 0) as [Hneg|Hpos].
  - rewrite seqZ_nil by lia. replace (Z.to_nat (n_layers g)) with 0%nat by lia. reflexivity.
  - rewrite <- (Z2Nat.id (n_layers g)) at 1 by lia. apply rfold_indices, Hle.
Qed.

Section By_column.
Context {S : Type} (act : Z -> Z -> S -> res S) (names : list string).

Lemma layers_fold_columns (lys : list layer_t) :
  forall base count s0,
    rfold (fun st ly => layer_body names act ly st) lys (s0, base, count)
    = rbind (rfold (fun s c =>
                      match node_at lys base count names c with
                      | Some node => act node (count + c) s
                      | None => Fatal "block not found"
                      end) (seqZ 0 (n_columns lys)) s0)
            (fun s' => Ok (s', base + n_blocks lys, count + n_columns lys)).
Proof.
  induction lys as [|ly lys IH]; intros base count s0.
  - cbn [rfold n_columns n_blocks rbind]. rewrite seqZ_nil by lia.
    cbn [rfold rbind]. rewrite !Z.add_0_r. reflexivity.
  - cbn [rfold n_columns n_blocks].
    pose proof (n_units_nonneg (flp ly)) as Hn.
    pose proof (n_columns_nonneg lys) as Hk.
    assert (Hbody : layer_body names act ly (s0, base, count)
                    = if truthy (has_power ly)
                      then s1 <~ columns_layer ly names act base count s0 ;;
                           Ok (s1, base + n_units (flp ly), count + n_units (flp ly))
                      else Ok (s0, base + n_units (flp ly), count)) by reflexivity.
    rewrite Hbody. clear Hbody.
    destruct (truthy (has_power ly)) eqn:Hpow.
    + rewrite rbind_assoc. cbn [rbind].
      rewrite seqZ_app, rfold_app, rbind_assoc by lia.
      assert (Hfirst :
        rfold (fun s c =>
                 match node_at (ly :: lys) base count names c with
                 | Some node => act node (count + c) s
                 | None => Fatal "block not found"
                 end) (seqZ 0 (n_units (flp ly))) s0
        = columns_layer ly names act base count s0).
      { unfold columns_layer, upto. apply rfold_ext_in. intros s c Hc.
        apply elem_of_seqZ in Hc. unfold node_at. cbn [locate]. rewrite Hpow.
        destruct (Z.ltb_spec c (n_units (flp ly))) as [_|Hge]; [|lia].
        unfold node_in.
        destruct (get_blk_index_cases (flp ly) (name_at names (count + c)))
          as [(idx & -> & _) | ->]; reflexivity. }
      rewrite Hfirst.
      destruct (columns_layer ly names act base count s0) as [s1|msg|w];
        cbn [rbind]; [|reflexivity..].
      rewrite IH, (rfold_seqZ_shift _ (0 + n_units (flp ly))).
      rewrite (rfold_ext_in
                 (fun s c =>
                    match node_at (ly :: lys) base count names (0 + n_units (flp ly) + c) with
                    | Some node => act node (count + (0 + n_units (flp ly) + c)) s
                    | None => Fatal "block not found"
                    end)
                 (fun s c =>
                    match node_at lys (base + n_units (flp ly)) (count + n_units (flp ly))
                            names c with
                    | Some node => act node (count + n_units (flp ly) + c) s
                    | None => Fatal "block not found"
                    end)).
      * destruct (rfold _ (seqZ 0 (n_columns lys)) s1); cbn [rbind]; [|reflexivity..].
        apply f_equal, f_equal2; [apply f_equal|]; lia.
      * intros s c Hc. apply elem_of_seqZ in Hc.
        unfold node_at. cbn [locate]. rewrite Hpow.
        destruct (Z.ltb_spec (0 + n_units (flp ly) + c) (n_units (flp ly))) as [Hlt|_];
          [lia|].
        replace (0 + n_units (flp ly) + c - n_units (flp ly)) with c by lia.
        replace (count + (0 + n_units (flp ly) + c)) with (count + n_units (flp ly) + c)
          by lia.
        reflexivity.
    + cbn [rbind]. rewrite IH, Z.add_0_l.
      rewrite (rfold_ext
                 (fun s c =>
                    match node_at (ly :: lys) base count names c with
                    | Some node => act node (count + c) s
                    | None => Fatal "block not found"
                    end)
                 (fun s c =>
                    match node_at lys (base + n_units (flp ly)) count names c with
                    | Some node => act node (count + c) s
                    | None => Fatal "block not found"
                    end)).
      * destruct (rfold _ (seqZ 0 (n_columns lys)) s0); cbn [rbind]; [|reflexivity..].
        apply f_equal, f_equal2; [apply f_equal|]; lia.
      * intros s c. unfold node_at. cbn [locate]. rewrite Hpow. reflexivity.
Qed.

End By_column.

(** Lines 797-811 and 837-848 take the columns in order. *)
Lemma columns_fold_by_column {S} (g : grid_model_t) (names : list string)
      (act : Z -> Z -> S -> res S) (s0 : S) :
  (Z.to_nat (n_layers g) <= length (layers g))%nat ->
  columns_fold g names act s0 = by_column g names act s0.
Proof.
  intros Hle. unfold columns_fold, by_column, node_of, upto.
  rewrite for_layers_eq by exact Hle. rewrite layers_fold_columns, rbind_assoc.
  destruct (rfold _ (seqZ 0 (n_columns (used_layers g))) s0); reflexivity.
Qed.

Lemma n_blocks_nonneg lys : 0 <= n_blocks lys.
Proof.
  induction lys as [|ly lys IH]; simpl; [lia|].
  pose proof (n_units_nonneg (flp ly)). lia.
Qed.

Lemma locate_range (lys : list layer_t) :
  forall base c ly b,
    locate lys base c = Some (ly, b) ->
    base <= b /\ b + n_units (flp ly) <= base + n_blocks lys.
Proof.
  induction lys as [|l1 lys IH]; intros base c ly b H; [discriminate|].
  cbn [locate n_blocks] in *. pose proof (n_units_nonneg (flp l1)).
  pose proof (n_blocks_nonneg lys).
  destruct (truthy (has_power l1)).
  - destruct (c <? n_units (flp l1)).
    + injection H as <- <-. lia.
    + apply IH in H. lia.
  - apply IH in H. lia.
Qed.

Lemma node_at_range (lys : list layer_t) (names : list string) base count c node :
  node_at lys base count names c = Some node -> base <= node < base + n_blocks lys.
Proof.
  unfold node_at. destruct (locate lys base c) as [[ly b]|] eqn:Hloc; [|discriminate].
  apply locate_range in Hloc. intros H.
  apply node_in_Some in H as (idx & Hidx & ->).
  destruct (get_blk_index_cases (flp ly) (name_at names (count + c)))
    as [(i & Hi & Hr)|Hf]; [|congruence].
  rewrite Hidx in Hi. injection Hi as <-. lia.
Qed.

(** ** C5: the order of the columns, continued *)

Lemma permuted_seq_from {A} (l : list A) (n : nat) :
  forall a, permuted (seq a n) l = take n (drop a l).
Proof.
  induction n as [|n IH]; intros a; [rewrite take_0; reflexivity|].
  cbn [seq]. rewrite permuted_cons, IH. destruct (l !! a) as [x|] eqn:Hx.
  - rewrite (drop_S l x a Hx). reflexivity.
  - apply lookup_ge_None in Hx. rewrite !drop_ge by lia. rewrite !take_nil. reflexivity.
Qed.

Lemma permuted_perm_take {A} (p : list nat) (l : list A) (n : nat) :
  p ≡ₚ seq 0 n -> permuted p l ≡ₚ take n l.
Proof.
  intros Hp. unfold permuted. rewrite Hp.
  change (omap (fun i => l !! i) (seq 0 n)) with (permuted (seq 0 n) l).
  rewrite permuted_seq_from, drop_0. reflexivity.
Qed.

Lemma permute_row_perm {A} (p : list nat) (l : list A) (n : nat) :
  p ≡ₚ seq 0 n -> permute_row p l ≡ₚ l.
Proof.
  intros Hp. unfold permute_row.
  rewrite (permuted_perm_take p l n Hp), (perm_length p n Hp), take_drop. reflexivity.
Qed.

Lemma length_permute_row {A} (p : list nat) (l : list A) (n : nat) :
  p ≡ₚ seq 0 n -> length (permute_row p l) = length l.
Proof. intros Hp. apply Permutation_length, (permute_row_perm p l n Hp). Qed.

Lemma permute_row_exact {A} (p : list nat) (l : list A) :
  (length l <= length p)%nat -> permute_row p l = permuted p l.
Proof. intros H. unfold permute_row. rewrite drop_ge, app_nil_r by lia. reflexivity. Qed.

Lemma permute_row_nil {A} (p : list nat) : permute_row p (@nil A) = [].
Proof. unfold permute_row. rewrite permuted_nil, drop_nil. reflexivity. Qed.

Lemma take_permute_row {A} (p : list nat) (l : list A) (n m : nat) :
  p ≡ₚ seq 0 n -> (n <= m)%nat -> take m (permute_row p l) ≡ₚ take m l.
Proof.
  intros Hp Hnm. unfold permute_row.
  pose proof (permuted_perm_take p l n Hp) as Hperm.
  pose proof (Permutation_length Hperm) as Hlen.
  assert (Hshort : (length (permuted p l) <= m)%nat).
  { rewrite Hlen, length_take. lia. }
  rewrite take_app_ge by exact Hshort.
  rewrite Hlen, (perm_length p n Hp), Hperm.
  rewrite <- (take_drop n l) at 4.
  rewrite take_app_ge by (rewrite length_take; lia).
  reflexivity.
Qed.

Lemma nonblank_permute_trace (p : list nat) (n : nat) (fp : list (list string)) :
  p ≡ₚ seq 0 n -> nonblank (permute_trace p fp) = map (permute_row p) (nonblank fp).
Proof.
  intros Hp. induction fp as [|fields fp IH]; [reflexivity|].
  cbn [permute_trace map nonblank]. fold (permute_trace p fp).
  destruct fields as [|f fields]; [rewrite permute_row_nil; exact IH|].
  destruct (permute_row p (f :: fields)) as [|f2 fields2] eqn:Hrow.
  { apply (f_equal length) in Hrow. rewrite (length_permute_row p _ n Hp) in Hrow.
    discriminate. }
  cbn [nonblank map]. rewrite IH, Hrow. reflexivity.
Qed.

(** Rearranged within the layers, a column names what the column it came
    from named. *)
Lemma node_of_permuted g (names : list string) (p : list nat) j i :
  keeps_layers g p -> Z.of_nat (length names) = n_columns (used_layers g) ->
  p !! j = Some i ->
  node_of g (permuted p names) (Z.of_nat j) = node_of g names (Z.of_nat i).
Proof.
  intros [Hp Hlayers] Hlen Hj. unfold node_of, node_at.
  rewrite <- (Hlayers j i Hj).
  destruct (locate _ _ _) as [[ly b]|]; [|reflexivity].
  rewrite !Z.add_0_l. rewrite (name_at_permuted names p j i); [reflexivity | | exact Hj].
  rewrite Hp, <- Hlen, Nat2Z.id. reflexivity.
Qed.

(** *** Scanning a rearranged row *)

Section Scanning.
Context (X : Extern).

Local Abbreviation scan :=
  (fun (acc : list double) (f : string) =>
     match scan_lf X f with
     | Some d => Ok (acc ++ [d])
     | None => Fatal "invalid format of values"
     end).

Lemma scan_fields_cases (fields : list string) :
  forall acc,
    (exists ds, Forall2 (fun f d => scan_lf X f = Some d) fields ds
                /\ rfold scan fields acc = Ok (acc ++ ds))
    \/ (Exists (fun f => scan_lf X f = None) fields
        /\ rfold scan fields acc = Fatal "invalid format of values").
Proof.
  induction fields as [|f fields IH]; intros acc; cbn [rfold].
  - left. exists []. rewrite app_nil_r. split; [constructor | reflexivity].
  - destruct (scan_lf X f) as [d|] eqn:Hd; cbn [rbind].
    + destruct (IH (acc ++ [d])) as [(ds & Hds & ->)|[Hex ->]].
      * left. exists (d :: ds). split; [constructor; assumption|].
        rewrite <- app_assoc. reflexivity.
      * right. split; [right; exact Hex | reflexivity].
    + right. split; [left; exact Hd | reflexivity].
Qed.

Lemma scan_fields_perm (fields fields2 : list string) (acc : list double) :
  fields2 ≡ₚ fields ->
  match rfold scan fields acc with
  | Ok vs => exists vs2, rfold scan fields2 acc = Ok vs2 /\ length vs2 = length vs
  | Fatal msg => rfold scan fields2 acc = Fatal msg
  | Fault _ => True
  end.
Proof.
  intros Hperm.
  destruct (scan_fields_cases fields acc) as [(ds & Hds & ->)|[Hex ->]];
    destruct (scan_fields_cases fields2 acc) as [(ds2 & Hds2 & ->)|[Hex2 ->]].
  - exists (acc ++ ds2). split; [reflexivity|]. rewrite !length_app.
    apply Forall2_length in Hds, Hds2. apply Permutation_length in Hperm. lia.
  - exfalso. rewrite Hperm in Hex2. apply Exists_exists in Hex2 as (f & Hf & Hnone).
    apply list_elem_of_lookup in Hf as [i Hi].
    destruct (Forall2_lookup_l _ _ _ _ _ Hds Hi) as (d & _ & Hd). congruence.
  - exfalso. rewrite <- Hperm in Hex. apply Exists_exists in Hex as (f & Hf & Hnone).
    apply list_elem_of_lookup in Hf as [i Hi].
    destruct (Forall2_lookup_l _ _ _ _ _ Hds2 Hi) as (d & _ & Hd). congruence.
  - reflexivity.
Qed.

End Scanning.

(** *** A header name that names no block *)

Lemma act_in_cases (f : Z -> option Z) (vals : list double) (cs : list Z) :
  forall power : list double,
    (forall c node, c ∈ cs -> f c = Some node -> 0 <= node < Z.of_nat (length power)) ->
    (Forall (fun c => is_Some (f c)) cs
     /\ exists p', rfold (fun pw c => match f c with
                                       | Some node => act_in vals node c pw
                                       | None => Fatal "block not found"
                                       end) cs power = Ok p')
    \/ (Exists (fun c => f c = None) cs
        /\ rfold (fun pw c => match f c with
                              | Some node => act_in vals node c pw
                              | None => Fatal "block not found"
                              end) cs power = Fatal "block not found").
Proof.
  induction cs as [|c cs IH]; intros power Hrange; cbn [rfold].
  - left. split; [constructor | eexists; reflexivity].
  - destruct (f c) as [node|] eqn:Hc.
    + unfold act_in at 1 3. unfold store.
      destruct (Hrange c node) as [H0 H1]; [left | exact Hc |].
      apply Z.leb_le in H0 as H0'. apply Z.ltb_lt in H1 as H1'.
      rewrite H0', H1'. cbn [andb rbind].
      destruct (IH (<[Z.to_nat node := val_at vals c]> power)) as [[Hall Hok]|[Hex Hf]].
      * intros c' node' Hc' Hn'. rewrite length_insert. apply (Hrange c' node'); [right|];
          assumption.
      * left. split; [constructor; [rewrite Hc; eauto | exact Hall] | exact Hok].
      * right. split; [right; exact Hex | exact Hf].
    + right. split; [left; exact Hc | reflexivity].
Qed.

Lemma rfold_Fatal {A B} (f : B -> A -> res B) (l : list A) :
  forall b msg, rfold f l b = Fatal msg -> exists b' x, x ∈ l /\ f b' x = Fatal msg.
Proof.
  induction l as [|x l IH]; intros b msg H; cbn [rfold] in H; [discriminate|].
  destruct (f b x) as [b1|m|w] eqn:Hx; cbn [rbind] in H.
  - destruct (IH b1 msg H) as (b' & y & Hy & Hf). exists b', y. split; [right|]; assumption.
  - injection H as <-. exists b, x. split; [left | exact Hx].
  - discriminate.
Qed.

Lemma act_out_not_Fatal last pwl leak node c st msg :
  act_out last pwl leak node c st <> Fatal msg.
Proof.
  unfold act_out, load, store.
  destruct (if 0 <=? node then last !! Z.to_nat node else None); cbn [rbind]; [|discriminate].
  destruct (_ && _); cbn [rbind]; [|discriminate].
  destruct leak; cbn [rbind]; [|discriminate].
  destruct (if 0 <=? node then pwl !! Z.to_nat node else None); cbn [rbind]; [|discriminate].
  destruct (_ && _); cbn [rbind]; discriminate.
Qed.

Lemma names_nodes_found g names nodes c :
  names_nodes g names nodes -> c ∈ upto (n_columns (used_layers g)) ->
  is_Some (node_of g names c).
Proof.
  intros [Hlen Hn] Hc. apply elem_of_seqZ in Hc.
  destruct (lookup_lt_is_Some_2 nodes (Z.to_nat c)) as [node Hnode]; [lia|].
  apply Hn in Hnode. rewrite Z2Nat.id in Hnode by lia. eauto.
Qed.

(** Lines 837-848 do not end in [fatal] once every header name names a
    block. *)
Lemma permute_out_grid_not_Fatal g names nodes last pwl leak vals wl msg :
  (Z.to_nat (n_layers g) <= length (layers g))%nat ->
  names_nodes g names nodes ->
  permute_out_grid g names last pwl leak vals wl <> Fatal msg.
Proof.
  intros Hle Hnodes H. rewrite permute_out_grid_fold, columns_fold_by_column in H by exact Hle.
  apply rfold_Fatal in H as (st & c & Hc & H).
  destruct (names_nodes_found g names nodes c Hnodes Hc) as [node Hnode].
  rewrite Hnode in H. revert H. apply act_out_not_Fatal.
Qed.

Lemma load_not_Fatal {A} (a : list A) i msg : load a i <> Fatal msg.
Proof. unfold load. destruct (if 0 <=? i then _ else _); discriminate. Qed.

Lemma store_not_Fatal {A} (a : list A) i v msg : store a i v <> Fatal msg.
Proof. unfold store. destruct (_ && _); discriminate. Qed.

(** Lines 797-811 on a rearranged header with a name that names no block:
    [fatal] again, unless an access outside [power] comes first. *)
Lemma permute_in_grid_Fatal g (names : list string) (p : list nat)
      (vals vals2 power : list double) msg :
  (Z.to_nat (n_layers g) <= length (layers g))%nat ->
  keeps_layers g p -> Z.of_nat (length names) = n_columns (used_layers g) ->
  permute_in_grid g names vals power = Fatal msg ->
  permute_in_grid g (permuted p names) vals2 power = Fatal msg
  \/ exists w, permute_in_grid g (permuted p names) vals2 power = Fault w.
Proof.
  intros Hle Hkeep Hlen H.
  assert (Hmsg : forall ns vs m,
             permute_in_grid g ns vs power = Fatal m ->
             m = "block not found"%string
             /\ exists c, c ∈ upto (n_columns (used_layers g)) /\ node_of g ns c = None).
  { intros ns vs m Hf.
    rewrite permute_in_grid_fold, columns_fold_by_column in Hf by exact Hle.
    unfold by_column in Hf. apply rfold_Fatal in Hf as (pw & c & Hc & Hf).
    destruct (node_of g ns c) as [node|] eqn:Hnode.
    - exfalso. unfold act_in in Hf. exact (store_not_Fatal _ _ _ _ Hf).
    - injection Hf as <-. split; [reflexivity|]. eauto. }
  destruct (Hmsg _ _ _ H) as (-> & c & Hc & Hnone).
  destruct (permute_in_grid g (permuted p names) vals2 power) as [pw|m|w] eqn:H2.
  - exfalso. rewrite permute_in_grid_fold in H2.
    apply columns_fold_Ok in H2 as (_ & nodes & Hnodes & _).
    apply elem_of_seqZ in Hc. destruct Hkeep as [Hp Hlayers].
    destruct (perm_onto p _ (Z.to_nat c) Hp) as [j Hj]; [lia|].
    assert (Hjn : (j < Z.to_nat (n_columns (used_layers g)))%nat).
    { apply lookup_lt_Some in Hj. rewrite (perm_length p _ Hp) in Hj. exact Hj. }
    destruct (names_nodes_found g (permuted p names) nodes (Z.of_nat j) Hnodes)
      as [node Hnode].
    { apply elem_of_seqZ. lia. }
    rewrite (node_of_permuted g names p j (Z.to_nat c)) in Hnode;
      [| split; assumption | exact Hlen | exact Hj].
    rewrite Z2Nat.id in Hnode by lia. congruence.
  - left. destruct (Hmsg _ _ _ H2) as [-> _]. reflexivity.
  - right. eauto.
Qed.

Lemma Forall2_permuted {A B} (P : A -> B -> Prop) (p : list nat) (l : list A) (k : list B) :
  Forall2 P l k -> Forall2 P (permuted p l) (permuted p k).
Proof.
  intros H. induction p as [|i p IH]; [constructor|].
  rewrite !permuted_cons. destruct (l !! i) as [x|] eqn:Hx.
  - destruct (Forall2_lookup_l _ _ _ _ _ H Hx) as (y & -> & Hxy). constructor; assumption.
  - apply lookup_ge_None in Hx. rewrite (Forall2_length _ _ _ H) in Hx.
    apply lookup_ge_None in Hx. rewrite Hx. exact IH.
Qed.

(** Column by column: column [j] of the rearranged run shows what column
    [p !! j] of the other shows. *)
Lemma cols_permuted {A} (f f2 : Z -> A) (p : list nat) (n : Z) :
  p ≡ₚ seq 0 (Z.to_nat n) ->
  (forall j i, p !! j = Some i -> f2 (Z.of_nat j) = f (Z.of_nat i)) ->
  map f2 (upto n) = permuted p (map f (upto n)).
Proof.
  intros Hp Hf.
  assert (Hlen : length (map f (upto n)) = Z.to_nat n).
  { rewrite length_map. unfold upto. rewrite length_seqZ. lia. }
  assert (Hp' : p ≡ₚ seq 0 (length (map f (upto n)))) by (rewrite Hlen; exact Hp).
  apply list_eq. intros j.
  destruct (p !! j) as [i|] eqn:Hj.
  - rewrite (permuted_at p _ j i Hp' Hj).
    assert (Hi : (i < Z.to_nat n)%nat).
    { apply (perm_range p _ i Hp). eapply list_elem_of_lookup_2, Hj. }
    assert (Hjn : (j < Z.to_nat n)%nat).
    { apply lookup_lt_Some in Hj. rewrite (perm_length p _ Hp) in Hj. exact Hj. }
    change (map f2 (upto n)) with (f2 <$> upto n).
    change (map f (upto n)) with (f <$> upto n).
    rewrite !list_lookup_fmap. unfold upto.
    rewrite (lookup_seqZ_lt 0 n j), (lookup_seqZ_lt 0 n i) by lia.
    cbn. rewrite !Z.add_0_l. f_equal. apply Hf, Hj.
  - apply lookup_ge_None in Hj. rewrite (perm_length p _ Hp) in Hj.
    rewrite !(proj2 (lookup_ge_None _ _)); [reflexivity | |].
    + rewrite (permuted_length p _ Hp'), Hlen. exact Hj.
    + rewrite length_map. unfold upto. rewrite length_seqZ. exact Hj.
Qed.

(** The temperatures come back in the order of the columns. *)
Lemma apply_out_permuted last pwl leak (nodes : list Z) (p : list nat)
      (vals wl vals2 wl2 v' w' : list double) :
  p ≡ₚ seq 0 (length nodes) ->
  length vals2 = length vals -> length wl2 = length wl ->
  apply_columns (act_out last pwl leak) 0 nodes (vals, wl) = Ok (v', w') ->
  exists v2 w2,
    apply_columns (act_out last pwl leak) 0 (permuted p nodes) (vals2, wl2) = Ok (v2, w2)
    /\ length v2 = length v' /\ length w2 = length w'
    /\ forall j i, p !! j = Some i ->
         val_at v2 (Z.of_nat j) = val_at v' (Z.of_nat i)
         /\ (leak = true -> val_at w2 (Z.of_nat j) = val_at w' (Z.of_nat i)).
Proof.
  intros Hp Hlv Hlw H.
  apply apply_out_Ok in H as (Hv' & Hw' & _ & Hload & _ & Hfit); [|lia].
  assert (Hin : forall j a, permuted p nodes !! j = Some a ->
                  exists i, p !! j = Some i /\ nodes !! i = Some a).
  { intros j a Ha. destruct (p !! j) as [i|] eqn:Hj.
    - exists i. split; [reflexivity|]. rewrite <- (permuted_at p nodes j i Hp Hj). exact Ha.
    - apply lookup_lt_Some in Ha. rewrite (permuted_length p nodes Hp) in Ha.
      apply lookup_ge_None in Hj. rewrite (perm_length p _ Hp) in Hj. lia. }
  destruct (apply_out_total last pwl leak (permuted p nodes) 0 vals2 wl2) as [[v2 w2] H2].
  - lia.
  - rewrite (permuted_length p nodes Hp), Hlv.
    destruct nodes as [|a nodes]; [simpl; lia|]. apply Hfit. discriminate.
  - intros Hleak. rewrite (permuted_length p nodes Hp), Hlw.
    destruct nodes as [|a nodes]; [simpl; lia|]. apply Hfit; [discriminate | exact Hleak].
  - intros j a Ha. destruct (Hin j a Ha) as (i & _ & Hi).
    destruct (Hload i a Hi) as [Ht Hw]. split; [eauto|]. intros Hleak. eauto.
  - exists v2, w2. split; [exact H2|].
    apply apply_out_Ok in H2 as (Hv2 & Hw2 & _ & Hload2 & _ & _); [|lia].
    split; [congruence|]. split; [congruence|].
    intros j i Hj.
    destruct (lookup_lt_is_Some_2 nodes i) as [a Ha].
    { apply (perm_range p _ i Hp). eapply list_elem_of_lookup_2, Hj. }
    destruct (Hload i a Ha) as [Ht Hw].
    destruct (Hload2 j a) as [Ht2 Hw2'];
      [rewrite (permuted_at p nodes j i Hp Hj); exact Ha|].
    rewrite !Z.add_0_l in *. split; [congruence|].
    intros Hleak. specialize (Hw Hleak). specialize (Hw2' Hleak). congruence.
Qed.

Lemma header_nodes_NoDup g (names : list string) (nodes : list Z) :
  length names = length nodes -> names_nodes g names nodes ->
  NoDup (header_nodes g names) -> NoDup nodes.
Proof.
  intros Hlen [_ Hn] Hnd.
  assert (Heq : header_nodes g names = map Some nodes).
  { apply list_eq. intros i. unfold header_nodes.
    change (map ?f ?l) with (f <$> l). rewrite !list_lookup_fmap.
    destruct (nodes !! i) as [a|] eqn:Ha.
    - rewrite lookup_seq_lt by (rewrite Hlen; eapply lookup_lt_Some, Ha).
      cbn. f_equal. apply Hn, Ha.
    - apply lookup_ge_None in Ha. rewrite lookup_seq_ge by lia. reflexivity. }
  rewrite Heq in Hnd. eapply NoDup_fmap_1, Hnd.
Qed.

(** Lines 797-811 on a rearranged row. *)
Lemma permute_in_grid_permuted g (names : list string) (p : list nat)
      (vals vals2 power power' : list double) :
  keeps_layers g p -> Z.of_nat (length names) = n_columns (used_layers g) ->
  NoDup (header_nodes g names) ->
  (forall j i, p !! j = Some i -> val_at vals2 (Z.of_nat j) = val_at vals (Z.of_nat i)) ->
  permute_in_grid g names vals power = Ok power' ->
  permute_in_grid g (permuted p names) vals2 power = Ok power'.
Proof.
  intros Hkeep Hlen Hnd Hvals H. rewrite permute_in_grid_fold in *.
  apply columns_fold_Ok in H as (Hlayers & nodes & Hnodes & H).
  assert (Hln : length names = length nodes) by (destruct Hnodes as [Hn _]; lia).
  apply columns_fold_Ok. split; [exact Hlayers|].
  exists (permuted p nodes). split; [apply names_nodes_permuted; assumption|].
  apply (apply_in_permuted vals); auto.
  - destruct Hkeep as [Hp _]. rewrite Hp, <- Hlen, Nat2Z.id, Hln. reflexivity.
  - eapply header_nodes_NoDup; eassumption.
Qed.

(** Lines 837-848 on a rearranged header. *)
Lemma permute_out_grid_permuted g (names : list string) (p : list nat) last pwl leak
      (vals wl vals2 wl2 : list double) vv :
  keeps_layers g p -> Z.of_nat (length names) = n_columns (used_layers g) ->
  length vals2 = length vals -> length wl2 = length wl ->
  permute_out_grid g names last pwl leak vals wl = Ok vv ->
  exists vv2,
    permute_out_grid g (permuted p names) last pwl leak vals2 wl2 = Ok vv2
    /\ length (fst vv2) = length (fst vv) /\ length (snd vv2) = length (snd vv)
    /\ forall j i, p !! j = Some i ->
         val_at (fst vv2) (Z.of_nat j) = val_at (fst vv) (Z.of_nat i)
         /\ (leak = true -> val_at (snd vv2) (Z.of_nat j) = val_at (snd vv) (Z.of_nat i)).
Proof.
  intros Hkeep Hlen Hlv Hlw H. rewrite permute_out_grid_fold in H.
  apply columns_fold_Ok in H as (Hlayers & nodes & Hnodes & H).
  assert (Hln : length names = length nodes) by (destruct Hnodes as [Hn _]; lia).
  destruct vv as [v' w'].
  destruct (apply_out_permuted last pwl leak nodes p vals wl vals2 wl2 v' w')
    as (v2 & w2 & H2 & Hrest); auto.
  { destruct Hkeep as [Hp _]. rewrite Hp, <- Hlen, Nat2Z.id, Hln. reflexivity. }
  exists (v2, w2). split; [|exact Hrest].
  rewrite permute_out_grid_fold. apply columns_fold_Ok. split; [exact Hlayers|].
  exists (permuted p nodes). split; [apply names_nodes_permuted; assumption | exact H2].
Qed.

Lemma ev_perm_quiet p e : quiet_event e -> ev_perm p e e.
Proof. destruct e; intros H; try reflexivity. contradiction. Qed.

Lemma ev_perm_plain p e : plain_event e -> ev_perm p e e.
Proof. destruct e; intros H; try reflexivity. contradiction. Qed.

Lemma ev_perm_stderr p msg : ev_perm p (Stderr msg) (Stderr msg).
Proof. reflexivity. Qed.

Lemma ev_perm_dump p t f pre :
  ev_perm p (Call (c_dump_str_pairs t f pre)) (Call (c_dump_str_pairs t f pre)).
Proof. reflexivity. Qed.

Lemma keeps_layers_used g g' p :
  used_layers g = used_layers g' -> keeps_layers g' p -> keeps_layers g p.
Proof. unfold keeps_layers. intros ->. auto. Qed.

Lemma header_nodes_used g g' names :
  used_layers g = used_layers g' -> header_nodes g names = header_nodes g' names.
Proof. unfold header_nodes, node_of. intros ->. reflexivity. Qed.

Lemma names_nodes_used g g' names nodes :
  used_layers g = used_layers g' -> names_nodes g' names nodes -> names_nodes g names nodes.
Proof. unfold names_nodes, node_of. intros ->. auto. Qed.

Lemma scan_fields_Ok (X : Extern) (fields : list string) :
  forall acc vs,
    rfold (fun acc f => match scan_lf X f with
                        | Some d => Ok (acc ++ [d])
                        | None => Fatal "invalid format of values"
                        end) fields acc = Ok vs
    <-> exists ds, Forall2 (fun f d => scan_lf X f = Some d) fields ds /\ vs = acc ++ ds.
Proof.
  induction fields as [|f fields IH]; intros acc vs; cbn [rfold].
  - split.
    + intros [= <-]. exists []. rewrite app_nil_r. split; [constructor | reflexivity].
    + intros (ds & Hds & ->). inversion Hds. rewrite app_nil_r. reflexivity.
  - destruct (scan_lf X f) as [d|] eqn:Hd; cbn [rbind].
    + rewrite IH. split.
      * intros (ds & Hds & ->). exists (d :: ds).
        split; [constructor; assumption | rewrite <- app_assoc; reflexivity].
      * intros (ds & Hds & ->). inversion Hds as [|? d' ? ds' Hd' Hds']; subst.
        rewrite Hd in Hd'. injection Hd' as <-.
        exists ds'. split; [assumption | rewrite <- app_assoc; reflexivity].
    + split; [discriminate|]. intros (ds & Hds & _).
      inversion Hds; subst. congruence.
Qed.

Lemma length_overwrite {A} (new old : list A) :
  length (overwrite new old) = (length new `max` length old)%nat.
Proof. unfold overwrite. rewrite length_app, length_drop. lia. Qed.

Lemma val_at_nat (v : list double) (i : nat) : val_at v (Z.of_nat i) = default 0 (v !! i).
Proof.
  unfold val_at. assert (H : (0 <=? Z.of_nat i) = true) by (apply Z.leb_le; lia).
  rewrite H, Nat2Z.id. reflexivity.
Qed.

Lemma val_at_overwrite (new old : list double) (i : nat) :
  (i < length new)%nat -> val_at (overwrite new old) (Z.of_nat i) = val_at new (Z.of_nat i).
Proof.
  intros Hi. rewrite !val_at_nat. unfold overwrite.
  rewrite lookup_app_l by exact Hi. reflexivity.
Qed.

Lemma vals_line_permuted (p : list nat) (v v2 : list double) (k : Z) f :
  1 <= k -> p ≡ₚ seq 0 (Z.to_nat k) ->
  (forall j i, p !! j = Some i -> val_at v2 (Z.of_nat j) = val_at v (Z.of_nat i)) ->
  ev_perm p (Fprint f (vals_line v k)) (Fprint f (vals_line v2 k)).
Proof.
  intros Hk Hp Hv. exists (map F2 (map (val_at v) (upto k))).
  split; [|split].
  - rewrite !length_map. unfold upto. rewrite length_seqZ, (perm_length p _ Hp). reflexivity.
  - rewrite vals_line_tabbed by exact Hk. reflexivity.
  - rewrite vals_line_tabbed by exact Hk.
    rewrite (cols_permuted (val_at v) (val_at v2) p k Hp Hv).
    rewrite (permuted_fmap F2 p (map (val_at v) (upto k))). reflexivity.
Qed.

Lemma same_layers_fit g g' :
  same_layers g g' -> (Z.to_nat (n_layers g) <= length (layers g))%nat ->
  (Z.to_nat (n_layers g') <= length (layers g'))%nat.
Proof. intros [-> ->]. auto. Qed.

Lemma trace_row_model (X : Extern) fr num (v : list double) (l : locals X) s l' s' :
  trace_row X fr num v l s = Ret l' s' ->
  num = n fr /\ same_model (model l) (model l')
  /\ (is_block (type (model l)) = false -> length (power l') = length (power l)).
Proof.
  unfold trace_row. intros H.
  bind_inv H. apply when_fatal_Ret in H0 as [Hnum ->].
  apply negb_false_iff, Z.eqb_eq in Hnum.
  bind_inv H. apply lift_Ret in H0 as [Hin ->].
  bind_inv H. bind_inv H. apply lift_Ret in H1 as [_ ->].
  injection H as <- <-. cbn [model power]. split; [exact Hnum|].
  assert (Hlen : is_block (type (model l)) = false -> length a0 = length (power l)).
  { intros Hblk. rewrite Hblk in Hin. rewrite permute_in_grid_fold in Hin.
    apply columns_fold_Ok in Hin as (_ & nodes & _ & Happ).
    apply apply_in_Ok in Happ. apply Happ. }
  destruct (do_transient fr).
  - apply transient_row_Ret in H0 as (Hm & _ & _ & Hp & _). cbn [model power] in *.
    split; [exact Hm|]. intros Hblk. rewrite Hp. apply Hlen, Hblk.
  - injection H0 as <- _. cbn [model power]. split; [apply same_model_refl | exact Hlen].
Qed.

Section Column_order.
Context (X : Extern) (p : list nat) (g0 : grid_model_t) (names0 : list string).
Hypothesis Hkeep : keeps_layers g0 p.
Hypothesis Hcols : Z.of_nat (length names0) = n_columns (used_layers g0).
Hypothesis Hne : names0 <> [].
Hypothesis Hnd : NoDup (header_nodes g0 names0).
Hypothesis Hfit : (Z.to_nat (n_layers g0) <= length (layers g0))%nat.
Hypothesis Hmax : Z.of_nat (length names0) <= MAX_UNITS X.

Lemma columns_perm : p ≡ₚ seq 0 (length names0).
Proof. destruct Hkeep as [Hp _]. rewrite Hp, <- Hcols, Nat2Z.id. reflexivity. Qed.

Lemma columns_some : 1 <= Z.of_nat (length names0).
Proof. destruct names0; [contradiction | simpl; lia]. Qed.

Lemma sim_read_vals_line (fields : list string) (v1 v2 : list double) :
  length v2 = length v1 ->
  sim False (ev_perm p)
      (fun r1 r2 => fst r2 = fst r1 /\ length (snd r2) = length (snd r1)
                    /\ (fst r1 = Z.of_nat (length names0) ->
                        forall j i, p !! j = Some i ->
                          val_at (snd r2) (Z.of_nat j) = val_at (snd r1) (Z.of_nat i)))
      (read_vals_line X fields v1) (read_vals_line X (permute_row p fields) v2).
Proof.
  intros Hv. pose proof columns_perm as Hp.
  unfold read_vals_line. rewrite (length_permute_row p fields _ Hp).
  assert (Hperm : take (Z.to_nat (MAX_UNITS X)) (permute_row p fields)
                  ≡ₚ take (Z.to_nat (MAX_UNITS X)) fields).
  { apply (take_permute_row p fields (length names0)); [exact Hp | lia]. }
  eapply (sim_bind _ _ (fun vs vs2 : list double =>
            length vs2 = length vs
            /\ (length fields = length names0 ->
                vs2 = permuted p vs /\ length vs = length fields))).
  - apply sim_lift.
    + intros msg. reflexivity.
    + intros vs Hvs.
      destruct (decide (length fields = length names0)) as [Hlen|Hlen].
      * assert (Hp' : p ≡ₚ seq 0 (length fields)) by (rewrite Hlen; exact Hp).
        rewrite permute_row_exact by (rewrite (perm_length p _ Hp'); lia).
        rewrite !take_ge in * by (rewrite ?(permuted_length p fields Hp'); lia).
        apply scan_fields_Ok in Hvs as (ds & Hds & ->). cbn [app].
        assert (Hlds : length ds = length fields) by (symmetry; eapply Forall2_length, Hds).
        exists (permuted p ds). split; [|split].
        -- apply scan_fields_Ok. exists (permuted p ds).
           split; [apply Forall2_permuted, Hds | reflexivity].
        -- apply permuted_length. rewrite Hlds. exact Hp'.
        -- intros _. split; [reflexivity | exact Hlds].
      * pose proof (scan_fields_perm X _ _ [] Hperm) as Hscan. rewrite Hvs in Hscan.
        destruct Hscan as (vs2 & H2 & Hl). exists vs2.
        split; [exact H2|]. split; [exact Hl | intros; contradiction].
    + intros msg Hf. pose proof (scan_fields_perm X _ _ [] Hperm) as Hscan.
      rewrite Hf in Hscan. exact Hscan.
    + intros [].
  - intros vs vs2 [Hl Hexact].
    destruct (MAX_UNITS X <? Z.of_nat (length fields)); [apply sim_fatal; reflexivity|].
    apply sim_ret. cbn [fst snd]. split; [reflexivity|]. split.
    + rewrite !length_overwrite. lia.
    + intros Hn j i Hj. apply Nat2Z.inj in Hn.
      destruct (Hexact Hn) as [-> Hvs].
      assert (Hpv : p ≡ₚ seq 0 (length vs)) by (rewrite Hvs, Hn; exact Hp).
      assert (Hi : (i < length vs)%nat).
      { apply (perm_range p _ i Hpv). eapply list_elem_of_lookup_2, Hj. }
      assert (Hjn : (j < length vs)%nat).
      { apply lookup_lt_Some in Hj. rewrite (perm_length p _ Hpv) in Hj. exact Hj. }
      rewrite !val_at_overwrite by (rewrite ?(permuted_length p vs Hpv); lia).
      rewrite !val_at_nat, (permuted_at p vs j i Hpv Hj). reflexivity.
Qed.

Lemma sim_natural_convection (l1 l2 : locals X) :
  same_but_vals l1 l2 ->
  sim False (ev_perm p) same_but_vals (natural_convection X l1) (natural_convection X l2).
Proof.
  intros (Hm & Hpw & Hpl & Hov & Hnat & Hlin & Hv & Hw).
  unfold natural_convection. rewrite Hnat, Hm.
  destruct (truthy (natural l1)).
  - apply sim_bind_eq; [apply sim_fetch|]. intros t.
    apply sim_bind_eq; [apply sim_tell; reflexivity|]. intros _.
    destruct (package_model X _ _) as [c' nat'].
    apply sim_bind_eq; [apply sim_tell; reflexivity|]. intros _.
    apply sim_ret. unfold same_but_vals. cbn. auto 10.
  - apply sim_ret. unfold same_but_vals. auto 10.
Qed.

(** Lines 814-853 under a rearranged header. *)
Lemma sim_transient_row (fr : frame) (l1 l2 : locals X) nodes :
  names fr = names0 -> n fr = Z.of_nat (length names0) ->
  same_layers g0 (grid (model l1)) ->
  names_nodes g0 names0 nodes ->
  same_but_vals l1 l2 ->
  sim False (ev_perm p) same_but_vals
      (transient_row X fr l1) (transient_row X (with_names (permuted p names0) fr) l2).
Proof.
  intros Hnames Hn Hsame0 Hnodes Hl. unfold transient_row. cbv zeta.
  eapply sim_bind.
  { eapply sim_post with (P := fun l' => same_model (model l1) (model l'));
      [apply sim_natural_convection, Hl|].
    intros s a s' H. apply natural_convection_Ret in H. apply H. }
  intros l1' l2' [(Hm & Hpw & Hpl & Hov & Hnat & Hlin & Hv & Hw) Hsame].
  apply sim_bind_eq; [apply sim_get; reflexivity|]. intros tn.
  rewrite Hm, Hpw, Hpl, Hlin.
  eapply sim_bind.
  { eapply sim_post with (P := fun r => same_model (model l1') (fst r));
      [apply sim_call_compute_temp; apply ev_perm_plain|].
    intros s a s' H. apply call_compute_temp_shape in H. apply H. }
  intros r ? [<- Hsame2].
  apply sim_bind_eq; [apply sim_when, sim_tell; reflexivity|]. intros _.
  destruct (is_block (type (fst r))); [apply sim_fatal; reflexivity|].
  apply sim_bind_eq; [apply sim_fetch|]. intros last.
  assert (Hsame' : same_layers g0 (grid (fst r))).
  { eapply same_layers_trans; [exact Hsame0|].
    eapply same_layers_trans; [apply Hsame | apply Hsame2]. }
  assert (Hused' : used_layers (grid (fst r)) = used_layers g0)
    by (apply same_layers_used, Hsame').
  cbn [names n with_names]. rewrite Hnames, Hn.
  eapply sim_bind.
  { apply (sim_lift _ _ (fun vv vv2 : list double * list double =>
       length (fst vv2) = length (fst vv) /\ length (snd vv2) = length (snd vv)
       /\ forall j i, p !! j = Some i ->
            val_at (fst vv2) (Z.of_nat j) = val_at (fst vv) (Z.of_nat i)
            /\ (truthy (leakage_used (config (grid (fst r)))) = true ->
                val_at (snd vv2) (Z.of_nat j) = val_at (snd vv) (Z.of_nat i)))).
    - intros msg. reflexivity.
    - intros vv Hvv.
      eapply permute_out_grid_permuted in Hvv; [exact Hvv | | | exact Hv | exact Hw].
      + eapply keeps_layers_used; [exact Hused' | exact Hkeep].
      + rewrite Hused'. exact Hcols.
    - intros msg Hf. exfalso. revert Hf.
      apply (permute_out_grid_not_Fatal _ _ nodes).
      + eapply same_layers_fit; eassumption.
      + eapply names_nodes_used; [exact Hused' | exact Hnodes].
    - intros []. }
  intros vv vv2 (Hl1 & Hl2 & Hvals).
  assert (Hpk : p ≡ₚ seq 0 (Z.to_nat (Z.of_nat (length names0))))
    by (rewrite Nat2Z.id; apply columns_perm).
  apply sim_bind_eq.
  { apply sim_tell, vals_line_permuted; [apply columns_some | exact Hpk |].
    intros j i Hj. apply Hvals, Hj. }
  intros _. apply sim_bind_eq.
  { destruct (truthy (leakage_used _)) eqn:Hleak; [|apply sim_ret; reflexivity].
    apply sim_tell, vals_line_permuted; [apply columns_some | exact Hpk |].
    intros j i Hj. apply Hvals; [exact Hj | reflexivity]. }
  intros _. apply sim_ret. unfold same_but_vals. cbn. auto 10.
Qed.

(** Lines 794-867 on a rearranged row. *)
Lemma sim_trace_row (fr : frame) num (v1 v2 : list double) (l1 l2 : locals X) :
  names fr = names0 -> n fr = Z.of_nat (length names0) ->
  is_block (type (model l1)) = false ->
  same_layers g0 (grid (model l1)) ->
  same_but_vals l1 l2 ->
  length v2 = length v1 ->
  (num = Z.of_nat (length names0) ->
   forall j i, p !! j = Some i -> val_at v2 (Z.of_nat j) = val_at v1 (Z.of_nat i)) ->
  sim_if_defined (ev_perm p) same_but_vals
      (trace_row X fr num v1 l1)
      (trace_row X (with_names (permuted p names0) fr) num v2 l2).
Proof.
  intros Hnames Hn Hblk Hsame0 (Hm & Hpw & Hpl & Hov & Hnat & Hlin & Hv & Hw)
         Hlen Hvals.
  assert (Hused : used_layers (grid (model l1)) = used_layers g0)
    by (apply same_layers_used, Hsame0).
  assert (Hfit1 : (Z.to_nat (n_layers (grid (model l1))) <= length (layers (grid (model l1))))%nat)
    by (eapply same_layers_fit; eassumption).
  unfold trace_row. cbn [names n do_transient flp_ptr with_names].
  rewrite Hm, Hpw, Hpl, Hov, Hnat, Hlin, Hblk, Hnames, Hn.
  destruct (num =? Z.of_nat (length names0)) eqn:Hnum; cbn [negb when].
  2:{ apply (sid_of_sim (U := False)).
      eapply (sim_bind _ _ (fun _ _ => False)); [apply sim_fatal; reflexivity|].
      intros ? ? []. }
  apply Z.eqb_eq in Hnum. specialize (Hvals Hnum).
  apply sid_bind_eq; [apply sid_ret; reflexivity|]. intros _.
  eapply (sid_bind _ (fun pw pw2 : list double =>
            pw2 = pw /\ exists nodes, names_nodes g0 names0 nodes)).
  { apply sid_lift.
    - intros msg. reflexivity.
    - intros pw' H. exists pw'. split; [|split; [reflexivity|]].
      + eapply permute_in_grid_permuted; [ | | | exact Hvals | exact H].
        * eapply keeps_layers_used; [exact Hused | exact Hkeep].
        * rewrite Hused. exact Hcols.
        * rewrite (header_nodes_used _ g0) by exact Hused. exact Hnd.
      + rewrite permute_in_grid_fold in H.
        apply columns_fold_Ok in H as (_ & nodes & Hnodes & _).
        exists nodes. eapply names_nodes_used; [symmetry; exact Hused | exact Hnodes].
    - intros msg H. eapply permute_in_grid_Fatal; [exact Hfit1 | | | exact H].
      + eapply keeps_layers_used; [exact Hused | exact Hkeep].
      + rewrite Hused. exact Hcols. }
  intros pw' ? [-> [nodes Hnodes]].
  eapply sid_bind.
  { apply (sid_of_sim (U := False)). destruct (do_transient fr).
    - eapply sim_transient_row; [exact Hnames | exact Hn | exact Hsame0 | exact Hnodes |].
      unfold same_but_vals. cbn. auto 10.
    - apply sim_ret. unfold same_but_vals. cbn. auto 10. }
  intros l1' l2' (Hm' & Hpw' & Hpl' & Hov' & Hnat' & Hlin' & Hv' & Hw').
  rewrite Hm', Hpw', Hov'.
  apply sid_bind_eq; [apply (sid_of_sim (U := False)), sim_lift_eq; reflexivity|].
  intros ov.
  apply sid_ret. unfold same_but_vals. cbn. rewrite Hlin'. auto 10.
Qed.

(** The loop over the rows of a rearranged trace. *)
Lemma sim_trace_loop (fr : frame) (fp : list (list string)) :
  names fr = names0 -> n fr = Z.of_nat (length names0) ->
  forall l1 l2 : locals X,
    is_block (type (model l1)) = false ->
    same_layers g0 (grid (model l1)) ->
    same_but_vals l1 l2 ->
    sim_if_defined (ev_perm p) same_but_vals
        (trace_loop X fr fp l1)
        (trace_loop X (with_names (permuted p names0) fr) (permute_trace p fp) l2).
Proof.
  intros Hnames Hn. pose proof columns_perm as Hp.
  induction fp as [|fields fp IH]; intros l1 l2 Hblk Hsame0 Hl.
  - apply sid_ret, Hl.
  - destruct fields as [|f fields].
    + cbn [permute_trace map trace_loop]. rewrite permute_row_nil. apply IH; assumption.
    + cbn [permute_trace map].
      destruct (permute_row p (f :: fields)) as [|f2 fields2] eqn:Hperm.
      { apply (f_equal length) in Hperm.
        rewrite (length_permute_row p _ _ Hp) in Hperm. discriminate. }
      cbn [trace_loop]. rewrite <- Hperm. fold (permute_trace p fp).
      eapply sid_bind.
      { apply (sid_of_sim (U := False)), sim_read_vals_line. apply Hl. }
      intros r1 r2 (Hr & Hrl & Hrv). rewrite Hr.
      eapply sid_bind.
      { eapply sid_post with (P := fun l' => same_model (model l1) (model l')).
        - apply sim_trace_row; eassumption.
        - intros s a s' H. apply trace_row_model in H as (_ & Hm & _). exact Hm. }
      intros l1' l2' [Hl' [Ht Hs]].
      apply IH; [congruence | | exact Hl'].
      eapply same_layers_trans; eassumption.
Qed.

Lemma names_line_permuted f :
  ev_perm p (Fprint f (tabbed (map Str names0)))
            (Fprint f (tabbed (map Str (permuted p names0)))).
Proof.
  exists (map Str names0). split; [|split; [reflexivity|]].
  - rewrite length_map. symmetry. apply perm_length, columns_perm.
  - rewrite permuted_fmap. reflexivity.
Qed.

Lemma permuted_names_some : permuted p names0 <> [].
Proof.
  intros H. apply (f_equal length) in H.
  rewrite (permuted_length p _ columns_perm) in H.
  destruct names0; [contradiction | discriminate].
Qed.

Lemma sim_write_names f :
  sim False (ev_perm p) eq
      (write_names f names0 (Z.of_nat (length names0)))
      (write_names f (permuted p names0) (Z.of_nat (length names0))).
Proof.
  assert (H2 : write_names f (permuted p names0) (Z.of_nat (length names0))
               = tell (Fprint f (tabbed (map Str (permuted p names0))))).
  { unfold write_names. rewrite <- (permuted_length p names0 columns_perm).
    rewrite (names_line_tabbed _ permuted_names_some). reflexivity. }
  rewrite H2. unfold write_names. rewrite (names_line_tabbed names0 Hne).
  apply sim_tell, names_line_permuted.
Qed.

Lemma sim_finish (fr : frame) ns region size (l1 l2 : locals X) :
  same_but_vals l1 l2 ->
  sim False (ev_perm p) eq
      (finish X fr region size l1) (finish X (with_names ns fr) region size l2).
Proof.
  intros (Hm & Hpw & Hpl & Hov & Hnat & Hlin & Hv & Hw).
  unfold finish. cbn [n with_names]. rewrite Hm, Hov, Hlin.
  apply (sim_finish_same X False (ev_perm p) (ev_perm_plain p)).
Qed.

End Column_order.

Lemma sim_read_names (X : Extern) (p : list nat) (k : nat) (fp : list (list string)) :
  p ≡ₚ seq 0 k ->
  sim False (ev_perm p)
      (fun r1 r2 =>
         fst (fst r1) = names_line fp /\ fst (fst r1) <> []
         /\ snd (fst r1) = Z.of_nat (length (fst (fst r1)))
         /\ snd (fst r1) <= MAX_UNITS X
         /\ r2 = (permute_row p (fst (fst r1)), snd (fst r1), permute_trace p (snd r1)))
      (read_names X fp) (read_names X (permute_trace p fp)).
Proof.
  intros Hp. induction fp as [|fields fp IH].
  - cbn [permute_trace map read_names]. apply sim_fatal. reflexivity.
  - cbn [permute_trace map]. fold (permute_trace p fp). destruct fields as [|f fields].
    + rewrite permute_row_nil. cbn [read_names]. exact IH.
    + destruct (permute_row p (f :: fields)) as [|f2 fields2] eqn:Hperm.
      { apply (f_equal length) in Hperm.
        rewrite (length_permute_row p _ _ Hp) in Hperm. discriminate. }
      cbn [read_names]. rewrite <- Hperm, (length_permute_row p _ _ Hp).
      destruct (MAX_UNITS X <? Z.of_nat (length (f :: fields))) eqn:Hmax;
        [apply sim_fatal; reflexivity|].
      apply Z.ltb_ge in Hmax. apply sim_ret. cbn [fst snd].
      repeat split; auto; try discriminate.
Qed.

Lemma count_units_grid (X : Extern) (m : RC_model_t X) s k s' :
  count_units X m s = Ret k s' -> is_block (type m) = false ->
  k = n_columns (used_layers (grid m))
  /\ (Z.to_nat (n_layers (grid m)) <= length (layers (grid m)))%nat.
Proof.
  unfold count_units. destruct (type m); cbn [is_block]; intros H Hblk; try discriminate.
  apply lift_Ret in H as [H _].
  apply for_layers_Ok in H as [Hfit H]. rewrite count_columns in H.
  injection H as <-. split; [lia | exact Hfit].
Qed.

Local Ltac opened :=
  split; [assumption|]; split; [assumption|]; split; [lia|]; split; [lia|];
  split; [lia|]; split; [assumption|];
  split; [first [apply same_model_refl | split; [reflexivity | assumption]]|];
  reflexivity.

(** Lines 739-788 on a rearranged trace. *)
Lemma sim_open_traces (X : Extern) (p : list nat) dt (m : RC_model_t X)
      (fp : list (list string)) :
  is_block (type m) = false ->
  keeps_layers (grid m) p ->
  NoDup (header_nodes (grid m) (names_line fp)) ->
  sim False (ev_perm p)
      (fun r1 r2 =>
         let '(m', names1, k, fp', region, size) := r1 in
         names1 = names_line fp /\ names1 <> [] /\ k = Z.of_nat (length names1)
         /\ Z.of_nat (length names1) = n_columns (used_layers (grid m))
         /\ Z.of_nat (length names1) <= MAX_UNITS X
         /\ (Z.to_nat (n_layers (grid m)) <= length (layers (grid m)))%nat
         /\ same_model m m'
         /\ r2 = (m', permuted p names1, k, permute_trace p fp', region, size))
      (open_traces X dt m (Some fp)) (open_traces X dt m (Some (permute_trace p fp))).
Proof.
  intros Hblk Hkeep Hnd. pose proof (proj1 Hkeep) as Hp. unfold open_traces.
  eapply sim_bind.
  { eapply sim_post with
      (P := fun k => k = n_columns (used_layers (grid m))
                     /\ (Z.to_nat (n_layers (grid m)) <= length (layers (grid m)))%nat).
    - apply sim_count_units, ev_perm_plain.
    - intros s k s' H. eapply count_units_grid; eassumption. }
  intros k ? [<- [-> Hfit]].
  eapply sim_bind;
    [apply (sim_ret _ _ (fun a b => a = fp /\ b = permute_trace p fp)); auto|].
  intros ? ? [-> ->].
  apply sim_bind_eq; [apply sim_get; reflexivity|]. intros tout_ok.
  apply sim_bind_eq; [apply sim_when, sim_fatal; reflexivity|]. intros _.
  apply sim_bind_eq; [apply sim_get; reflexivity|]. intros pout_ok.
  apply sim_bind_eq; [apply sim_when, sim_fatal; reflexivity|]. intros _.
  eapply sim_bind; [apply (sim_read_names X p _ fp Hp)|].
  intros [[names1 cnt] fp'] r2. cbn [fst snd]. intros (Hnl & Hne & Hcnt & Hmax & ->).
  rewrite <- Hnl in Hnd. rewrite Hcnt in Hmax.
  destruct (cnt =? n_columns (used_layers (grid m))) eqn:Hk; cbn [negb when].
  2:{ eapply (sim_bind _ _ (fun _ _ => False)); [apply sim_fatal; reflexivity|].
      intros ? ? []. }
  apply Z.eqb_eq in Hk.
  assert (Hcols : Z.of_nat (length names1) = n_columns (used_layers (grid m))) by lia.
  rewrite permute_row_exact by (rewrite (perm_length p _ Hp); lia).
  apply sim_bind_eq; [apply sim_ret; reflexivity|]. intros _.
  apply sim_bind_eq; [apply sim_get; reflexivity|]. intros tn.
  assert (Hsame : same_model m m) by apply same_model_refl.
  destruct ((tn <=? to_uint 0) && dt).
  - rewrite <- Hcols.
    apply sim_bind_eq; [eapply (sim_write_names X); eassumption|]. intros _.
    apply sim_bind_eq; [apply sim_when; eapply (sim_write_names X); eassumption|].
    intros _.
    apply sim_bind_eq.
    { sim_tac ltac:(solve [apply ev_perm_plain; exact I]). }
    intros _. apply sim_ret. rewrite Hcols. opened.
  - destruct ((to_uint 0 <? tn) && dt).
    + eapply sim_bind.
      { eapply sim_post with (P := fun r => same_layers (grid m) (fst (fst r))).
        - apply sim_load, ev_perm_plain.
        - intros s r s' H. eapply load_shape, H. }
      intros [[g' region] size] ? [<- Hs]. cbn [fst] in Hs.
      apply sim_ret. opened.
    + apply sim_ret. opened.
Qed.

Lemma sim_run_trace (X : Extern) (p : list nat) dt flp (l : locals X)
      (fp : list (list string)) :
  is_block (type (model l)) = false ->
  keeps_layers (grid (model l)) p ->
  NoDup (header_nodes (grid (model l)) (names_line fp)) ->
  sim_if_defined (ev_perm p) eq
      (run_trace X dt flp l (Some fp)) (run_trace X dt flp l (Some (permute_trace p fp))).
Proof.
  intros Hblk Hkeep Hnd. unfold run_trace.
  eapply sid_bind.
  { apply (sid_of_sim (U := False)).
    eapply sim_post with (P := fun m => same_model (model l) m).
    - apply sim_init_temps, ev_perm_plain.
    - intros s m s' H. eapply init_temps_shape, H. }
  intros m ? [<- [Ht Hs]].
  assert (Hblk1 : is_block (type m) = false) by congruence.
  assert (Hused1 : used_layers (grid m) = used_layers (grid (model l)))
    by (apply same_layers_used, Hs).
  assert (Hkeep1 : keeps_layers (grid m) p)
    by (eapply keeps_layers_used; [exact Hused1 | exact Hkeep]).
  assert (Hnd1 : NoDup (header_nodes (grid m) (names_line fp)))
    by (rewrite (header_nodes_used _ (grid (model l))) by exact Hused1; exact Hnd).
  eapply sid_bind;
    [apply (sid_of_sim (U := False)), (sim_open_traces X p dt m fp Hblk1 Hkeep1 Hnd1)|].
  intros [[[[[m' names1] k] fp'] region] size] ?
         (-> & Hne & -> & Hcols & Hmax & Hfit & [Ht' Hs'] & ->).
  eapply sid_bind.
  { apply (sim_trace_loop X p (grid m) (names_line fp) Hkeep1 Hcols Hne Hnd1 Hfit Hmax)
      with (fr := {| do_transient := dt; flp_ptr := flp; names := names_line fp;
                     n := Z.of_nat (length (names_line fp)) |});
      try reflexivity; try assumption.
    - cbn [model]. congruence.
    - unfold same_but_vals. cbn. auto 10. }
  intros l1 l2 Hl.
  apply (sid_of_sim (U := False)).
  apply (sim_finish X p {| do_transient := dt; flp_ptr := flp; names := names_line fp;
                           n := Z.of_nat (length (names_line fp)) |}
                   (permuted p (names_line fp))), Hl.
Qed.

Lemma sim_main (X : Extern) (p : list nat) (inp : input X) (fp : list (list string)) :
  is_block (type (model_in inp)) = false ->
  keeps_layers (grid (model_in inp)) p ->
  NoDup (header_nodes (grid (model_in inp)) (names_line fp)) ->
  sim_if_defined (ev_perm p) eq
      (main X inp (Some fp)) (main X inp (Some (permute_trace p fp))).
Proof.
  intros Hblk Hkeep Hnd. unfold main.
  destruct (negb _); [apply sid_ret; reflexivity|].
  apply sid_bind_eq;
    [apply (sid_of_sim (U := False)), sim_global_config, ev_perm_plain|]. intros gc.
  apply sid_bind_eq; [apply (sid_of_sim (U := False)), sim_parse_volt_vector|]. intros _.
  unfold main_after_config.
  eapply sid_bind.
  { apply (sid_of_sim (U := False)).
    eapply sim_post with (P := fun r => same_model (model_in inp) (model (snd r))).
    - apply sim_setup; [apply ev_perm_plain | apply ev_perm_dump].
    - intros s r s' H. eapply setup_Ret, H. }
  intros [[dt flp] l] ? [<- [Ht Hs]]. cbn [snd] in *.
  assert (Hused : used_layers (grid (model l)) = used_layers (grid (model_in inp)))
    by (apply same_layers_used, Hs).
  apply sim_run_trace.
  - congruence.
  - eapply keeps_layers_used; [exact Hused | exact Hkeep].
  - rewrite (header_nodes_used _ (grid (model_in inp))) by exact Hused. exact Hnd.
Qed.



(** Neither of the two runs is undefined there: both leave through [exit]
    after one temperature row. *)
Example column_order_sample_run_is_fatal :
  let inp := Sample.grid_run Sample.one_layer (Sample.opts [("t", "0")]) in
  let s := Sample.start ∅ Sample.io_ok in
  let fp := [["A"; "B"]; ["1"; "2"]; []; ["3"; "x"]]%string in
  (exists s1, main Sample.X inp (Some fp) s = Exit 1 s1
              /\ tout_lines (log s1)
                 = [tabbed [Str "A"; Str "B"]; tabbed [F2 301; F2 302]])
  /\ (exists s2, main Sample.X inp (Some (permute_trace [1%nat; 0%nat] fp)) s = Exit 1 s2
                 /\ tout_lines (log s2)
                    = [tabbed [Str "B"; Str "A"]; tabbed [F2 302; F2 301]]).
Proof. vm_compute. split; eexists; split; reflexivity. Qed.


(** ** C9: a [detailed_3D] value that is neither "on" nor "off" *)

Lemma as_off_plain e : plain_event e -> as_off e e.
Proof.
  unfold as_off. destruct e as [| | | | | |c]; try reflexivity; intros H.
  destruct c; try reflexivity. destruct H.
Qed.

Lemma as_off_print f line : as_off (Fprint f line) (Fprint f line).
Proof. reflexivity. Qed.

Lemma as_off_map (e1 e2 : list event) : Forall2 as_off e1 e2 -> e2 = map dumped_off e1.
Proof. induction 1 as [|x y l k Hxy _ IH]; [reflexivity|]. cbn. rewrite Hxy, IH. reflexivity. Qed.

(** The set-up with the value given and with "off": the flag is the same, the
    dump is not. *)
Lemma sim_setup_off (X : Extern) (gc : global_config_t) (inp : input X) :
  detailed_3D gc <> "on"%string ->
  sim True as_off eq (setup X gc inp) (setup X (with_detailed_3D "off" gc) inp).
Proof.
  intros Hne.
  assert (Hflag : detailed_3D_flag (detailed_3D gc) = false).
  { rewrite detailed_3D_flag_on. apply String.eqb_neq. exact Hne. }
  pose proof as_off_plain as Hplain.
  unfold setup. cbv zeta.
  cbn [with_detailed_3D t_outfile config_file detailed_3D use_microchannels dump_config
       flp_file].
  rewrite Hflag. change (detailed_3D_flag "off") with false.
  apply sim_bind_eq; [sim_tac ltac:(apply Hplain; exact I)|]. intros _.
  apply sim_bind_eq.
  { apply sim_when. unfold dump_configuration, global_config_to_strs, dump_str_pairs.
    cbn [with_detailed_3D t_outfile config_file detailed_3D use_microchannels dump_config
         flp_file p_infile materials_file].
    eapply (sim_bind _ _ (fun t1 t2 => t2 = <[5%nat := ("detailed_3D", "off")%string]> t1
                                       /\ (8 <= length t1)%nat)).
    - apply sim_bind_eq; [sim_tac ltac:(apply Hplain; exact I)|]. intros _.
      apply sim_ret. split; [reflexivity | cbn; lia].
    - intros t1 t2 [-> Hlen].
      assert (Happ : forall more,
                 <[5%nat := ("detailed_3D", "off")%string]> (t1 ++ more)
                 = <[5%nat := ("detailed_3D", "off")%string]> t1 ++ more).
      { intros more. apply insert_app_l. lia. }
      destruct (thermal_strs inp) as [thermal|]; [|apply sim_exit].
      destruct (truthy (use_microchannels gc));
        [destruct (microchannel_strs inp) as [micro|]; [|apply sim_exit]|];
        apply sim_tell; unfold as_off, dumped_off; rewrite Happ; reflexivity. }
  intros _. sim_tac ltac:(apply Hplain; exact I).
Qed.

(** C9, as the code has it: a [detailed_3D] value other than "on" -- "off" or
    anything else -- is not an error.  The run ends as the run with "off"
    ends, with the same value or status, in the same state and with the same
    events logged, but for one thing: in a dump of the configuration ([-d])
    the [detailed_3D] entry holds the value given where the other run's holds
    "off". *)
Theorem detailed_3D_not_on_runs_as_off (X : Extern) (gc : global_config_t) (inp : input X)
        (ptrace : option (list (list string))) (s : state) :
  detailed_3D gc <> "on"%string ->
  exists evs,
    log (final (main_after_config X gc inp ptrace s)) = log s ++ evs
    /\ main_after_config X (with_detailed_3D "off" gc) inp ptrace s
       = relog (log s ++ map dumped_off evs) (main_after_config X gc inp ptrace s).
Proof.
  intros Hne.
  assert (Hsim : sim True as_off eq
                   (main_after_config X gc inp ptrace)
                   (main_after_config X (with_detailed_3D "off" gc) inp ptrace)).
  { unfold main_after_config.
    apply sim_bind_eq; [apply sim_setup_off, Hne|]. intros [[dt flp] l].
    apply sim_run_trace_same; [apply as_off_plain | apply as_off_print]. }
  destruct (sim_run True as_off _ _ s Hsim) as (e1 & e2 & Hlog & HE & H2).
  { destruct (main_after_config X gc inp ptrace s); exact I. }
  exists e1. split; [exact Hlog|].
  rewrite H2, (as_off_map _ _ HE). reflexivity.
Qed.

(** C9, witness: the value "maybe", with a dump of the configuration. *)
Lemma detailed_3D_not_on_witness :
  let gc := Sample.gc_dump "maybe" "dump.cfg" in
  let inp := Sample.grid_run Sample.two_layers (Sample.opts [("t", "0")]) in
  let s := Sample.start ∅ Sample.io_ok in
  exists evs,
    log (final (main_after_config Sample.X gc inp Sample.ptrace_AB s)) = log s ++ evs
    /\ main_after_config Sample.X (with_detailed_3D "off" gc) inp Sample.ptrace_AB s
       = relog (log s ++ map dumped_off evs)
           (main_after_config Sample.X gc inp Sample.ptrace_AB s).
Proof.
  intros gc inp s. apply detailed_3D_not_on_runs_as_off. discriminate.
Defined.

(** With [-d] the two runs differ, in the dump alone. *)
Example detailed_3D_maybe_is_dumped :
  let gc := Sample.gc_dump "maybe" "dump.cfg" in
  let inp := Sample.grid_run Sample.two_layers (Sample.opts [("t", "0")]) in
  let s := Sample.start ∅ Sample.io_ok in
  head (log (final (main_after_config Sample.X gc inp Sample.ptrace_AB s)))
  = Some (Call (c_dump_str_pairs
                  [("f", NULLFILE); ("p", "gcc.ptrace"); ("o", "gcc.ttrace");
                   ("c", NULLFILE); ("d", "dump.cfg"); ("detailed_3D", "maybe");
                   ("use_microchannels", "0"); ("materials_file", NULLFILE)]
                  "dump.cfg" "-"))
  /\ head (log (final (main_after_config Sample.X (with_detailed_3D "off" gc) inp
                         Sample.ptrace_AB s)))
     = Some (Call (c_dump_str_pairs
                     [("f", NULLFILE); ("p", "gcc.ptrace"); ("o", "gcc.ttrace");
                      ("c", NULLFILE); ("d", "dump.cfg"); ("detailed_3D", "off");
                      ("use_microchannels", "0"); ("materials_file", NULLFILE)]
                     "dump.cfg" "-")).
Proof. vm_compute. split; reflexivity. Qed.

(** C9, counterexample to the claim as stated: with [-detailed_3D maybe] the
    first chunk of a chunked run is simulated to the end and [main] returns 0. *)
Lemma detailed_3D_maybe_is_not_fatal :
  exists s',
    main Sample.X
      (Sample.grid_run Sample.two_layers
         (Sample.opts [("t", "0"); ("detailed_3D", "maybe")]))
      Sample.ptrace_AB (Sample.start ∅ Sample.io_ok)
    = Ret 0 s'.
Proof. eexists. vm_compute. reflexivity. Qed.

(** * Further properties of the driver *)

(** ** What every part of a run keeps *)

Section Keeps.
Context (I : state -> state -> Prop) (Q : Z -> Prop).
Hypothesis I_refl : forall s, I s s.
Hypothesis I_trans : forall s1 s2 s3, I s1 s2 -> I s2 s3 -> I s1 s3.

Lemma keeps_ret {A} (a : A) : keeps I Q (ret a).
Proof. intros s. split; [apply I_refl | discriminate]. Qed.

Lemma keeps_get {A} (f : state -> A) : keeps I Q (get f).
Proof. intros s. split; [apply I_refl | discriminate]. Qed.

Lemma keeps_undefined {A} w : keeps I Q (@undefined A w).
Proof. intros s. split; [apply I_refl | discriminate]. Qed.

Lemma keeps_exit {A} code : Q code -> keeps I Q (@exit A code).
Proof. intros H s. split; [apply I_refl | intros ? ? [= <- _]; exact H]. Qed.

Lemma keeps_modify (f : state -> state) : (forall s, I s (f s)) -> keeps I Q (modify f).
Proof. intros H s. split; [apply H | discriminate]. Qed.

Lemma keeps_tell e : (forall s, I s (emit e s)) -> keeps I Q (tell e).
Proof. intros H. apply keeps_modify, H. Qed.

Lemma keeps_bind {A B} (c : M A) (k : A -> M B) :
  keeps I Q c -> (forall a, keeps I Q (k a)) -> keeps I Q (bind c k).
Proof.
  intros Hc Hk s. unfold bind. destruct (Hc s) as [HI HQ].
  destruct (c s) as [a s1|code s1|w s1]; cbn [final] in *.
  - destruct (Hk a s1) as [HI' HQ']. split; [eapply I_trans; eassumption | exact HQ'].
  - split; [exact HI | intros ? ? [= <- <-]; eapply HQ; reflexivity].
  - split; [exact HI | discriminate].
Qed.

(** The same, using what [c] is known to return. *)
Lemma keeps_bind_post {A B} (P : A -> Prop) (c : M A) (k : A -> M B) :
  keeps I Q c -> (forall s a s', c s = Ret a s' -> P a) ->
  (forall a, P a -> keeps I Q (k a)) -> keeps I Q (bind c k).
Proof.
  intros Hc HP Hk s. unfold bind. destruct (Hc s) as [HI HQ].
  destruct (c s) as [a s1|code s1|w s1] eqn:E; cbn [final] in *.
  - destruct (Hk a (HP _ _ _ E) s1) as [HI' HQ'].
    split; [eapply I_trans; eassumption | exact HQ'].
  - split; [exact HI | intros ? ? [= <- <-]; eapply HQ; reflexivity].
  - split; [exact HI | discriminate].
Qed.

Lemma keeps_when b (c : M unit) : (b = true -> keeps I Q c) -> keeps I Q (when b c).
Proof. destruct b; [auto | intros; apply keeps_ret]. Qed.

Lemma keeps_fatal {A} msg :
  (forall s, I s (emit (Stderr msg) s)) -> Q 1 -> keeps I Q (@fatal A msg).
Proof.
  intros H H1. apply keeps_bind; [apply keeps_tell, H | intros; apply keeps_exit, H1].
Qed.

Lemma keeps_lift {A} (r : res A) :
  (forall msg s, I s (emit (Stderr msg) s)) -> Q 1 -> keeps I Q (lift r).
Proof.
  intros H H1. destruct r; simpl;
    [apply keeps_ret | apply keeps_fatal; auto | apply keeps_undefined].
Qed.

Lemma keeps_for_each {A} (l : list A) (body : A -> M unit) :
  (forall x, keeps I Q (body x)) -> keeps I Q (for_each l body).
Proof.
  intros H. induction l; simpl; [apply keeps_ret | apply keeps_bind; auto].
Qed.

Lemma keeps_mapM {A B} (f : A -> M B) (l : list A) :
  (forall x, keeps I Q (f x)) -> keeps I Q (mapM f l).
Proof.
  intros H. induction l; simpl; [apply keeps_ret|].
  apply keeps_bind; [apply H|]. intros b.
  apply keeps_bind; [apply IHl|]. intros bs. apply keeps_ret.
Qed.

Lemma keeps_load_doubles p n : keeps I Q (load_doubles p n).
Proof.
  intros s. unfold load_doubles.
  destruct p; [destruct (_ && _); (split; [apply I_refl | discriminate])|].
  destruct (mapped_bytes s); [destruct (_ && _)|]; (split; [apply I_refl | discriminate]).
Qed.

Lemma keeps_fetch p n : keeps I Q (fetch p n).
Proof. destruct p; simpl; [apply keeps_ret | apply keeps_load_doubles]. Qed.

Lemma keeps_put p n new :
  (forall s v, I s (set_fs v s)) -> keeps I Q (put p n new).
Proof.
  intros H. destruct p; simpl; [apply keeps_ret|]. intros s.
  destruct (mapping s) as [[f ?]|]; [|split; [apply I_refl | discriminate]].
  destruct (fs s !! f); [destruct (_ && _)|];
    (split; [first [apply H | apply I_refl] | discriminate]).
Qed.

Lemma keeps_c_open f : keeps I Q (c_open f).
Proof. intros s. split; [apply I_refl | discriminate]. Qed.

End Keeps.

Ltac kapply lem r t :=
  first [ apply (lem _ _ r t) | apply (lem _ _ r) | apply (lem _ _ t) | apply lem ].

(** [keeps] through the code of a computation; [side] settles what the
    state changes and the exits have to satisfy, [known] applies the lemmas
    of the parts already treated. *)
Ltac keeps_step r t side :=
  lazymatch goal with
  | |- keeps _ _ (bind _ _) => kapply @keeps_bind r t; [|intros]
  | |- keeps _ _ (ret _) => kapply @keeps_ret r t
  | |- keeps _ _ (get _) => kapply @keeps_get r t
  | |- keeps _ _ (undefined _) => kapply @keeps_undefined r t
  | |- keeps _ _ (exit _) => kapply @keeps_exit r t; side
  | |- keeps _ _ (fatal _) => kapply @keeps_fatal r t; side
  | |- keeps _ _ (lift _) => kapply @keeps_lift r t; side
  | |- keeps _ _ (tell _) => kapply @keeps_tell r t; side
  | |- keeps _ _ (modify _) => kapply @keeps_modify r t; side
  | |- keeps _ _ (when _ _) =>
      kapply @keeps_when r t;
      let H := fresh in intros H; try (cbn in H; discriminate H)
  | |- keeps _ _ (fetch _ _) => kapply @keeps_fetch r t
  | |- keeps _ _ (put _ _ _) => kapply @keeps_put r t; side
  | |- keeps _ _ (load_doubles _ _) => kapply @keeps_load_doubles r t
  | |- keeps _ _ (c_open _) => kapply @keeps_c_open r t
  | |- keeps _ _ (for_each _ _) => kapply @keeps_for_each r t; intros
  | |- keeps _ _ (mapM _ _) => kapply @keeps_mapM r t; intros
  | |- keeps _ _ (if ?b then _ else _) => destruct b
  | |- keeps _ _ (match ?x with _ => _ end) => destruct x
  | |- keeps _ _ (let (_, _) := ?x in _) => destruct x
  | |- keeps _ _ (let _ := _ in _) => cbv zeta
  | |- keeps _ _ (?f _) => unfold f
  | |- keeps _ _ (?f _ _) => unfold f
  | |- keeps _ _ (?f _ _ _) => unfold f
  | |- keeps _ _ (?f _ _ _ _) => unfold f
  | |- keeps _ _ (?f _ _ _ _ _) => unfold f
  end.

Ltac keeps_tac r t side known := repeat first [ known | keeps_step r t side ].


(** ** The driver after its options are parsed

    Whatever relation [I] the log, the file system, the mapping and the
    voltage table do not enter is kept by every part of [main] that follows
    [global_config_from_strs]; and every [exit] there has status 1. *)

Section All_paths.
Context (X : Extern) (I : state -> state -> Prop) (Q : Z -> Prop).
Hypothesis I_refl : forall s, I s s.
Hypothesis I_trans : forall s1 s2 s3, I s1 s2 -> I s2 s3 -> I s1 s3.
Hypothesis I_emit : forall e s, I s (emit e s).
Hypothesis I_fs : forall s v, I s (set_fs v s).
Hypothesis I_mapping : forall s v, I s (set_mapping v s).
Hypothesis I_volt : forall s v, I s (set_volt v s).
Hypothesis Q1 : Q 1.

Ltac side :=
  solve [ intros;
          first [ apply I_emit | apply I_fs | apply I_mapping | apply I_volt
                | exact Q1 | apply I_refl ] ].

Ltac all_tac := keeps_tac I_refl I_trans side fail.

Lemma keeps_parse_volt_vector : keeps I Q parse_volt_vector.
Proof. unfold parse_volt_vector. all_tac. Qed.

Lemma keeps_dump_configuration gc inp : keeps I Q (dump_configuration X gc inp).
Proof. unfold dump_configuration, global_config_to_strs, dump_str_pairs. all_tac. Qed.

Lemma keeps_setup gc inp : keeps I Q (setup X gc inp).
Proof.
  unfold setup.
  keeps_tac I_refl I_trans side ltac:(apply keeps_dump_configuration).
Qed.

Lemma keeps_init_temps dt m : keeps I Q (init_temps X dt m).
Proof. unfold init_temps. all_tac. Qed.

Lemma keeps_count_units m : keeps I Q (count_units X m).
Proof. unfold count_units. all_tac. Qed.

Lemma keeps_read_names fp : keeps I Q (read_names X fp).
Proof.
  induction fp as [|fields fp IH]; cbn [read_names]; [all_tac|].
  destruct fields; [exact IH | all_tac].
Qed.

Lemma keeps_munmap : keeps I Q munmap.
Proof. unfold munmap. all_tac. Qed.

Lemma keeps_load model f : keeps I Q (load_last_trans_temp_mmap model f).
Proof.
  unfold load_last_trans_temp_mmap, perror.
  keeps_tac I_refl I_trans side ltac:(apply keeps_munmap).
Qed.

Lemma keeps_open_traces dt m ptrace : keeps I Q (open_traces X dt m ptrace).
Proof.
  unfold open_traces, write_names.
  keeps_tac I_refl I_trans side
    ltac:(first [apply keeps_count_units | apply keeps_read_names | apply keeps_load]).
Qed.

Lemma keeps_fetch_temps g : keeps I Q (fetch_temps X g).
Proof. unfold fetch_temps. all_tac. Qed.

Lemma keeps_put_temps g t : keeps I Q (put_temps X g t).
Proof. unfold put_temps. all_tac. Qed.

Lemma keeps_call_compute_temp m p first pwl :
  keeps I Q (call_compute_temp X m p first pwl).
Proof.
  unfold call_compute_temp.
  keeps_tac I_refl I_trans side
    ltac:(first [apply keeps_fetch_temps | apply keeps_put_temps]).
Qed.

Lemma keeps_natural_convection l : keeps I Q (natural_convection X l).
Proof. unfold natural_convection. all_tac. Qed.

Lemma keeps_transient_row fr l : keeps I Q (transient_row X fr l).
Proof.
  unfold transient_row, write_vals, write_vals_power.
  keeps_tac I_refl I_trans side
    ltac:(first [apply keeps_natural_convection | apply keeps_call_compute_temp]).
Qed.

Lemma keeps_read_vals_line fields vals : keeps I Q (read_vals_line X fields vals).
Proof. unfold read_vals_line. all_tac. Qed.

Lemma keeps_trace_row fr num vals l : keeps I Q (trace_row X fr num vals l).
Proof.
  unfold trace_row.
  keeps_tac I_refl I_trans side ltac:(apply keeps_transient_row).
Qed.

Lemma keeps_trace_loop fr fp : forall l, keeps I Q (trace_loop X fr fp l).
Proof.
  induction fp as [|fields fp IH]; intros l; cbn [trace_loop]; [all_tac|].
  destruct fields; [apply IH|].
  keeps_tac I_refl I_trans side
    ltac:(first [apply keeps_read_vals_line | apply keeps_trace_row | apply IH]).
Qed.

Lemma keeps_save g f k : keeps I Q (save_last_trans_temp_mmap X g f k).
Proof. unfold save_last_trans_temp_mmap, perror, fwrite. all_tac. Qed.

Lemma keeps_flush region size : keeps I Q (flush_updated_last_trans_temp region size).
Proof.
  unfold flush_updated_last_trans_temp, perror. destruct region as [f|]; [|all_tac].
  kapply @keeps_bind I_refl I_trans; [all_tac|]. intros tn.
  kapply @keeps_bind I_refl I_trans.
  { apply keeps_modify. intros s.
    destruct (fs s !! f); [destruct (_ <=? _)%nat|]; first [apply I_fs | apply I_refl]. }
  intros _. all_tac.
Qed.

Lemma keeps_finish fr region size l : keeps I Q (finish X fr region size l).
Proof.
  unfold finish, unload_last_trans_temp.
  keeps_tac I_refl I_trans side
    ltac:(first [apply keeps_save | apply keeps_flush | apply keeps_munmap]).
Qed.

Lemma keeps_run_trace dt flp l ptrace : keeps I Q (run_trace X dt flp l ptrace).
Proof.
  unfold run_trace.
  keeps_tac I_refl I_trans side
    ltac:(first [apply keeps_init_temps | apply keeps_open_traces
                | apply keeps_trace_loop | apply keeps_finish]).
Qed.

Lemma keeps_main_after_config gc inp ptrace :
  keeps I Q (main_after_config X gc inp ptrace).
Proof.
  unfold main_after_config.
  keeps_tac I_refl I_trans side ltac:(first [apply keeps_setup | apply keeps_run_trace]).
Qed.

End All_paths.


(** ** Exit and return status *)

Lemma usage_test (argc : Z) :
  negb ((5 <=? argc) && negb (Z.rem argc 2 =? 0)) = true <-> usage_error argc.
Proof.
  unfold usage_error. rewrite negb_true_iff, andb_false_iff, negb_false_iff.
  rewrite Z.leb_gt, Z.eqb_eq. reflexivity.
Qed.

Section Status.
Context (X : Extern).

Lemma finish_Ret_0 fr region size (l : locals X) s code s' :
  finish X fr region size l s = Ret code s' -> code = 0.
Proof.
  unfold finish. intros H. repeat (bind_inv H). injection H as <- _. reflexivity.
Qed.

Lemma run_trace_Ret_0 dt flp (l : locals X) ptrace s code s' :
  run_trace X dt flp l ptrace s = Ret code s' -> code = 0.
Proof.
  unfold run_trace. intros H. bind_inv H. bind_inv H.
  destruct a0 as [[[[[m' names0] k] fp'] region] size].
  bind_inv H. eapply finish_Ret_0, H.
Qed.

Lemma status_global_config tbl :
  keeps (fun _ _ => True) (fun code => code = 1) (global_config_from_strs X tbl).
Proof.
  unfold global_config_from_strs, str_param, txrx_param.
  keeps_tac (fun _ : state => Logic.I) (fun (_ _ _ : state) (_ _ : True) => Logic.I)
            ltac:(solve [intros; first [exact Logic.I | reflexivity]]) fail.
Qed.

End Status.

(** [main] returns 1 without doing anything when its argument count is below
    5 or even, and only then; when it returns otherwise, it returns 0; and
    whenever it ends through [exit], be it in [fatal] or not, the status is
    1. *)
Theorem main_status (X : Extern) (inp : input X) ptrace (s : state) :
  (usage_error (argc inp) -> main X inp ptrace s = Ret 1 s)
  /\ (forall code s', main X inp ptrace s = Ret code s' ->
        code = 0 \/ (code = 1 /\ usage_error (argc inp)))
  /\ (forall code s', main X inp ptrace s = Exit code s' -> code = 1).
Proof.
  unfold main. destruct (negb _) eqn:Hargs.
  - apply usage_test in Hargs. split; [reflexivity|].
    split; [intros code s' [= <- _]; auto | discriminate].
  - split; [intros Hu; apply usage_test in Hu; congruence|]. split.
    + intros code s' H. left. bind_inv H. bind_inv H.
      unfold main_after_config in H. bind_inv H. destruct a1 as [[dt flp] l].
      eapply run_trace_Ret_0, H.
    + assert (Hk : keeps (fun _ _ => True) (fun code => code = 1)
                     (bind (global_config_from_strs X (table inp))
                        (fun gc => bind parse_volt_vector
                                     (fun _ => main_after_config X gc inp ptrace)))).
      { apply keeps_bind; auto; [apply status_global_config|]. intros gc.
        apply keeps_bind; auto; [apply keeps_parse_volt_vector; auto|]. intros _.
        apply keeps_main_after_config; auto. }
      intros code s' H. eapply (Hk s), H.
Qed.


(** ** Runs without a temperature trace ([-o] not given) *)

Lemma differs_same a : differs a a = false.
Proof. unfold differs. rewrite String.eqb_refl. reflexivity. Qed.

Lemma txrx_param_Ret (X : Extern) tbl name msg s a s' :
  txrx_param X tbl name msg s = Ret a s' -> s' = s.
Proof.
  unfold txrx_param. destruct (table_value tbl name) as [v|]; [|intros [= _ <-]; reflexivity].
  destruct (scan_lf X v); [intros [= _ <-]; reflexivity | discriminate].
Qed.

Lemma to_uint_range z : 0 <= to_uint z < 2 ^ 32.
Proof. unfold to_uint. apply Z.mod_pos_bound. lia. Qed.

(** [trace_num] is an [unsigned int]: whatever [-t] says. *)
Lemma global_config_trace_num (X : Extern) tbl s gc s0 :
  global_config_from_strs X tbl s = Ret gc s0 -> 0 <= trace_num s0 < 2 ^ 32.
Proof.
  unfold global_config_from_strs. intros H.
  do 10 (bind_inv H). clear -H.
  apply bind_Ret in H as (u & s1 & Ht & H).
  assert (Hrange : 0 <= trace_num s1 < 2 ^ 32).
  { destruct (table_value tbl "t") as [v|].
    - destruct (scan_d v); [|discriminate]. injection Ht as _ <-. apply to_uint_range.
    - injection Ht as _ <-. apply to_uint_range. }
  clear Ht.
  repeat (apply bind_Ret in H as (? & ? & ->%txrx_param_Ret & H)).
  injection H as _ <-. exact Hrange.
Qed.

Section No_outfile.
Context (X : Extern).

Lemma open_traces_unmapped (m : RC_model_t X) ptrace s r s' :
  open_traces X false m ptrace s = Ret r s' -> snd (fst r) = None.
Proof.
  unfold open_traces. intros H.
  do 7 (bind_inv H). destruct a5 as [[names0 cnt] fp']. do 2 (bind_inv H).
  rewrite !andb_false_r in H. injection H as <- _. reflexivity.
Qed.

Lemma finish_unmapped_Ret fr size (l : locals X) s code s' :
  finish X fr None size l s = Ret code s' -> 0 <= trace_num s -> trace_num s = 0.
Proof.
  unfold finish. intros H Hpos. bind_inv H. apply when_Ret in H0 as [[_ ->]|[_ H0]];
    [|discriminate].
  bind_inv H. injection H0 as <- <-. bind_inv H.
  change (to_uint 0) with 0 in *.
  destruct (trace_num s =? 0) eqn:H0'; [apply Z.eqb_eq, H0'|].
  apply Z.eqb_neq in H0'.
  destruct (0 <? trace_num s) eqn:Hlt; [discriminate|].
  apply Z.ltb_ge in Hlt. lia.
Qed.

End No_outfile.




Lemma idle_refl s : idle s s.
Proof.
  split; [reflexivity|]. split; [reflexivity|].
  exists []. rewrite app_nil_r. auto.
Qed.

Lemma idle_trans s1 s2 s3 : idle s1 s2 -> idle s2 s3 -> idle s1 s3.
Proof.
  intros (Hm & Hf & e & Hl & He) (Hm' & Hf' & e' & Hl' & He').
  split; [congruence|]. split; [intros f Hne; rewrite Hf', Hf; auto|].
  exists (e ++ e'). rewrite Hl', Hl, app_assoc. split; [reflexivity|].
  apply Forall_app; auto.
Qed.

Lemma idle_emit e s : idle_event e -> idle s (emit e s).
Proof.
  intros He. split; [reflexivity|]. split; [reflexivity|].
  exists [e]. auto.
Qed.

Lemma idle_volt s v : idle s (set_volt v s).
Proof.
  split; [reflexivity|]. split; [reflexivity|]. exists []. rewrite app_nil_r. auto.
Qed.

Lemma idle_trace_num s v : idle s (set_trace_num v s).
Proof.
  split; [reflexivity|]. split; [reflexivity|]. exists []. rewrite app_nil_r. auto.
Qed.

Lemma idle_volt_vector s v : idle s (set_volt_vector v s).
Proof.
  split; [reflexivity|]. split; [reflexivity|]. exists []. rewrite app_nil_r. auto.
Qed.

Lemma idle_checkpoint s bytes : idle s (set_fs (<[TRANS_TEMP_FILE := bytes]> (fs s)) s).
Proof.
  split; [reflexivity|]. split.
  - intros f Hne. cbn [fs set_fs]. apply lookup_insert_ne. congruence.
  - exists []. rewrite app_nil_r. auto.
Qed.

Section Idle.
Context (X : Extern).

Ltac idle_side :=
  solve [ intros;
          first [ apply idle_emit; exact Logic.I | apply idle_volt | apply idle_checkpoint
                | apply idle_trace_num | apply idle_volt_vector
                | exact Logic.I | apply idle_refl ] ].

Ltac idle_tac known := keeps_tac idle_refl idle_trans idle_side known.

Lemma idle_global_config tbl : keeps idle (fun _ => True) (global_config_from_strs X tbl).
Proof. unfold global_config_from_strs, str_param, txrx_param. idle_tac fail. Qed.

Lemma idle_parse_volt_vector : keeps idle (fun _ => True) parse_volt_vector.
Proof. unfold parse_volt_vector. idle_tac fail. Qed.

Lemma idle_dump_configuration gc inp :
  keeps idle (fun _ => True) (dump_configuration X gc inp).
Proof. unfold dump_configuration, global_config_to_strs, dump_str_pairs. idle_tac fail. Qed.

Lemma idle_setup gc inp :
  t_outfile gc = NULLFILE -> keeps idle (fun _ => True) (setup X gc inp).
Proof.
  intros Hout. unfold setup. rewrite Hout, differs_same.
  idle_tac ltac:(apply idle_dump_configuration).
Qed.

Lemma idle_init_temps m : keeps idle (fun _ => True) (init_temps X false m).
Proof. unfold init_temps. cbn [andb]. idle_tac fail. Qed.

Lemma idle_read_names fp : keeps idle (fun _ => True) (read_names X fp).
Proof.
  induction fp as [|fields fp IH]; cbn [read_names]; [idle_tac fail|].
  destruct fields; [exact IH | idle_tac fail].
Qed.

Lemma idle_open_traces m ptrace : keeps idle (fun _ => True) (open_traces X false m ptrace).
Proof.
  unfold open_traces, count_units. cbn [andb].
  idle_tac ltac:(first [apply idle_read_names | rewrite !andb_false_r]).
Qed.

Lemma idle_trace_loop fr fp :
  do_transient fr = false -> forall l, keeps idle (fun _ => True) (trace_loop X fr fp l).
Proof.
  intros Hdt. induction fp as [|fields fp IH]; intros l; cbn [trace_loop]; [idle_tac fail|].
  destruct fields; [apply IH|].
  unfold read_vals_line, trace_row. rewrite Hdt.
  idle_tac ltac:(apply IH).
Qed.

Lemma idle_finish fr size l : keeps idle (fun _ => True) (finish X fr None size l).
Proof.
  unfold finish.
  kapply @keeps_bind idle_refl idle_trans; [idle_tac fail|]. intros _.
  kapply @keeps_bind idle_refl idle_trans; [idle_tac fail|]. intros tn.
  change (to_uint 0) with 0.
  destruct (tn =? 0) eqn:Htn.
  - apply Z.eqb_eq in Htn. subst tn. change (0 <? 0) with false.
    unfold save_last_trans_temp_mmap, perror, fwrite. idle_tac fail.
  - destruct (0 <? tn); [|idle_tac fail].
    intros s. split; [apply idle_refl | discriminate].
Qed.

Lemma idle_main_after_config gc inp ptrace :
  t_outfile gc = NULLFILE ->
  keeps idle (fun _ => True) (main_after_config X gc inp ptrace).
Proof.
  intros Hout. unfold main_after_config.
  apply (keeps_bind_post _ _ idle_trans (fun r => fst (fst r) = false));
    [apply idle_setup, Hout | |].
  { intros s r s' H. apply setup_Ret in H as [H _].
    rewrite H, Hout. apply differs_same. }
  intros [[dt flp] l] Hdt. cbn [fst] in Hdt. subst dt. unfold run_trace.
  kapply @keeps_bind idle_refl idle_trans; [apply idle_init_temps|]. intros m.
  apply (keeps_bind_post _ _ idle_trans (fun r => snd (fst r) = None));
    [apply idle_open_traces | |].
  { intros s r s' H. eapply open_traces_unmapped, H. }
  intros [[[[[m' names0] k] fp'] region] size] Hr. cbn [fst snd] in Hr. subst region.
  kapply @keeps_bind idle_refl idle_trans; [apply idle_trace_loop; reflexivity|].
  intros l'. apply idle_finish.
Qed.

End Idle.




(** ** The comparison macros of util.h *)

Lemma MAX_max (x y : Z) : MAX x y = Z.max x y.
Proof. unfold MAX. rewrite Z.gtb_ltb. destruct (Z.ltb_spec y x); lia. Qed.

Lemma MIN_min (x y : Z) : MIN x y = Z.min x y.
Proof. unfold MIN. destruct (Z.ltb_spec x y); lia. Qed.

Ltac macro_cases :=
  unfold MAX4, MIN4, MAX3, MIN3, MID3; rewrite ?MAX_max, ?MIN_min;
  repeat match goal with
         | |- context [?x <? ?y] => destruct (Z.ltb_spec x y)
         end.

(** [MIN3] and [MAX3] are the least and the greatest of the three, and [MID3]
    is the median: what is left of the sum without them. *)
Theorem MID3_is_the_median (a b c : Z) :
  MIN3 a b c = Z.min (Z.min a b) c
  /\ MAX3 a b c = Z.max (Z.max a b) c
  /\ MIN3 a b c <= MID3 a b c <= MAX3 a b c
  /\ MIN3 a b c + MID3 a b c + MAX3 a b c = a + b + c.
Proof. macro_cases; lia. Qed.

(** [MAX4] and [MIN4] are bounds that are attained. *)
Theorem MAX4_MIN4_bounds (a b c d : Z) :
  MAX4 a b c d = Z.max (Z.max (Z.max a b) c) d
  /\ MIN4 a b c d = Z.min (Z.min (Z.min a b) c) d.
Proof. macro_cases; lia. Qed.


(** ** Output lines *)

Lemma line_tabbed_any {A} (field : A -> text) (at_ : Z -> A) (n : Z) :
  concat (map (fun i => [field (at_ i); Tab]) (upto (n - 1)))
  ++ [field (at_ (Z.max 0 (n - 1))); Newline]
  = tabbed (map (fun i => field (at_ i)) (upto (Z.max 1 n))).
Proof.
  destruct (Z.le_gt_cases 1 n) as [Hn|Hn].
  - rewrite (Z.max_r 1 n) by lia. apply line_tabbed, Hn.
  - rewrite (Z.max_l 1 n), (Z.max_l 0 (n - 1)) by lia.
    unfold upto. rewrite (seqZ_nil 0 (n - 1)) by lia. reflexivity.
Qed.

(** [write_names], [write_vals] and [write_vals_power] write one line of
    [max(1, size)] fields, separated by tabs and ended by a newline: with
    [size <= 0] they still write entry 0 of the table they are given. *)
Theorem trace_lines_have_a_field (f : file_id) (names : list string) (vals : list double)
        (size : Z) (s : state) :
  write_names f names size s
  = Ret tt (emit (Fprint f (tabbed (map (fun i => Str (name_at names i))
                                        (upto (Z.max 1 size))))) s)
  /\ write_vals f vals size s
     = Ret tt (emit (Fprint f (tabbed (map (fun i => F2 (val_at vals i))
                                           (upto (Z.max 1 size))))) s)
  /\ write_vals_power f vals size s = write_vals f vals size s.
Proof.
  unfold write_names, write_vals, write_vals_power, vals_line.
  rewrite (line_tabbed_any Str (name_at names)), (line_tabbed_any F2 (val_at vals)).
  auto.
Qed.


(** ** The block model's power loop (lines 797-799) *)

Lemma get_blk_index_name fl a b i :
  get_blk_index (Some fl) a = Ok i -> get_blk_index (Some fl) b = Ok i -> a = b.
Proof.
  unfold get_blk_index.
  destruct (list_find _ _) as [[ia ua]|] eqn:Ha; [|discriminate].
  destruct (list_find (fun u => u = b) _) as [[ib ub]|] eqn:Hb; [|discriminate].
  intros [= <-] [= Hi]. apply Nat2Z.inj in Hi. subst ib.
  apply list_find_Some in Ha as (Ha & -> & _). apply list_find_Some in Hb as (Hb & -> & _).
  congruence.
Qed.

Lemma permute_in_block_nodes fl (names : list string) (vals : list double) (n : Z)
      (power power' : list double) :
  0 <= n ->
  permute_in_block (Some fl) names vals n power = Ok power'
  <-> exists ns : list Z,
      Z.of_nat (length ns) = n
      /\ (forall i node, ns !! i = Some node ->
            get_blk_index (Some fl) (name_at names (Z.of_nat i)) = Ok node)
      /\ apply_columns (act_in vals) 0 ns power = Ok power'.
Proof.
  intros Hn. unfold permute_in_block, upto.
  pose proof (columns_layer_Ok (act_in vals) names
                {| has_power := 1; flp := fl |} 0 0 (Z.to_nat n) 0 power power') as H.
  rewrite Z2Nat.id in H by exact Hn. cbn [flp] in H.
  change (rfold (fun power0 i => rbind (get_blk_index (Some fl) (name_at names i))
                                   (fun idx => store power0 idx (val_at vals i)))
                (seqZ 0 n) power = Ok power'
          <-> (exists ns : list Z,
                  Forall2 (fun j node =>
                             node_in {| has_power := 1; flp := fl |} 0 (name_at names (0 + j))
                             = Some node) (seqZ 0 n) ns
                  /\ rfold (fun s0 cn => act_in vals cn.2 cn.1 s0)
                           (zip (seqZ (0 + 0) n) ns) power = Ok power')) in H.
  rewrite H. split; intros (ns & Hns & Happ); exists ns.
  - apply Forall2_seqZ in Hns as [Hlen Hns]; [|exact Hn].
    split; [exact Hlen|]. split.
    + intros i node Hi. apply Hns in Hi. apply node_in_Some in Hi as (idx & Hidx & ->).
      exact Hidx.
    + unfold apply_columns. rewrite Hlen. exact Happ.
  - destruct Happ as (Hns' & Happ). split.
    + apply Forall2_seqZ; [exact Hn|]. split; [exact Hns|].
      intros i node Hi. apply node_in_Some. exists node. split; [apply Hns', Hi | reflexivity].
    + unfold apply_columns in Happ. rewrite Hns in Happ. exact Happ.
Qed.

(** In the block model the columns of the power trace may come in any order:
    with distinct names in the header, the power vector the solver gets is the
    same for a trace and for the trace with its columns rearranged. *)
Theorem block_power_ignores_column_order
        (fl : flp_t) (names : list string) (vals vals2 : list double) (p : list nat)
        (power power' : list double) :
  NoDup names ->
  p ≡ₚ seq 0 (length names) ->
  (forall j i, p !! j = Some i -> val_at vals2 (Z.of_nat j) = val_at vals (Z.of_nat i)) ->
  permute_in_block (Some fl) names vals (Z.of_nat (length names)) power = Ok power' ->
  permute_in_block (Some fl) (permuted p names) vals2 (Z.of_nat (length names)) power
  = Ok power'.
Proof.
  intros Hnd Hp Hvals H.
  apply permute_in_block_nodes in H as (ns & Hlen & Hns & Happ); [|lia].
  apply Nat2Z.inj in Hlen.
  assert (Hp' : p ≡ₚ seq 0 (length ns)) by (rewrite Hlen; exact Hp).
  assert (Hnd' : NoDup ns).
  { apply NoDup_alt. intros i j node Hi Hj.
    pose proof (get_blk_index_name _ _ _ _ (Hns i node Hi) (Hns j node Hj)) as Hname.
    destruct (lookup_lt_is_Some_2 names i) as [a Ha];
      [rewrite <- Hlen; eapply lookup_lt_Some, Hi|].
    destruct (lookup_lt_is_Some_2 names j) as [b Hb];
      [rewrite <- Hlen; eapply lookup_lt_Some, Hj|].
    unfold name_at in Hname.
    assert (H1 : (0 <=? Z.of_nat i) = true) by (apply Z.leb_le; lia).
    assert (H2 : (0 <=? Z.of_nat j) = true) by (apply Z.leb_le; lia).
    rewrite H1, H2, !Nat2Z.id, Ha, Hb in Hname. cbn in Hname. subst b.
    eapply NoDup_lookup; eassumption. }
  apply permute_in_block_nodes; [lia|].
  exists (permuted p ns). split; [rewrite (permuted_length p ns Hp'); lia|]. split.
  - intros j node Hj.
    destruct (p !! j) as [i|] eqn:Hpj.
    + rewrite (permuted_at p ns j i Hp' Hpj) in Hj.
      rewrite (name_at_permuted names p j i Hp Hpj). apply Hns, Hj.
    + apply lookup_lt_Some in Hj. rewrite (permuted_length p ns Hp') in Hj.
      apply lookup_ge_None in Hpj. rewrite (perm_length p _ Hp') in Hpj. lia.
  - apply (apply_in_permuted vals); assumption.
Qed.

(** The columns [A B] and [B A] of a two-block floorplan. *)
Lemma block_power_witness :
  permute_in_block (Some {| units := ["B"; "A"] |}) ["B"; "A"] [2; 1] 2 [0; 0; 7]
  = Ok [2; 1; 7].
Proof.
  apply (block_power_ignores_column_order
           {| units := ["B"; "A"] |} ["A"; "B"] [1; 2] [2; 1] [1%nat; 0%nat] [0; 0; 7]).
  - apply (bool_decide_unpack _). vm_compute. exact Logic.I.
  - apply perm_swap.
  - intros [|[|j]] i Hj; cbn in Hj; try discriminate; injection Hj as <-; reflexivity.
  - reflexivity.
Defined.


(** ** The configuration dumped and parsed again *)

Lemma take_word_all (l : list ascii) :
  Forall (fun c => isspace c = false /\ c <> zero) l -> take_word l = l.
Proof.
  induction 1 as [|c l [Hc _] _ IH]; [reflexivity|]. cbn [take_word]. rewrite Hc, IH.
  reflexivity.
Qed.

Lemma scan_s_word (w : string) : is_word w -> scan_s w = Some w.
Proof.
  intros [Hne Hw]. unfold scan_s.
  destruct (list_ascii_of_string w) as [|c l] eqn:E.
  - destruct w; [contradiction | discriminate].
  - assert (Hc : isspace c = false) by (inversion Hw as [|? ? [? ?]]; assumption).
    cbn [skip_space]. rewrite Hc, (take_word_all _ Hw), <- E.
    rewrite string_of_list_ascii_of_string. reflexivity.
Qed.

Lemma digit_of_digit (k : nat) :
  (k < 10)%nat -> digit_of (ascii_of_nat (48 + k)) = Some (Z.of_nat k).
Proof.
  intros Hk. do 10 (destruct k as [|k]; [reflexivity|]). lia.
Qed.

Lemma scan_digits_app (l1 l2 : list ascii) : forall acc,
  Forall (fun c => is_Some (digit_of c)) l1 ->
  scan_digits (l1 ++ l2) acc = scan_digits l2 (scan_digits l1 acc).
Proof.
  induction l1 as [|c l1 IH]; intros acc Hl; [reflexivity|].
  inversion Hl as [|? ? [d Hd] Hl1]; subst. cbn [app scan_digits]. rewrite Hd.
  apply IH, Hl1.
Qed.

Lemma dec_digits_acc (k : nat) : forall n acc,
  dec_digits k n acc = dec_digits k n [] ++ acc.
Proof.
  induction k as [|k IH]; intros n acc; [reflexivity|].
  cbn [dec_digits]. destruct (n / 10 =? 0); [reflexivity|].
  rewrite (IH _ (_ :: acc)), (IH _ [_]), <- app_assoc. reflexivity.
Qed.

Lemma dec_digits_digits (k : nat) : forall n,
  0 <= n -> Forall (fun c => is_Some (digit_of c)) (dec_digits k n []).
Proof.
  induction k as [|k IH]; intros n Hn; [constructor|].
  assert (Hd : is_Some (digit_of (ascii_of_nat (48 + Z.to_nat (n mod 10))))).
  { rewrite digit_of_digit; [eauto|].
    pose proof (Z.mod_pos_bound n 10 ltac:(lia)). lia. }
  cbn [dec_digits]. destruct (n / 10 =? 0); [repeat constructor; exact Hd|].
  rewrite dec_digits_acc. apply Forall_app. split; [|repeat constructor; exact Hd].
  apply IH. apply Z.div_pos; lia.
Qed.

Lemma scan_dec_digits (k : nat) : forall n,
  0 <= n < 10 ^ Z.of_nat k -> (0 < k)%nat ->
  scan_digits (dec_digits k n []) None = Some n.
Proof.
  induction k as [|k IH]; intros n Hn Hk; [lia|].
  assert (Hmod : 0 <= n mod 10 < 10) by (apply Z.mod_pos_bound; lia).
  assert (Hd : digit_of (ascii_of_nat (48 + Z.to_nat (n mod 10))) = Some (n mod 10)).
  { rewrite digit_of_digit by lia. f_equal. lia. }
  cbn [dec_digits]. destruct (n / 10 =? 0) eqn:Hq.
  - apply Z.eqb_eq in Hq. cbn [scan_digits]. rewrite Hd. cbn. f_equal.
    pose proof (Z.div_mod n 10 ltac:(lia)). lia.
  - apply Z.eqb_neq in Hq.
    rewrite dec_digits_acc, scan_digits_app
      by (apply dec_digits_digits, Z.div_pos; lia).
    assert (Hk' : (0 < k)%nat).
    { destruct k; [|lia]. exfalso. apply Hq. apply Z.div_small. simpl in Hn. lia. }
    rewrite IH; [| |exact Hk'].
    + cbn [scan_digits]. rewrite Hd. change (default 0 (Some (n / 10))) with (n / 10).
      f_equal.
      pose proof (Z.div_mod n 10 ltac:(lia)). lia.
    + rewrite Nat2Z.inj_succ, Z.pow_succ_r in Hn by lia.
      split; [apply Z.div_pos; lia | apply Z.div_lt_upper_bound; lia].
Qed.

Lemma dec_digits_head (k : nat) : forall n acc,
  0 <= n -> (0 < k)%nat ->
  exists d rest, (d < 10)%nat /\ dec_digits k n acc = ascii_of_nat (48 + d) :: rest.
Proof.
  induction k as [|k IH]; intros n acc Hn Hk; [lia|].
  assert (Hmod : 0 <= n mod 10 < 10) by (apply Z.mod_pos_bound; lia).
  cbn [dec_digits]. destruct (n / 10 =? 0) eqn:Hq.
  - exists (Z.to_nat (n mod 10)), acc. split; [lia | reflexivity].
  - destruct k as [|k].
    + exists (Z.to_nat (n mod 10)), acc. split; [lia | reflexivity].
    + apply IH; [apply Z.div_pos; lia | lia].
Qed.

Lemma to_int_small z : - 2 ^ 31 <= z < 2 ^ 31 -> to_int z = z.
Proof. intros H. unfold to_int. rewrite Z.mod_small by lia. lia. Qed.

Lemma to_long_small z : - 2 ^ 63 <= z < 2 ^ 63 -> to_long z = z.
Proof. unfold to_long. lia. Qed.

Lemma scan_d_minus (l : list ascii) :
  scan_d (string_of_list_ascii ("-"%char :: l))
  = (fun z => to_int (to_long (- z))) <$> scan_digits l None.
Proof. unfold scan_d. rewrite list_ascii_of_string_of_list_ascii. reflexivity. Qed.

Lemma scan_d_digit (d : nat) (rest : list ascii) :
  (d < 10)%nat ->
  scan_d (string_of_list_ascii (ascii_of_nat (48 + d) :: rest))
  = (fun z => to_int (to_long z)) <$> scan_digits (ascii_of_nat (48 + d) :: rest) None.
Proof.
  intros Hd. unfold scan_d. rewrite list_ascii_of_string_of_list_ascii.
  do 10 (destruct d as [|d]; [reflexivity|]). lia.
Qed.

(** ["%d"] reads back what ["%d"] has written. *)
Lemma scan_d_print_d (z : Z) : - 2 ^ 31 <= z < 2 ^ 31 -> scan_d (print_d z) = Some z.
Proof.
  intros Hz. unfold print_d. destruct (z <? 0) eqn:Hneg.
  - apply Z.ltb_lt in Hneg. rewrite scan_d_minus.
    rewrite scan_dec_digits by (change (10 ^ Z.of_nat 10) with 10000000000; lia).
    cbn [fmap option_fmap option_map].
    rewrite to_long_small, to_int_small by lia. f_equal. lia.
  - apply Z.ltb_ge in Hneg.
    destruct (dec_digits_head 10 z [] Hneg ltac:(lia)) as (d & rest & Hd & Hhead).
    assert (Hscan : scan_digits (dec_digits 10 z []) None = Some z)
      by (apply scan_dec_digits; [change (10 ^ Z.of_nat 10) with 10000000000|]; lia).
    rewrite Hhead in *. rewrite scan_d_digit, Hscan by exact Hd.
    cbn [fmap option_fmap option_map].
    rewrite to_long_small, to_int_small by lia. reflexivity.
Qed.

(** The table [global_config_to_strs] fills, read back by
    [global_config_from_strs], gives the configuration itself, except for
    [pTot_outfile], which [global_config_to_strs] leaves out: it comes back
    as ["(null)"].  The voltage vector and the trace index are not written
    either: reading the table back resets them to their defaults. *)
Theorem global_config_dump_round_trip
        (X : Extern) (gc : global_config_t) (max_entries : Z) (s : state) :
  8 <= max_entries ->
  is_word (flp_file gc) -> is_word (p_infile gc) -> is_word (t_outfile gc) ->
  is_word (config_file gc) -> is_word (dump_config gc) -> is_word (detailed_3D gc) ->
  is_word (materials_file gc) ->
  - 2 ^ 31 <= use_microchannels gc < 2 ^ 31 ->
  bind (global_config_to_strs gc max_entries) (global_config_from_strs X) s
  = Ret (with_pTot_outfile NULLFILE gc)
        (set_trace_num (to_uint (-1)) (set_volt_vector "" s)).
Proof.
  intros Hmax Hf Hp Ho Hc Hd Hd3 Hm Hum.
  unfold global_config_to_strs. apply Z.ltb_ge in Hmax. rewrite Hmax.
  unfold bind at 1. cbn [when ret bind].
  unfold global_config_from_strs, str_param, txrx_param, table_value.
  cbn [List.find fst snd String.eqb Ascii.eqb Bool.eqb fmap option_fmap option_map].
  rewrite !scan_s_word by assumption. rewrite scan_d_print_d by assumption.
  reflexivity.
Qed.

Ltac word_tac :=
  split; [discriminate|];
  cbn; repeat (constructor; [split; [reflexivity | discriminate]|]); constructor.

(** A configuration with [detailed_3D] on and [use_microchannels] -1. *)
Lemma global_config_dump_witness :
  let gc := with_pTot_outfile "gcc.pTot" (Sample.gc_with "on" (-1)) in
  let s := Sample.start ∅ Sample.io_ok in
  bind (global_config_to_strs gc 512) (global_config_from_strs Sample.X) s
  = Ret (with_pTot_outfile NULLFILE gc)
        (set_trace_num (to_uint (-1)) (set_volt_vector "" s)).
Proof.
  intros gc s.
  apply (global_config_dump_round_trip Sample.X gc 512 s);
    [lia | word_tac .. | cbn; lia].
Defined.


(** ** The checkpoint, written and read back *)

Lemma length_le_bytes n z : length (le_bytes n z) = n.
Proof. revert z. induction n as [|n IH]; intros z; [reflexivity|]. simpl. f_equal. apply IH. Qed.

Lemma length_enc_double d : length (enc_double d) = 8%nat.
Proof. apply length_le_bytes. Qed.

Lemma length_enc_doubles ds : length (enc_doubles ds) = (8 * length ds)%nat.
Proof.
  induction ds as [|d ds IH]; [reflexivity|].
  change (enc_doubles (d :: ds)) with (enc_double d ++ enc_doubles ds).
  rewrite length_app, length_enc_double, IH. simpl. lia.
Qed.

Lemma dec_enc_double d : is_double d -> dec_double (enc_double d) = d.
Proof.
  intros Hd. unfold dec_double, enc_double. rewrite le_value_le_bytes.
  change (256 ^ Z.of_nat 8) with (2 ^ 64). rewrite Z.mod_mod by lia.
  apply Z.mod_small, Hd.
Qed.

Lemma dec_enc_doubles ds rest :
  Forall is_double ds -> dec_doubles (length ds) (enc_doubles ds ++ rest) = ds.
Proof.
  induction 1 as [|d ds Hd _ IH]; [reflexivity|].
  change (enc_doubles (d :: ds)) with (enc_double d ++ enc_doubles ds).
  cbn [length dec_doubles]. rewrite <- app_assoc.
  rewrite (take_app_length' (enc_double d)) by (symmetry; apply length_enc_double).
  rewrite (drop_app_length' (enc_double d)) by (symmetry; apply length_enc_double).
  rewrite dec_enc_double, IH by exact Hd. reflexivity.
Qed.

Lemma drop_enc_doubles k ds : drop (8 * k) (enc_doubles ds) = enc_doubles (drop k ds).
Proof.
  revert ds. induction k as [|k IH]; intros ds; [reflexivity|].
  destruct ds as [|d ds]; [rewrite !drop_nil; reflexivity|].
  change (enc_doubles (d :: ds)) with (enc_double d ++ enc_doubles ds).
  replace (8 * S k)%nat with (8 + 8 * k)%nat by lia.
  rewrite <- drop_drop, (drop_app_length' (enc_double d)) by (symmetry; apply length_enc_double).
  apply IH.
Qed.

(** Reading [n] doubles through a view on a file of a 24-byte header followed
    by the doubles [all]. *)
Lemma seen_doubles (hdr : list Z) (all : list Z) (k n : Z) :
  length hdr = 24%nat -> Forall is_double all ->
  0 <= k -> 0 <= n -> k + n <= Z.of_nat (length all) ->
  seen (hdr ++ enc_doubles all) n (View (24 + 8 * k))
  = take (Z.to_nat n) (drop (Z.to_nat k) all).
Proof.
  intros Hhdr Hall Hk Hn Hfit. unfold seen.
  replace (Z.to_nat (24 + 8 * k)) with (24 + 8 * Z.to_nat k)%nat by lia.
  rewrite <- drop_drop, (drop_app_length' hdr), drop_enc_doubles by (symmetry; exact Hhdr).
  rewrite <- (take_drop (Z.to_nat n) (drop (Z.to_nat k) all)) at 1.
  rewrite enc_doubles_app.
  replace (Z.to_nat n) with (length (take (Z.to_nat n) (drop (Z.to_nat k) all))) at 1
    by (rewrite length_take, length_drop; lia).
  apply dec_enc_doubles. apply Forall_take, Forall_drop, Hall.
Qed.

Lemma fetch_seen (p : dptr) (n : Z) (s : state) (bytes : list Z) :
  mapped_bytes s = Some bytes ->
  (forall off, p = View off ->
     0 <= n /\ 0 <= off /\ off + 8 * n <= Z.of_nat (length bytes)) ->
  fetch p n s = Ret (seen bytes n p) s.
Proof.
  intros Hmap Hp. destruct p as [a|off]; [reflexivity|].
  destruct (Hp off eq_refl) as (Hn & Hoff & Hfit).
  cbn [fetch]. unfold load_doubles. rewrite Hmap.
  destruct (Z.leb_spec 0 n); [|lia]. destruct (Z.leb_spec 0 off); [|lia].
  destruct (Z.leb_spec (off + 8 * n) (Z.of_nat (length bytes))); [|lia].
  reflexivity.
Qed.

Lemma mapM_pure {A B} (f : A -> M B) (g : A -> B) (l : list A) (s : state) :
  (forall x, x ∈ l -> f x s = Ret (g x) s) -> mapM f l s = Ret (map g l) s.
Proof.
  induction l as [|x l IH]; intros H; [reflexivity|].
  cbn [mapM map]. unfold bind. rewrite H by apply list_elem_of_here.
  rewrite IH by (intros y Hy; apply H, list_elem_of_further, Hy). reflexivity.
Qed.

Lemma drop_concat_uniform {A} (n : nat) (xs : list (list A)) :
  Forall (fun x => length x = n) xs ->
  forall i, drop (i * n) (concat xs) = concat (drop i xs).
Proof.
  induction 1 as [|x xs Hx _ IH]; intros i; [cbn [concat]; rewrite !drop_nil; reflexivity|].
  destruct i as [|i]; [reflexivity|].
  cbn [concat drop]. replace (S i * n)%nat with (n + i * n)%nat by lia.
  rewrite <- drop_drop, (drop_app_length' x) by (symmetry; exact Hx). apply IH.
Qed.

(** Row [r] of layer [l] in the flattened cuboid. *)
Lemma cuboid_row_flat (cub : list (list (list Z))) (R C : nat) (rest : list Z)
      (l r : nat) (layer : list (list Z)) (row : list Z) :
  Forall (fun layer => length layer = R /\ Forall (fun row => length row = C) layer) cub ->
  cub !! l = Some layer -> layer !! r = Some row ->
  take C (drop ((l * R + r) * C) (concat (concat cub) ++ rest)) = row.
Proof.
  intros Hshape Hl Hr.
  assert (HR : Forall (fun layer => length layer = R) cub)
    by (eapply Forall_impl; [exact Hshape | intros ? [? _]; assumption]).
  assert (HC : Forall (fun row => length row = C) (concat cub)).
  { apply Forall_concat. eapply Forall_impl; [exact Hshape | intros ? [_ ?]; assumption]. }
  assert (Hdrop : drop ((l * R + r) * C) (concat (concat cub))
                  = row ++ concat (drop (S r) layer ++ concat (drop (S l) cub))).
  { rewrite (drop_concat_uniform C _ HC).
    rewrite <- drop_drop, (drop_concat_uniform R _ HR).
    rewrite (drop_S _ _ _ Hl). cbn [concat].
    rewrite drop_app_le by (apply Nat.lt_le_incl; eapply lookup_lt_Some, Hr).
    rewrite (drop_S _ _ _ Hr). reflexivity. }
  assert (Hrow : length row = C).
  { rewrite Forall_forall in HC. apply HC.
    apply list_elem_of_In, in_concat. exists layer.
    split; apply list_elem_of_In; eapply list_elem_of_lookup_2; eassumption. }
  assert (Hle : ((l * R + r) * C <= length (concat (concat cub)))%nat).
  { apply Nat.nlt_ge. intros Hlt. rewrite drop_ge in Hdrop by lia.
    destruct row; [|discriminate].
    assert (Hlen : length (drop ((l * R + r) * C) (concat (concat cub))) = 0%nat)
      by (rewrite drop_ge; [reflexivity | lia]).
    rewrite length_drop in Hlen. simpl in Hrow. subst C. lia. }
  rewrite drop_app_le by exact Hle. rewrite Hdrop, <- app_assoc.
  apply take_app_length'. symmetry. exact Hrow.
Qed.


Lemma to_int_to_uint z : to_int (to_uint z) = to_int z.
Proof.
  unfold to_int, to_uint. rewrite Zplus_mod_idemp_l. reflexivity.
Qed.

Lemma dec_enc_int z : dec_int (enc_int z) = to_int z.
Proof.
  unfold dec_int, enc_int. rewrite le_value_le_bytes.
  change (256 ^ Z.of_nat 4) with (2 ^ 32).
  change (to_uint z mod 2 ^ 32) with (to_uint (to_uint z)).
  rewrite !to_int_to_uint. reflexivity.
Qed.

(** The [k]-th [int] of a file that starts with the [int]s [hs]. *)
Lemma header_int_ints (hs : list Z) (rest : list Z) (k : nat) (h : Z) :
  hs !! k = Some h -> header_int (concat (map enc_int hs) ++ rest) k = to_int h.
Proof.
  intros Hk. unfold header_int.
  assert (H4 : Forall (fun x : list Z => length x = 4%nat) (map enc_int hs)).
  { apply Forall_forall. intros x Hx. apply list_elem_of_fmap in Hx as (y & -> & _).
    apply length_le_bytes. }
  assert (Hdrop : drop (4 * k) (concat (map enc_int hs))
                  = enc_int h ++ concat (drop (S k) (map enc_int hs))).
  { rewrite Nat.mul_comm, (drop_concat_uniform 4 _ H4).
    rewrite (drop_S _ (enc_int h)) by (rewrite list_lookup_fmap, Hk; reflexivity).
    reflexivity. }
  assert (Hle : (4 * k <= length (concat (map enc_int hs)))%nat).
  { apply Nat.nlt_ge. intros Hlt. rewrite drop_ge in Hdrop by lia. discriminate. }
  rewrite drop_app_le, Hdrop, <- app_assoc by exact Hle.
  rewrite resize_app by reflexivity. apply dec_enc_int.
Qed.

Lemma length_concat_uniform {A} (n : nat) (xs : list (list A)) :
  Forall (fun x => length x = n) xs -> length (concat xs) = (length xs * n)%nat.
Proof.
  induction 1 as [|x xs Hx _ IH]; [reflexivity|].
  cbn [concat length]. rewrite length_app, IH, Hx. lia.
Qed.

(** A load that finds the header it expects returns the views on the file. *)
Lemma load_accepts (model : grid_model_t) (filename : string) (s : state) (bytes : list Z) :
  fs s !! filename = Some bytes -> bytes <> [] ->
  open_ok (io s) = true -> mmap_ok (io s) = true ->
  header_int bytes 0 = MAGIC_MMAP_FILE ->
  to_uint (header_int bytes 1) = to_uint (trace_num s - 1) ->
  header_int bytes 2 = n_layers model ->
  header_int bytes 3 = rows model ->
  header_int bytes 4 = cols model ->
  load_last_trans_temp_mmap model filename s
  = Ret (loaded_views model (header_int bytes 5), Some filename, Z.of_nat (length bytes))
        (emit (Mmap filename (Z.of_nat (length bytes)))
              (set_mapping (Some (filename, Z.of_nat (length bytes))) s)).
Proof.
  intros Hfile Hne Hopen Hmmap H0 H1 H2 H3 H4.
  assert (Hlen : (0 <? Z.of_nat (length bytes)) = true).
  { apply Z.ltb_lt. destruct bytes; [congruence | simpl; lia]. }
  cbv beta iota zeta delta [load_last_trans_temp_mmap bind c_open get modify tell munmap
                              fatal exit perror ret].
  rewrite Hopen, Hfile. cbv beta iota zeta. rewrite Hmmap, Hlen.
  cbv beta iota zeta delta [andb negb]. cbn [set_mapping emit trace_num].
  apply Z.eqb_eq in H0, H1. rewrite H0, H1. cbn [negb orb].
  rewrite H2, H3, H4. rewrite (Z.eqb_refl (n_layers model)), (Z.eqb_refl (rows model)),
    (Z.eqb_refl (cols model)). cbn [negb orb]. unfold loaded_views. f_equal.
Qed.

(** The file [save_last_trans_temp_mmap] leaves behind. *)
Lemma save_leaves_layout (X : Extern) (m : grid_model_t) (f : string) (num_extra : Z)
      (s : state) (cub : list (list (list Z))) (ext t_last : list Z) :
  fopen_wb_ok (io s) = true ->
  cuboid (last_trans m) = map (map Heap) cub ->
  cuboid_shape (n_layers m) (rows m) (cols m) cub ->
  extra (last_trans m) = Heap ext -> Z.of_nat (length ext) = num_extra ->
  last_temp m = Heap t_last -> Z.of_nat (length t_last) = total_nodes X m ->
  save_last_trans_temp_mmap X m f num_extra s
  = Ret tt (with_file f
              (checkpoint_layout (trace_num s) (n_layers m) (rows m) (cols m) num_extra
                 cub ext t_last) s).
Proof.
  intros Hopen Hcub Hshape Hext Hne Hlast Htotal. subst num_extra.
  unfold save_last_trans_temp_mmap.
  unfold bind at 1. unfold get at 1. rewrite Hopen. cbn [negb].
  unfold bind at 1. unfold modify at 1.
  change (set_fs (<[f:=[]]> (fs s)) s) with (with_file f [] s).
  unfold bind at 1. unfold get at 1.
  change (trace_num (with_file f [] s)) with (trace_num s).
  unfold bind at 1. rewrite fwrite_with_file.
  unfold bind at 1. rewrite Hcub, (save_cuboid_rows cub _ _ _ _ _ Hshape).
  unfold bind at 1. rewrite Hext, load_doubles_heap by lia.
  unfold bind at 1. rewrite fwrite_with_file.
  assert (Htot : (if truthy (model_secondary (config m))
                  then total_n_blocks m + EXTRA X + EXTRA_SEC X
                  else total_n_blocks m + EXTRA X) = total_nodes X m).
  { unfold total_nodes, extra_nodes. destruct (truthy (model_secondary (config m))); lia. }
  rewrite Htot, <- Htotal.
  unfold bind at 1. rewrite Hlast, load_doubles_heap by lia.
  rewrite fwrite_with_file.
  rewrite !Nat2Z.id, !firstn_all.
  unfold checkpoint_layout. cbn [map concat app].
  rewrite enc_int_to_int, <- !app_assoc. reflexivity.
Qed.

Lemma cuboid_shape_nat (L R C : Z) (cub : list (list (list Z))) :
  cuboid_shape L R C cub ->
  length cub = Z.to_nat L
  /\ Forall (fun layer => length layer = Z.to_nat R
                          /\ Forall (fun row => length row = Z.to_nat C) layer) cub.
Proof.
  intros [HL H]. split; [lia|].
  eapply Forall_impl; [exact H|]. intros layer [HR Hrows]. split; [lia|].
  eapply Forall_impl; [exact Hrows|]. intros row Hrow. simpl in Hrow. lia.
Qed.

Lemma cuboid_cells (L R C : Z) (cub : list (list (list Z))) :
  0 <= R -> 0 <= C -> cuboid_shape L R C cub ->
  Z.of_nat (length (concat (concat cub))) = L * R * C.
Proof.
  intros HR HC Hshape. pose proof Hshape as [HL _].
  apply cuboid_shape_nat in Hshape as [HL' H].
  rewrite (length_concat_uniform (Z.to_nat C)).
  - rewrite (length_concat_uniform (Z.to_nat R)).
    + rewrite !Nat2Z.inj_mul, !Z2Nat.id, HL by lia. reflexivity.
    + eapply Forall_impl; [exact H | intros ? [? _]; assumption].
  - apply Forall_concat. eapply Forall_impl; [exact H | intros ? [_ ?]; assumption].
Qed.


Section Round_trip.
Context (X : Extern).
Context (m : grid_model_t) (cub : list (list (list Z))) (ext lst : list Z).
Hypothesis cub_shape : cuboid_shape (n_layers m) (rows m) (cols m) cub.
Hypothesis ext_length : Z.of_nat (length ext) = extra_nodes X (config m).
Hypothesis last_length : Z.of_nat (length lst) = total_nodes X m.
Hypothesis cub_doubles : Forall (Forall (Forall is_double)) cub.
Hypothesis ext_doubles : Forall is_double ext.
Hypothesis last_doubles : Forall is_double lst.
Hypothesis rows_int : 0 <= rows m < 2 ^ 31.
Hypothesis cols_int : 0 <= cols m < 2 ^ 31.
Hypothesis layers_int : n_layers m < 2 ^ 31.
Hypothesis cells_size_t : n_layers m * rows m * cols m < 2 ^ 64.

Local Abbreviation L := (n_layers m).
Local Abbreviation R := (rows m).
Local Abbreviation C := (cols m).
Local Abbreviation ne := (extra_nodes X (config m)).
Local Abbreviation flat := (concat (concat cub)).
Local Abbreviation hdr tn := (concat (map enc_int [MAGIC_MMAP_FILE; tn; L; R; C; ne])).

Lemma layout_parts tn :
  checkpoint_layout tn L R C ne cub ext lst
  = hdr tn ++ enc_doubles (flat ++ ext ++ lst).
Proof. unfold checkpoint_layout. rewrite !enc_doubles_app. reflexivity. Qed.

Lemma layers_nonneg : 0 <= L.
Proof. destruct cub_shape as [H _]. lia. Qed.

Lemma flat_length : Z.of_nat (length flat) = L * R * C.
Proof. apply cuboid_cells; [apply rows_int | apply cols_int | exact cub_shape]. Qed.

Lemma all_doubles : Forall is_double (flat ++ ext ++ lst).
Proof.
  repeat apply Forall_app_2; auto.
  apply Forall_concat, Forall_concat. exact cub_doubles.
Qed.

Lemma layout_length tn :
  Z.of_nat (length (checkpoint_layout tn L R C ne cub ext lst))
  = 24 + 8 * (L * R * C + ne + total_nodes X m).
Proof.
  rewrite layout_parts, length_app, length_enc_doubles, !length_app.
  change (length (hdr tn)) with 24%nat.
  pose proof flat_length. lia.
Qed.

(** Row [r] of layer [l], read through its view. *)
Lemma seen_row tn (l r : Z) layer row :
  cub !! Z.to_nat l = Some layer -> layer !! Z.to_nat r = Some row ->
  0 <= l -> 0 <= r ->
  seen (checkpoint_layout tn L R C ne cub ext lst) C
       (View (24 + 8 * row_offset R C l r))
  = row.
Proof.
  intros Hl Hr Hl0 Hr0.
  pose proof layers_nonneg as HL0. pose proof flat_length as Hflat.
  pose proof (cuboid_shape_nat _ _ _ _ cub_shape) as [HLn Hshape].
  assert (HlL : l < L) by (apply lookup_lt_Some in Hl; lia).
  assert (HrR : r < R).
  { rewrite Forall_forall in Hshape. destruct (Hshape layer) as [HR _].
    - eapply list_elem_of_lookup_2, Hl.
    - apply lookup_lt_Some in Hr. lia. }
  assert (Hoff : (l * R + r) * C + C <= L * R * C).
  { assert (l * R + r + 1 <= L * R) by nia.
    replace ((l * R + r) * C + C) with ((l * R + r + 1) * C) by ring.
    apply Z.mul_le_mono_nonneg_r; [lia | assumption]. }
  rewrite (row_offset_exact L) by lia.
  rewrite layout_parts, seen_doubles.
  - replace (Z.to_nat ((l * R + r) * C))
      with ((Z.to_nat l * Z.to_nat R + Z.to_nat r) * Z.to_nat C)%nat.
    + apply (cuboid_row_flat cub (Z.to_nat R) (Z.to_nat C) _ _ _ layer row Hshape Hl Hr).
    + rewrite Z2Nat.inj_mul, Z2Nat.inj_add, Z2Nat.inj_mul by nia.
      reflexivity.
  - reflexivity.
  - apply all_doubles.
  - nia.
  - lia.
  - rewrite length_app, Nat2Z.inj_add, Hflat. lia.
Qed.

Lemma seen_extra tn :
  seen (checkpoint_layout tn L R C ne cub ext lst) ne
       (View (24 + 8 * cuboid_size L R C))
  = ext.
Proof.
  pose proof layers_nonneg as HL0. pose proof flat_length as Hflat.
  rewrite cuboid_size_exact by lia.
  rewrite layout_parts, seen_doubles.
  - rewrite <- Hflat, Nat2Z.id, drop_app_length.
    apply take_app_length'. lia.
  - reflexivity.
  - apply all_doubles.
  - nia.
  - lia.
  - rewrite !length_app, !Nat2Z.inj_add, Hflat. lia.
Qed.

Lemma seen_last tn :
  seen (checkpoint_layout tn L R C ne cub ext lst) (total_nodes X m)
       (View (24 + 8 * cuboid_size L R C + 8 * ne))
  = lst.
Proof.
  pose proof layers_nonneg as HL0. pose proof flat_length as Hflat.
  rewrite cuboid_size_exact by lia.
  replace (24 + 8 * (L * R * C) + 8 * ne) with (24 + 8 * (L * R * C + ne)) by ring.
  rewrite layout_parts, seen_doubles.
  - replace (Z.to_nat (L * R * C + ne)) with (length (flat ++ ext))
      by (rewrite length_app; lia).
    rewrite app_assoc, drop_app_length.
    rewrite <- last_length, Nat2Z.id. apply firstn_all.
  - reflexivity.
  - apply all_doubles.
  - nia.
  - lia.
  - rewrite !length_app, !Nat2Z.inj_add, Hflat. lia.
Qed.

(** What [fetch_temps] sees through the views of a loaded checkpoint. *)
Lemma fetch_loaded (m1 : grid_model_t) (s : state) tn :
  n_layers m1 = n_layers m -> rows m1 = rows m -> cols m1 = cols m ->
  total_n_blocks m1 = total_n_blocks m -> config m1 = config m ->
  0 <= ne < 2 ^ 31 ->
  mapped_bytes s = Some (checkpoint_layout tn L R C ne cub ext lst) ->
  fetch_temps X (loaded_views m1 ne) s
  = Ret {| t_cuboid := cub; t_extra := ext; t_last := lst |} s.
Proof.
  intros HL1 HR1 HC1 Hblocks Hconfig Hne Hmap.
  pose proof layers_nonneg as HL0. pose proof flat_length as Hflat.
  pose proof (layout_length tn) as Hlen.
  pose proof (cuboid_shape_nat _ _ _ _ cub_shape) as [HLn Hshape].
  assert (Htotal : 0 <= total_nodes X m) by lia.
  set (bytes := checkpoint_layout tn L R C ne cub ext lst) in *.
  unfold fetch_temps, loaded_views.
  cbn [cols set_views last_trans cuboid extra last_temp config].
  unfold total_nodes. cbn [total_n_blocks config set_views].
  rewrite HL1, HR1, HC1, Hblocks, Hconfig.
  change (total_n_blocks m + extra_nodes X (config m)) with (total_nodes X m).
  unfold bind at 1.
  rewrite (mapM_pure _ (map (seen bytes C))).
  2:{ intros x Hx. apply list_elem_of_fmap in Hx as (l & -> & Hl%elem_of_upto).
      apply mapM_pure. intros p Hp.
      apply list_elem_of_fmap in Hp as (r & -> & Hr%elem_of_upto).
      apply fetch_seen; [exact Hmap|]. intros off [= <-].
      rewrite (row_offset_exact L) by lia.
      assert (l * R + r + 1 <= L * R) by nia.
      assert ((l * R + r + 1) * C <= L * R * C)
        by (apply Z.mul_le_mono_nonneg_r; [lia | assumption]).
      nia. }
  unfold bind at 1. rewrite (fetch_seen _ _ _ bytes Hmap).
  2:{ intros off [= <-]. rewrite cuboid_size_exact by lia.
      nia. }
  unfold bind at 1. rewrite (fetch_seen _ _ _ bytes Hmap).
  2:{ intros off [= <-]. rewrite cuboid_size_exact by lia.
      nia. }
  subst bytes. rewrite seen_extra, seen_last. unfold ret. do 2 f_equal.
  apply list_eq. intros i.
  rewrite !list_lookup_fmap.
  destruct (cub !! i) as [layer|] eqn:Hlayer.
  - assert (Hi : (i < length cub)%nat) by (eapply lookup_lt_Some, Hlayer).
    replace i with (Z.to_nat (Z.of_nat i)) at 1 by apply Nat2Z.id.
    rewrite lookup_upto by lia. cbn [fmap option_fmap option_map]. f_equal.
    apply list_eq. intros j. rewrite !list_lookup_fmap.
    rewrite Forall_forall in Hshape. destruct (Hshape layer) as [HRn _].
    { eapply list_elem_of_lookup_2, Hlayer. }
    destruct (layer !! j) as [row|] eqn:Hrow.
    + assert (Hj : (j < length layer)%nat) by (eapply lookup_lt_Some, Hrow).
      replace j with (Z.to_nat (Z.of_nat j)) at 1 by apply Nat2Z.id.
      rewrite lookup_upto by lia. cbn [fmap option_fmap option_map]. f_equal.
      apply (seen_row tn _ _ layer row); rewrite ?Nat2Z.id; auto; lia.
    + apply lookup_ge_None in Hrow.
      rewrite (proj2 (lookup_ge_None _ _)); [reflexivity|].
      unfold upto. rewrite length_seqZ. lia.
  - apply lookup_ge_None in Hlayer.
    rewrite (proj2 (lookup_ge_None _ _)); [reflexivity|].
    unfold upto. rewrite length_seqZ. lia.
Qed.

End Round_trip.


(** A checkpoint written by [save_last_trans_temp_mmap] at the end of one
    chunk is accepted by [load_last_trans_temp_mmap] in the process of the next
    chunk (trace index one higher, a model of the same dimensions and
    configuration), and the solver then sees, through the views of the
    mapping, exactly the cuboid, [extra] and [last_temp] doubles that were
    saved. *)
Theorem checkpoint_round_trip
        (X : Extern) (m m1 : grid_model_t)
        (cub : list (list (list Z))) (ext lst : list Z) (s s' : state) :
  let ne := extra_nodes X (config m) in
  fopen_wb_ok (io s) = true ->
  cuboid (last_trans m) = map (map Heap) cub ->
  cuboid_shape (n_layers m) (rows m) (cols m) cub ->
  extra (last_trans m) = Heap ext -> Z.of_nat (length ext) = ne ->
  last_temp m = Heap lst -> Z.of_nat (length lst) = total_nodes X m ->
  Forall (Forall (Forall is_double)) cub -> Forall is_double ext -> Forall is_double lst ->
  0 <= rows m < 2 ^ 31 -> 0 <= cols m < 2 ^ 31 -> n_layers m < 2 ^ 31 ->
  n_layers m * rows m * cols m < 2 ^ 64 -> ne < 2 ^ 31 ->
  n_layers m1 = n_layers m -> rows m1 = rows m -> cols m1 = cols m ->
  total_n_blocks m1 = total_n_blocks m -> config m1 = config m ->
  fs s' !! TRANS_TEMP_FILE
  = fs (final (save_last_trans_temp_mmap X m TRANS_TEMP_FILE ne s)) !! TRANS_TEMP_FILE ->
  trace_num s' = trace_num s + 1 ->
  open_ok (io s') = true -> mmap_ok (io s') = true ->
  exists s1 m' size s2,
    save_last_trans_temp_mmap X m TRANS_TEMP_FILE ne s = Ret tt s1
    /\ load_last_trans_temp_mmap m1 TRANS_TEMP_FILE s' = Ret (m', Some TRANS_TEMP_FILE, size) s2
    /\ fetch_temps X m' s2 = Ret {| t_cuboid := cub; t_extra := ext; t_last := lst |} s2.
Proof.
  intros ne Hopen Hcub Hshape Hext Hne Hlast Htotal Dcub Dext Dlast HR HC HL Hcells Hne31
         HL1 HR1 HC1 Hblocks Hconfig Hfile Htn Hopen' Hmmap'.
  pose proof (save_leaves_layout X m TRANS_TEMP_FILE ne s cub ext lst
                Hopen Hcub Hshape Hext Hne Hlast Htotal) as Hsave.
  rewrite Hsave in Hfile. cbn [final] in Hfile.
  unfold with_file in Hfile. cbn [fs set_fs] in Hfile. rewrite lookup_insert_eq in Hfile.
  set (bytes := checkpoint_layout (trace_num s) (n_layers m) (rows m) (cols m) ne cub ext lst)
    in *.
  assert (HL0 : 0 <= n_layers m) by (destruct Hshape as [<- _]; lia).
  assert (Hne0 : 0 <= ne) by lia.
  assert (Hsmall : forall z, - 2 ^ 31 <= z < 2 ^ 31 -> to_int z = z).
  { intros z Hz. unfold to_int. rewrite Z.mod_small by lia. lia. }
  assert (Hh : forall k h,
             [MAGIC_MMAP_FILE; trace_num s; n_layers m; rows m; cols m; ne] !! k = Some h ->
             header_int bytes k = to_int h).
  { intros k h Hk. subst bytes. unfold checkpoint_layout. apply header_int_ints, Hk. }
  assert (Hbytes : bytes <> []).
  { intros Hnil. apply (f_equal length) in Hnil.
    pose proof (layout_length X m cub ext lst Hshape Hne Htotal HR HC (trace_num s)) as Hlen.
    fold ne bytes in Hlen. rewrite Hnil in Hlen. simpl in Hlen.
    assert (0 <= n_layers m * rows m * cols m) by nia. lia. }
  pose proof (load_accepts m1 TRANS_TEMP_FILE s' bytes Hfile Hbytes Hopen' Hmmap') as Hload.
  rewrite (Hh 0%nat _ eq_refl), (Hh 1%nat _ eq_refl), (Hh 2%nat _ eq_refl),
    (Hh 3%nat _ eq_refl), (Hh 4%nat _ eq_refl), (Hh 5%nat _ eq_refl) in Hload.
  rewrite to_uint_to_int in Hload.
  rewrite (Hsmall MAGIC_MMAP_FILE) in Hload by (unfold MAGIC_MMAP_FILE; lia).
  rewrite (Hsmall (n_layers m)), (Hsmall (rows m)), (Hsmall (cols m)), (Hsmall ne)
    in Hload by lia.
  specialize (Hload eq_refl).
  rewrite Htn, HL1, HR1, HC1 in Hload.
  replace (trace_num s + 1 - 1) with (trace_num s) in Hload by ring.
  specialize (Hload eq_refl eq_refl eq_refl eq_refl).
  eexists; eexists; eexists; eexists.
  split; [exact Hsave|]. split; [exact Hload|].
  apply (fetch_loaded X m cub ext lst Hshape Hne Htotal Dcub Dext Dlast HR HC HL Hcells
           m1 _ (trace_num s) HL1 HR1 HC1 Hblocks Hconfig).
  - fold ne. lia.
  - unfold mapped_bytes. cbn [mapping emit set_mapping fs]. exact Hfile.
Qed.

(** The checkpoint of the two-layer model after chunk 0, read back at the
    start of chunk 1. *)
Lemma checkpoint_round_trip_witness :
  exists s1 m' size s2,
    save_last_trans_temp_mmap Sample.X Sample.warm_two_layers TRANS_TEMP_FILE 12
      (Sample.start ∅ Sample.io_ok) = Ret tt s1
    /\ load_last_trans_temp_mmap Sample.two_layers TRANS_TEMP_FILE Sample.chunk1_start
       = Ret (m', Some TRANS_TEMP_FILE, size) s2
    /\ fetch_temps Sample.X m' s2
       = Ret {| t_cuboid := [[[0]]; [[0]]]; t_extra := replicate 12 0;
                t_last := [304; 306] ++ replicate 12 300 |} s2.
Proof.
  apply (checkpoint_round_trip Sample.X Sample.warm_two_layers Sample.two_layers
           [[[0]]; [[0]]] (replicate 12 0) ([304; 306] ++ replicate 12 300)
           (Sample.start ∅ Sample.io_ok) Sample.chunk1_start).
  all: lazymatch goal with
       | |- Forall _ _ =>
           repeat first [apply Forall_nil_2 | apply Forall_cons_2 | unfold is_double; lia]
       | |- cuboid_shape _ _ _ _ =>
           split; [reflexivity|];
           repeat first [apply Forall_nil_2 | apply Forall_cons_2 | split | reflexivity]
       | |- _ =>
           vm_compute; first [reflexivity | discriminate | split; [discriminate | reflexivity]]
       end.
Defined.


(** ** Loading: the ways out *)

(** A load that finds another header leaves through [exit(1)], the mapping
    removed. *)
Lemma load_rejects (model : grid_model_t) (filename : string) (s : state) (bytes : list Z) :
  fs s !! filename = Some bytes -> bytes <> [] ->
  open_ok (io s) = true -> mmap_ok (io s) = true ->
  ~ (header_int bytes 0 = MAGIC_MMAP_FILE
     /\ to_uint (header_int bytes 1) = to_uint (trace_num s - 1)
     /\ header_int bytes 2 = n_layers model
     /\ header_int bytes 3 = rows model
     /\ header_int bytes 4 = cols model) ->
  exists s', load_last_trans_temp_mmap model filename s = Exit 1 s'
             /\ mapping s' = None /\ fs s' = fs s.
Proof.
  intros Hfile Hne Hopen Hmmap Hno.
  assert (Hlen : (0 <? Z.of_nat (length bytes)) = true).
  { apply Z.ltb_lt. destruct bytes; [congruence | simpl; lia]. }
  cbv beta iota zeta delta [load_last_trans_temp_mmap bind c_open get modify tell munmap
                              fatal exit perror ret].
  rewrite Hopen, Hfile. cbv beta iota zeta. rewrite Hmmap, Hlen.
  cbv beta iota zeta delta [andb negb]. cbn [set_mapping emit trace_num].
  destruct (Z.eqb_spec (header_int bytes 0) MAGIC_MMAP_FILE) as [E0|E0];
    destruct (Z.eqb_spec (to_uint (header_int bytes 1)) (to_uint (trace_num s - 1)))
      as [E1|E1];
    cbn [negb orb]; try (eexists; repeat split; reflexivity).
  destruct (Z.eqb_spec (header_int bytes 2) (n_layers model)) as [E2|E2];
    destruct (Z.eqb_spec (header_int bytes 3) (rows model)) as [E3|E3];
    destruct (Z.eqb_spec (header_int bytes 4) (cols model)) as [E4|E4];
    cbn [negb orb]; try (eexists; repeat split; reflexivity).
  exfalso. apply Hno. auto.
Qed.

(** Without a file that can be opened and mapped, [load_last_trans_temp_mmap]
    ends the process with status 1 after one message on stderr -- [perror] of
    "open" when the file is missing or cannot be opened, "mmap failed" when it
    is empty or cannot be mapped -- and leaves files and mapping alone. *)
Theorem load_without_usable_file
        (model : grid_model_t) (filename : string) (s : state) :
  (open_ok (io s) = false \/ fs s !! filename = None ->
   load_last_trans_temp_mmap model filename s = Exit 1 (emit (Stderr "open") s))
  /\ (forall bytes,
        open_ok (io s) = true -> fs s !! filename = Some bytes ->
        bytes = [] \/ mmap_ok (io s) = false ->
        load_last_trans_temp_mmap model filename s = Exit 1 (emit (Stderr "mmap failed") s)).
Proof.
  split.
  - intros H.
    cbv beta iota zeta delta [load_last_trans_temp_mmap bind c_open get modify tell
                                fatal exit perror ret].
    destruct H as [H|H]; [rewrite H; reflexivity|].
    rewrite H. destruct (open_ok (io s)); reflexivity.
  - intros bytes Hopen Hfile H.
    cbv beta iota zeta delta [load_last_trans_temp_mmap bind c_open get modify tell
                                fatal exit perror ret].
    rewrite Hopen, Hfile. cbv beta iota zeta.
    destruct H as [->|H].
    + cbn [length Z.of_nat]. rewrite andb_false_r. reflexivity.
    + rewrite H. reflexivity.
Qed.

(** A run on chunk 1 with no checkpoint on disk, and one on an empty
    checkpoint file. *)
Lemma load_without_usable_file_witness :
  load_last_trans_temp_mmap Sample.two_layers TRANS_TEMP_FILE
    (set_trace_num 1 (Sample.start ∅ Sample.io_ok))
  = Exit 1 (emit (Stderr "open") (set_trace_num 1 (Sample.start ∅ Sample.io_ok)))
  /\ load_last_trans_temp_mmap Sample.two_layers TRANS_TEMP_FILE
       (set_trace_num 1 (Sample.start (<[TRANS_TEMP_FILE := []]> ∅) Sample.io_ok))
     = Exit 1 (emit (Stderr "mmap failed")
                 (set_trace_num 1 (Sample.start (<[TRANS_TEMP_FILE := []]> ∅) Sample.io_ok))).
Proof.
  split.
  - apply (proj1 (load_without_usable_file Sample.two_layers TRANS_TEMP_FILE
                      (set_trace_num 1 (Sample.start ∅ Sample.io_ok)))).
    right. reflexivity.
  - apply (proj2 (load_without_usable_file Sample.two_layers TRANS_TEMP_FILE
                    (set_trace_num 1
                       (Sample.start (<[TRANS_TEMP_FILE := []]> ∅) Sample.io_ok))) []).
    + reflexivity.
    + vm_compute. reflexivity.
    + left. reflexivity.
Defined.

(** ** From one chunk to the next *)

Lemma take_splice (off : nat) (new bytes : list Z) :
  (off <= length bytes)%nat -> take off (splice off new bytes) = take off bytes.
Proof.
  intros H. unfold splice. apply take_app_length'. rewrite length_take. lia.
Qed.

Lemma drop_splice (off n : nat) (new bytes : list Z) :
  (off + length new <= n)%nat -> (off <= length bytes)%nat ->
  drop n (splice off new bytes) = drop n bytes.
Proof.
  intros Hn Hoff. unfold splice.
  rewrite drop_app_ge by (rewrite length_take; lia).
  rewrite length_take, drop_app_ge by lia.
  rewrite drop_drop. f_equal. lia.
Qed.

Lemma header_int_splice (bytes : list Z) (tn : Z) (k : nat) :
  (8 <= length bytes)%nat -> k <> 1%nat ->
  header_int (splice 4 (enc_int tn) bytes) k = header_int bytes k.
Proof.
  intros Hlen Hk. unfold header_int. destruct k as [|[|k]]; [|congruence|].
  - change (4 * 0)%nat with 0%nat. rewrite !drop_0. unfold splice.
    rewrite resize_app by (rewrite length_take; lia).
    rewrite resize_le by lia. reflexivity.
  - rewrite drop_splice; [reflexivity | |lia].
    change (length (enc_int tn)) with 4%nat. lia.
Qed.

Lemma header_int_stamp (bytes : list Z) (tn : Z) :
  (8 <= length bytes)%nat ->
  to_uint (header_int (splice 4 (enc_int tn) bytes) 1) = to_uint tn.
Proof.
  intros Hlen. unfold header_int, splice.
  rewrite drop_app_length' by (rewrite length_take; lia).
  rewrite resize_app by reflexivity.
  rewrite dec_enc_int. apply to_uint_to_int.
Qed.


(** The stamp [flush_updated_last_trans_temp] leaves at the end of chunk [N]
    changes bytes 4..7 of the checkpoint and nothing else, and it is what lets
    the next process in: on the flushed file of a checkpoint with the model's
    magic and dimensions, [load_last_trans_temp_mmap] returns (with the views
    of the mapping) exactly when its trace index minus one is [N] as an
    [unsigned int], and otherwise unmaps and exits with status 1. *)
Theorem flush_stamps_checkpoint_for_next_chunk
        (model : grid_model_t) (f : string) (size : Z) (s s' : state) (bytes : list Z) :
  fs s !! f = Some bytes -> (8 <= length bytes)%nat ->
  header_int bytes 0 = MAGIC_MMAP_FILE ->
  header_int bytes 2 = n_layers model ->
  header_int bytes 3 = rows model ->
  header_int bytes 4 = cols model ->
  fs s' !! f = fs (final (flush_updated_last_trans_temp (Some f) size s)) !! f ->
  open_ok (io s') = true -> mmap_ok (io s') = true ->
  (exists s1 bytes',
     flush_updated_last_trans_temp (Some f) size s = Ret tt s1
     /\ fs s1 !! f = Some bytes'
     /\ length bytes' = length bytes
     /\ take 4 bytes' = take 4 bytes /\ drop 8 bytes' = drop 8 bytes)
  /\ (to_uint (trace_num s' - 1) = to_uint (trace_num s) ->
      exists size' s2,
        load_last_trans_temp_mmap model f s'
        = Ret (loaded_views model (header_int bytes 5), Some f, size') s2)
  /\ (to_uint (trace_num s' - 1) <> to_uint (trace_num s) ->
      exists s2, load_last_trans_temp_mmap model f s' = Exit 1 s2 /\ mapping s2 = None).
Proof.
  intros Hfile Hlen H0 H2 H3 H4 Hfile' Hopen Hmmap.
  destruct (flush_effect f size s bytes Hfile Hlen) as (s1 & Hflush & Hfs & _).
  rewrite Hflush in Hfile'. cbn [final] in Hfile'.
  rewrite Hfs, lookup_insert_eq in Hfile'.
  set (bytes' := splice 4 (enc_int (trace_num s)) bytes) in *.
  assert (Hlen' : length bytes' = length bytes).
  { subst bytes'. unfold splice. rewrite !length_app, length_take, length_drop.
    change (length (enc_int (trace_num s))) with 4%nat. lia. }
  assert (Hne : bytes' <> []).
  { intros E. rewrite E in Hlen'. simpl in Hlen'. lia. }
  split; [|split].
  - exists s1, bytes'. split; [exact Hflush|].
    split; [rewrite Hfs; apply lookup_insert_eq|].
    split; [exact Hlen'|]. split.
    + apply take_splice. lia.
    + apply drop_splice; [reflexivity | lia].
  - intros Htn. eexists; eexists.
    rewrite <- (header_int_splice bytes (trace_num s) 5) by (auto; lia).
    apply load_accepts; auto; subst bytes'.
    + rewrite header_int_splice; auto.
    + rewrite header_int_stamp; auto.
    + rewrite header_int_splice; auto.
    + rewrite header_int_splice; auto.
    + rewrite header_int_splice; auto.
  - intros Htn.
    destruct (load_rejects model f s' bytes' Hfile' Hne Hopen Hmmap) as (s2 & Hload & Hmap & _).
    + intros (_ & H1 & _). apply Htn. rewrite <- H1. subst bytes'.
      rewrite header_int_stamp; auto.
    + exists s2. auto.
Qed.

(** Chunk 1 of the two-layer run stamps the checkpoint of chunk 0; the process
    of chunk 2 is let in. *)
Lemma flush_stamps_checkpoint_witness :
  let s := set_mapping (Some (TRANS_TEMP_FILE, Z.of_nat (length Sample.chunk0_bytes)))
             Sample.chunk1_start in
  let s' := set_trace_num 2
              (final (flush_updated_last_trans_temp (Some TRANS_TEMP_FILE) 0 s)) in
  (exists s1 bytes',
     flush_updated_last_trans_temp (Some TRANS_TEMP_FILE) 0 s = Ret tt s1
     /\ fs s1 !! TRANS_TEMP_FILE = Some bytes'
     /\ length bytes' = length Sample.chunk0_bytes
     /\ take 4 bytes' = take 4 Sample.chunk0_bytes
     /\ drop 8 bytes' = drop 8 Sample.chunk0_bytes)
  /\ (to_uint (trace_num s' - 1) = to_uint (trace_num s) ->
      exists size' s2,
        load_last_trans_temp_mmap Sample.two_layers TRANS_TEMP_FILE s'
        = Ret (loaded_views Sample.two_layers (header_int Sample.chunk0_bytes 5),
               Some TRANS_TEMP_FILE, size') s2)
  /\ (to_uint (trace_num s' - 1) <> to_uint (trace_num s) ->
      exists s2, load_last_trans_temp_mmap Sample.two_layers TRANS_TEMP_FILE s' = Exit 1 s2
                 /\ mapping s2 = None).
Proof.
  intros s s'.
  apply (flush_stamps_checkpoint_for_next_chunk Sample.two_layers TRANS_TEMP_FILE 0 s s'
           Sample.chunk0_bytes).
  all: vm_compute; first [reflexivity | discriminate | lia].
Defined.


(** ** Into floorplan order and back *)

(** The two index loops of an iteration undo each other: when the values of a
    row have been stored into floorplan order (lines 797-811) under a header
    that names no block twice, reading that vector back into trace order
    (lines 837-848, without the leakage columns) returns, column by column,
    the values of the row, and leaves the rest of the buffer alone. *)
Theorem permute_out_inverts_permute_in
        (g : grid_model_t) (names : list string)
        (vals power power' pwl vals0 wl0 : list Z) :
  Z.of_nat (length names) = n_columns (used_layers g) ->
  NoDup (header_nodes g names) ->
  n_columns (used_layers g) <= Z.of_nat (length vals0) ->
  permute_in_grid g names vals power = Ok power' ->
  exists v',
    permute_out_grid g names power' pwl false vals0 wl0 = Ok (v', wl0)
    /\ length v' = length vals0
    /\ forall c, val_at v' c
                 = if (0 <=? c) && (c <? n_columns (used_layers g))
                   then val_at vals c else val_at vals0 c.
Proof.
  intros Hlen Hnd Hfit Hin. rewrite permute_in_grid_fold in Hin.
  apply columns_fold_Ok in Hin as (Hlayers & nodes & Hnodes & Hin).
  assert (Hln : length names = length nodes) by (destruct Hnodes as [Hn _]; lia).
  pose proof (header_nodes_NoDup g names nodes Hln Hnodes Hnd) as Hnd'.
  apply apply_in_Ok in Hin as (Hlp & Hrange & Hval & _).
  specialize (Hval Hnd').
  assert (Hcols : Z.of_nat (length nodes) = n_columns (used_layers g)) by lia.
  destruct (apply_out_total power' pwl false nodes 0 vals0 wl0) as [[v' w'] Hout].
  - lia.
  - lia.
  - discriminate.
  - intros i node Hi. split; [|discriminate].
    eexists. apply load_Ok. split; [apply (Hrange i node Hi) | apply (Hval i node Hi)].
  - pose proof Hout as Hspec.
    apply apply_out_Ok in Hspec as (Hlv & _ & Hframe & Hloads & Hnoleak & _); [|lia].
    rewrite (Hnoleak eq_refl) in Hout.
    exists v'. split; [|split; [exact Hlv|]].
    + rewrite permute_out_grid_fold. apply columns_fold_Ok. split; [exact Hlayers|].
      exists nodes. split; [exact Hnodes | exact Hout].
    + intros c.
      destruct (Z.leb_spec 0 c) as [Hc0|Hc0], (Z.ltb_spec c (n_columns (used_layers g)))
        as [Hc1|Hc1]; cbn [andb]; try (apply Hframe; lia).
      destruct (nodes !! Z.to_nat c) as [node|] eqn:Hnode.
      2:{ apply lookup_ge_None in Hnode. lia. }
      destruct (Hloads _ _ Hnode) as [Hload _].
      apply load_Ok in Hload as [_ Hload].
      rewrite (Hval _ _ Hnode) in Hload.
      rewrite !Z.add_0_l, Z2Nat.id in Hload by lia. congruence.
Qed.

(** A row under the header [B A] of the one-layer model. *)
Lemma permute_out_inverts_witness :
  exists v',
    permute_out_grid Sample.one_layer ["B"; "A"]%string ([7; 5] ++ replicate 12 0) []
      false [0; 0; 0] []
    = Ok (v', [])
    /\ length v' = 3%nat
    /\ forall c, val_at v' c
                 = if (0 <=? c) && (c <? n_columns (used_layers Sample.one_layer))
                   then val_at [5; 7] c else val_at [0; 0; 0] c.
Proof.
  apply (permute_out_inverts_permute_in Sample.one_layer ["B"; "A"]%string [5; 7]
           (replicate 14 0) ([7; 5] ++ replicate 12 0) [] [0; 0; 0] []).
  - reflexivity.
  - apply (bool_decide_unpack _). vm_compute. exact Logic.I.
  - vm_compute. discriminate.
  - reflexivity.
Defined.


(** ** The voltage vector *)

Lemma volt_chars_cons x y es :
  es <> [] ->
  volt_chars ((x, y) :: es)
  = digit_char x :: "."%char :: digit_char y :: ","%char :: volt_chars es.
Proof. destruct es; [congruence | reflexivity]. Qed.

Lemma length_volt_chars es :
  es <> [] -> length (volt_chars es) = (4 * length es - 1)%nat.
Proof.
  induction es as [|[x y] es IH]; [congruence|]. intros _.
  destruct es as [|e es]; [reflexivity|].
  rewrite volt_chars_cons by discriminate. cbn [length] in *.
  rewrite IH by discriminate. lia.
Qed.

Lemma volt_chars_lookup es :
  forall k x y, es !! k = Some (x, y) ->
    volt_chars es !! (4 * k)%nat = Some (digit_char x)
    /\ volt_chars es !! (4 * k + 2)%nat = Some (digit_char y).
Proof.
  induction es as [|[x0 y0] es IH]; intros k x y Hk; [discriminate|].
  destruct k as [|k].
  - injection Hk as -> ->. destruct es; split; reflexivity.
  - cbn in Hk. assert (Hne : es <> []) by (intros ->; discriminate).
    rewrite volt_chars_cons by exact Hne.
    replace (4 * S k)%nat with (S (S (S (S (4 * k))))) by lia.
    cbn [lookup list_lookup Nat.add]. apply IH, Hk.
Qed.

Lemma char_at_digit (cs : list ascii) (i : nat) (d : Z) :
  cs !! i = Some (digit_char d) -> 0 <= d <= 9 ->
  char_at (string_of_list_ascii cs) (Z.of_nat i) - 48 = d.
Proof.
  intros Hi Hd. unfold char_at.
  rewrite list_ascii_of_string_of_list_ascii, Nat2Z.id, Hi.
  unfold digit_char. rewrite nat_ascii_embedding by lia. cbv zeta.
  destruct (Z.ltb_spec (Z.of_nat (48 + Z.to_nat d)) 128); lia.
Qed.

Lemma set_volt_twice a b s : set_volt a (set_volt b s) = set_volt a s.
Proof. reflexivity. Qed.

(** A loop that stores [f k] in [volt[k]] for [k = j0, j0 + 1, ...]. *)
Lemma volt_loop (f : Z -> Z) (body : Z -> M unit) (m : nat) :
  forall (j0 : nat) (v : list Z) (s : state),
    (j0 + m <= length v)%nat ->
    (forall k v', (j0 <= k < j0 + m)%nat ->
       body (Z.of_nat k) (set_volt v' s)
       = Ret tt (set_volt (<[k := f (Z.of_nat k)]> v') s)) ->
    for_each (seqZ (Z.of_nat j0) (Z.of_nat m)) body (set_volt v s)
    = Ret tt (set_volt (take j0 v ++ map f (seqZ (Z.of_nat j0) (Z.of_nat m))
                          ++ drop (j0 + m) v) s).
Proof.
  induction m as [|m IH]; intros j0 v s Hlen Hbody.
  - rewrite seqZ_nil by lia. cbn [for_each map app].
    rewrite Nat.add_0_r, take_drop. reflexivity.
  - rewrite seqZ_cons by lia.
    replace (Z.pred (Z.of_nat (S m))) with (Z.of_nat m) by lia.
    replace (Z.succ (Z.of_nat j0)) with (Z.of_nat (S j0)) by lia.
    cbn [for_each map]. unfold bind at 1. rewrite Hbody by lia.
    rewrite IH.
    + f_equal. f_equal.
      rewrite (take_S_r _ _ (f (Z.of_nat j0)))
        by (apply list_lookup_insert_eq; lia).
      rewrite take_insert_ge by lia.
      rewrite drop_insert_lt by lia.
      rewrite <- app_assoc. cbn [app].
      replace (S j0 + m)%nat with (j0 + S m)%nat by lia. reflexivity.
    + rewrite length_insert. lia.
    + intros k v' Hk. apply Hbody. lia.
Qed.

(** The loop of lines 588-594 does what its comment says on a vector of
    comma-separated entries [x.y] with one digit on each side, one per
    channel, that the array [volt_vector[385]] holds with its NUL (at most 96
    entries, then): entry [j] leaves [10 x + y] in [volt[j]], and the channels
    after the last entry keep their value. *)
Theorem parse_volt_vector_decodes (es : list (Z * Z)) (s : state) :
  volt_vector s = string_of_list_ascii (volt_chars es) ->
  Z.of_nat (String.length (volt_vector s)) + 1 <= VOLT_VECTOR_SIZE ->
  Forall (fun e => 0 <= fst e <= 9 /\ 0 <= snd e <= 9) es ->
  Z.of_nat (length (volt s)) = VOLT_SIZE ->
  parse_volt_vector s
  = Ret tt (set_volt (map (fun e => 10 * fst e + snd e) es ++ drop (length es) (volt s)) s).
Proof.
  intros Hvv Harray Hdigits Hvolt.
  assert (Hsl : forall t, String.length t = length (list_ascii_of_string t)).
  { induction t; simpl; congruence. }
  assert (Hfit : Z.of_nat (length es) <= VOLT_SIZE).
  { rewrite Hvv, Hsl, list_ascii_of_string_of_list_ascii in Harray.
    destruct (decide (es = [])) as [->|Hne]; [unfold VOLT_SIZE; simpl; lia|].
    rewrite length_volt_chars in Harray by exact Hne.
    unfold VOLT_VECTOR_SIZE, VOLT_SIZE in *. lia. }
  clear Hsl.
  unfold parse_volt_vector. unfold bind at 1. unfold get at 1. rewrite Hvv.
  set (cs := volt_chars es).
  assert (Hn : (Z.of_nat (String.length (string_of_list_ascii cs)) + 3) / 4
               = Z.of_nat (length es)).
  { assert (Hsl : forall t, String.length t = length (list_ascii_of_string t)).
    { induction t; simpl; congruence. }
    rewrite Hsl, list_ascii_of_string_of_list_ascii. subst cs.
    destruct (decide (es = [])) as [->|Hne]; [reflexivity|].
    rewrite length_volt_chars by exact Hne.
    assert (0 < length es)%nat by (destruct es; [congruence | simpl; lia]).
    symmetry. apply Z.div_unique with 2; lia. }
  rewrite Hn. clear Hn.
  set (f := fun k => default 0 ((fun e => 10 * fst e + snd e) <$> es !! Z.to_nat k)).
  assert (Hs : s = set_volt (volt s) s) by (destruct s; reflexivity).
  rewrite Hs at 1. unfold upto.
  change 0 with (Z.of_nat 0).
  rewrite (volt_loop f).
  - rewrite take_0, Nat.add_0_l. cbn [app]. f_equal. f_equal. f_equal.
    apply list_eq. intros i. change (map ?g ?l) with (g <$> l).
    rewrite !list_lookup_fmap.
    destruct (es !! i) as [e|] eqn:He.
    + rewrite lookup_seqZ_lt by (apply lookup_lt_Some in He; lia).
      cbn. unfold f. rewrite Z.add_0_l, Nat2Z.id, He. reflexivity.
    + apply lookup_ge_None in He. rewrite lookup_seqZ_ge by lia. reflexivity.
  - unfold VOLT_SIZE in *. lia.
  - intros k v' Hk.
    destruct (es !! k) as [[x y]|] eqn:He.
    2:{ apply lookup_ge_None in He. lia. }
    destruct (volt_chars_lookup es k x y He) as [Hx Hy].
    rewrite Forall_forall in Hdigits.
    destruct (Hdigits (x, y)) as [Hdx Hdy]; [eapply list_elem_of_lookup_2, He|].
    cbn [fst snd] in Hdx, Hdy.
    replace (4 * Z.of_nat k) with (Z.of_nat (4 * k)) by lia.
    replace (Z.of_nat (4 * k) + 2) with (Z.of_nat (4 * k + 2)) by lia.
    rewrite (char_at_digit cs _ x Hx Hdx), (char_at_digit cs _ y Hy Hdy).
    destruct (Z.ltb_spec (Z.of_nat k) VOLT_SIZE) as [_|Hge]; [|lia].
    unfold modify. rewrite set_volt_twice.
    change (volt (set_volt v' s)) with v'. rewrite Nat2Z.id.
    unfold f. rewrite Nat2Z.id, He. cbn [fmap option_fmap option_map default fst snd].
    unfold to_uint. rewrite Z.mod_small by lia. reflexivity.
Qed.

(** Three channels at 1.2 V, 0.9 V and 1.0 V. *)
Lemma parse_volt_vector_witness :
  parse_volt_vector (set_volt_vector "1.2,0.9,1.0" (Sample.start ∅ Sample.io_ok))
  = Ret tt (set_volt ([12; 9; 10] ++ replicate 125 0)
              (set_volt_vector "1.2,0.9,1.0" (Sample.start ∅ Sample.io_ok))).
Proof.
  apply (parse_volt_vector_decodes [(1, 2); (0, 9); (1, 0)]
           (set_volt_vector "1.2,0.9,1.0" (Sample.start ∅ Sample.io_ok))).
  - reflexivity.
  - vm_compute. discriminate.
  - repeat (apply Forall_cons_2; [cbn; lia|]). apply Forall_nil_2.
  - reflexivity.
Defined.


(** ** The power trace, character by character *)

Lemma cstr_no_NUL (l : list ascii) : Forall (fun c => c <> Text.NUL) l -> Text.cstr l = l.
Proof.
  induction 1 as [|c l Hc _ IH]; [reflexivity|].
  cbn [Text.cstr]. destruct (Ascii.eqb_spec c Text.NUL) as [E|_]; [contradiction|].
  rewrite IH. reflexivity.
Qed.

Lemma cstr_app_NUL (w more : list ascii) :
  Forall (fun c => c <> Text.NUL) w -> Text.cstr (w ++ Text.NUL :: more) = w.
Proof.
  induction 1 as [|c l Hc _ IH]; [reflexivity|].
  cbn [Text.cstr app]. destruct (Ascii.eqb_spec c Text.NUL) as [E|_]; [contradiction|].
  rewrite IH. reflexivity.
Qed.

Lemma fgets_chars_line (l more : list ascii) (k : nat) :
  Forall (fun c => c <> Text.newline) l -> (length l < k)%nat ->
  Text.fgets_chars k (l ++ Text.newline :: more) = (l ++ [Text.newline], more, false).
Proof.
  intros Hl. revert k. induction Hl as [|c l Hc _ IH]; intros k Hk.
  - destruct k; [simpl in Hk; lia|]. reflexivity.
  - destruct k; [simpl in Hk; lia|]. cbn [Text.fgets_chars app].
    destruct (Ascii.eqb_spec c Text.newline) as [E|_]; [contradiction|].
    rewrite IH by (simpl in Hk; lia). reflexivity.
Qed.

Lemma fgets_chars_end (l : list ascii) (k : nat) :
  Forall (fun c => c <> Text.newline) l -> (length l < k)%nat ->
  Text.fgets_chars k l = (l, [], true).
Proof.
  intros Hl. revert k. induction Hl as [|c l Hc _ IH]; intros k Hk.
  - destruct k; [simpl in Hk; lia|]. reflexivity.
  - destruct k; [simpl in Hk; lia|]. cbn [Text.fgets_chars].
    destruct (Ascii.eqb_spec c Text.newline) as [E|_]; [contradiction|].
    rewrite IH by (simpl in Hk; lia). reflexivity.
Qed.

Lemma delim_isspace c : Text.is_delim c = true -> isspace c = true.
Proof.
  unfold Text.is_delim. rewrite !orb_true_iff.
  intros [[[H|H]|H]|H]; apply Ascii.eqb_eq in H; subst c; reflexivity.
Qed.

Lemma has_token_blank (ws : list ascii) :
  Forall (fun c => Text.is_delim c = true) ws -> Text.has_token ws = false.
Proof.
  induction 1 as [|c l Hc _ IH]; [reflexivity|].
  cbn [Text.has_token existsb]. rewrite Hc. exact IH.
Qed.

Lemma has_token_word (c : ascii) (l : list ascii) :
  isspace c = false -> Text.has_token (c :: l) = true.
Proof.
  intros Hc. cbn [Text.has_token existsb].
  destruct (Text.is_delim c) eqn:Hd; [|reflexivity].
  apply delim_isspace in Hd. congruence.
Qed.

Lemma lacks_newline_snoc (l : list ascii) : Text.lacks_newline (l ++ [Text.newline]) = false.
Proof. unfold Text.lacks_newline. rewrite last_snoc. reflexivity. Qed.

Lemma skip_space_app (sep more : list ascii) :
  Forall (fun c => isspace c = true) sep -> skip_space (sep ++ more) = skip_space more.
Proof.
  induction 1 as [|c l Hc _ IH]; [reflexivity|].
  cbn [skip_space app]. rewrite Hc. exact IH.
Qed.

Lemma skip_space_word (c : ascii) (l : list ascii) :
  isspace c = false -> skip_space (c :: l) = c :: l.
Proof. intros H. cbn [skip_space]. rewrite H. reflexivity. Qed.

Lemma take_word_app (w more : list ascii) :
  Forall (fun c => isspace c = false) w ->
  match more with [] => True | c :: _ => isspace c = true end ->
  take_word (w ++ more) = w.
Proof.
  intros Hw Hmore. induction Hw as [|c l Hc _ IH].
  - destruct more as [|c more]; [reflexivity|]. cbn. rewrite Hmore. reflexivity.
  - cbn [take_word app]. rewrite Hc, IH. reflexivity.
Qed.


(** *** Lines *)

Lemma cells_ok_cons w sep rest :
  Text.cells_ok ((w, sep) :: rest)
  <-> Text.word_ok w /\ Text.sep_ok sep /\ (rest <> [] -> sep <> []) /\ Text.cells_ok rest.
Proof.
  destruct rest as [|c rest].
  - cbn [Text.cells_ok]. split; [|tauto]. intros [? ?]. split; [assumption|].
    split; [assumption|]. split; [intros Hn; contradiction | exact Logic.I].
  - change (Text.cells_ok ((w, sep) :: c :: rest))
      with (Text.word_ok w /\ Text.sep_ok sep /\ sep <> [] /\ Text.cells_ok (c :: rest)).
    assert (c :: rest <> []) by discriminate. tauto.
Qed.

Lemma sep_no_newline sep : Text.sep_ok sep -> Forall (fun c => c <> Text.newline) sep.
Proof. intros H. eapply Forall_impl; [exact H|]. intros c [? ?]. assumption. Qed.

Lemma sep_spaces sep : Text.sep_ok sep -> Forall (fun c => isspace c = true) sep.
Proof. intros H. eapply Forall_impl; [exact H|]. intros c [? ?]. assumption. Qed.

Lemma word_no_newline w : Text.word_ok w -> Forall (fun c => c <> Text.newline) w.
Proof.
  intros [_ H]. eapply Forall_impl; [exact H|]. intros c [Hc _] ->. discriminate.
Qed.

Lemma word_no_space w : Text.word_ok w -> Forall (fun c => isspace c = false) w.
Proof. intros [_ H]. eapply Forall_impl; [exact H|]. intros c [? ?]. assumption. Qed.

Lemma word_no_NUL w : Text.word_ok w -> Forall (fun c => c <> Text.NUL) w.
Proof. intros [_ H]. eapply Forall_impl; [exact H|]. intros c [? ?]. assumption. Qed.

Lemma sep_no_NUL sep : Text.sep_ok sep -> Forall (fun c => c <> Text.NUL) sep.
Proof.
  intros H. eapply Forall_impl; [exact H|]. intros c [Hc _] ->. discriminate.
Qed.

Lemma cells_text_cons c cells :
  cells_text (c :: cells) = fst c ++ snd c ++ cells_text cells.
Proof. unfold cells_text. cbn [map concat]. rewrite <- app_assoc. reflexivity. Qed.

Lemma cells_no_newline cells :
  Text.cells_ok cells -> Forall (fun c => c <> Text.newline) (cells_text cells).
Proof.
  induction cells as [|[w sep] cells IH]; [constructor|].
  intros (Hw & Hs & _ & Hrest)%cells_ok_cons.
  rewrite cells_text_cons. cbn [fst snd].
  repeat apply Forall_app_2; auto using word_no_newline, sep_no_newline.
Qed.

Lemma cells_no_NUL cells :
  Text.cells_ok cells -> Forall (fun c => c <> Text.NUL) (cells_text cells).
Proof.
  induction cells as [|[w sep] cells IH]; [constructor|].
  intros (Hw & Hs & _ & Hrest)%cells_ok_cons.
  rewrite cells_text_cons. cbn [fst snd].
  repeat apply Forall_app_2; auto using word_no_NUL, sep_no_NUL.
Qed.

(** A row starts with a character that is not white space. *)
Lemma row_starts_with_word cells :
  cells <> [] -> Text.cells_ok cells ->
  exists c more, cells_text cells ++ [Text.newline] = c :: more /\ isspace c = false.
Proof.
  destruct cells as [|[w sep] cells]; [congruence|]. intros _.
  intros ([Hne Hw] & _)%cells_ok_cons.
  destruct w as [|c w]; [congruence|].
  rewrite cells_text_cons. cbn [fst snd app].
  eexists; eexists. split; [reflexivity|].
  apply Forall_cons in Hw as [[Hc _] _]. exact Hc.
Qed.

Lemma skip_space_src_of cells :
  Text.cells_ok cells ->
  skip_space (cells_text cells ++ [Text.newline]) = src_of cells.
Proof.
  intros Hok. destruct cells as [|c cells]; [reflexivity|].
  destruct (row_starts_with_word (c :: cells)) as (a & more & E & Ha);
    [discriminate | exact Hok |].
  unfold src_of. rewrite E. apply skip_space_word, Ha.
Qed.

Lemma line_text_no_NUL l :
  Text.line_ok l -> Forall (fun c => c <> Text.NUL) (Text.line_text l).
Proof.
  intros [_ H]. destruct l as [ws|cells]; cbn [Text.line_text].
  - apply Forall_app_2; [|repeat constructor; discriminate].
    eapply Forall_impl; [exact H|]. intros c [Hd _] ->. discriminate.
  - destruct H as [_ H]. apply Forall_app_2; [apply cells_no_NUL, H|].
    repeat constructor. discriminate.
Qed.

(** [fgets] takes a well-formed line off the stream, whatever follows the
    lines. *)
Lemma fgets_line_more (l : Text.tline) (ls : list Text.tline) (tail : list ascii) :
  Text.line_ok l ->
  Text.fgets LINE_SIZE (Text.fopen (Text.text (l :: ls) ++ tail))
  = (Text.line_text l, Text.fopen (Text.text ls ++ tail)).
Proof.
  intros [Hlen H]. unfold Text.fgets, Text.fopen, Text.text.
  cbn [Text.rest Text.eof map concat orb].
  assert (E : exists body, Text.line_text l = body ++ [Text.newline]
                           /\ Forall (fun c => c <> Text.newline) body).
  { destruct l as [ws|cells]; cbn [Text.line_text]; eexists; (split; [reflexivity|]).
    - eapply Forall_impl; [exact H|]. intros c [? ?]. assumption.
    - apply cells_no_newline, H. }
  destruct E as (body & E & Hbody). rewrite E in *.
  rewrite <- !app_assoc. cbn [app].
  rewrite fgets_chars_line; [reflexivity | exact Hbody |].
  rewrite length_app in Hlen. cbn [length] in Hlen. unfold LINE_SIZE in *. lia.
Qed.

Lemma fgets_line (l : Text.tline) (ls : list Text.tline) :
  Text.line_ok l ->
  Text.fgets LINE_SIZE (Text.fopen (Text.text (l :: ls)))
  = (Text.line_text l, Text.fopen (Text.text ls)).
Proof.
  intros Hl. pose proof (fgets_line_more l ls [] Hl) as E.
  rewrite !app_nil_r in E. exact E.
Qed.

Lemma unterminated_nil : Text.unterminated [].
Proof. split; [constructor | unfold LINE_SIZE; simpl; lia]. Qed.

(** The next line with a token, on lines that a last line without its
    newline may follow: that one is never returned. *)
Lemma next_line_first_row_more (ls : list Text.tline) (tail : list ascii) :
  Forall Text.line_ok ls -> Text.unterminated tail ->
  forall turns, (length ls < turns)%nat ->
    Text.next_line turns (Text.fopen (Text.text ls ++ tail))
    = match first_row ls with
      | (Some cells, ls') =>
          (Some (Text.line_text (Text.Row cells)), Text.fopen (Text.text ls' ++ tail))
      | (None, _) => (None, {| Text.rest := []; Text.eof := true |})
      end.
Proof.
  intros Hok [Htail Hshort]. induction Hok as [|l ls Hl _ IH]; intros turns Hturns.
  - destruct turns; [simpl in Hturns; lia|].
    cbn [Text.next_line first_row]. unfold Text.fgets, Text.text.
    cbn [map concat app Text.fopen Text.rest Text.eof].
    rewrite fgets_chars_end by (unfold LINE_SIZE in *; auto; lia). reflexivity.
  - destruct turns; [simpl in Hturns; lia|].
    cbn [Text.next_line]. rewrite (fgets_line_more l ls tail Hl). cbn [Text.fopen Text.eof].
    rewrite (cstr_no_NUL _ (line_text_no_NUL l Hl)).
    destruct l as [ws|cells]; cbn [first_row].
    + rewrite has_token_blank.
      * apply IH. simpl in Hturns. lia.
      * destruct Hl as [_ Hws]. cbn [Text.line_text].
        apply Forall_app_2; [|repeat constructor].
        eapply Forall_impl; [exact Hws|]. intros c [? ?]. assumption.
    + destruct Hl as [_ [Hne Hok]].
      destruct (row_starts_with_word cells Hne Hok) as (c & more & E & Hc).
      change (Text.line_text (Text.Row cells)) with (cells_text cells ++ [Text.newline]).
      rewrite E, has_token_word by exact Hc. reflexivity.
Qed.

Lemma next_line_first_row (ls : list Text.tline) :
  Forall Text.line_ok ls ->
  forall turns, (length ls < turns)%nat ->
    Text.next_line turns (Text.fopen (Text.text ls))
    = match first_row ls with
      | (Some cells, ls') => (Some (Text.line_text (Text.Row cells)), Text.fopen (Text.text ls'))
      | (None, _) => (None, {| Text.rest := []; Text.eof := true |})
      end.
Proof.
  intros Hok turns Hturns.
  pose proof (next_line_first_row_more ls [] Hok unterminated_nil turns Hturns) as E.
  rewrite app_nil_r in E. rewrite E.
  destruct (first_row ls) as [[cells|] ls']; [rewrite app_nil_r|]; reflexivity.
Qed.

Lemma text_length (ls : list Text.tline) : (length ls <= length (Text.text ls))%nat.
Proof.
  induction ls as [|l ls IH]; [reflexivity|].
  unfold Text.text in *. cbn [map concat length]. rewrite length_app.
  assert (1 <= length (Text.line_text l))%nat; [|lia].
  destruct l; cbn [Text.line_text]; rewrite length_app; simpl; lia.
Qed.

(** The field lists see the same lines. *)
Lemma first_row_fields (ls : list Text.tline) :
  Forall Text.line_ok ls ->
  match first_row ls with
  | (Some cells, ls') =>
      cells <> [] /\ Text.cells_ok cells
      /\ Z.of_nat (length (Text.line_text (Text.Row cells))) < LINE_SIZE
      /\ (length ls' < length ls)%nat
      /\ ls' = drop (length ls - length ls') ls
  | (None, _) => True
  end.
Proof.
  induction 1 as [|l ls Hl _ IH]; [exact Logic.I|].
  destruct l as [ws|cells]; cbn [first_row].
  - destruct (first_row ls) as [[cells|] ls']; [|exact Logic.I].
    destruct IH as (H1 & H2 & H3 & Hlen & Hdrop).
    split; [exact H1|]. split; [exact H2|]. split; [exact H3|]. split.
    + cbn [length]. lia.
    + cbn [length]. replace (S (length ls) - length ls')%nat
        with (S (length ls - length ls')) by lia.
      exact Hdrop.
  - destruct Hl as [Hlen [Hne Hok]].
    split; [exact Hne|]. split; [exact Hok|]. split; [exact Hlen|]. split.
    + cbn [length]. lia.
    + cbn [length]. replace (S (length ls) - length ls)%nat with 1%nat by lia.
      reflexivity.
Qed.


(** *** The names line *)

Lemma chop_names_step n i c src names :
  Text.chop_names (S n) i (c :: src) names
  = let '(r, w) := Text.sscanf_s (c :: src) in
    if r =? 0 then Fatal "invalid format of names" else
    rbind (if r =? 1 then Text.put_str names (STR_SIZE * i) w else Ok names)
          (fun names' =>
             let len := length (Text.name_str names' i) in
             if (length (c :: src) <? len)%nat
             then Fault "src moved past the end of the line"
             else Text.chop_names n (i + 1) (skip_space (drop len (c :: src))) names').
Proof. reflexivity. Qed.

Lemma sscanf_s_word (w more : list ascii) :
  Text.word_ok w ->
  match more with [] => True | c :: _ => isspace c = true end ->
  Text.sscanf_s (w ++ more) = (1, w).
Proof.
  intros Hw Hmore. unfold Text.sscanf_s.
  pose proof (word_no_space w Hw) as Hns. destruct Hw as [Hne _].
  destruct w as [|c w]; [congruence|].
  apply Forall_cons in Hns as Hc. destruct Hc as [Hc _].
  cbn [app]. rewrite skip_space_word by exact Hc.
  change (c :: w ++ more) with ((c :: w) ++ more).
  rewrite take_word_app by assumption. reflexivity.
Qed.

Lemma length_zeros k : length (zeros k) = (Z.to_nat STR_SIZE * k)%nat.
Proof. apply length_replicate. Qed.

Lemma zeros_S k : zeros (S k) = replicate (Z.to_nat STR_SIZE) Text.NUL ++ zeros k.
Proof.
  unfold zeros. rewrite <- replicate_add. f_equal. lia.
Qed.

Lemma length_row_of w :
  Z.of_nat (length w) < STR_SIZE -> length (row_of w) = Z.to_nat STR_SIZE.
Proof. intros H. unfold row_of. rewrite length_app, length_replicate. lia. Qed.

Lemma put_str_fresh_row (done : list ascii) (i : nat) (w : list ascii) (k : nat) :
  Z.of_nat (length done) = STR_SIZE * Z.of_nat i ->
  Z.of_nat (length w) < STR_SIZE ->
  Text.put_str (done ++ zeros (S k)) (STR_SIZE * Z.of_nat i) w
  = Ok ((done ++ row_of w) ++ zeros k).
Proof.
  intros Hdone Hw. unfold Text.put_str.
  rewrite length_app, length_zeros.
  destruct (Z.leb_spec (STR_SIZE * Z.of_nat i + Z.of_nat (length w) + 1)
              (Z.of_nat (length done + Z.to_nat STR_SIZE * S k))) as [_|Hgt].
  2:{ unfold STR_SIZE in *. lia. }
  f_equal. rewrite <- Hdone, Nat2Z.id.
  rewrite take_app_length.
  rewrite <- Nat.add_assoc, <- drop_drop, drop_app_length.
  rewrite <- app_assoc. f_equal. unfold row_of. rewrite <- !app_assoc. f_equal.
  rewrite zeros_S. unfold zeros.
  rewrite drop_app_le by (rewrite length_replicate; unfold STR_SIZE in *; lia).
  rewrite drop_replicate. cbn [app].
  replace (Z.to_nat STR_SIZE - length w)%nat
    with (S (Z.to_nat STR_SIZE - (length w + 1))) by (unfold STR_SIZE in *; lia).
  reflexivity.
Qed.

Lemma name_str_row (done : list ascii) (i : nat) (w more : list ascii) :
  Z.of_nat (length done) = STR_SIZE * Z.of_nat i ->
  Z.of_nat (length w) < STR_SIZE ->
  Forall (fun c => c <> Text.NUL) w ->
  Text.name_str ((done ++ row_of w) ++ more) (Z.of_nat i) = w.
Proof.
  intros Hdone Hw Hnul. unfold Text.name_str.
  rewrite <- Hdone, Nat2Z.id, <- app_assoc, drop_app_length.
  unfold row_of.
  replace (Z.to_nat STR_SIZE - length w)%nat
    with (S (Z.to_nat STR_SIZE - (length w + 1))) by (unfold STR_SIZE in *; lia).
  cbn [replicate]. rewrite <- app_assoc. cbn [app].
  apply cstr_app_NUL, Hnul.
Qed.

(** The chopping loop over the cells of a row, on a table whose rows from
    [i] on have never been written. *)
Lemma chop_names_cells (cells : list (list ascii * list ascii)) :
  Text.cells_ok cells ->
  Forall (fun c => Z.of_nat (length (fst c)) < STR_SIZE) cells ->
  forall (n i : nat) (done : list ascii) (extra : nat),
    Z.of_nat (length done) = STR_SIZE * Z.of_nat i ->
    Text.chop_names n (Z.of_nat i) (src_of cells) (done ++ zeros (n + extra))
    = Ok (Z.of_nat (i + min n (length cells)), src_of (drop n cells),
          (done ++ concat (map (fun c => row_of (fst c)) (take n cells)))
          ++ zeros (n - min n (length cells) + extra)).
Proof.
  induction cells as [|[w sep] cells IH]; intros Hok Hfit n i done extra Hdone.
  - cbn [src_of]. rewrite take_nil, drop_nil, Nat.min_0_r, Nat.sub_0_r, Nat.add_0_r.
    cbn [map concat src_of]. rewrite app_nil_r. destruct n; reflexivity.
  - apply cells_ok_cons in Hok as (Hw & Hsep & Hnext & Hrest).
    apply Forall_cons in Hfit as [Hfw Hfit]. cbn [fst] in Hfw.
    destruct n as [|n].
    + cbn [take drop min map concat Nat.sub Nat.add]. rewrite Nat.add_0_r, app_nil_r.
      unfold src_of at 1 2. rewrite cells_text_cons. cbn [fst snd].
      destruct Hw as [Hne Hw]. destruct w as [|c w]; [congruence|]. reflexivity.
    + assert (Hsrc : src_of ((w, sep) :: cells)
                     = w ++ sep ++ cells_text cells ++ [Text.newline]).
      { unfold src_of. rewrite cells_text_cons. cbn [fst snd].
        rewrite <- !app_assoc. reflexivity. }
      assert (Hmore : match sep ++ cells_text cells ++ [Text.newline] with
                      | [] => True
                      | c :: _ => isspace c = true
                      end).
      { destruct sep as [|c sep].
        - destruct cells as [|c cells]; [reflexivity|].
          exfalso. apply Hnext; [discriminate | reflexivity].
        - apply Forall_cons in Hsep as [[Hc _] _]. exact Hc. }
      rewrite Hsrc.
      pose proof Hw as [Hne _]. destruct w as [|c w'] eqn:Ew; [congruence|].
      rewrite <- Ew in *. assert (Hcons : w ++ sep ++ cells_text cells ++ [Text.newline]
                                       = c :: (drop 1 w ++ sep ++ cells_text cells
                                                 ++ [Text.newline])).
      { rewrite Ew. reflexivity. }
      rewrite Hcons, chop_names_step, <- Hcons.
      rewrite (sscanf_s_word w _ Hw Hmore). cbn [Z.eqb Pos.eqb].
      cbn [Nat.add]. rewrite (put_str_fresh_row done i w (n + extra) Hdone Hfw).
      cbn [rbind].
      rewrite (name_str_row done i w _ Hdone Hfw (word_no_NUL w Hw)).
      destruct (Nat.ltb_spec (length (w ++ sep ++ cells_text cells ++ [Text.newline]))
                  (length w)) as [Hlt|_].
      { rewrite length_app in Hlt. lia. }
      rewrite drop_app_length.
      rewrite skip_space_app by (apply sep_spaces, Hsep).
      rewrite skip_space_src_of by exact Hrest.
      replace (Z.of_nat i + 1) with (Z.of_nat (S i)) by lia.
      rewrite (IH Hrest Hfit n (S i) (done ++ row_of w) extra).
      * cbn [take drop map concat fst length min]. f_equal. f_equal; [f_equal|].
        -- f_equal. lia.
        -- rewrite <- !app_assoc. reflexivity.
      * rewrite length_app, length_row_of by exact Hfw.
        unfold STR_SIZE in *. lia.
Qed.


Lemma read_names_first_row (X : Extern) (ls : list Text.tline) :
  Forall Text.line_ok ls ->
  read_names X (map Text.line_fields ls)
  = match first_row ls with
    | (Some cells, ls') =>
        if MAX_UNITS X <? Z.of_nat (length cells)
        then fatal "no. of units exceeded limit"
        else ret (map (fun c => string_of_list_ascii (fst c)) cells,
                  Z.of_nat (length cells), map Text.line_fields ls')
    | (None, _) => fatal "not enough names in trace file"
    end.
Proof.
  induction 1 as [|l ls Hl _ IH]; [reflexivity|].
  destruct l as [ws|cells]; cbn [map Text.line_fields first_row read_names].
  - exact IH.
  - destruct Hl as [_ [Hne _]]. destruct cells as [|c cells]; [congruence|].
    cbn [map length]. rewrite !length_map. reflexivity.
Qed.

Lemma length_rows (ws : list (list ascii)) :
  Forall (fun w => Z.of_nat (length w) < STR_SIZE) ws ->
  length (concat (map row_of ws)) = (Z.to_nat STR_SIZE * length ws)%nat.
Proof.
  induction 1 as [|w ws Hw _ IH]; [cbn; lia|].
  cbn [map concat length]. rewrite length_app, IH, length_row_of by exact Hw. lia.
Qed.

Lemma table_of_rows (nr : Z) (ws : list (list ascii)) :
  Text.table_of nr (map string_of_list_ascii ws)
  = concat (map row_of ws)
    ++ replicate (Z.to_nat (STR_SIZE * (nr - Z.of_nat (length ws)))) Text.NUL.
Proof.
  unfold Text.table_of. rewrite length_map. f_equal. f_equal.
  rewrite map_map. apply map_ext. intros w.
  rewrite list_ascii_of_string_of_list_ascii. reflexivity.
Qed.

(** Row [i] of the table holds name [i]. *)
Lemma name_str_table_of (nr : Z) (ws : list (list ascii)) (i : nat) (w : list ascii) :
  Forall (fun w => Z.of_nat (length w) < STR_SIZE /\ Forall (fun c => c <> Text.NUL) w) ws ->
  ws !! i = Some w ->
  Text.name_str (Text.table_of nr (map string_of_list_ascii ws)) (Z.of_nat i) = w.
Proof.
  intros Hws Hi. rewrite table_of_rows.
  rewrite <- (take_drop_middle ws i w Hi) at 1.
  rewrite map_app, concat_app. cbn [map concat].
  rewrite <- !app_assoc, (app_assoc _ (row_of w)).
  rewrite Forall_forall in Hws.
  destruct (Hws w) as [Hfit Hnul]; [eapply list_elem_of_lookup_2, Hi|].
  apply name_str_row; [|exact Hfit | exact Hnul].
  rewrite length_rows.
  - rewrite length_take_le by (apply Nat.lt_le_incl; eapply lookup_lt_Some, Hi).
    unfold STR_SIZE. lia.
  - apply Forall_forall. intros v Hv.
    apply elem_of_take in Hv as (j & Hj & _).
    destruct (Hws v) as [Hv _]; [eapply list_elem_of_lookup_2, Hj | exact Hv].
Qed.

(** Two continuations that agree give the same run. *)
Lemma bind_ext {A B} (c : M A) (k1 k2 : A -> M B) s :
  (forall a s', k1 a s' = k2 a s') -> bind c k1 s = bind c k2 s.
Proof. intros H. unfold bind. destruct (c s); auto. Qed.

Lemma first_row_fits (ls : list Text.tline) cells ls' :
  Forall Text.names_fit ls -> first_row ls = (Some cells, ls') ->
  Forall (fun c => Z.of_nat (length (fst c)) < STR_SIZE) cells.
Proof.
  intros Hfit Hfirst. induction Hfit as [|l ls Hl _ IH]; [discriminate|].
  destruct l as [ws|cs]; cbn [first_row] in Hfirst; [auto|].
  injection Hfirst as <- <-. exact Hl.
Qed.

(** [read_names] on the characters of well-formed lines, whatever follows
    the last newline. *)
Lemma read_names_on_text (X : Extern) (ls : list Text.tline) (tail : list ascii) (s : state) :
  0 <= MAX_UNITS X ->
  Forall Text.line_ok ls -> Forall Text.names_fit ls -> Text.unterminated tail ->
  Text.read_names X (Text.fopen (Text.text ls ++ tail))
    (Text.alloc_names (MAX_UNITS X) STR_SIZE) s
  = bind (read_names X (map Text.line_fields ls))
         (fun r => let '(names, n, fp') := r in
                   ret (n, Text.table_of (MAX_UNITS X) names,
                        Text.fopen (Text.text (drop (length ls - length fp') ls) ++ tail))) s.
Proof.
  intros Hmax Hok Hfit Htail.
  pose proof (first_row_fields ls Hok) as Hrow.
  rewrite (read_names_first_row X ls Hok).
  unfold Text.read_names. cbn [Text.fopen Text.rest].
  change {| Text.rest := Text.text ls ++ tail; Text.eof := false |}
    with (Text.fopen (Text.text ls ++ tail)).
  rewrite (next_line_first_row_more ls tail Hok Htail)
    by (pose proof (text_length ls); rewrite length_app; lia).
  destruct (first_row ls) as [[cells|] ls'] eqn:Hfirst; [|reflexivity].
  destruct Hrow as (Hne & Hcells & Hlen & Hshorter & Hdrop).
  pose proof (first_row_fits ls cells ls' Hfit Hfirst) as Hfits.
  rewrite (cstr_no_NUL _ (line_text_no_NUL (Text.Row cells)
                             (conj Hlen (conj Hne Hcells)))).
  change (Text.line_text (Text.Row cells)) with (cells_text cells ++ [Text.newline]).
  rewrite lacks_newline_snoc.
  assert (Hsrc : cells_text cells ++ [Text.newline] = src_of cells)
    by (destruct cells; [congruence | reflexivity]).
  assert (Halloc : Text.alloc_names (MAX_UNITS X) STR_SIZE
                   = [] ++ zeros (Z.to_nat (MAX_UNITS X) + 0)).
  { unfold Text.alloc_names, zeros. cbn [app]. f_equal. unfold STR_SIZE. lia. }
  rewrite Hsrc, Halloc.
  unfold bind at 1.
  change 0 with (Z.of_nat 0) at 1.
  rewrite (chop_names_cells cells Hcells Hfits (Z.to_nat (MAX_UNITS X)) 0 [] 0 eq_refl).
  cbn [lift ret app Nat.add].
  destruct (Z.ltb_spec (MAX_UNITS X) (Z.of_nat (length cells))) as [Hmany|Hfew].
  + rewrite Nat.min_l by lia.
    destruct (drop (Z.to_nat (MAX_UNITS X)) cells) as [|c rest] eqn:Hrest.
    { apply (f_equal length) in Hrest. rewrite length_drop in Hrest.
      simpl in Hrest. lia. }
    unfold src_of. rewrite cells_text_cons.
    destruct (row_starts_with_word (c :: rest)) as (a & more & E & _);
      [discriminate | |].
    { clear -Hcells Hrest. revert Hrest. generalize (Z.to_nat (MAX_UNITS X)).
      intros k. revert cells Hcells. induction k as [|k IHk]; intros cells Hcells Hrest.
      - rewrite drop_0 in Hrest. rewrite <- Hrest. exact Hcells.
      - destruct cells as [|[w sep] cells]; [discriminate|].
        apply cells_ok_cons in Hcells as (_ & _ & _ & Hcells).
        apply (IHk cells Hcells Hrest). }
    rewrite cells_text_cons in E. rewrite E.
    rewrite Z2Nat.id, Z.eqb_refl by lia. reflexivity.
  + rewrite Nat.min_r by lia.
    rewrite drop_ge, take_ge by lia. cbn [src_of].
    unfold bind, ret.
    rewrite length_map, <- Hdrop.
    rewrite <- (map_map fst string_of_list_ascii), table_of_rows, length_map.
    rewrite map_map.
    replace (zeros (Z.to_nat (MAX_UNITS X) - length cells + 0))
      with (replicate (Z.to_nat (STR_SIZE * (MAX_UNITS X - Z.of_nat (length cells))))
              Text.NUL); [reflexivity|].
    unfold zeros. f_equal. unfold STR_SIZE. lia.
Qed.

(** Row [i] of the table [read_names] has filled holds name [i]. *)
Lemma read_names_table (X : Extern) (ls : list Text.tline) (s : state) :
  Forall Text.line_ok ls -> Forall Text.names_fit ls ->
  forall names n fp' s',
    read_names X (map Text.line_fields ls) s = Ret (names, n, fp') s' ->
    forall i name, names !! i = Some name ->
      Text.name_str (Text.table_of (MAX_UNITS X) names) (Z.of_nat i)
      = list_ascii_of_string name.
Proof.
  intros Hok Hfit names n fp' s' H i name Hi.
  pose proof (first_row_fields ls Hok) as Hrow.
  rewrite (read_names_first_row X ls Hok) in H.
  destruct (first_row ls) as [[cells|] ls'] eqn:Hfirst; [|discriminate].
  destruct Hrow as (Hne & Hcells & Hlen & Hshorter & Hdrop).
  pose proof (first_row_fits ls cells ls' Hfit Hfirst) as Hfits.
  destruct (MAX_UNITS X <? Z.of_nat (length cells)); [discriminate|].
  injection H as <- <- <- <-.
  rewrite <- (map_map fst string_of_list_ascii) in *.
  rewrite list_lookup_fmap in Hi.
  destruct (map fst cells !! i) as [w|] eqn:Hw; [|discriminate].
  injection Hi as <-. rewrite list_ascii_of_string_of_list_ascii.
  apply name_str_table_of; [|exact Hw].
  apply Forall_forall. intros v Hv. apply list_elem_of_fmap in Hv as ([v' sep] & -> & Hv).
  cbn [fst]. rewrite Forall_forall in Hfits. split; [apply (Hfits (v', sep) Hv)|].
  clear -Hcells Hv. induction cells as [|[w0 s0] cells IH]; [inversion Hv|].
  apply cells_ok_cons in Hcells as (Hw0 & _ & _ & Hcells).
  apply elem_of_cons in Hv as [[= -> ->]|Hv]; [apply word_no_NUL, Hw0 | auto].
Qed.

(** On a trace whose names line is well formed and whose names fit their
    rows, the character-level [read_names] (lines 352-383: [fgets], the
    [strtok] test for an empty line, the chopping loop with [sscanf] and
    [isspace]), reading into the table [alloc_names] returns, does what the
    driver's reading of the field lists does: the same exit with the same
    message when the names run out or exceed [MAX_UNITS]; otherwise the same
    count, the stream left at the line after the names, and row [i] of the
    table holding name [i]. *)
Theorem read_names_agrees_with_fields (X : Extern) (ls : list Text.tline) (s : state) :
  0 <= MAX_UNITS X ->
  Forall Text.line_ok ls -> Forall Text.names_fit ls ->
  Text.read_names X (Text.fopen (Text.text ls)) (Text.alloc_names (MAX_UNITS X) STR_SIZE) s
  = bind (read_names X (map Text.line_fields ls))
         (fun r => let '(names, n, fp') := r in
                   ret (n, Text.table_of (MAX_UNITS X) names,
                        Text.fopen (Text.text (drop (length ls - length fp') ls)))) s
  /\ forall names n fp' s',
       read_names X (map Text.line_fields ls) s = Ret (names, n, fp') s' ->
       forall i name, names !! i = Some name ->
         Text.name_str (Text.table_of (MAX_UNITS X) names) (Z.of_nat i)
         = list_ascii_of_string name.
Proof.
  intros Hmax Hok Hfit. split; [|apply read_names_table; assumption].
  rewrite <- (app_nil_r (Text.text ls)).
  rewrite (read_names_on_text X ls [] s Hmax Hok Hfit unterminated_nil).
  apply bind_ext. intros [[names n] fp'] s'. rewrite app_nil_r. reflexivity.
Qed.


(** *** The values lines *)

Lemma chop_vals_step (X : Extern) n i c src temp vals :
  Text.chop_vals X (S n) i (c :: src) temp vals
  = let '(r, w) := Text.sscanf_s (c :: src) in
    let temp' := if r =? 1 then w else temp in
    rbind (if r =? 0 then Fatal "invalid format of values"
           else if r =? Text.EOF then Ok vals
           else match scan_lf X (string_of_list_ascii (c :: src)) with
                | Some d => store vals i d
                | None => Fatal "invalid format of values"
                end)
          (fun vals' =>
             let len := length temp' in
             if (length (c :: src) <? len)%nat
             then Fault "src moved past the end of the line"
             else Text.chop_vals X n (i + 1) (skip_space (drop len (c :: src))) temp' vals').
Proof. reflexivity. Qed.

Lemma scan_fields_acc (X : Extern) (fields : list string) :
  forall acc,
    rfold (fun acc f =>
             match scan_lf X f with
             | Some d => Ok (acc ++ [d])
             | None => Fatal "invalid format of values"
             end) fields acc
    = rbind (scan_fields X fields) (fun vs => Ok (acc ++ vs)).
Proof.
  unfold scan_fields. induction fields as [|f fields IH]; intros acc.
  - cbn. rewrite app_nil_r. reflexivity.
  - cbn [rfold]. destruct (scan_lf X f) as [d|]; [|reflexivity].
    cbn [rbind app]. rewrite (IH (acc ++ [d])), (IH [d]).
    destruct (rfold _ fields []) as [vs| |]; [|reflexivity..].
    cbn [rbind]. rewrite <- app_assoc. reflexivity.
Qed.

Lemma scan_fields_cons (X : Extern) f fields :
  scan_fields X (f :: fields)
  = match scan_lf X f with
    | Some d => rbind (scan_fields X fields) (fun vs => Ok (d :: vs))
    | None => Fatal "invalid format of values"
    end.
Proof.
  unfold scan_fields at 1. cbn [rfold].
  destruct (scan_lf X f) as [d|]; [|reflexivity].
  cbn [rbind app]. apply scan_fields_acc.
Qed.

Lemma scan_fields_length (X : Extern) fields vs :
  scan_fields X fields = Ok vs -> length vs = length fields.
Proof.
  revert vs. induction fields as [|f fields IH]; intros vs.
  - intros [= <-]. reflexivity.
  - rewrite scan_fields_cons. destruct (scan_lf X f); [|discriminate].
    destruct (scan_fields X fields) as [vs'| |]; [|discriminate..].
    intros [= <-]. cbn [length]. rewrite (IH vs' eq_refl). reflexivity.
Qed.

(** The chopping loop of [read_vals] over the cells of a row. *)
Lemma chop_vals_cells (X : Extern) (cells : list (list ascii * list ascii)) :
  scans_first_word X -> Text.cells_ok cells ->
  forall (n i : nat) (temp : list ascii) (vals : list Z),
    (i + n <= length vals)%nat ->
    Text.chop_vals X n (Z.of_nat i) (src_of cells) temp vals
    = rbind (scan_fields X (take n (map (fun c => string_of_list_ascii (fst c)) cells)))
            (fun vs => Ok (Z.of_nat (i + min n (length cells)), src_of (drop n cells),
                           take i vals ++ vs ++ drop (i + length vs) vals)).
Proof.
  intros Hlf. induction cells as [|[w sep] cells IH]; intros Hok n i temp vals Hlen.
  - cbn [src_of map]. rewrite take_nil, drop_nil, Nat.min_0_r.
    cbn [scan_fields rfold rbind app length src_of].
    rewrite !Nat.add_0_r, take_drop. destruct n; reflexivity.
  - apply cells_ok_cons in Hok as (Hw & Hsep & Hnext & Hrest).
    destruct n as [|n].
    + cbn [take drop min map]. cbn [scan_fields rfold rbind app length].
      rewrite !Nat.add_0_r, take_drop.
      unfold src_of at 1 2. rewrite cells_text_cons. cbn [fst snd].
      destruct Hw as [Hne Hw]. destruct w as [|c w]; [congruence|]. reflexivity.
    + assert (Hsrc : src_of ((w, sep) :: cells)
                     = w ++ sep ++ cells_text cells ++ [Text.newline]).
      { unfold src_of. rewrite cells_text_cons. cbn [fst snd].
        rewrite <- !app_assoc. reflexivity. }
      assert (Hmore : match sep ++ cells_text cells ++ [Text.newline] with
                      | [] => True
                      | c :: _ => isspace c = true
                      end).
      { destruct sep as [|c sep].
        - destruct cells as [|c cells]; [reflexivity|].
          exfalso. apply Hnext; [discriminate | reflexivity].
        - apply Forall_cons in Hsep as [[Hc _] _]. exact Hc. }
      rewrite Hsrc.
      pose proof Hw as [Hne _]. destruct w as [|c w'] eqn:Ew; [congruence|].
      rewrite <- Ew in *.
      assert (Hcons : w ++ sep ++ cells_text cells ++ [Text.newline]
                      = c :: (drop 1 w ++ sep ++ cells_text cells ++ [Text.newline])).
      { rewrite Ew. reflexivity. }
      rewrite Hcons, chop_vals_step, <- Hcons.
      rewrite (sscanf_s_word w _ Hw Hmore). cbn [Z.eqb Pos.eqb Text.EOF].
      rewrite (Hlf w _ Hw Hmore).
      cbn [map take fst]. rewrite scan_fields_cons.
      destruct (scan_lf X (string_of_list_ascii w)) as [d|]; [|reflexivity].
      assert (Hst : store vals (Z.of_nat i) d = Ok (<[i := d]> vals)).
      { apply store_Ok. rewrite Nat2Z.id. split; [lia | reflexivity]. }
      rewrite Hst. cbn [rbind].
      destruct (Nat.ltb_spec (length (w ++ sep ++ cells_text cells ++ [Text.newline]))
                  (length w)) as [Hlt|_].
      { rewrite length_app in Hlt. lia. }
      rewrite drop_app_length.
      rewrite skip_space_app by (apply sep_spaces, Hsep).
      rewrite skip_space_src_of by exact Hrest.
      replace (Z.of_nat i + 1) with (Z.of_nat (S i)) by lia.
      rewrite (IH Hrest n (S i) w (<[i := d]> vals))
        by (rewrite length_insert; lia).
      destruct (scan_fields X _) as [vs| |]; [|reflexivity..].
      cbn [rbind drop length min]. f_equal. f_equal; [f_equal; lia|].
      rewrite (take_S_r _ _ d) by (apply list_lookup_insert_eq; lia).
      rewrite take_insert_ge by lia.
      rewrite drop_insert_lt by lia.
      rewrite <- app_assoc. cbn [app length].
      replace (S i + length vs)%nat with (i + S (length vs))%nat by lia. reflexivity.
Qed.

Lemma read_vals_fields_first_row (X : Extern) (ls : list Text.tline) vals :
  Forall Text.line_ok ls ->
  Text.read_vals_fields X (map Text.line_fields ls) vals
  = match first_row ls with
    | (Some cells, ls') =>
        bind (read_vals_line X (map (fun c => string_of_list_ascii (fst c)) cells) vals)
             (fun r => ret (fst r, snd r, map Text.line_fields ls'))
    | (None, _) => ret (0, vals, [])
    end.
Proof.
  induction 1 as [|l ls Hl _ IH]; [reflexivity|].
  destruct l as [ws|cells]; cbn [map Text.line_fields first_row Text.read_vals_fields].
  - exact IH.
  - destruct Hl as [_ [Hne _]]. destruct cells as [|c cells]; [congruence|].
    reflexivity.
Qed.

(** The loop of [main] is [while ((num = read_vals(pin, vals)) != 0)]. *)
Lemma trace_loop_reads (X : Extern) (fr : frame) (fp : list (list string)) :
  forall (l : locals X) s,
    trace_loop X fr fp l s
    = bind (Text.read_vals_fields X fp (vals l))
           (fun r => let '(num, vals', fp') := r in
                     if num =? 0 then ret l
                     else bind (trace_row X fr num vals' l) (trace_loop X fr fp')) s.
Proof.
  induction fp as [|fields fp IH]; intros l s; [reflexivity|].
  destruct fields as [|f fields]; [apply IH|].
  cbn [trace_loop Text.read_vals_fields]. unfold bind at 1 3 4.
  destruct (read_vals_line X (f :: fields) (vals l) s) as [[num v] s1|code s1|w s1] eqn:Hr;
    [|reflexivity..].
  cbn [ret fst snd].
  assert (num = Z.of_nat (length (f :: fields))) as ->.
  { unfold read_vals_line in Hr. apply bind_Ret in Hr as (vs & s2 & _ & Hr).
    destruct (MAX_UNITS X <? _); [discriminate|]. injection Hr as <- _ _. reflexivity. }
  reflexivity.
Qed.


(** [read_vals] on the characters of well-formed lines, whatever follows
    the last newline. *)
Lemma read_vals_on_text
      (X : Extern) (ls : list Text.tline) (tail : list ascii) (vals0 : list Z) (s : state) :
  0 <= MAX_UNITS X -> MAX_UNITS X <= Z.of_nat (length vals0) ->
  Forall Text.line_ok ls -> scans_first_word X -> Text.unterminated tail ->
  Text.read_vals X (Text.fopen (Text.text ls ++ tail)) vals0 s
  = bind (Text.read_vals_fields X (map Text.line_fields ls) vals0)
         (fun r => let '(n, vals', fp') := r in
                   ret (n, vals',
                        if n =? 0 then {| Text.rest := []; Text.eof := true |}
                        else Text.fopen (Text.text (drop (length ls - length fp') ls)
                                         ++ tail))) s.
Proof.
  intros Hmax Hvals Hok Hlf Htail.
  pose proof (first_row_fields ls Hok) as Hrow.
  rewrite (read_vals_fields_first_row X ls vals0 Hok).
  unfold Text.read_vals. cbn [Text.fopen Text.rest].
  change {| Text.rest := Text.text ls ++ tail; Text.eof := false |}
    with (Text.fopen (Text.text ls ++ tail)).
  rewrite (next_line_first_row_more ls tail Hok Htail)
    by (pose proof (text_length ls); rewrite length_app; lia).
  destruct (first_row ls) as [[cells|] ls'] eqn:Hfirst; [|reflexivity].
  destruct Hrow as (Hne & Hcells & Hlen & Hshorter & Hdrop).
  rewrite (cstr_no_NUL _ (line_text_no_NUL (Text.Row cells) (conj Hlen (conj Hne Hcells)))).
  change (Text.line_text (Text.Row cells)) with (cells_text cells ++ [Text.newline]).
  rewrite lacks_newline_snoc.
  assert (Hsrc : cells_text cells ++ [Text.newline] = src_of cells)
    by (destruct cells; [congruence | reflexivity]).
  rewrite Hsrc. change 0 with (Z.of_nat 0) at 1.
  unfold bind at 1.
  rewrite (chop_vals_cells X cells Hlf Hcells) by lia.
  unfold read_vals_line. unfold bind at 2 3.
  change (rfold _ (take (Z.to_nat (MAX_UNITS X)) ?fs) [])
    with (scan_fields X (take (Z.to_nat (MAX_UNITS X)) fs)).
  destruct (scan_fields X _) as [vs|msg|w] eqn:Hscan; [|reflexivity..].
  cbn [rbind lift ret]. rewrite length_map.
  destruct (Z.ltb_spec (MAX_UNITS X) (Z.of_nat (length cells))) as [Hmany|Hfew].
  - rewrite Nat.min_l by lia.
    destruct (drop (Z.to_nat (MAX_UNITS X)) cells) as [|c rest] eqn:Hrest.
    { apply (f_equal length) in Hrest. rewrite length_drop in Hrest. simpl in Hrest. lia. }
    assert (Hnonempty : exists a more, src_of (c :: rest) = a :: more).
    { unfold src_of. rewrite cells_text_cons.
      assert (Hc : Text.cells_ok (c :: rest)).
      { clear -Hcells Hrest. revert Hrest. generalize (Z.to_nat (MAX_UNITS X)).
        intros k. revert cells Hcells.
        induction k as [|k IHk]; intros cells Hcells Hrest.
        - rewrite drop_0 in Hrest. rewrite <- Hrest. exact Hcells.
        - destruct cells as [|[w sep] cells]; [discriminate|].
          apply cells_ok_cons in Hcells as (_ & _ & _ & Hcells).
          apply (IHk cells Hcells Hrest). }
      destruct (row_starts_with_word (c :: rest)) as (a & more & E & _);
        [discriminate | exact Hc |].
      rewrite cells_text_cons in E. eauto. }
    destruct Hnonempty as (a & more & ->).
    cbn [Nat.add]. rewrite Z2Nat.id, Z.eqb_refl by lia. reflexivity.
  - rewrite Nat.min_r by lia. rewrite drop_ge by lia. cbn [src_of Nat.add].
    unfold bind, ret. cbn [fst snd]. rewrite length_map, <- Hdrop.
    assert (Hn0 : (Z.of_nat (length cells) =? 0) = false).
    { apply Z.eqb_neq. destruct cells; [congruence | simpl; lia]. }
    rewrite Hn0. rewrite take_0. reflexivity.
Qed.

(** On a trace whose lines are well formed, the character-level [read_vals]
    (lines 386-417) does what the driver's loop does on the field lists: it
    skips the empty lines, returns 0 at the end of the file, exits with the
    same message on a field that is no number or on more than [MAX_UNITS]
    fields, and otherwise returns the number of fields of the next line with
    their values stored from [vals[0]] on, the stream left behind that line.
    The loop of [main] is [while ((num = read_vals(pin, vals)) != 0)] over
    these results. *)
Theorem read_vals_agrees_with_fields
        (X : Extern) (ls : list Text.tline) (vals0 : list Z) (s : state) :
  0 <= MAX_UNITS X -> MAX_UNITS X <= Z.of_nat (length vals0) ->
  Forall Text.line_ok ls -> scans_first_word X ->
  Text.read_vals X (Text.fopen (Text.text ls)) vals0 s
  = bind (Text.read_vals_fields X (map Text.line_fields ls) vals0)
         (fun r => let '(n, vals', fp') := r in
                   ret (n, vals',
                        if n =? 0 then {| Text.rest := []; Text.eof := true |}
                        else Text.fopen (Text.text (drop (length ls - length fp') ls)))) s
  /\ forall (fr : frame) (l : locals X),
       trace_loop X fr (map Text.line_fields ls) l s
       = bind (Text.read_vals_fields X (map Text.line_fields ls) (vals l))
              (fun r => let '(num, vals', fp') := r in
                        if num =? 0 then ret l
                        else bind (trace_row X fr num vals' l) (trace_loop X fr fp')) s.
Proof.
  intros Hmax Hvals Hok Hlf. split; [|intros fr l; apply trace_loop_reads].
  rewrite <- (app_nil_r (Text.text ls)).
  rewrite (read_vals_on_text X ls [] vals0 s Hmax Hvals Hok Hlf unterminated_nil).
  apply bind_ext. intros [[n vals'] fp'] s'. rewrite app_nil_r. reflexivity.
Qed.

(** A last line that lacks its newline is not read: [fgets] meets the end of
    the file while it takes the line, and both functions test [feof] before
    they look at what was read.  [read_vals] returns 0, so that the row is not
    simulated, and [read_names] ends the run. *)
Theorem unterminated_last_line_is_dropped
        (X : Extern) (chars names : list ascii) (vals0 : list Z) (s : state) :
  Forall (fun c => c <> Text.newline) chars ->
  Z.of_nat (length chars) < LINE_SIZE - 1 ->
  Text.read_vals X (Text.fopen chars) vals0 s
  = Ret (0, vals0, {| Text.rest := []; Text.eof := true |}) s
  /\ Text.read_names X (Text.fopen chars) names s
     = Exit 1 (emit (Stderr "not enough names in trace file") s).
Proof.
  intros Hchars Hlen.
  assert (Hnext : Text.next_line (S (length chars)) (Text.fopen chars)
                  = (None, {| Text.rest := []; Text.eof := true |})).
  { cbn [Text.next_line]. unfold Text.fgets. cbn [Text.fopen Text.rest Text.eof].
    rewrite fgets_chars_end by (unfold LINE_SIZE in *; auto; lia). reflexivity. }
  unfold Text.read_vals, Text.read_names. cbn [Text.fopen Text.rest].
  change {| Text.rest := chars; Text.eof := false |} with (Text.fopen chars).
  rewrite Hnext. split; reflexivity.
Qed.

(** *** The sample scanner *)

Lemma space_no_digit c : isspace c = true -> digit_of c = None.
Proof.
  unfold isspace, digit_of. intros H.
  destruct (Nat.leb_spec 48 (nat_of_ascii c)), (Nat.leb_spec (nat_of_ascii c) 57);
    cbn [andb]; try reflexivity.
  apply orb_true_iff in H as [H|H].
  - apply andb_true_iff in H as [_ H]. apply Nat.leb_le in H. lia.
  - apply Nat.eqb_eq in H. lia.
Qed.

Lemma scan_digits_first_word (l more : list ascii) :
  match more with [] => True | c :: _ => isspace c = true end ->
  forall acc, scan_digits (l ++ more) acc = scan_digits l acc.
Proof.
  intros Hmore. induction l as [|c l IH]; intros acc.
  - destruct more as [|c more]; [reflexivity|].
    cbn [app scan_digits]. rewrite (space_no_digit c Hmore). reflexivity.
  - cbn [app scan_digits]. destruct (digit_of c); [apply IH | reflexivity].
Qed.

Lemma scan_d_first_word : scans_first_word Sample.X.
Proof.
  intros w more Hw Hmore. cbn [scan_lf Sample.X]. unfold scan_d.
  rewrite !list_ascii_of_string_of_list_ascii.
  pose proof (word_no_space w Hw) as Hns. destruct Hw as [Hne _].
  destruct w as [|c w]; [congruence|].
  apply Forall_cons in Hns as [Hc _].
  cbn [app]. rewrite !skip_space_word by exact Hc.
  destruct c as [[] [] [] [] [] [] [] []];
    rewrite ?(scan_digits_first_word _ more Hmore);
    try reflexivity;
    change (?a :: w ++ more) with ((a :: w) ++ more);
    rewrite (scan_digits_first_word _ more Hmore); reflexivity.
Qed.


Ltac line_ok_tac :=
  repeat first
    [ apply Forall_nil_2
    | apply Forall_cons_2
    | split
    | discriminate
    | reflexivity
    | exact Logic.I
    | (unfold LINE_SIZE, STR_SIZE; vm_compute; reflexivity) ].

(** The names line of the sample trace. *)
Lemma read_names_agrees_witness :
  Text.read_names Sample.X (Text.fopen (Text.text Sample_trace.lines))
    (Text.alloc_names (MAX_UNITS Sample.X) STR_SIZE) (Sample.start ∅ Sample.io_ok)
  = bind (read_names Sample.X (map Text.line_fields Sample_trace.lines))
         (fun r => let '(names, n, fp') := r in
                   ret (n, Text.table_of (MAX_UNITS Sample.X) names,
                        Text.fopen (Text.text (drop (length Sample_trace.lines - length fp')
                                                 Sample_trace.lines))))
         (Sample.start ∅ Sample.io_ok)
  /\ forall names n fp' s',
       read_names Sample.X (map Text.line_fields Sample_trace.lines)
         (Sample.start ∅ Sample.io_ok) = Ret (names, n, fp') s' ->
       forall i name, names !! i = Some name ->
         Text.name_str (Text.table_of (MAX_UNITS Sample.X) names) (Z.of_nat i)
         = list_ascii_of_string name.
Proof.
  apply (read_names_agrees_with_fields Sample.X Sample_trace.lines
           (Sample.start ∅ Sample.io_ok)).
  - vm_compute. discriminate.
  - unfold Sample_trace.lines. line_ok_tac.
  - unfold Sample_trace.lines. line_ok_tac.
Defined.

(** The values line of the sample trace, and the end of the file after it. *)
Lemma read_vals_agrees_witness :
  let ls := drop 2 Sample_trace.lines in
  let vals0 := replicate (Z.to_nat 8192) 0 in
  let s := Sample.start ∅ Sample.io_ok in
  Text.read_vals Sample.X (Text.fopen (Text.text ls)) vals0 s
  = bind (Text.read_vals_fields Sample.X (map Text.line_fields ls) vals0)
         (fun r => let '(n, vals', fp') := r in
                   ret (n, vals',
                        if n =? 0 then {| Text.rest := []; Text.eof := true |}
                        else Text.fopen (Text.text (drop (length ls - length fp') ls)))) s
  /\ forall (fr : frame) (l : locals Sample.X),
       trace_loop Sample.X fr (map Text.line_fields ls) l s
       = bind (Text.read_vals_fields Sample.X (map Text.line_fields ls) (vals l))
              (fun r => let '(num, vals', fp') := r in
                        if num =? 0 then ret l
                        else bind (trace_row Sample.X fr num vals' l)
                                  (trace_loop Sample.X fr fp')) s.
Proof.
  intros ls vals0 s.
  apply (read_vals_agrees_with_fields Sample.X ls vals0 s).
  - vm_compute. discriminate.
  - vm_compute. discriminate.
  - unfold ls, Sample_trace.lines. cbn [drop]. line_ok_tac.
  - exact scan_d_first_word.
Defined.

(** A trace that ends in the row [1 2] without a newline. *)
Lemma unterminated_last_line_witness :
  let chars := ["1"; " "; "2"]%char in
  Text.read_vals Sample.X (Text.fopen chars) [0; 0] (Sample.start ∅ Sample.io_ok)
  = Ret (0, [0; 0], {| Text.rest := []; Text.eof := true |}) (Sample.start ∅ Sample.io_ok)
  /\ Text.read_names Sample.X (Text.fopen chars) [] (Sample.start ∅ Sample.io_ok)
     = Exit 1 (emit (Stderr "not enough names in trace file") (Sample.start ∅ Sample.io_ok)).
Proof.
  intros chars.
  apply (unterminated_last_line_is_dropped Sample.X chars [] [0; 0]
           (Sample.start ∅ Sample.io_ok)).
  - unfold chars. repeat (apply Forall_cons_2; [discriminate|]). apply Forall_nil_2.
  - vm_compute. reflexivity.
Defined.


(** *** A names line that starts with a blank *)

Lemma drop_word_ok (w : list ascii) (k : nat) :
  Text.word_ok w -> (k < length w)%nat -> Text.word_ok (drop k w).
Proof.
  intros [_ Hw] Hk. split.
  - intros E. apply (f_equal length) in E. rewrite length_drop in E. simpl in E. lia.
  - apply Forall_drop, Hw.
Qed.

(** The chopping loop takes the word it has just read for the length of what
    it has consumed, so white space before the first name is not skipped over:
    a names line of one name [w] after [k] blanks is read as two names, [w]
    and then the last [k] characters of [w] again (all of [w] when it is no
    longer than that). *)
Theorem names_line_with_leading_blank
        (X : Extern) (lead w more : list ascii) (s : state) :
  2 <= MAX_UNITS X ->
  lead <> [] -> Text.sep_ok lead -> Text.word_ok w ->
  Z.of_nat (length w) < STR_SIZE ->
  Z.of_nat (length lead + length w + 1) < LINE_SIZE ->
  Text.read_names X (Text.fopen (lead ++ w ++ Text.newline :: more))
    (Text.alloc_names (MAX_UNITS X) STR_SIZE) s
  = Ret (2,
         Text.table_of (MAX_UNITS X)
           [string_of_list_ascii w;
            string_of_list_ascii (drop (length w - length lead) w)],
         Text.fopen more) s.
Proof.
  intros Hmax Hlead Hsep Hw Hfit Hlen.
  set (again := drop (length w - length lead) w).
  assert (Hagain : Text.word_ok again).
  { apply drop_word_ok; [exact Hw|]. destruct Hw as [Hne _].
    destruct w; [congruence|]. destruct lead; [congruence|]. simpl. lia. }
  assert (Hfit2 : Z.of_nat (length again) < STR_SIZE).
  { unfold again. rewrite length_drop. lia. }
  pose proof (word_no_space w Hw) as Hns.
  assert (Hhead : exists c w', w = c :: w' /\ isspace c = false).
  { destruct Hw as [Hne _]. destruct w as [|c w']; [congruence|].
    apply Forall_cons in Hns as [Hc _]. eauto. }
  destruct Hhead as (c & w' & Ew & Hc).
  set (line := lead ++ w ++ [Text.newline]).
  assert (Hline : lead ++ w ++ Text.newline :: more = (lead ++ w) ++ Text.newline :: more)
    by (rewrite <- app_assoc; reflexivity).
  assert (Hnonl : Forall (fun c => c <> Text.newline) (lead ++ w)).
  { apply Forall_app_2; [apply sep_no_newline, Hsep | apply word_no_newline, Hw]. }
  assert (Hnonul : Forall (fun c => c <> Text.NUL) line).
  { unfold line. repeat apply Forall_app_2.
    - apply sep_no_NUL, Hsep.
    - apply word_no_NUL, Hw.
    - repeat constructor. discriminate. }
  assert (Htoken : Text.has_token line = true).
  { unfold line, Text.has_token. rewrite existsb_app, Ew. cbn [app existsb].
    destruct (Text.is_delim c) eqn:Hd; [apply delim_isspace in Hd; congruence|].
    cbn [negb orb]. apply orb_true_r. }
  assert (Hnl : Text.lacks_newline line = false).
  { unfold line. rewrite app_assoc. apply lacks_newline_snoc. }
  assert (Hget : forall k, Text.next_line (S k) (Text.fopen (lead ++ w ++ Text.newline :: more))
                           = (Some line, Text.fopen more)).
  { intros k. cbn [Text.next_line]. unfold Text.fgets, Text.fopen.
    cbn [Text.rest Text.eof].
    rewrite Hline, fgets_chars_line;
      [|exact Hnonl | rewrite length_app; unfold LINE_SIZE in *; lia].
    cbn [orb Text.eof]. rewrite <- app_assoc. fold line.
    rewrite (cstr_no_NUL line Hnonul), Htoken. reflexivity. }
  unfold Text.read_names. rewrite Hget.
  rewrite (cstr_no_NUL line Hnonul), Hnl.
  destruct (Z.to_nat (MAX_UNITS X)) as [|[|n]] eqn:Hn; [lia | lia |].
  assert (Halloc : Text.alloc_names (MAX_UNITS X) STR_SIZE = [] ++ zeros (S (S n))).
  { unfold Text.alloc_names, zeros. cbn [app]. f_equal. unfold STR_SIZE. lia. }
  rewrite Halloc.
  assert (Hcons : exists b tl, line = b :: tl).
  { unfold line. destruct lead; [congruence|]. cbn [app]. eauto. }
  destruct Hcons as (b & tl & Hcons).
  unfold bind at 1.
  rewrite Hcons, chop_names_step, <- Hcons.
  assert (Hscan : Text.sscanf_s line = (1, w)).
  { unfold Text.sscanf_s, line.
    rewrite skip_space_app by (apply sep_spaces, Hsep).
    rewrite Ew at 1. cbn [app]. rewrite skip_space_word by exact Hc.
    change (c :: w' ++ [Text.newline]) with ((c :: w') ++ [Text.newline]).
    rewrite <- Ew, take_word_app by (auto; reflexivity).
    rewrite Ew. reflexivity. }
  rewrite Hscan. cbn [Z.eqb Pos.eqb].
  change (STR_SIZE * 0) with (STR_SIZE * Z.of_nat 0).
  rewrite (put_str_fresh_row [] 0 w (S n) eq_refl Hfit). cbn [rbind].
  assert (Hname : Text.name_str (([] ++ row_of w) ++ zeros (S n)) 0 = w).
  { apply (name_str_row [] 0 w _ eq_refl Hfit (word_no_NUL w Hw)). }
  rewrite !Hname.
  destruct (Nat.ltb_spec (length line) (length w)) as [Hlt|_].
  { unfold line in Hlt. rewrite !length_app in Hlt. lia. }
  assert (Hnext : skip_space (drop (length w) line) = src_of [(again, [])]).
  { unfold src_of, cells_text. cbn [map concat fst snd app]. rewrite !app_nil_r.
    unfold line. destruct (le_lt_dec (length w) (length lead)) as [Hle|Hgt].
    - rewrite drop_app_le by exact Hle.
      rewrite skip_space_app by (apply Forall_drop, sep_spaces, Hsep).
      unfold again. replace (length w - length lead)%nat with 0%nat by lia.
      rewrite drop_0. rewrite Ew. cbn [app]. apply skip_space_word, Hc.
    - rewrite drop_app_ge by lia.
      rewrite drop_app_le by lia. fold again.
      destruct Hagain as [Hne' Ha]. destruct again as [|a again']; [congruence|].
      apply Forall_cons in Ha as [[Ha _] _]. cbn [app]. apply skip_space_word, Ha. }
  rewrite Hnext. change (0 + 1) with (Z.of_nat 1).
  replace (zeros (S n)) with (zeros (S n + 0)) by (f_equal; lia).
  assert (Hck : Text.cells_ok [(again, [])]) by (split; [exact Hagain | constructor]).
  assert (Hcf : Forall (fun c : list ascii * list ascii => Z.of_nat (length (fst c)) < STR_SIZE)
                  [(again, [])]) by (constructor; [exact Hfit2 | constructor]).
  rewrite (chop_names_cells [(again, [])] Hck Hcf (S n) 1 ([] ++ row_of w) 0).
  - cbn [length min drop take map concat fst lift Nat.add app].
    rewrite drop_nil, take_nil, Nat.min_0_r.
    match goal with |- context [zeros ?k] => replace k with n by lia end.
    cbn [src_of map concat]. rewrite app_nil_r. unfold ret. f_equal. f_equal. f_equal.
    change [string_of_list_ascii w; string_of_list_ascii again]
      with (map string_of_list_ascii [w; again]).
    rewrite table_of_rows. cbn [map concat length]. rewrite app_nil_r, <- !app_assoc.
    f_equal. f_equal. unfold zeros. f_equal. unfold STR_SIZE. lia.
  - cbn [app]. rewrite length_row_of by exact Hfit. unfold STR_SIZE. lia.
Qed.

(** The names line [ AB]. *)
Lemma names_line_with_leading_blank_witness :
  Text.read_names Sample.X (Text.fopen ([" "] ++ ["A"; "B"] ++ Text.newline :: [])%char)
    (Text.alloc_names (MAX_UNITS Sample.X) STR_SIZE) (Sample.start ∅ Sample.io_ok)
  = Ret (2,
         Text.table_of (MAX_UNITS Sample.X)
           [string_of_list_ascii ["A"; "B"]%char;
            string_of_list_ascii (drop (length ["A"; "B"]%char - length [" "]%char)
                                    ["A"; "B"]%char)],
         Text.fopen []) (Sample.start ∅ Sample.io_ok).
Proof.
  apply (names_line_with_leading_blank Sample.X [" "]%char ["A"; "B"]%char []
           (Sample.start ∅ Sample.io_ok)).
  - vm_compute. discriminate.
  - discriminate.
  - line_ok_tac.
  - line_ok_tac.
  - vm_compute. reflexivity.
  - vm_compute. reflexivity.
Defined.


(** ** Options left out *)

(** [p] is the only option [global_config_from_strs] requires.  Without it
    the process ends with status 1 after one message on stderr, whatever else
    the table holds.  With it and none of the others, every file name is
    [NULLFILE], [detailed_3D] is "off", [use_microchannels] is 0, the voltage
    vector is empty and the trace index is that of a stand-alone run
    ([(unsigned) -1]). *)
Theorem p_is_the_only_required_option
        (X : Extern) (table : list (string * string)) (s : state) :
  (table_value table "p" = None ->
   exists msg, global_config_from_strs X table s = Exit 1 (emit (Stderr msg) s))
  /\ (forall v w,
        table_value table "p" = Some v -> scan_s v = Some w ->
        Forall (fun k => table_value table k = None) optional_keys ->
        global_config_from_strs X table s
        = Ret {| flp_file := NULLFILE; p_infile := w; pTot_outfile := NULLFILE;
                 t_outfile := NULLFILE; config_file := NULLFILE; dump_config := NULLFILE;
                 detailed_3D := "off"; use_microchannels := 0;
                 materials_file := NULLFILE |}
              (set_trace_num (to_uint (-1)) (set_volt_vector "" s))).
Proof.
  split.
  - intros Hp. unfold global_config_from_strs. unfold bind at 1.
    unfold str_param at 1.
    destruct (table_value table "f") as [v|].
    + destruct (scan_s v); [|eexists; reflexivity].
      cbn [ret]. unfold bind at 1. rewrite Hp. eexists. reflexivity.
    + cbn [ret]. unfold bind at 1. rewrite Hp. eexists. reflexivity.
  - intros v w Hp Hw Hnone. unfold optional_keys in Hnone.
    repeat match goal with
           | H : Forall _ (_ :: _) |- _ => apply Forall_cons in H as [? H]
           end.
    unfold global_config_from_strs, str_param, txrx_param.
    repeat match goal with
           | H : table_value table _ = _ |- _ => rewrite H; clear H
           end.
    rewrite Hw. reflexivity.
Qed.

(** A command line that names the power trace and nothing else. *)
Lemma p_is_the_only_required_witness :
  global_config_from_strs Sample.X [("p", "gcc.ptrace")]%string (Sample.start ∅ Sample.io_ok)
  = Ret {| flp_file := NULLFILE; p_infile := "gcc.ptrace"; pTot_outfile := NULLFILE;
           t_outfile := NULLFILE; config_file := NULLFILE; dump_config := NULLFILE;
           detailed_3D := "off"; use_microchannels := 0;
           materials_file := NULLFILE |}
        (set_trace_num (to_uint (-1)) (set_volt_vector "" (Sample.start ∅ Sample.io_ok))).
Proof.
  apply (proj2 (p_is_the_only_required_option Sample.X [("p", "gcc.ptrace")]%string
                  (Sample.start ∅ Sample.io_ok)) "gcc.ptrace"%string "gcc.ptrace"%string).
  - reflexivity.
  - reflexivity.
  - unfold optional_keys. repeat (apply Forall_cons_2; [reflexivity|]). apply Forall_nil_2.
Defined.

(** ** C6: the temperature trace, row by row *)

Lemma omap_total {A B} (f : A -> option B) (g : A -> B) (l : list A) :
  (forall x, x ∈ l -> f x = Some (g x)) -> omap f l = map g l.
Proof.
  induction l as [|x l IH]; intros H; [reflexivity|].
  change (omap f (x :: l))
    with (match f x with Some y => y :: omap f l | None => omap f l end).
  rewrite (H x) by left. cbn [map]. rewrite IH; [reflexivity|].
  intros y Hy. apply H. right. exact Hy.
Qed.

Lemma temperature_row_used g g' names0 T :
  used_layers g = used_layers g' -> temperature_row g names0 T = temperature_row g' names0 T.
Proof. unfold temperature_row, node_of. intros ->. reflexivity. Qed.

(** The line [write_vals] prints after the loop of lines 837-848 is the row
    of the temperatures of the nodes the header names. *)
Lemma temperature_row_of_vals g names0 (v last : list Z) nodes k :
  1 <= k -> k = Z.of_nat (length names0) -> k = n_columns (used_layers g) ->
  names_nodes g names0 nodes ->
  (forall i node, nodes !! i = Some node -> load last node = Ok (val_at v (Z.of_nat i))) ->
  vals_line v k = temperature_row g names0 last
  /\ exists temps,
      temperature_row g names0 last = tabbed (map F2 temps)
      /\ length temps = length names0.
Proof.
  intros Hk Hnames Hcols [Hlen Hn] Hload.
  assert (E : omap (fun c => node_of g names0 c ≫= fun node => last !! Z.to_nat node)
                   (upto (Z.of_nat (length names0)))
              = map (val_at v) (upto k)).
  { rewrite <- Hnames. apply omap_total. intros c Hc. unfold upto in Hc.
    apply elem_of_seqZ in Hc.
    destruct (lookup_lt_is_Some_2 nodes (Z.to_nat c)) as [node Hnode]; [lia|].
    pose proof (Hn _ _ Hnode) as Hno. rewrite Z2Nat.id in Hno by lia. rewrite Hno.
    apply Hload in Hnode. rewrite Z2Nat.id in Hnode by lia.
    apply load_Ok in Hnode as [_ Hl]. exact Hl. }
  unfold temperature_row. rewrite E.
  split; [apply vals_line_tabbed, Hk|].
  eexists. split; [reflexivity|].
  rewrite length_map. unfold upto. rewrite length_seqZ. lia.
Qed.

(** *** Ways out of a row *)

Lemma bind_Exit {A B} (c : M A) (k : A -> M B) s code s' :
  bind c k s = Exit code s' ->
  c s = Exit code s' \/ exists a s1, c s = Ret a s1 /\ k a s1 = Exit code s'.
Proof.
  unfold bind. destruct (c s) as [a s1|code1 s1|w s1]; intros H.
  - right. eauto.
  - left. injection H as <- <-. reflexivity.
  - discriminate.
Qed.

Lemma logs_Exit {A} (P : event -> Prop) (c : M A) s code s' :
  logs P c -> c s = Exit code s' -> exists evs, log s' = log s ++ evs /\ Forall P evs.
Proof. intros H Hc. specialize (H s). rewrite Hc in H. exact H. Qed.

(** An exit from [bind c k], when [c] writes no line to the temperature
    trace and [k] writes none before it exits. *)
Lemma quiet_exit_bind {A B} (c : M A) (k : A -> M B) s code s' :
  logs not_tout c ->
  (forall a s1, c s = Ret a s1 -> k a s1 = Exit code s' ->
     exists evs, log s' = log s1 ++ evs /\ Forall not_tout evs) ->
  bind c k s = Exit code s' ->
  exists evs, log s' = log s ++ evs /\ Forall not_tout evs.
Proof.
  intros Hc Hk H. destruct (Hc s) as (e & He & Hq). unfold bind in H.
  destruct (c s) as [a s1|code1 s1|w s1]; cbn [final] in He.
  - destruct (Hk a s1 eq_refl H) as (e' & He' & Hq').
    exists (e ++ e'). rewrite He', He, app_assoc.
    split; [reflexivity | apply Forall_app_2; assumption].
  - injection H as <- <-. eauto.
  - discriminate.
Qed.

Lemma rbind_Fatal {A B} (c : res A) (k : A -> res B) msg :
  rbind c k = Fatal msg -> c = Fatal msg \/ exists a, c = Ok a /\ k a = Fatal msg.
Proof.
  destruct c; cbn [rbind]; intros H; [right; eauto | left | discriminate].
  injection H as <-. reflexivity.
Qed.

Lemma for_layers_Fatal {B} (g : grid_model_t) (body : layer_t -> B -> res B) b msg :
  for_layers g body b = Fatal msg -> exists ly b', body ly b' = Fatal msg.
Proof.
  unfold for_layers. intros H. apply rfold_Fatal in H as (b' & i & _ & H).
  destruct (layers g !! Z.to_nat i) as [ly|]; [eauto | discriminate].
Qed.

Section Rows.
Context (X : Extern).

(** The running sums of lines 855-865 never end in [fatal]. *)
Lemma accumulate_not_Fatal (m : RC_model_t X) k p ov msg :
  (if is_block (type m)
   then accumulate_block X k p ov
   else accumulate_grid X (grid m) p ov) <> Fatal msg.
Proof.
  assert (Hbody : forall (ov' : list Z) j,
             (a <~ load ov' j ;; q <~ load p j ;; store ov' j (dadd X a q)) <> Fatal msg).
  { intros ov' j H. apply rbind_Fatal in H as [H|(a & _ & H)];
      [exact (load_not_Fatal _ _ _ H)|].
    apply rbind_Fatal in H as [H|(q & _ & H)]; [exact (load_not_Fatal _ _ _ H)|].
    exact (store_not_Fatal _ _ _ _ H). }
  destruct (is_block (type m)).
  - unfold accumulate_block. intros H.
    apply rfold_Fatal in H as (ov' & j & _ & H). exact (Hbody _ _ H).
  - unfold accumulate_grid. intros H.
    apply rbind_Fatal in H as [H|(st & _ & H)]; [|discriminate].
    apply for_layers_Fatal in H as (ly & [ov' base] & H).
    apply rbind_Fatal in H as [H|(ov'' & _ & H)]; [|discriminate].
    destruct (truthy (has_power ly)); [|discriminate].
    apply rfold_Fatal in H as (ov1 & j & _ & H). exact (Hbody _ _ H).
Qed.

(** The transient part of an iteration that ends the run has written no
    line to the temperature trace: what can end it comes before
    [write_vals]. *)
Lemma transient_row_Exit fr (l : locals X) s code s' :
  transient_row X fr l s = Exit code s' ->
  exists evs, log s' = log s ++ evs /\ Forall not_tout evs.
Proof.
  unfold transient_row. cbv zeta. intros H.
  eapply quiet_exit_bind; [ | | exact H]; [apply logs_natural_convection, quiet_not_tout|].
  clear H. intros l1 s1 _ H. cbv beta in H.
  eapply quiet_exit_bind; [ | | exact H]; [apply logs_get|].
  clear H. intros tn s2 _ H. cbv beta in H.
  eapply quiet_exit_bind; [ | | exact H]; [apply logs_call_compute_temp, quiet_not_tout|].
  clear H. intros r s3 _ H. cbv beta in H.
  eapply quiet_exit_bind; [ | | exact H]; [apply logs_when, logs_tell; exact I|].
  clear H. intros u s4 _ H. cbv beta in H.
  destruct (is_block (type (fst r))).
  - eapply (logs_Exit not_tout); [|exact H]. apply logs_fatal. exact I.
  - eapply quiet_exit_bind; [ | | exact H]; [apply logs_fetch|].
    clear H. intros last s5 _ H. cbv beta in H.
    eapply quiet_exit_bind; [ | | exact H]; [apply logs_lift; intros; exact I|].
    clear H. intros vv s6 _ H. cbv beta in H. exfalso.
    unfold write_vals, write_vals_power, when, tell, modify, bind, ret in H.
    destruct (truthy _); discriminate.
Qed.

Lemma trace_row_Exit fr num vals' (l : locals X) s code s' :
  trace_row X fr num vals' l s = Exit code s' ->
  exists evs, log s' = log s ++ evs /\ Forall not_tout evs.
Proof.
  unfold trace_row. cbv zeta. intros H.
  eapply quiet_exit_bind; [ | | exact H]; [apply logs_when, logs_fatal; exact I|].
  clear H. intros u s1 _ H. cbv beta in H.
  eapply quiet_exit_bind; [ | | exact H]; [apply logs_lift; intros; exact I|].
  clear H. intros pw s2 _ H. cbv beta in H.
  apply bind_Exit in H as [H|(l1 & s3 & _ & H)]; cbv beta in H.
  - destruct (do_transient fr); [eapply transient_row_Exit, H | discriminate].
  - exfalso. apply bind_Exit in H as [H|(ov & s4 & _ & H)]; [|discriminate]. cbv beta in H.
    match type of H with
    | lift ?r _ = _ => destruct r as [ov|msg|w] eqn:Hr; [discriminate | | discriminate]
    end.
    exact (accumulate_not_Fatal _ _ _ _ _ Hr).
Qed.

(** An iteration of a run without a temperature trace. *)
Lemma trace_row_Ret_steady fr num vals' (l : locals X) s l' s' :
  trace_row X fr num vals' l s = Ret l' s' ->
  do_transient fr = false ->
  num = n fr /\ model l' = model l /\ lines l' = lines l + 1 /\ s' = s.
Proof.
  unfold trace_row. intros H Hdt. rewrite Hdt in H.
  bind_inv H. apply when_fatal_Ret in H0 as [Hnum ->].
  apply negb_false_iff, Z.eqb_eq in Hnum.
  bind_inv H. apply lift_Ret in H0 as [_ ->].
  bind_inv H. injection H0 as <- <-.
  bind_inv H. apply lift_Ret in H0 as [_ ->].
  injection H as <- <-. cbn [model lines]. auto.
Qed.

Lemma names_nonempty (ns : list string) : ns <> [] -> 1 <= Z.of_nat (length ns).
Proof. destruct ns; [congruence | cbn [length]; lia]. Qed.

(** One power row, whatever its outcome: when the row has been simulated,
    a transient run has written one line, the row of the temperatures
    [last_temp] then holds; when the row ends the run, nothing has been
    written. *)
Lemma power_row_lines fr fields (l : locals X) s :
  names fr <> [] -> n fr = Z.of_nat (length (names fr)) ->
  (is_block (type (model l)) = false -> n fr = n_columns (used_layers (grid (model l)))) ->
  match power_row fr fields l s with
  | Ret l' s' =>
      same_model (model l) (model l') /\ lines l' = lines l + 1
      /\ length fields = length (names fr)
      /\ (exists evs,
            log s' = log s ++ evs
            /\ tout_lines evs
               = if do_transient fr
                 then [temperature_row (grid (model l')) (names fr) (last_temps l' s')]
                 else [])
      /\ (do_transient fr = true ->
          exists temps,
            temperature_row (grid (model l')) (names fr) (last_temps l' s')
            = tabbed (map F2 temps)
            /\ length temps = length (names fr))
  | Exit _ s' => exists evs, log s' = log s ++ evs /\ tout_lines evs = []
  | Undef _ _ => True
  end.
Proof.
  intros Hne Hn Hcols. unfold power_row.
  destruct (bind _ _ s) as [l' s'|code s'|w s'] eqn:H; [| |exact I].
  - bind_inv H. apply read_vals_line_Ret in H0 as [-> Hnum].
    destruct (do_transient fr) eqn:Hdt.
    + apply trace_row_Ret in H
        as (Hk & Hm & Hb & Hl & (e1 & e2 & Hlog & Hq1 & Hq2) & (nodes & Hnn & Hload));
        [|exact Hdt].
      assert (Hused : used_layers (grid (model l')) = used_layers (grid (model l))).
      { apply same_layers_used, Hm. }
      destruct (temperature_row_of_vals (grid (model l')) (names fr) (vals l')
                  (last_temps l' s') nodes (n fr)) as [Hline Hshape].
      { rewrite Hn. apply names_nonempty, Hne. }
      { exact Hn. }
      { rewrite Hused. apply Hcols, Hb. }
      { eapply names_nodes_used; [exact Hused | exact Hnn]. }
      { exact Hload. }
      split; [exact Hm|]. split; [exact Hl|]. split; [lia|]. split; [|intros _; exact Hshape].
      eexists. split; [exact Hlog|].
      rewrite tout_lines_app, (tout_lines_quiet e1 Hq1). cbn [app tout_lines].
      rewrite (tout_lines_quiet e2 Hq2), Hline. reflexivity.
    + apply trace_row_Ret_steady in H as (Hk & Hm & Hl & ->); [|exact Hdt].
      split; [rewrite Hm; apply same_model_refl|]. split; [exact Hl|]. split; [lia|].
      split; [|discriminate]. exists []. rewrite app_nil_r. auto.
  - apply bind_Exit in H as [H|(r & s1 & Hr & H)].
    + eapply (logs_Exit not_tout) in H as (evs & Hlog & Hq);
        [|apply logs_read_vals_line, quiet_not_tout].
      exists evs. split; [exact Hlog | apply tout_lines_quiet, Hq].
    + apply read_vals_line_Ret in Hr as [-> _].
      apply trace_row_Exit in H as (evs & Hlog & Hq).
      exists evs. split; [exact Hlog | apply tout_lines_quiet, Hq].
Qed.

Lemma trace_loop_cons fr fields fp (l : locals X) s :
  fields <> [] ->
  trace_loop X fr (fields :: fp) l s = bind (power_row fr fields l) (trace_loop X fr fp) s.
Proof.
  intros H. destruct fields as [|f fields]; [congruence|].
  cbn [trace_loop]. unfold power_row, bind.
  destruct (read_vals_line X (f :: fields) (vals l) s); reflexivity.
Qed.

(** The loop, whatever its outcome: the lines it writes to the temperature
    trace are the temperature rows of its power rows, each of one ["%.2f"]
    field per header name; when the loop comes to its end, every power row
    has as many fields as the header has names and, in a transient run, its
    temperature row. *)
Lemma trace_loop_lines fr rows :
  names fr <> [] -> n fr = Z.of_nat (length (names fr)) ->
  forall (l : locals X) s,
    (is_block (type (model l)) = false -> n fr = n_columns (used_layers (grid (model l)))) ->
    Forall (fun line => exists temps,
                line = tabbed (map F2 temps) /\ length temps = length (names fr))
           (temperature_rows fr rows l s)
    /\ match trace_loop X fr rows l s with
       | Undef _ _ => True
       | r =>
           exists evs,
             log (final r) = log s ++ evs
             /\ tout_lines evs = temperature_rows fr rows l s
             /\ match r with
                | Ret l' _ =>
                    lines l' = lines l + Z.of_nat (length (nonblank rows))
                    /\ Forall (fun row => length row = length (names fr)) (nonblank rows)
                    /\ (do_transient fr = true ->
                        length (temperature_rows fr rows l s) = length (nonblank rows))
                | _ => True
                end
       end.
Proof.
  intros Hne Hn. induction rows as [|fields rows IH]; intros l s Hcols.
  - split; [constructor|]. cbn. exists []. rewrite app_nil_r.
    repeat split; auto; lia.
  - destruct fields as [|f fields]; [apply IH, Hcols|].
    rewrite trace_loop_cons by discriminate. cbn [temperature_rows nonblank].
    pose proof (power_row_lines fr (f :: fields) l s Hne Hn Hcols) as Hrow.
    unfold bind.
    destruct (power_row fr (f :: fields) l s) as [l1 s1|code s1|w s1].
    + destruct Hrow as (Hm & Hl & Hlen & (e1 & Hlog1 & Hlines1) & Hshape).
      destruct (IH l1 s1) as [IHshape IHrun].
      { destruct Hm as [Ht Hs]. rewrite Ht, (same_layers_used _ _ Hs). exact Hcols. }
      split.
      { apply Forall_app_2; [|exact IHshape].
        destruct (do_transient fr); [|constructor].
        constructor; [apply Hshape; reflexivity | constructor]. }
      destruct (trace_loop X fr rows l1 s1) as [l2 s2|code s2|w s2]; [| |exact I].
      * destruct IHrun as (e2 & Hlog2 & Hlines2 & Hl2 & Hrows & Hcount).
        exists (e1 ++ e2). cbn [final] in *.
        split; [rewrite Hlog2, Hlog1, app_assoc; reflexivity|].
        split; [rewrite tout_lines_app, Hlines1, Hlines2; reflexivity|].
        split; [cbn [length]; lia|]. split; [constructor; assumption|].
        intros Hdt. rewrite Hdt. cbn [app length]. rewrite (Hcount Hdt). reflexivity.
      * destruct IHrun as (e2 & Hlog2 & Hlines2 & _).
        exists (e1 ++ e2). cbn [final] in *.
        split; [rewrite Hlog2, Hlog1, app_assoc; reflexivity|].
        split; [rewrite tout_lines_app, Hlines1, Hlines2; reflexivity | exact I].
    + split; [constructor|]. destruct Hrow as (evs & Hlog & Hlines).
      exists evs. cbn [final]. auto.
    + split; [constructor | exact I].
Qed.

(** *** Before the loop *)

(** The lines of [bind c k], when [c] writes none. *)
Lemma lines_bind {A B} (Q : list (list text) -> Prop) (c : M A) (k : A -> M B) s :
  logs not_tout c -> Q [] ->
  (forall a s1, c s = Ret a s1 ->
     exists evs, log (final (k a s1)) = log s1 ++ evs /\ Q (tout_lines evs)) ->
  exists evs, log (final (bind c k s)) = log s ++ evs /\ Q (tout_lines evs).
Proof.
  intros Hc HQ Hk. destruct (Hc s) as (e & He & Hq). unfold bind.
  destruct (c s) as [a s1|code s1|w s1]; cbn [final] in *.
  - destruct (Hk a s1 eq_refl) as (e' & He' & HQ').
    exists (e ++ e'). rewrite He', He, app_assoc. split; [reflexivity|].
    rewrite tout_lines_app, (tout_lines_quiet e Hq). exact HQ'.
  - exists e. split; [exact He|]. rewrite (tout_lines_quiet e Hq). exact HQ.
  - exists e. split; [exact He|]. rewrite (tout_lines_quiet e Hq). exact HQ.
Qed.

Lemma lines_quiet {A} (Q : list (list text) -> Prop) (c : M A) s :
  logs not_tout c -> Q [] ->
  exists evs, log (final (c s)) = log s ++ evs /\ Q (tout_lines evs).
Proof.
  intros Hc HQ. destruct (Hc s) as (e & He & Hq).
  exists e. split; [exact He|]. rewrite (tout_lines_quiet e Hq). exact HQ.
Qed.

Lemma names_line_first fp names0 rest :
  nonblank fp = names0 :: rest -> names_line fp = names0.
Proof. unfold names_line. intros ->. reflexivity. Qed.

(** Opening the traces, whatever the outcome: the temperature trace gets
    the header line or nothing. *)
Lemma open_traces_lines dt (m : RC_model_t X) fp s :
  exists evs,
    log (final (open_traces X dt m (Some fp) s)) = log s ++ evs
    /\ (tout_lines evs = [] \/ tout_lines evs = [tabbed (map Str (names_line fp))]).
Proof.
  unfold open_traces.
  pose (Q := fun ls : list (list text) =>
               ls = [] \/ ls = [tabbed (map Str (names_line fp))]).
  apply (lines_bind Q); [apply logs_count_units, quiet_not_tout | left; reflexivity|].
  intros k s1 _.
  apply (lines_bind Q); [apply logs_ret | left; reflexivity|]. intros fp0 s2 [= <- <-].
  apply (lines_bind Q); [apply logs_get | left; reflexivity|]. intros tout_ok s3 _.
  apply (lines_bind Q); [apply logs_when, logs_fatal; exact I | left; reflexivity|].
  intros u1 s4 _.
  apply (lines_bind Q); [apply logs_get | left; reflexivity|]. intros pout_ok s5 _.
  apply (lines_bind Q); [apply logs_when, logs_fatal; exact I | left; reflexivity|].
  intros u2 s6 _.
  apply (lines_bind Q); [apply logs_read_names, quiet_not_tout | left; reflexivity|].
  intros [[names0 cnt] fp'] s7 Hrn.
  apply read_names_Ret in Hrn as (_ & Hnb & Hnames & Hcnt). cbn [fst snd] in *.
  apply (lines_bind Q); [apply logs_when, logs_fatal; exact I | left; reflexivity|].
  intros u3 s8 Hw. apply when_fatal_Ret in Hw as [Hk _].
  apply negb_false_iff, Z.eqb_eq in Hk.
  apply (lines_bind Q); [apply logs_get | left; reflexivity|]. intros tn s9 _.
  destruct ((tn <=? to_uint 0) && dt).
  - unfold write_names at 1.
    match goal with
    | |- context [bind (tell ?e) ?K s9] =>
        change (bind (tell e) K s9) with (K tt (emit e s9));
        assert (HK : logs not_tout (K tt))
    end.
    { apply logs_bind; [apply logs_when; unfold write_names; apply logs_tell; exact I|].
      intros _. apply logs_bind; [apply logs_when; logs_tac quiet_not_tout|].
      intros _. apply logs_ret. }
    cbv beta.
    match goal with
    | |- context [emit ?e s9] => destruct (HK (emit e s9)) as (e' & He' & Hq')
    end.
    eexists. split; [rewrite He'; cbn [log emit]; rewrite <- app_assoc; reflexivity|].
    right. cbn [app tout_lines]. rewrite (tout_lines_quiet e' Hq').
    rewrite (names_line_first _ _ _ Hnb). f_equal.
    rewrite <- Hk, Hcnt. apply names_line_tabbed, Hnames.
  - apply (lines_quiet Q); [|left; reflexivity].
    destruct (_ && dt); [|apply logs_ret].
    apply logs_bind; [apply logs_load, quiet_not_tout|].
    intros [[g' region] size]. apply logs_ret.
Qed.

(** [main] is its set-up followed by the loop and what comes after it. *)
Lemma main_split (inp : input X) ptrace s :
  main X inp ptrace s = bind (before_loop inp ptrace) from_loop s.
Proof.
  unfold main, before_loop, main_after_config, run_trace.
  destruct (negb _); [reflexivity|]. unfold bind.
  destruct (global_config_from_strs X (table inp) s) as [gc s0|code s0|w s0];
    [|reflexivity..].
  destruct (parse_volt_vector s0) as [u s1|code s1|w s1]; [|reflexivity..].
  destruct (setup X gc inp s1) as [[[dt flp] l] s2|code s2|w s2]; [|reflexivity..].
  destruct (init_temps X dt (model l) s2) as [m s3|code s3|w s3]; [|reflexivity..].
  destruct (open_traces X dt m ptrace s3)
    as [[[[[[m' names0] k] fp'] region] size] s4|code s4|w s4]; reflexivity.
Qed.

(** What [main] writes to the temperature trace before its loop. *)
Lemma before_loop_lines (inp : input X) fp s :
  exists evs,
    log (final (before_loop inp (Some fp) s)) = log s ++ evs
    /\ (tout_lines evs = [] \/ tout_lines evs = [tabbed (map Str (names_line fp))]).
Proof.
  unfold before_loop.
  pose (Q := fun ls : list (list text) =>
               ls = [] \/ ls = [tabbed (map Str (names_line fp))]).
  destruct (negb _).
  { exists []. rewrite app_nil_r. auto. }
  apply (lines_bind Q); [apply logs_global_config, quiet_not_tout | left; reflexivity|].
  intros gc s0 _.
  apply (lines_bind Q); [apply logs_parse_volt_vector | left; reflexivity|]. intros u s1 _.
  apply (lines_bind Q); [apply logs_setup, quiet_not_tout | left; reflexivity|].
  intros [[dt flp] l] s2 _.
  apply (lines_bind Q); [apply logs_init_temps, quiet_not_tout | left; reflexivity|].
  intros m s3 _.
  destruct (open_traces_lines dt m fp s3) as (evs & Hlog & Hlines).
  exists evs. split; [|exact Hlines]. rewrite <- Hlog. unfold bind.
  destruct (open_traces X dt m (Some fp) s3)
    as [[[[[[m' names0] k] fp'] region] size] s4|code s4|w s4]; reflexivity.
Qed.

(** The frame and the locals the loop starts with. *)
Lemma before_loop_Ret (inp : input X) fp s fr l rows region size s1 :
  before_loop inp (Some fp) s = Ret (Some (fr, l, rows, region, size)) s1 ->
  names fr = names_line fp
  /\ nonblank fp = names fr :: nonblank rows
  /\ names fr <> [] /\ n fr = Z.of_nat (length (names fr))
  /\ (is_block (type (model l)) = false -> n fr = n_columns (used_layers (grid (model l))))
  /\ lines l = 0.
Proof.
  unfold before_loop. destruct (negb _); [discriminate|]. intros H.
  bind_as H gc s0 Hgc. bind_as H u s2 Hvolt. bind_as H r s3 Hsetup.
  apply setup_Ret in Hsetup as (_ & _ & Hl0).
  destruct r as [[dt flp] l0]. cbn [fst snd] in *.
  bind_as H m1 s4 Hinit.
  bind_as H r s5 Hopen. apply open_traces_Ret in Hopen.
  destruct r as [[[[[m2 names0] k] fp'] region0] size0].
  destruct Hopen as (Hm2 & Hnb & Hne & Hk & Hcols & _).
  injection H as <- <- <- <- <- <-. cbn [names n model lines].
  split; [symmetry; eapply names_line_first, Hnb|]. split; [exact Hnb|].
  split; [exact Hne|]. split; [exact Hk|]. split; [|exact Hl0].
  destruct Hm2 as [Ht Hl]. rewrite Ht, (same_layers_used _ _ Hl). exact Hcols.
Qed.

(** The temperature trace of a run on the fields of the lines of a power
    trace. *)
Lemma main_lines (inp : input X) fp s :
  match main X inp (Some fp) s with
  | Undef _ _ => True
  | r =>
      exists evs,
        log (final r) = log s ++ evs
        /\ match before_loop inp (Some fp) s with
           | Ret (Some (fr, l, rows, _, _)) s1 =>
               exists header,
                 tout_lines evs = header ++ temperature_rows fr rows l s1
                 /\ (header = [] \/ header = [tabbed (map Str (names fr))])
                 /\ nonblank fp = names fr :: nonblank rows
                 /\ Forall (fun line => exists temps,
                              line = tabbed (map F2 temps)
                              /\ length temps = length (names fr))
                           (temperature_rows fr rows l s1)
                 /\ match r with
                    | Ret _ _ =>
                        Forall (fun row => length row = length (names fr)) (nonblank rows)
                        /\ (do_transient fr = true ->
                            length (temperature_rows fr rows l s1)
                            = length (nonblank rows))
                    | _ => True
                    end
           | _ => tout_lines evs = [] \/ tout_lines evs = [tabbed (map Str (names_line fp))]
           end
  end.
Proof.
  rewrite main_split.
  destruct (before_loop_lines inp fp s) as (e0 & Hlog0 & Hlines0).
  pose proof (before_loop_Ret inp fp s) as Hret.
  unfold bind.
  destruct (before_loop inp (Some fp) s) as [[st|] s1|code s1|w s1]; cbn [final] in Hlog0.
  - destruct st as [[[[fr l] rows] region] size].
    destruct (Hret fr l rows region size s1 eq_refl)
      as (Hnames & Hnb & Hne & Hn & Hcols & _).
    destruct (trace_loop_lines fr rows Hne Hn l s1 Hcols) as [Hshape Hloop].
    assert (Hhdr : tout_lines e0 = [] \/ tout_lines e0 = [tabbed (map Str (names fr))]).
    { rewrite Hnames. exact Hlines0. }
    cbn [from_loop]. unfold bind.
    destruct (trace_loop X fr rows l s1) as [l2 s2|code s2|w s2]; [| |exact I].
    + destruct Hloop as (e1 & Hlog1 & Hlines1 & _ & Hrows & Hcount). cbn [final] in Hlog1.
      destruct (logs_finish_quiet X not_tout quiet_not_tout fr region size l2 s2)
        as (e2 & Hlog2 & Hq2).
      assert (Hall : exists evs,
                 log (final (finish X fr region size l2 s2)) = log s ++ evs
                 /\ tout_lines evs = tout_lines e0 ++ temperature_rows fr rows l s1).
      { exists (e0 ++ e1 ++ e2). rewrite Hlog2, Hlog1, Hlog0, <- !app_assoc.
        split; [reflexivity|].
        rewrite !tout_lines_app, (tout_lines_quiet e2 Hq2), app_nil_r, Hlines1.
        reflexivity. }
      destruct Hall as (evs & Hlog & Hlines).
      destruct (finish X fr region size l2 s2) as [code s3|code s3|w s3]; [| |exact I].
      * exists evs. split; [exact Hlog|]. exists (tout_lines e0). auto 10.
      * exists evs. split; [exact Hlog|]. exists (tout_lines e0). auto 10.
    + destruct Hloop as (e1 & Hlog1 & Hlines1 & _). cbn [final] in Hlog1.
      exists (e0 ++ e1). cbn [final]. rewrite Hlog1, Hlog0, app_assoc.
      split; [reflexivity|]. exists (tout_lines e0).
      rewrite tout_lines_app, Hlines1. auto 10.
  - cbn [from_loop ret]. exists e0. auto.
  - exists e0. auto.
  - exact I.
Qed.

End Rows.

(** *** The driver on the characters of the trace *)

Lemma relog_final {A} (r : result A) : relog (log (final r)) r = r.
Proof. destruct r; cbn [relog final]; rewrite with_log_log; reflexivity. Qed.

(** A computation that is another one followed by a conversion of its
    result follows that one. *)
Lemma sim_of_bind {A B} (c1 : M A) (c2 : M B) (k : A -> M B) (R : A -> B -> Prop) :
  sim True eq eq c1 c1 ->
  (forall s, c2 s = bind c1 k s) ->
  (forall a s, exists b, k a s = Ret b s /\ R a b) ->
  sim True eq R c1 c2.
Proof.
  intros Hsame Heq Hk s L. specialize (Hsame s L). rewrite Heq. unfold bind.
  destruct (c1 s) as [a s'|code s'|w s'].
  - destruct Hsame as (b & e1 & e2 & -> & <- & Hlog & HE).
    destruct (Hk a (with_log (L ++ e2) s')) as (b & -> & HR).
    exists b, e1, e2. auto.
  - destruct Hsame as (e1 & e2 & -> & Hlog & HE). exists e1, e2. auto.
  - intros _. destruct (Hsame Logic.I) as (e1 & e2 & -> & Hlog & HE). exists e1, e2. auto.
Qed.

Lemma sim_ext_l {U E A B} (R : A -> B -> Prop) (c1 c1' : M A) (c2 : M B) :
  (forall s, c1 s = c1' s) -> sim U E R c1' c2 -> sim U E R c1 c2.
Proof. intros Heq H s L. rewrite Heq. apply H. Qed.

(** The names the driver takes from the table are the names read. *)
Lemma names_of_table (tbl : list ascii) (names0 : list string) :
  (forall i name, names0 !! i = Some name ->
     Text.name_str tbl (Z.of_nat i) = list_ascii_of_string name) ->
  Text.names_of tbl (Z.of_nat (length names0)) = names0.
Proof.
  intros H. apply list_eq. intros i. unfold Text.names_of, upto.
  rewrite list_lookup_fmap.
  destruct (names0 !! i) as [name|] eqn:Hi.
  - apply lookup_lt_Some in Hi as Hlt. rewrite lookup_seqZ_lt by lia.
    cbn [fmap option_fmap option_map]. rewrite Z.add_0_l, (H i name Hi).
    rewrite string_of_list_ascii_of_string. reflexivity.
  - apply lookup_ge_None in Hi. rewrite lookup_seqZ_ge by lia. reflexivity.
Qed.

Section On_text.
Context (X : Extern) (tail : list ascii).
Hypothesis Hmax : 0 <= MAX_UNITS X.
Hypothesis Hlf : scans_first_word X.
Hypothesis Htail : Text.unterminated tail.

Lemma first_row_ok (ls : list Text.tline) cells ls' :
  Forall Text.line_ok ls -> first_row ls = (Some cells, ls') -> Forall Text.line_ok ls'.
Proof.
  induction 1 as [|l ls Hl Hok IH]; [discriminate|].
  destruct l as [ws|cs]; cbn [first_row]; [exact IH|].
  intros [= <- <-]. exact Hok.
Qed.

(** What is left of the lines after the names line. *)
Lemma read_names_rest (ls : list Text.tline) s names0 k fp' s' :
  Forall Text.line_ok ls ->
  read_names X (map Text.line_fields ls) s = Ret (names0, k, fp') s' ->
  k = Z.of_nat (length names0)
  /\ exists ls', fp' = map Text.line_fields ls'
                 /\ Forall Text.line_ok ls'
                 /\ drop (length ls - length fp') ls = ls'.
Proof.
  intros Hok H. pose proof (first_row_fields ls Hok) as Hrow.
  rewrite (read_names_first_row X ls Hok) in H.
  destruct (first_row ls) as [[cells|] ls'] eqn:Hfirst; [|discriminate].
  destruct Hrow as (_ & _ & _ & _ & Hdrop).
  destruct (MAX_UNITS X <? Z.of_nat (length cells)); [discriminate|].
  injection H as <- <- <- <-. rewrite !length_map. split; [reflexivity|].
  exists ls'. split; [reflexivity|]. split; [eapply first_row_ok; eassumption|].
  symmetry. exact Hdrop.
Qed.

Lemma sim_text_read_names (ls : list Text.tline) :
  Forall Text.line_ok ls -> Forall Text.names_fit ls ->
  sim True eq
      (fun rf rt =>
         let '(names0, k, fp') := rf in
         exists ls', fp' = map Text.line_fields ls'
                     /\ Forall Text.line_ok ls'
                     /\ Text.names_of (Text.table_of (MAX_UNITS X) names0) k = names0
                     /\ rt = (k, Text.table_of (MAX_UNITS X) names0,
                              Text.fopen (Text.text ls' ++ tail)))
      (read_names X (map Text.line_fields ls))
      (Text.read_names X (Text.fopen (Text.text ls ++ tail))
         (Text.alloc_names (MAX_UNITS X) STR_SIZE)).
Proof.
  intros Hok Hfit.
  eapply sim_impl.
  - eapply sim_post with (P := (fun rf =>
             let '(names0, k, fp') := rf in
             k = Z.of_nat (length names0)
             /\ (exists ls', fp' = map Text.line_fields ls'
                             /\ Forall Text.line_ok ls'
                             /\ drop (length ls - length fp') ls = ls')
             /\ forall i name, names0 !! i = Some name ->
                  Text.name_str (Text.table_of (MAX_UNITS X) names0) (Z.of_nat i)
                  = list_ascii_of_string name)).
    + eapply (sim_of_bind _ _ _
                (fun rf rt =>
                   let '(names0, k, fp') := rf in
                   rt = (k, Text.table_of (MAX_UNITS X) names0,
                         Text.fopen (Text.text (drop (length ls - length fp') ls) ++ tail)))).
      * apply sim_read_names_same. intros; reflexivity.
      * intros s. apply read_names_on_text; assumption.
      * intros [[names0 k] fp'] s. eexists. split; reflexivity.
    + intros s [[names0 k] fp'] s' H.
      destruct (read_names_rest ls s names0 k fp' s' Hok H) as [Hk Hrest].
      split; [exact Hk|]. split; [exact Hrest|].
      eapply read_names_table; eassumption.
  - intros [[names0 k] fp'] rt [-> (Hk & (ls' & Hfp & Hok' & Hdrop) & Htbl)].
    exists ls'. split; [exact Hfp|]. split; [exact Hok'|].
    split; [rewrite Hk; apply names_of_table, Htbl|].
    rewrite Hdrop. reflexivity.
Qed.

Lemma sim_text_open_traces dt (m : RC_model_t X) (ls : list Text.tline) :
  Forall Text.line_ok ls -> Forall Text.names_fit ls ->
  sim True eq
      (fun rf rt =>
         let '(m1, names0, k, fp', region, size) := rf in
         exists ls', fp' = map Text.line_fields ls'
                     /\ Forall Text.line_ok ls'
                     /\ rt = (m1, names0, k, Text.fopen (Text.text ls' ++ tail),
                              region, size))
      (open_traces X dt m (Some (map Text.line_fields ls)))
      (Text.open_traces X dt m (Some (Text.text ls ++ tail))).
Proof.
  intros Hok Hfit. unfold open_traces, Text.open_traces.
  apply sim_bind_eq; [apply sim_count_units; intros; reflexivity|]. intros k.
  eapply (sim_bind _ _ (fun fp pin => fp = map Text.line_fields ls
                                      /\ pin = Text.fopen (Text.text ls ++ tail))).
  { apply sim_ret. auto. }
  intros fp pin [-> ->].
  apply sim_bind_eq; [apply sim_get; reflexivity|]. intros tout_ok.
  apply sim_bind_eq; [apply sim_when, sim_fatal; reflexivity|]. intros _.
  apply sim_bind_eq; [apply sim_get; reflexivity|]. intros pout_ok.
  apply sim_bind_eq; [apply sim_when, sim_fatal; reflexivity|]. intros _.
  eapply sim_bind; [apply sim_text_read_names; assumption|].
  intros [[names0 cnt] fp'] rt (ls' & -> & Hok' & Hnames & ->).
  cbv zeta. rewrite Hnames.
  apply sim_bind_eq; [apply sim_when, sim_fatal; reflexivity|]. intros _.
  apply sim_bind_eq; [apply sim_get; reflexivity|]. intros tn.
  destruct ((tn <=? to_uint 0) && dt).
  - apply sim_bind_eq; [unfold write_names; apply sim_tell; reflexivity|]. intros _.
    apply sim_bind_eq;
      [apply sim_when; unfold write_names; apply sim_tell; reflexivity|]. intros _.
    apply sim_bind_eq.
    { apply sim_when. sim_tac ltac:(reflexivity). }
    intros _. apply sim_ret. exists ls'. auto.
  - destruct (_ && dt).
    + apply sim_bind_eq; [apply sim_load; intros; reflexivity|].
      intros [[g' region] size]. apply sim_ret. exists ls'. auto.
    + apply sim_ret. exists ls'. auto.
Qed.

(** *** The loop *)

Lemma read_vals_line_length fields (vals0 : list Z) s r s' :
  MAX_UNITS X <= Z.of_nat (length vals0) ->
  read_vals_line X fields vals0 s = Ret r s' ->
  length (snd r) = length vals0.
Proof.
  unfold read_vals_line. intros Hlen H. bind_inv H. apply lift_Ret in H0 as [Hscan ->].
  destruct (MAX_UNITS X <? Z.of_nat (length fields)); [discriminate|].
  injection H as <- _. cbn [snd].
  change (rfold _ ?fs []) with (scan_fields X fs) in Hscan.
  apply scan_fields_length in Hscan. rewrite length_overwrite, Hscan, length_take. lia.
Qed.

Lemma trace_row_vals fr num vals' (l : locals X) s l' s' :
  trace_row X fr num vals' l s = Ret l' s' -> length (vals l') = length vals'.
Proof.
  unfold trace_row. intros H.
  bind_inv H. bind_inv H. bind_inv H. rename a1 into l1. bind_inv H.
  injection H as <- _. cbn [vals].
  destruct (do_transient fr).
  - apply transient_row_Ret in H2 as (_ & _ & _ & _ & _ & Hlen & _).
    cbn [vals] in Hlen. exact Hlen.
  - injection H2 as <- _. reflexivity.
Qed.

Lemma sim_read_vals_fields_same fp vals0 :
  sim True eq eq (Text.read_vals_fields X fp vals0) (Text.read_vals_fields X fp vals0).
Proof.
  induction fp as [|fields fp IH]; cbn [Text.read_vals_fields]; [apply sim_ret; reflexivity|].
  destruct fields; [exact IH|].
  apply sim_bind_eq; [apply sim_read_vals_line_same; intros; reflexivity|].
  intros r. apply sim_ret. reflexivity.
Qed.

(** What is left of the lines after the next values line. *)
Lemma read_vals_fields_rest (ls : list Text.tline) (vals0 : list Z) s num vals' fp' s' :
  Forall Text.line_ok ls -> MAX_UNITS X <= Z.of_nat (length vals0) ->
  Text.read_vals_fields X (map Text.line_fields ls) vals0 s = Ret (num, vals', fp') s' ->
  length vals' = length vals0
  /\ (num <> 0 ->
      exists ls', fp' = map Text.line_fields ls'
                  /\ Forall Text.line_ok ls'
                  /\ (length ls' < length ls)%nat
                  /\ drop (length ls - length fp') ls = ls').
Proof.
  intros Hok Hlen H. pose proof (first_row_fields ls Hok) as Hrow.
  rewrite (read_vals_fields_first_row X ls vals0 Hok) in H.
  destruct (first_row ls) as [[cells|] ls'] eqn:Hfirst.
  - destruct Hrow as (_ & _ & _ & Hshort & Hdrop).
    bind_inv H. apply read_vals_line_length in H0 as Hl; [|exact Hlen].
    injection H as <- <- <- <-. split; [exact Hl|]. intros _.
    exists ls'. split; [reflexivity|]. split; [eapply first_row_ok; eassumption|].
    split; [exact Hshort|]. rewrite length_map. symmetry. exact Hdrop.
  - injection H as <- <- <- <-. split; [reflexivity|]. intros Hn. congruence.
Qed.

Lemma sim_text_trace_loop fr :
  forall (turns : nat) (ls : list Text.tline) (l : locals X),
    Forall Text.line_ok ls -> (length ls < turns)%nat ->
    MAX_UNITS X <= Z.of_nat (length (vals l)) ->
    sim True eq eq
        (trace_loop X fr (map Text.line_fields ls) l)
        (Text.trace_loop X turns fr (Text.fopen (Text.text ls ++ tail)) l).
Proof.
  induction turns as [|turns IH]; intros ls l Hok Hturns Hvals; [lia|].
  eapply sim_ext_l; [intros s; apply trace_loop_reads|].
  cbn [Text.trace_loop].
  eapply sim_bind.
  - eapply sim_post with (P := (fun rf =>
             let '(num, vals', fp') := rf in
             length vals' = length (vals l)
             /\ (num <> 0 ->
                 exists ls', fp' = map Text.line_fields ls'
                             /\ Forall Text.line_ok ls'
                             /\ (length ls' < length ls)%nat
                             /\ drop (length ls - length fp') ls = ls'))).
    + eapply (sim_of_bind _ _ _
                (fun rf rt =>
                   let '(num, vals', fp') := rf in
                   rt = (num, vals',
                         if num =? 0 then {| Text.rest := []; Text.eof := true |}
                         else Text.fopen (Text.text (drop (length ls - length fp') ls)
                                          ++ tail)))).
      * apply sim_read_vals_fields_same.
      * intros s. apply read_vals_on_text; assumption.
      * intros [[num vals'] fp'] s. eexists. split; reflexivity.
    + intros s [[num vals'] fp'] s' H.
      eapply read_vals_fields_rest; eassumption.
  - intros [[num vals'] fp'] rt [-> [Hlen Hrest]]. cbv beta iota.
    destruct (Z.eqb_spec num 0) as [Hz|Hnz]; [apply sim_ret; reflexivity|].
    destruct (Hrest Hnz) as (ls' & -> & Hok' & Hshort & ->).
    eapply (sim_bind _ _ (fun a b => a = b /\ length (vals a) = length vals')).
    + apply sim_post; [apply sim_trace_row_same; intros; reflexivity|].
      intros s l1 s' H. eapply trace_row_vals, H.
    + intros l1 ? [<- Hl1]. apply IH; [exact Hok' | lia | lia].
Qed.

(** *** The run *)

Lemma setup_vals gc (inp : input X) s r s' :
  setup X gc inp s = Ret r s' -> Z.of_nat (length (vals (snd r))) = MAX_UNITS X.
Proof.
  unfold setup. intros H. cbv zeta in H.
  repeat (bind_inv H). injection H as <- _. cbn [snd vals].
  rewrite length_replicate. lia.
Qed.

Lemma sim_text_main (inp : input X) (ls : list Text.tline) :
  Forall Text.line_ok ls -> Forall Text.names_fit ls ->
  sim True eq eq
      (main X inp (Some (map Text.line_fields ls)))
      (Text.main X inp (Some (Text.text ls ++ tail))).
Proof.
  intros Hok Hfit. unfold main, Text.main.
  destruct (negb _); [apply sim_ret; reflexivity|].
  apply sim_bind_eq; [apply sim_global_config; intros; reflexivity|]. intros gc.
  apply sim_bind_eq; [apply sim_parse_volt_vector|]. intros _.
  unfold main_after_config, Text.main_after_config.
  eapply (sim_bind _ _ (fun a b => a = b /\ Z.of_nat (length (vals (snd a))) = MAX_UNITS X)).
  { apply sim_post; [apply sim_setup; intros; reflexivity|].
    intros s r s' H. eapply setup_vals, H. }
  intros [[dt flp] l] ? [<- Hvals]. cbn [snd] in Hvals.
  unfold run_trace, Text.run_trace.
  apply sim_bind_eq; [apply sim_init_temps; intros; reflexivity|]. intros m.
  eapply sim_bind; [apply sim_text_open_traces; assumption|].
  intros [[[[[m1 names0] k] fp'] region] size] rt (ls' & -> & Hok' & ->).
  cbv zeta.
  apply sim_bind_eq; [|intros l'; apply sim_finish_same; intros; reflexivity].
  apply sim_text_trace_loop; [exact Hok'| |cbn [vals]; lia].
  cbn [Text.fopen Text.rest]. rewrite length_app.
  pose proof (text_length ls'). lia.
Qed.

(** On a trace of well-formed lines, which a last line without its newline
    may follow, the driver on the characters does what the driver on the
    fields of the lines does. *)
Lemma text_main_on_fields (inp : input X) (ls : list Text.tline) s :
  Forall Text.line_ok ls -> Forall Text.names_fit ls ->
  Text.main X inp (Some (Text.text ls ++ tail)) s
  = main X inp (Some (map Text.line_fields ls)) s.
Proof.
  intros Hok Hfit.
  destruct (sim_run True eq _ _ s (sim_text_main inp ls Hok Hfit))
    as (e1 & e2 & Hlog & HE & H).
  { destruct (main X inp _ s); exact Logic.I. }
  apply list_eq_Forall2 in HE. subst e2. rewrite H, <- Hlog. apply relog_final.
Qed.

End On_text.

(** The driver on the characters of the power trace ([fgets], the [strtok]
    test, the chopping loops with [sscanf]) and the driver on the fields of
    its lines are one: on a trace of well-formed lines, which a last line
    without its newline may follow, the two runs end alike, in the same state
    and with the same log.  The last line without a newline is never read. *)
Theorem driver_on_text_agrees_with_fields
        (X : Extern) (inp : input X) (ls : list Text.tline) (tail : list ascii) (s : state) :
  0 <= MAX_UNITS X -> scans_first_word X ->
  Forall Text.line_ok ls -> Forall Text.names_fit ls -> Text.unterminated tail ->
  Text.main X inp (Some (Text.text ls ++ tail)) s
  = main X inp (Some (map Text.line_fields ls)) s.
Proof.
  intros Hmax Hlf Hok Hfit Htail. apply text_main_on_fields; assumption.
Qed.

(** The first chunk of the one-layer run on the sample trace, with the row
    [3 4] left without its newline. *)
Lemma driver_on_text_witness :
  let inp := Sample.grid_run Sample.one_layer (Sample.opts [("t", "0")]) in
  let tail := ["3"; " "; "4"]%char in
  let s := Sample.start ∅ Sample.io_ok in
  Text.main Sample.X inp (Some (Text.text Sample_trace.lines ++ tail)) s
  = main Sample.X inp (Some (map Text.line_fields Sample_trace.lines)) s.
Proof.
  intros inp tail s.
  apply (driver_on_text_agrees_with_fields Sample.X inp Sample_trace.lines tail s).
  - vm_compute. discriminate.
  - exact scan_d_first_word.
  - unfold Sample_trace.lines. line_ok_tac.
  - unfold Sample_trace.lines. line_ok_tac.
  - split; [unfold tail; repeat (apply Forall_cons_2; [discriminate|]); apply Forall_nil_2|].
    vm_compute. reflexivity.
Defined.

(** *** The temperature trace of a run *)



(** That run returns 0, with the header line and the one row of the
    temperatures after the power row [1 2] in its temperature trace. *)
Example sample_run_writes_one_row :
  let inp := Sample.grid_run Sample.one_layer (Sample.opts [("t", "0")]) in
  let r := Text.main Sample.X inp
             (Some (Text.text Sample_trace.lines ++ ["3"; " "; "4"]%char))
             (Sample.start ∅ Sample.io_ok) in
  (exists s', r = Ret 0 s')
  /\ tout_lines (log (final r))
     = [ [Str "A"; Tab; Str "B"; Newline]; [F2 301; Tab; F2 302; Newline] ].
Proof.
  intros inp r. unfold r.
  rewrite (text_main_on_fields Sample.X _ ltac:(vm_compute; discriminate) scan_d_first_word).
  - split; [eexists|]; vm_compute; reflexivity.
  - split; [repeat (apply Forall_cons_2; [discriminate|]); apply Forall_nil_2|].
    vm_compute. reflexivity.
  - unfold Sample_trace.lines. line_ok_tac.
  - unfold Sample_trace.lines. line_ok_tac.
Qed.

